(** * An 8080 cross-assembler: the two-pass engine, its expression
      evaluator and its macro expander, embedded from Assembler.cpp *)

From Stdlib Require Import ZArith Ascii String List Bool Lia.
From stdpp Require Import base option gmap strings.

Import ListNotations.
Local Open Scope Z_scope.

(** ** Characters (the C locale of <cctype>) *)

Definition code (c : ascii) : Z := Z.of_N (N_of_ascii c).
Definition chr (n : Z) : ascii := ascii_of_N (Z.to_N n).

Definition isspace (c : ascii) : bool :=
  ((9 <=? code c) && (code c <=? 13)) || (code c =? 32).
Definition isdigit (c : ascii) : bool := (48 <=? code c) && (code c <=? 57).
Definition isupper (c : ascii) : bool := (65 <=? code c) && (code c <=? 90).
Definition islower (c : ascii) : bool := (97 <=? code c) && (code c <=? 122).
Definition isalpha (c : ascii) : bool := isupper c || islower c.
Definition isalnum (c : ascii) : bool := isalpha c || isdigit c.
Definition tolower (c : ascii) : ascii :=
  if isupper c then chr (code c + 32) else c.

Definition ch_eqb (c d : ascii) : bool := code c =? code d.

(** ** std::string operations used by the assembler *)

Module Str.

Fixpoint drop (n : nat) (s : string) : string :=
  match n, s with
  | O, _ => s
  | S _, EmptyString => EmptyString
  | S k, String _ t => drop k t
  end.

Fixpoint take (n : nat) (s : string) : string :=
  match n, s with
  | O, _ => EmptyString
  | S _, EmptyString => EmptyString
  | S k, String c t => String c (take k t)
  end.

(** [s.substr(pos, len)] and [s.substr(pos)] for [pos <= s.size()]. *)
Definition substr (pos len : nat) (s : string) : string := take len (drop pos s).
Definition substr_from (pos : nat) (s : string) : string := drop pos s.

Definition empty (s : string) : bool :=
  match s with EmptyString => true | _ => false end.

Definition front (s : string) : option ascii :=
  match s with EmptyString => None | String c _ => Some c end.

Fixpoint back (s : string) : option ascii :=
  match s with
  | EmptyString => None
  | String c EmptyString => Some c
  | String _ t => back t
  end.

Fixpoint pop_back (s : string) : string :=
  match s with
  | EmptyString => EmptyString
  | String _ EmptyString => EmptyString
  | String c t => String c (pop_back t)
  end.

Fixpoint map (f : ascii -> ascii) (s : string) : string :=
  match s with
  | EmptyString => EmptyString
  | String c t => String (f c) (map f t)
  end.

Fixpoint starts_with (p s : string) : bool :=
  match p, s with
  | EmptyString, _ => true
  | String _ _, EmptyString => false
  | String a p', String b s' => ch_eqb a b && starts_with p' s'
  end.

(** Offset, counted from the head of [s], of the first occurrence of
    [p] in [s]. *)
Fixpoint find0 (p s : string) : option nat :=
  if starts_with p s then Some O
  else match s with
       | EmptyString => None
       | String _ t => option_map S (find0 p t)
       end.

(** [s.find(p, pos)]: [None] is [npos]. *)
Definition find (p : string) (pos : nat) (s : string) : option nat :=
  if (String.length s <? pos)%nat then None
  else option_map (Nat.add pos) (find0 p (drop pos s)).

Fixpoint find_char0 (c : ascii) (s : string) : option nat :=
  match s with
  | EmptyString => None
  | String d t => if ch_eqb c d then Some O else option_map S (find_char0 c t)
  end.

Definition eqb (s t : string) : bool := String.eqb s t.

(** The remainder of a [std::stringstream]: [operator>>] skips blanks
    and reads up to the next blank; [std::getline] reads up to the next
    newline.  A stream that has met its end yields empty strings. *)
Fixpoint skip_ws (s : string) : string :=
  match s with
  | String c t => if isspace c then skip_ws t else s
  | EmptyString => EmptyString
  end.

Fixpoint span_word (s : string) : string * string :=
  match s with
  | String c t =>
      if isspace c then (EmptyString, s)
      else let '(w, r) := span_word t in (String c w, r)
  | EmptyString => (EmptyString, EmptyString)
  end.

Definition read_word (ss : string) : string * string := span_word (skip_ws ss).

Fixpoint getline (ss : string) : string :=
  match ss with
  | String c t => if code c =? 10 then EmptyString else String c (getline t)
  | EmptyString => EmptyString
  end.

End Str.

(** Removes leading whitespace from a string. *)
Definition ltrim (s : string) : string := Str.skip_ws s.

(** Removes trailing whitespace from a string. *)
Fixpoint rtrim (s : string) : string :=
  match s with
  | EmptyString => EmptyString
  | String c t =>
      match rtrim t with
      | EmptyString => if isspace c then EmptyString else String c EmptyString
      | t' => String c t'
      end
  end.

Definition trim (s : string) : string := rtrim (ltrim s).

Definition to_lower (s : string) : string := Str.map tolower s.

Definition semicolon : ascii := chr 59.
Definition comma : ascii := chr 44.
Definition squote : ascii := chr 39.
Definition dquote : ascii := chr 34.
Definition langle : ascii := chr 60.
Definition rangle : ascii := chr 62.
Definition minus_sign : ascii := chr 45.

(** The scan shared by [split_args] and [parse]: quotes toggle on either
    quote character, angle brackets are counted. *)
Definition scan_quotes (c : ascii) (in_quotes : bool) : bool :=
  if ch_eqb c squote || ch_eqb c dquote then negb in_quotes else in_quotes.
Definition scan_brackets (c : ascii) (bracket_level : Z) : Z :=
  let b := if ch_eqb c langle then bracket_level + 1 else bracket_level in
  if ch_eqb c rangle then b - 1 else b.

Definition strip_comment (s : string) : string :=
  match Str.find_char0 semicolon s with
  | Some n => Str.substr 0 n s
  | None => s
  end.

Fixpoint split_args_loop (delimiter : ascii) (s current_token : string)
    (bracket_level : Z) (in_quotes : bool) : list string :=
  match s with
  | EmptyString => [trim current_token]
  | String c t =>
      let in_quotes := scan_quotes c in_quotes in
      let bracket_level := scan_brackets c bracket_level in
      if ch_eqb c delimiter && negb in_quotes && (bracket_level =? 0)
      then trim current_token :: split_args_loop delimiter t EmptyString bracket_level in_quotes
      else split_args_loop delimiter t (current_token +:+ String c EmptyString)
             bracket_level in_quotes
  end.

(** Splits a string by a delimiter, not inside quotes or angle brackets. *)
Definition split_args (s : string) (delimiter : ascii) : list string :=
  split_args_loop delimiter (strip_comment s) EmptyString 0 false.

(** ** Machine integers *)

Definition wrap (bits : Z) (signed : bool) (n : Z) : Z :=
  let m := n mod 2 ^ bits in
  if signed && (2 ^ (bits - 1) <=? m) then m - 2 ^ bits else m.

(** [int]: sums, differences and products that leave the range wrap
    around, as the usual targets compute them. *)
Definition to_int (n : Z) : Z := wrap 32 true n.
Definition to_uint16 (n : Z) : Z := wrap 16 false n.
Definition to_uint8 (n : Z) : Z := wrap 8 false n.

Definition INT_MIN : Z := - 2 ^ 31.
Definition INT_MAX : Z := 2 ^ 31 - 1.
(** [unsigned long] of the LP64 data model. *)
Definition ULONG_MAX : Z := 2 ^ 64 - 1.

(** ** The ways an assembly run ends other than by returning *)

Inductive exn := invalid_argument | out_of_range.

Inductive failure :=
| Fatal (line : Z) (message : string)
    (** [report_error]: one diagnostic line, then [exit(1)] *)
| Uncaught (e : exn)
    (** a C++ exception that no handler of the program catches *)
| DivisionTrap
    (** [result /= rhs] with an [rhs] the division is not defined for *)
| Hang
    (** a [while] loop whose condition stays true *)
| OutOfFuel.
    (** the bound this model puts on recursion depth was reached *)

Inductive result (A : Type) :=
| Ok (a : A)
| Fail (f : failure).
Arguments Ok {A} a.
Arguments Fail {A} f.

(** ** Data model (assembler.h) *)

Record Macro := {
  name : string;
  params : list string;
  body_lines : list string
}.

Record Assembler := {
  lineno : Z;
  address : Z;
  source_pass : Z;
  assembly_finished : bool;
  macro_expansion_counter : Z;
  output : list Z;
  symbol_table : gmap string Z;
  macros : gmap string Macro;
  if_stack : list bool;
  cross_reference_data : gmap string (list Z);
  label : string;
  mnemonic : string;
  operand1 : string;
  operand2 : string;
  comment : string
}.

(** State and failure monad: a member function of [Assembler]. *)
Definition M (A : Type) : Type := Assembler -> result (A * Assembler).

Definition pure {A} (x : A) : M A := fun a => Ok (x, a).
Definition bind {A B} (m : M A) (f : A -> M B) : M B :=
  fun a => match m a with
           | Ok (x, a') => f x a'
           | Fail e => Fail e
           end.
Definition fail {A} (e : failure) : M A := fun _ => Fail e.
Definition get : M Assembler := fun a => Ok (a, a).
Definition modify (f : Assembler -> Assembler) : M unit := fun a => Ok (tt, f a).

Declare Scope asm_scope.
Delimit Scope asm_scope with asm.
Notation "x <- m ;; k" := (bind m (fun x => k))
  (at level 100, m at next level, right associativity) : asm_scope.
Notation "m ;; k" := (bind m (fun _ => k))
  (at level 100, right associativity) : asm_scope.
Local Open Scope asm_scope.

Definition when (b : bool) (m : M unit) : M unit := if b then m else pure tt.

Fixpoint for_each {A} (f : A -> M unit) (l : list A) : M unit :=
  match l with
  | [] => pure tt
  | x :: l' => f x ;; for_each f l'
  end.

(** Field updates. *)
Definition set_lineno v a := {| lineno := v; address := address a; source_pass := source_pass a; assembly_finished := assembly_finished a; macro_expansion_counter := macro_expansion_counter a; output := output a; symbol_table := symbol_table a; macros := macros a; if_stack := if_stack a; cross_reference_data := cross_reference_data a; label := label a; mnemonic := mnemonic a; operand1 := operand1 a; operand2 := operand2 a; comment := comment a |}.
Definition set_address v a := {| lineno := lineno a; address := v; source_pass := source_pass a; assembly_finished := assembly_finished a; macro_expansion_counter := macro_expansion_counter a; output := output a; symbol_table := symbol_table a; macros := macros a; if_stack := if_stack a; cross_reference_data := cross_reference_data a; label := label a; mnemonic := mnemonic a; operand1 := operand1 a; operand2 := operand2 a; comment := comment a |}.
Definition set_source_pass v a := {| lineno := lineno a; address := address a; source_pass := v; assembly_finished := assembly_finished a; macro_expansion_counter := macro_expansion_counter a; output := output a; symbol_table := symbol_table a; macros := macros a; if_stack := if_stack a; cross_reference_data := cross_reference_data a; label := label a; mnemonic := mnemonic a; operand1 := operand1 a; operand2 := operand2 a; comment := comment a |}.
Definition set_assembly_finished v a := {| lineno := lineno a; address := address a; source_pass := source_pass a; assembly_finished := v; macro_expansion_counter := macro_expansion_counter a; output := output a; symbol_table := symbol_table a; macros := macros a; if_stack := if_stack a; cross_reference_data := cross_reference_data a; label := label a; mnemonic := mnemonic a; operand1 := operand1 a; operand2 := operand2 a; comment := comment a |}.
Definition set_macro_expansion_counter v a := {| lineno := lineno a; address := address a; source_pass := source_pass a; assembly_finished := assembly_finished a; macro_expansion_counter := v; output := output a; symbol_table := symbol_table a; macros := macros a; if_stack := if_stack a; cross_reference_data := cross_reference_data a; label := label a; mnemonic := mnemonic a; operand1 := operand1 a; operand2 := operand2 a; comment := comment a |}.
Definition set_output v a := {| lineno := lineno a; address := address a; source_pass := source_pass a; assembly_finished := assembly_finished a; macro_expansion_counter := macro_expansion_counter a; output := v; symbol_table := symbol_table a; macros := macros a; if_stack := if_stack a; cross_reference_data := cross_reference_data a; label := label a; mnemonic := mnemonic a; operand1 := operand1 a; operand2 := operand2 a; comment := comment a |}.
Definition set_symbol_table v a := {| lineno := lineno a; address := address a; source_pass := source_pass a; assembly_finished := assembly_finished a; macro_expansion_counter := macro_expansion_counter a; output := output a; symbol_table := v; macros := macros a; if_stack := if_stack a; cross_reference_data := cross_reference_data a; label := label a; mnemonic := mnemonic a; operand1 := operand1 a; operand2 := operand2 a; comment := comment a |}.
Definition set_macros v a := {| lineno := lineno a; address := address a; source_pass := source_pass a; assembly_finished := assembly_finished a; macro_expansion_counter := macro_expansion_counter a; output := output a; symbol_table := symbol_table a; macros := v; if_stack := if_stack a; cross_reference_data := cross_reference_data a; label := label a; mnemonic := mnemonic a; operand1 := operand1 a; operand2 := operand2 a; comment := comment a |}.
Definition set_if_stack v a := {| lineno := lineno a; address := address a; source_pass := source_pass a; assembly_finished := assembly_finished a; macro_expansion_counter := macro_expansion_counter a; output := output a; symbol_table := symbol_table a; macros := macros a; if_stack := v; cross_reference_data := cross_reference_data a; label := label a; mnemonic := mnemonic a; operand1 := operand1 a; operand2 := operand2 a; comment := comment a |}.
Definition set_cross_reference_data v a := {| lineno := lineno a; address := address a; source_pass := source_pass a; assembly_finished := assembly_finished a; macro_expansion_counter := macro_expansion_counter a; output := output a; symbol_table := symbol_table a; macros := macros a; if_stack := if_stack a; cross_reference_data := v; label := label a; mnemonic := mnemonic a; operand1 := operand1 a; operand2 := operand2 a; comment := comment a |}.
Definition set_parsed (l m o1 o2 c : string) a := {| lineno := lineno a; address := address a; source_pass := source_pass a; assembly_finished := assembly_finished a; macro_expansion_counter := macro_expansion_counter a; output := output a; symbol_table := symbol_table a; macros := macros a; if_stack := if_stack a; cross_reference_data := cross_reference_data a; label := l; mnemonic := m; operand1 := o1; operand2 := o2; comment := c |}.

(** A name between double quotes, as the diagnostics print it. *)
Definition quoted (s : string) : string :=
  String dquote s +:+ String dquote EmptyString.

(** Reports an error message to the console and exits the program:
    the failure keeps the line number as printed. *)
Definition report_error {A} (message : string) (line_num : Z) : M A :=
  fail (Fatal (line_num + 1) message).

(** ** Number parser *)

(** Value of a character as a digit, as [strtol] and [strtoul] read it. *)
Definition digit_value (c : ascii) : option Z :=
  if isdigit c then Some (code c - 48)
  else if isalpha c then Some (code (tolower c) - 87)
  else None.

Definition is_digit_in (base : Z) (c : ascii) : bool :=
  match digit_value c with
  | Some d => d <? base
  | None => false
  end.

(** The longest run of digits of [base] at the head of [s]; [None] when
    there is none. *)
Fixpoint scan_digits (base : Z) (s : string) (acc : option Z) : option Z :=
  match s with
  | String c t =>
      match digit_value c with
      | Some d =>
          if d <? base
          then scan_digits base t (Some (default 0 acc * base + d))
          else acc
      | None => acc
      end
  | EmptyString => acc
  end.

Inductive conversion :=
| NoConversion
| Converted (negative : bool) (magnitude : Z).

(** The subject sequence of [strtol]/[strtoul]: blanks, an optional
    sign, for base 16 an optional 0x, then digits; what follows the
    digits is ignored. *)
Definition strto (s : string) (base : Z) : conversion :=
  let s := Str.skip_ws s in
  let '(negative, s) :=
    match s with
    | String c t =>
        if ch_eqb c minus_sign then (true, t)
        else if code c =? 43 then (false, t)
        else (false, s)
    | EmptyString => (false, s)
    end in
  let s :=
    match s with
    | String z (String x (String h t)) =>
        if (base =? 16) && (code z =? 48) && (code (tolower x) =? 120)
           && is_digit_in 16 h
        then String h t else s
    | _ => s
    end in
  match scan_digits base s None with
  | None => NoConversion
  | Some v => Converted negative v
  end.

(** [std::stoi(s, nullptr, base)] *)
Definition stoi (s : string) (base : Z) : exn + Z :=
  match strto s base with
  | NoConversion => inl invalid_argument
  | Converted negative v =>
      let x := if negative then - v else v in
      if (x <? INT_MIN) || (INT_MAX <? x) then inl out_of_range else inr x
  end.

(** [std::stoul(s, nullptr, base)] *)
Definition stoul (s : string) (base : Z) : exn + Z :=
  match strto s base with
  | NoConversion => inl invalid_argument
  | Converted negative v =>
      if ULONG_MAX <? v then inl out_of_range
      else inr (if negative then (- v) mod (ULONG_MAX + 1) else v)
  end.

(** Converts a string (hex, decimal, etc.) to a number.  The [stoi] call
    is outside the [try] block; the [stoul] call is inside it. *)
Definition get_number (input : string) : M Z :=
  let input := trim input in
  if Str.empty input then pure 0
  else if bool_decide (Str.front input = Some minus_sign) then
    match stoi input 10 with
    | inr v => pure v
    | inl e => fail (Uncaught e)
    end
  else
    let last := code (tolower (default Ascii.zero (Str.back input))) in
    let '(base, input) :=
      if last =? 104 then (16, Str.pop_back input)
      else if last =? 113 then (8, Str.pop_back input)
      else if last =? 98 then (2, Str.pop_back input)
      else (10, input) in
    match stoul input base with
    | inr v => pure (to_int v)
    | inl _ =>
        a <- get ;;
        report_error ("invalid number format: " +:+ input) (lineno a)
    end.

(** ** Expression evaluator *)

Definition is_quote_delimited (s : string) : bool :=
  if (String.length s <? 2)%nat then false
  else
    let first := default Ascii.zero (Str.front s) in
    let last := default Ascii.zero (Str.back s) in
    (ch_eqb first dquote && ch_eqb last dquote)
    || (ch_eqb first squote && ch_eqb last squote).

Definition is_char_constant (s : string) : bool :=
  (String.length s =? 3)%nat
  && ch_eqb (default Ascii.zero (Str.front s)) squote
  && ch_eqb (default Ascii.zero (Str.back s)) squote.

Definition char_at (n : nat) (s : string) : Z :=
  code (default Ascii.zero (String.get n s)).

Definition is_ident_start (c : ascii) : bool :=
  isalpha c || (code c =? 36) || (code c =? 95).
Definition is_ident_char (c : ascii) : bool :=
  isalnum c || (code c =? 36) || (code c =? 95).

Fixpoint take_while (p : ascii -> bool) (s : string) : string * string :=
  match s with
  | String c t =>
      if p c then let '(w, r) := take_while p t in (String c w, r)
      else (EmptyString, s)
  | EmptyString => (EmptyString, EmptyString)
  end.

(** The iterator pair (it, end) is the string of the characters from
    [it] to [end]; the function returns the token and the advanced
    iterator. *)
Definition get_token (it : string) : string * string :=
  match Str.skip_ws it with
  | EmptyString => (EmptyString, EmptyString)
  | String c t =>
      if is_ident_start c then take_while is_ident_char (String c t)
      else if isdigit c
              || (ch_eqb c minus_sign
                  && match t with String d _ => isdigit d | _ => false end)
      then let '(w, r) := take_while isalnum t in (String c w, r)
      else (String c EmptyString, t)
  end.

Definition record_reference (term : string) (line : Z) (a : Assembler) : Assembler :=
  set_cross_reference_data
    (<[term := default [] (cross_reference_data a !! term) ++ [line]]>
       (cross_reference_data a)) a.

Definition evaluate_single_term (term_str : string) : M Z :=
  let term := trim term_str in
  if Str.empty term then pure 0
  else if is_char_constant term then pure (char_at 1 term)
  else
    let term := to_lower term in
    a <- get ;;
    if Str.eqb term "$" then pure (address a)
    else if Str.starts_with "low " term then
      let label := trim (Str.substr_from 4 term) in
      match symbol_table a !! label with
      | Some v => pure (Z.land v 255)
      | None =>
          if source_pass a =? 2
          then report_error ("undefined label in LOW operator: " +:+ label) (lineno a)
          else pure 0
      end
    else if Str.starts_with "high " term then
      let label := trim (Str.substr_from 5 term) in
      match symbol_table a !! label with
      | Some v => pure (Z.land (Z.shiftr v 8) 255)
      | None =>
          if source_pass a =? 2
          then report_error ("undefined label in HIGH operator: " +:+ label) (lineno a)
          else pure 0
      end
    else if isdigit (default Ascii.zero (Str.front term))
            || ((1 <? String.length term)%nat
                && ch_eqb (default Ascii.zero (Str.front term)) minus_sign)
    then get_number term
    else
      match symbol_table a !! term with
      | Some v => modify (record_reference term (lineno a + 1)) ;; pure v
      | None =>
          if source_pass a =? 2
          then report_error ("undefined label in expression: " +:+ term) (lineno a)
          else pure 0
      end.

(** [result /= rhs] on [int]: no quotient exists for a zero divisor, nor
    for INT_MIN / -1. *)
Definition int_div (result rhs : Z) : M Z :=
  if (rhs =? 0) || ((result =? INT_MIN) && (rhs =? -1)) then fail DivisionTrap
  else pure (Z.quot result rhs).

Section RecursiveDescent.
(** [evaluate_expression(it, end)] as called for a parenthesised
    sub-expression. *)
Variable evaluate_expression_rec : string -> M (Z * string).

Definition parse_expr_factor (it : string) : M (Z * string) :=
  let '(token, it) := get_token it in
  if Str.eqb token "(" then
    r <- evaluate_expression_rec it ;;
    let '(result, it) := r in
    let '(closing_paren, it) := get_token it in
    a <- get ;;
    (if negb (Str.eqb closing_paren ")")
     then report_error "mismatched parentheses in expression" (lineno a)
     else pure tt) ;;
    pure (result, it)
  else
    v <- evaluate_single_term token ;;
    pure (v, it).

(** The [while (true)] loop of [parse_expr_term]; every turn that does
    not leave the loop reads an operator token. *)
Fixpoint parse_expr_term_loop (turns : nat) (result : Z) (it : string)
    : M (Z * string) :=
  match turns with
  | O => fail OutOfFuel
  | S turns =>
      let current_pos := it in
      let '(op, it) := get_token it in
      let op := to_lower op in
      if negb (Str.eqb op "*") && negb (Str.eqb op "/") && negb (Str.eqb op "and")
      then pure (result, current_pos)
      else
        r <- parse_expr_factor it ;;
        let '(rhs, it) := r in
        result <- (if Str.eqb op "*" then pure (to_int (result * rhs))
                   else if Str.eqb op "/" then int_div result rhs
                   else pure (Z.land result rhs)) ;;
        parse_expr_term_loop turns result it
  end.

Definition parse_expr_term (it : string) : M (Z * string) :=
  r <- parse_expr_factor it ;;
  let '(result, it) := r in
  parse_expr_term_loop (S (String.length it)) result it.

Fixpoint evaluate_expression_loop (turns : nat) (result : Z) (it : string)
    : M (Z * string) :=
  match turns with
  | O => fail OutOfFuel
  | S turns =>
      let current_pos := it in
      let '(op, it) := get_token it in
      let op := to_lower op in
      if negb (Str.eqb op "+") && negb (Str.eqb op "-")
         && negb (Str.eqb op "or") && negb (Str.eqb op "xor")
      then pure (result, current_pos)
      else
        r <- parse_expr_term it ;;
        let '(rhs, it) := r in
        let result :=
          if Str.eqb op "+" then to_int (result + rhs)
          else if Str.eqb op "-" then to_int (result - rhs)
          else if Str.eqb op "or" then Z.lor result rhs
          else Z.lxor result rhs in
        evaluate_expression_loop turns result it
  end.

Definition evaluate_expression_body (it : string) : M (Z * string) :=
  r <- parse_expr_term it ;;
  let '(result, it) := r in
  evaluate_expression_loop (S (String.length it)) result it.
End RecursiveDescent.

(** [depth] bounds the nesting of parentheses. *)
Fixpoint evaluate_expression_it (depth : nat) (it : string) : M (Z * string) :=
  match depth with
  | O => fail OutOfFuel
  | S depth => evaluate_expression_body (evaluate_expression_it depth) it
  end.

Definition evaluate_expression (expr : string) : M Z :=
  r <- evaluate_expression_it (S (String.length expr)) expr ;;
  pure (fst r).

Definition should_skip (a : Assembler) : bool :=
  existsb negb (if_stack a).

Definition relational_ops : list (string * string) :=
  [("ne", "!="); ("eq", "="); ("ge", ">="); ("le", "<="); ("gt", ">"); ("lt", "<")].

(** The search loop of [evaluate_conditional]: the first pair of the
    table one of whose spellings occurs in [expr] decides. *)
Fixpoint find_relational_op (ops : list (string * string)) (expr : string)
    : option (string * nat) :=
  match ops with
  | [] => None
  | (word, sym) :: ops =>
      match Str.find word 0 expr with
      | Some pos => Some (word, pos)
      | None =>
          match Str.find sym 0 expr with
          | Some pos => Some (sym, pos)
          | None => find_relational_op ops expr
          end
      end
  end.

Definition evaluate_conditional (expr : string) : M bool :=
  match find_relational_op relational_ops expr with
  | Some (op_str, op_pos) =>
      let lhs_str := Str.substr 0 op_pos expr in
      let rhs_str := Str.substr_from (op_pos + String.length op_str) expr in
      lhs_val <- evaluate_expression lhs_str ;;
      rhs_val <- evaluate_expression rhs_str ;;
      if Str.eqb op_str "eq" || Str.eqb op_str "=" then pure (lhs_val =? rhs_val)
      else if Str.eqb op_str "ne" || Str.eqb op_str "!=" then pure (negb (lhs_val =? rhs_val))
      else if Str.eqb op_str "gt" || Str.eqb op_str ">" then pure (rhs_val <? lhs_val)
      else if Str.eqb op_str "lt" || Str.eqb op_str "<" then pure (lhs_val <? rhs_val)
      else if Str.eqb op_str "ge" || Str.eqb op_str ">=" then pure (rhs_val <=? lhs_val)
      else if Str.eqb op_str "le" || Str.eqb op_str "<=" then pure (lhs_val <=? rhs_val)
      else pure false
  | None =>
      v <- evaluate_expression expr ;;
      pure (negb (v =? 0))
  end.

(** ** Pass logic *)

(** Adds a label and its current address to the symbol table. *)
Definition add_label : M unit :=
  a <- get ;;
  (if bool_decide (is_Some (symbol_table a !! label a))
   then report_error ("duplicate label: " +:+ quoted (label a)) (lineno a)
   else pure tt) ;;
  modify (fun a => set_symbol_table (<[label a := address a]> (symbol_table a)) a) ;;
  modify (fun a => record_reference (label a) (- (lineno a + 1)) a).

(** Handles the action for each line based on the current pass. *)
Definition pass_action (instruction_size : Z) (output_bytes : list Z)
    (should_add_label : bool) : M unit :=
  a <- get ;;
  (if source_pass a =? 1
   then when (negb (Str.empty (label a)) && should_add_label) add_label
   else modify (fun a => set_output (output a ++ output_bytes) a)) ;;
  modify (fun a => set_address (to_uint16 (address a + instruction_size)) a).

(** Checks for the correct number of operands and reports an error if invalid. *)
Definition check_operands (valid : bool) (mnemonic_name : string) : M unit :=
  if valid then pure tt
  else a <- get ;;
       report_error ("invalid operands for mnemonic " +:+ quoted mnemonic_name) (lineno a).

Definition register_offset8 (raw_register : string) : M Z :=
  let raw_register := to_lower raw_register in
  if Str.eqb raw_register "b" then pure 0
  else if Str.eqb raw_register "c" then pure 1
  else if Str.eqb raw_register "d" then pure 2
  else if Str.eqb raw_register "e" then pure 3
  else if Str.eqb raw_register "h" then pure 4
  else if Str.eqb raw_register "l" then pure 5
  else if Str.eqb raw_register "m" then pure 6
  else if Str.eqb raw_register "a" then pure 7
  else a <- get ;;
       report_error ("invalid 8-bit register " +:+ quoted raw_register) (lineno a).

Definition register_offset16 : M Z :=
  a <- get ;;
  let op := to_lower (operand1 a) in
  if Str.eqb op "b" || Str.eqb op "bc" then pure 0x00
  else if Str.eqb op "d" || Str.eqb op "de" then pure 0x10
  else if Str.eqb op "h" || Str.eqb op "hl" then pure 0x20
  else if Str.eqb op "psw" then
    if Str.eqb (mnemonic a) "push" || Str.eqb (mnemonic a) "pop" then pure 0x30
    else report_error (quoted "psw" +:+ " cannot be used with instruction " +:+ quoted (mnemonic a)) (lineno a)
  else if Str.eqb op "sp" then
    if negb (Str.eqb (mnemonic a) "push") && negb (Str.eqb (mnemonic a) "pop") then pure 0x30
    else report_error (quoted "sp" +:+ " cannot be used with instruction " +:+ quoted (mnemonic a)) (lineno a)
  else report_error ("invalid 16-bit register " +:+ quoted (operand1 a) +:+ " for instruction "
                     +:+ quoted (mnemonic a)) (lineno a).

Inductive ImmediateType := IMMEDIATE8 | IMMEDIATE16.

Definition push_back (b : Z) : M unit :=
  modify (fun a => set_output (output a ++ [b]) a).

Definition immediate_operand (operand_type : ImmediateType) : M unit :=
  a <- get ;;
  if negb (source_pass a =? 2) then pure tt
  else
    let operand := if Str.eqb (mnemonic a) "lxi" || Str.eqb (mnemonic a) "mvi"
                   then operand2 a else operand1 a in
    number <- evaluate_expression operand ;;
    match operand_type with
    | IMMEDIATE8 => push_back (Z.land number 0xff)
    | IMMEDIATE16 =>
        push_back (Z.land number 0xff) ;;
        push_back (Z.land (Z.shiftr number 8) 0xff)
    end.

Definition address16 (operand : string) : M unit :=
  a <- get ;;
  if negb (source_pass a =? 2) then pure tt
  else
    v <- evaluate_expression operand ;;
    let number := to_uint16 v in
    push_back (Z.land number 0xff) ;;
    push_back (Z.land (Z.shiftr number 8) 0xff).

Definition no_operands (a : Assembler) : bool :=
  Str.empty (operand1 a) && Str.empty (operand2 a).
Definition one_operand (a : Assembler) : bool :=
  negb (Str.empty (operand1 a)) && Str.empty (operand2 a).
Definition two_operands (a : Assembler) : bool :=
  negb (Str.empty (operand1 a)) && negb (Str.empty (operand2 a)).

(** ** Instruction and directive handlers *)

Module Mnemonic.

Definition nop : M unit :=
  a <- get ;;
  check_operands (no_operands a) "nop" ;;
  pass_action 1 [0x00] true.

Definition lxi : M unit :=
  a <- get ;;
  check_operands (two_operands a) "lxi" ;;
  r <- register_offset16 ;;
  let opcode := to_uint8 (0x01 + r) in
  pass_action 3 [opcode] true ;;
  immediate_operand IMMEDIATE16.

Definition inx : M unit :=
  a <- get ;;
  check_operands (one_operand a) "inx" ;;
  r <- register_offset16 ;;
  let opcode := to_uint8 (0x03 + r) in
  pass_action 1 [opcode] true.

Definition inr : M unit :=
  a <- get ;;
  check_operands (one_operand a) "inr" ;;
  r <- register_offset8 (operand1 a) ;;
  let opcode := to_uint8 (0x04 + Z.shiftl r 3) in
  pass_action 1 [opcode] true.

Definition dcr : M unit :=
  a <- get ;;
  check_operands (one_operand a) "dcr" ;;
  r <- register_offset8 (operand1 a) ;;
  let opcode := to_uint8 (0x05 + Z.shiftl r 3) in
  pass_action 1 [opcode] true.

Definition mvi : M unit :=
  a <- get ;;
  check_operands (two_operands a) "mvi" ;;
  r <- register_offset8 (operand1 a) ;;
  let opcode := to_uint8 (0x06 + Z.shiftl r 3) in
  pass_action 2 [opcode] true ;;
  immediate_operand IMMEDIATE8.

Definition rlc : M unit :=
  a <- get ;;
  check_operands (no_operands a) "rlc" ;;
  pass_action 1 [0x07] true.

Definition dad : M unit :=
  a <- get ;;
  check_operands (one_operand a) "dad" ;;
  r <- register_offset16 ;;
  let opcode := to_uint8 (0x09 + r) in
  pass_action 1 [opcode] true.

Definition dcx : M unit :=
  a <- get ;;
  check_operands (one_operand a) "dcx" ;;
  r <- register_offset16 ;;
  let opcode := to_uint8 (0x0b + r) in
  pass_action 1 [opcode] true.

Definition rrc : M unit :=
  a <- get ;;
  check_operands (no_operands a) "rrc" ;;
  pass_action 1 [0x0f] true.

Definition ral : M unit :=
  a <- get ;;
  check_operands (no_operands a) "ral" ;;
  pass_action 1 [0x17] true.

Definition rar : M unit :=
  a <- get ;;
  check_operands (no_operands a) "rar" ;;
  pass_action 1 [0x1f] true.

Definition shld : M unit :=
  a <- get ;;
  check_operands (one_operand a) "shld" ;;
  pass_action 3 [0x22] true ;;
  address16 (operand1 a).

Definition daa : M unit :=
  a <- get ;;
  check_operands (no_operands a) "daa" ;;
  pass_action 1 [0x27] true.

Definition lhld : M unit :=
  a <- get ;;
  check_operands (one_operand a) "lhld" ;;
  pass_action 3 [0x2a] true ;;
  address16 (operand1 a).

Definition cma : M unit :=
  a <- get ;;
  check_operands (no_operands a) "cma" ;;
  pass_action 1 [0x2f] true.

Definition sta : M unit :=
  a <- get ;;
  check_operands (one_operand a) "sta" ;;
  pass_action 3 [0x32] true ;;
  address16 (operand1 a).

Definition stc : M unit :=
  a <- get ;;
  check_operands (no_operands a) "stc" ;;
  pass_action 1 [0x37] true.

Definition lda : M unit :=
  a <- get ;;
  check_operands (one_operand a) "lda" ;;
  pass_action 3 [0x3a] true ;;
  address16 (operand1 a).

Definition cmc : M unit :=
  a <- get ;;
  check_operands (no_operands a) "cmc" ;;
  pass_action 1 [0x3f] true.

Definition hlt : M unit :=
  a <- get ;;
  check_operands (no_operands a) "hlt" ;;
  pass_action 1 [0x76] true.

Definition add : M unit :=
  a <- get ;;
  check_operands (one_operand a) "add" ;;
  r <- register_offset8 (operand1 a) ;;
  let opcode := to_uint8 (0x80 + r) in
  pass_action 1 [opcode] true.

Definition adc : M unit :=
  a <- get ;;
  check_operands (one_operand a) "adc" ;;
  r <- register_offset8 (operand1 a) ;;
  let opcode := to_uint8 (0x88 + r) in
  pass_action 1 [opcode] true.

Definition sub : M unit :=
  a <- get ;;
  check_operands (one_operand a) "sub" ;;
  r <- register_offset8 (operand1 a) ;;
  let opcode := to_uint8 (0x90 + r) in
  pass_action 1 [opcode] true.

Definition sbb : M unit :=
  a <- get ;;
  check_operands (one_operand a) "sbb" ;;
  r <- register_offset8 (operand1 a) ;;
  let opcode := to_uint8 (0x98 + r) in
  pass_action 1 [opcode] true.

Definition ana : M unit :=
  a <- get ;;
  check_operands (one_operand a) "ana" ;;
  r <- register_offset8 (operand1 a) ;;
  let opcode := to_uint8 (0xa0 + r) in
  pass_action 1 [opcode] true.

Definition xra : M unit :=
  a <- get ;;
  check_operands (one_operand a) "xra" ;;
  r <- register_offset8 (operand1 a) ;;
  let opcode := to_uint8 (0xa8 + r) in
  pass_action 1 [opcode] true.

Definition ora : M unit :=
  a <- get ;;
  check_operands (one_operand a) "ora" ;;
  r <- register_offset8 (operand1 a) ;;
  let opcode := to_uint8 (0xb0 + r) in
  pass_action 1 [opcode] true.

Definition cmp : M unit :=
  a <- get ;;
  check_operands (one_operand a) "cmp" ;;
  r <- register_offset8 (operand1 a) ;;
  let opcode := to_uint8 (0xb8 + r) in
  pass_action 1 [opcode] true.

Definition rnz : M unit :=
  a <- get ;;
  check_operands (no_operands a) "rnz" ;;
  pass_action 1 [0xc0] true.

Definition pop : M unit :=
  a <- get ;;
  check_operands (one_operand a) "pop" ;;
  r <- register_offset16 ;;
  let opcode := to_uint8 (0xc1 + r) in
  pass_action 1 [opcode] true.

Definition jnz : M unit :=
  a <- get ;;
  check_operands (one_operand a) "jnz" ;;
  pass_action 3 [0xc2] true ;;
  address16 (operand1 a).

Definition jmp : M unit :=
  a <- get ;;
  check_operands (one_operand a) "jmp" ;;
  pass_action 3 [0xc3] true ;;
  address16 (operand1 a).

Definition cnz : M unit :=
  a <- get ;;
  check_operands (one_operand a) "cnz" ;;
  pass_action 3 [0xc4] true ;;
  address16 (operand1 a).

Definition push : M unit :=
  a <- get ;;
  check_operands (one_operand a) "push" ;;
  r <- register_offset16 ;;
  let opcode := to_uint8 (0xc5 + r) in
  pass_action 1 [opcode] true.

Definition adi : M unit :=
  a <- get ;;
  check_operands (one_operand a) "adi" ;;
  pass_action 2 [0xc6] true ;;
  immediate_operand IMMEDIATE8.

Definition rz : M unit :=
  a <- get ;;
  check_operands (no_operands a) "rz" ;;
  pass_action 1 [0xc8] true.

Definition ret : M unit :=
  a <- get ;;
  check_operands (no_operands a) "ret" ;;
  pass_action 1 [0xc9] true.

Definition jz : M unit :=
  a <- get ;;
  check_operands (one_operand a) "jz" ;;
  pass_action 3 [0xca] true ;;
  address16 (operand1 a).

Definition cz : M unit :=
  a <- get ;;
  check_operands (one_operand a) "cz" ;;
  pass_action 3 [0xcc] true ;;
  address16 (operand1 a).

Definition call : M unit :=
  a <- get ;;
  check_operands (one_operand a) "call" ;;
  pass_action 3 [0xcd] true ;;
  address16 (operand1 a).

Definition aci : M unit :=
  a <- get ;;
  check_operands (one_operand a) "aci" ;;
  pass_action 2 [0xce] true ;;
  immediate_operand IMMEDIATE8.

Definition rnc : M unit :=
  a <- get ;;
  check_operands (no_operands a) "rnc" ;;
  pass_action 1 [0xd0] true.

Definition jnc : M unit :=
  a <- get ;;
  check_operands (one_operand a) "jnc" ;;
  pass_action 3 [0xd2] true ;;
  address16 (operand1 a).

Definition i80_out : M unit :=
  a <- get ;;
  check_operands (one_operand a) "out" ;;
  pass_action 2 [0xd3] true ;;
  immediate_operand IMMEDIATE8.

Definition cnc : M unit :=
  a <- get ;;
  check_operands (one_operand a) "cnc" ;;
  pass_action 3 [0xd4] true ;;
  address16 (operand1 a).

Definition sui : M unit :=
  a <- get ;;
  check_operands (one_operand a) "sui" ;;
  pass_action 2 [0xd6] true ;;
  immediate_operand IMMEDIATE8.

Definition rc : M unit :=
  a <- get ;;
  check_operands (no_operands a) "rc" ;;
  pass_action 1 [0xd8] true.

Definition jc : M unit :=
  a <- get ;;
  check_operands (one_operand a) "jc" ;;
  pass_action 3 [0xda] true ;;
  address16 (operand1 a).

Definition i80_in : M unit :=
  a <- get ;;
  check_operands (one_operand a) "in" ;;
  pass_action 2 [0xdb] true ;;
  immediate_operand IMMEDIATE8.

Definition cc : M unit :=
  a <- get ;;
  check_operands (one_operand a) "cc" ;;
  pass_action 3 [0xdc] true ;;
  address16 (operand1 a).

Definition sbi : M unit :=
  a <- get ;;
  check_operands (one_operand a) "sbi" ;;
  pass_action 2 [0xde] true ;;
  immediate_operand IMMEDIATE8.

Definition rpo : M unit :=
  a <- get ;;
  check_operands (no_operands a) "rpo" ;;
  pass_action 1 [0xe0] true.

Definition jpo : M unit :=
  a <- get ;;
  check_operands (one_operand a) "jpo" ;;
  pass_action 3 [0xe2] true ;;
  address16 (operand1 a).

Definition xthl : M unit :=
  a <- get ;;
  check_operands (no_operands a) "xthl" ;;
  pass_action 1 [0xe3] true.

Definition cpo : M unit :=
  a <- get ;;
  check_operands (one_operand a) "cpo" ;;
  pass_action 3 [0xe4] true ;;
  address16 (operand1 a).

Definition ani : M unit :=
  a <- get ;;
  check_operands (one_operand a) "ani" ;;
  pass_action 2 [0xe6] true ;;
  immediate_operand IMMEDIATE8.

Definition rpe : M unit :=
  a <- get ;;
  check_operands (no_operands a) "rpe" ;;
  pass_action 1 [0xe8] true.

Definition pchl : M unit :=
  a <- get ;;
  check_operands (no_operands a) "pchl" ;;
  pass_action 1 [0xe9] true.

Definition jpe : M unit :=
  a <- get ;;
  check_operands (one_operand a) "jpe" ;;
  pass_action 3 [0xea] true ;;
  address16 (operand1 a).

Definition xchg : M unit :=
  a <- get ;;
  check_operands (no_operands a) "xchg" ;;
  pass_action 1 [0xeb] true.

Definition cpe : M unit :=
  a <- get ;;
  check_operands (one_operand a) "cpe" ;;
  pass_action 3 [0xec] true ;;
  address16 (operand1 a).

Definition xri : M unit :=
  a <- get ;;
  check_operands (one_operand a) "xri" ;;
  pass_action 2 [0xee] true ;;
  immediate_operand IMMEDIATE8.

Definition rp : M unit :=
  a <- get ;;
  check_operands (no_operands a) "rp" ;;
  pass_action 1 [0xf0] true.

Definition jp : M unit :=
  a <- get ;;
  check_operands (one_operand a) "jp" ;;
  pass_action 3 [0xf2] true ;;
  address16 (operand1 a).

Definition di : M unit :=
  a <- get ;;
  check_operands (no_operands a) "di" ;;
  pass_action 1 [0xf3] true.

Definition cp : M unit :=
  a <- get ;;
  check_operands (one_operand a) "cp" ;;
  pass_action 3 [0xf4] true ;;
  address16 (operand1 a).

Definition ori : M unit :=
  a <- get ;;
  check_operands (one_operand a) "ori" ;;
  pass_action 2 [0xf6] true ;;
  immediate_operand IMMEDIATE8.

Definition rm : M unit :=
  a <- get ;;
  check_operands (no_operands a) "rm" ;;
  pass_action 1 [0xf8] true.

Definition sphl : M unit :=
  a <- get ;;
  check_operands (no_operands a) "sphl" ;;
  pass_action 1 [0xf9] true.

Definition jm : M unit :=
  a <- get ;;
  check_operands (one_operand a) "jm" ;;
  pass_action 3 [0xfa] true ;;
  address16 (operand1 a).

Definition ei : M unit :=
  a <- get ;;
  check_operands (no_operands a) "ei" ;;
  pass_action 1 [0xfb] true.

Definition cm : M unit :=
  a <- get ;;
  check_operands (one_operand a) "cm" ;;
  pass_action 3 [0xfc] true ;;
  address16 (operand1 a).

Definition cpi : M unit :=
  a <- get ;;
  check_operands (one_operand a) "cpi" ;;
  pass_action 2 [0xfe] true ;;
  immediate_operand IMMEDIATE8.

Definition stax : M unit :=
  a <- get ;;
  check_operands (one_operand a) "stax" ;;
  let op := to_lower (operand1 a) in
  if Str.eqb op "b" then pass_action 1 [0x02] true
  else if Str.eqb op "d" then pass_action 1 [0x12] true
  else report_error (quoted "stax" +:+ " only takes " +:+ quoted "b" +:+ " or " +:+ quoted "d") (lineno a).

Definition ldax : M unit :=
  a <- get ;;
  check_operands (one_operand a) "ldax" ;;
  let op := to_lower (operand1 a) in
  if Str.eqb op "b" then pass_action 1 [0x0a] true
  else if Str.eqb op "d" then pass_action 1 [0x1a] true
  else report_error (quoted "ldax" +:+ " only takes " +:+ quoted "b" +:+ " or " +:+ quoted "d") (lineno a).

Definition mov : M unit :=
  a <- get ;;
  check_operands (two_operands a) "mov" ;;
  r1 <- register_offset8 (operand1 a) ;;
  r2 <- register_offset8 (operand2 a) ;;
  let opcode := to_uint8 (0x40 + Z.shiftl r1 3 + r2) in
  pass_action 1 [opcode] true.

Definition rst : M unit :=
  a <- get ;;
  check_operands (one_operand a) "rst" ;;
  offset <- get_number (operand1 a) ;;
  if (0 <=? offset) && (offset <=? 7) then
    let opcode := to_uint8 (0xc7 + Z.shiftl offset 3) in
    pass_action 1 [opcode] true
  else report_error "invalid restart vector" (lineno a).

Definition all_operands (a : Assembler) : string :=
  if negb (Str.empty (operand2 a)) then operand1 a +:+ "," +:+ operand2 a
  else operand1 a.

Definition string_bytes (s : string) : list Z :=
  List.map code (list_ascii_of_string s).

(** One byte of a [<...>] group. *)
Definition db_byte (should_add_label_flag : bool) (byte_str : string) : M unit :=
  a <- get ;;
  pass_action 1 [] (negb (Str.empty (label a)) && should_add_label_flag) ;;
  when (source_pass a =? 2)
    (v <- evaluate_expression byte_str ;; push_back (to_uint8 (Z.land v 0xff))).

(** A loop whose body clears [should_add_label_flag] at its end. *)
Fixpoint flagged_loop {A} (body : bool -> A -> M unit)
    (should_add_label_flag : bool) (l : list A) : M unit :=
  match l with
  | [] => pure tt
  | x :: l' => body should_add_label_flag x ;; flagged_loop body false l'
  end.

Definition db_argument (should_add_label_flag : bool) (arg : string) : M unit :=
  a <- get ;;
  let temp_arg := trim arg in
  let len := String.length temp_arg in
  if (2 <? len)%nat
     && ch_eqb (default Ascii.zero (Str.front temp_arg)) langle
     && ch_eqb (default Ascii.zero (Str.back temp_arg)) rangle
  then
    let inner_content := Str.substr 1 (len - 2) temp_arg in
    let byte_args := split_args inner_content comma in
    flagged_loop db_byte should_add_label_flag byte_args
  else if is_quote_delimited temp_arg then
    let str := Str.substr 1 (len - 2) temp_arg in
    pass_action (Z.of_nat (String.length str)) []
      (negb (Str.empty (label a)) && should_add_label_flag) ;;
    when (source_pass a =? 2) (for_each push_back (string_bytes str))
  else if is_char_constant temp_arg then
    pass_action 1 [] (negb (Str.empty (label a)) && should_add_label_flag) ;;
    when (source_pass a =? 2) (push_back (char_at 1 temp_arg))
  else
    pass_action 1 [] (negb (Str.empty (label a)) && should_add_label_flag) ;;
    when (source_pass a =? 2)
      (v <- evaluate_expression temp_arg ;; push_back (to_uint8 (Z.land v 0xff))).

Definition db : M unit :=
  a <- get ;;
  check_operands (negb (Str.empty (all_operands a))) "db" ;;
  let arguments := split_args (all_operands a) comma in
  flagged_loop db_argument true arguments.

Definition dw : M unit :=
  a <- get ;;
  check_operands (negb (Str.empty (all_operands a))) "dw" ;;
  let arguments := split_args (all_operands a) comma in
  for_each (fun arg =>
              let temp_arg := trim arg in
              pass_action 2 [] true ;;
              when (source_pass a =? 2) (address16 temp_arg))
           arguments.

Definition ds : M unit :=
  a <- get ;;
  check_operands (negb (Str.empty (operand1 a))) "ds" ;;
  size <- evaluate_expression (operand1 a) ;;
  (if size <? 0 then report_error "DS size cannot be negative" (lineno a) else pure tt) ;;
  fill_value <- (if negb (Str.empty (operand2 a))
                 then v <- evaluate_expression (operand2 a) ;; pure (to_uint8 v)
                 else pure 0) ;;
  when (source_pass a =? 2)
    (modify (fun a => set_output (output a ++ repeat fill_value (Z.to_nat size)) a)) ;;
  pass_action size [] true.

Definition end_ : M unit :=
  a <- get ;;
  check_operands (Str.empty (label a) && Str.empty (operand1 a) && Str.empty (operand2 a)) "end" ;;
  modify (set_assembly_finished true).

Definition equ : M unit :=
  a <- get ;;
  (if Str.empty (label a) then report_error "missing 'equ' label" (lineno a) else pure tt) ;;
  check_operands (one_operand a) "equ" ;;
  v <- evaluate_expression (operand1 a) ;;
  let value := to_uint16 v in
  when (source_pass a =? 1)
    (a <- get ;;
     (if bool_decide (is_Some (symbol_table a !! label a))
      then report_error ("duplicate label: " +:+ quoted (label a)) (lineno a)
      else pure tt) ;;
     modify (fun a => set_symbol_table (<[label a := value]> (symbol_table a)) a)).

Definition org : M unit :=
  a <- get ;;
  check_operands (negb (Str.empty (operand1 a)) && Str.empty (label a)
                  && Str.empty (operand2 a)) "org" ;;
  v <- evaluate_expression (operand1 a) ;;
  let new_address := to_uint16 v in
  when (source_pass a =? 2)
    (modify (fun a =>
       if address a <? new_address
       then set_output (output a ++ repeat 0 (Z.to_nat (new_address - address a))) a
       else a)) ;;
  modify (set_address new_address).

Definition name : M unit := pure tt.
Definition title : M unit := pure tt.

Definition sim : M unit :=
  a <- get ;;
  check_operands (no_operands a) "sim" ;;
  pass_action 1 [0x30] true.

Definition rim : M unit :=
  a <- get ;;
  check_operands (no_operands a) "rim" ;;
  pass_action 1 [0x20] true.

End Mnemonic.

(** The map that connects mnemonic strings to their handler functions. *)
Definition mnemonic_handlers : list (string * M unit) :=
  [ ("nop", Mnemonic.nop); ("lxi", Mnemonic.lxi); ("stax", Mnemonic.stax); ("inx", Mnemonic.inx);
    ("inr", Mnemonic.inr); ("dcr", Mnemonic.dcr); ("mvi", Mnemonic.mvi); ("rlc", Mnemonic.rlc);
    ("dad", Mnemonic.dad); ("ldax", Mnemonic.ldax); ("dcx", Mnemonic.dcx); ("rrc", Mnemonic.rrc);
    ("ral", Mnemonic.ral); ("rar", Mnemonic.rar); ("shld", Mnemonic.shld); ("daa", Mnemonic.daa);
    ("lhld", Mnemonic.lhld); ("cma", Mnemonic.cma); ("sta", Mnemonic.sta); ("stc", Mnemonic.stc);
    ("lda", Mnemonic.lda); ("cmc", Mnemonic.cmc); ("mov", Mnemonic.mov); ("hlt", Mnemonic.hlt);
    ("add", Mnemonic.add); ("adc", Mnemonic.adc); ("sub", Mnemonic.sub); ("sbb", Mnemonic.sbb);
    ("ana", Mnemonic.ana); ("xra", Mnemonic.xra); ("ora", Mnemonic.ora); ("cmp", Mnemonic.cmp);
    ("rnz", Mnemonic.rnz); ("pop", Mnemonic.pop); ("jnz", Mnemonic.jnz); ("jmp", Mnemonic.jmp);
    ("cnz", Mnemonic.cnz); ("push", Mnemonic.push); ("adi", Mnemonic.adi); ("rst", Mnemonic.rst);
    ("rz", Mnemonic.rz); ("ret", Mnemonic.ret); ("jz", Mnemonic.jz); ("cz", Mnemonic.cz);
    ("call", Mnemonic.call); ("aci", Mnemonic.aci); ("rnc", Mnemonic.rnc); ("jnc", Mnemonic.jnc);
    ("out", Mnemonic.i80_out); ("cnc", Mnemonic.cnc); ("sui", Mnemonic.sui); ("rc", Mnemonic.rc);
    ("jc", Mnemonic.jc); ("in", Mnemonic.i80_in); ("cc", Mnemonic.cc); ("sbi", Mnemonic.sbi);
    ("jpe", Mnemonic.jpe); ("rpo", Mnemonic.rpo); ("jpo", Mnemonic.jpo); ("xthl", Mnemonic.xthl);
    ("cpo", Mnemonic.cpo); ("ani", Mnemonic.ani); ("rpe", Mnemonic.rpe); ("pchl", Mnemonic.pchl);
    ("xchg", Mnemonic.xchg); ("cpe", Mnemonic.cpe); ("xri", Mnemonic.xri); ("rp", Mnemonic.rp);
    ("jp", Mnemonic.jp); ("di", Mnemonic.di); ("cp", Mnemonic.cp); ("ori", Mnemonic.ori);
    ("rm", Mnemonic.rm); ("sphl", Mnemonic.sphl); ("jm", Mnemonic.jm); ("ei", Mnemonic.ei);
    ("cm", Mnemonic.cm); ("cpi", Mnemonic.cpi); ("db", Mnemonic.db); ("ds", Mnemonic.ds);
    ("dw", Mnemonic.dw); ("end", Mnemonic.end_); ("equ", Mnemonic.equ); ("name", Mnemonic.name);
    ("org", Mnemonic.org); ("title", Mnemonic.title); ("sim", Mnemonic.sim); ("rim", Mnemonic.rim) ].

Fixpoint lookup_handler (table : list (string * M unit)) (m : string)
    : option (M unit) :=
  match table with
  | [] => None
  | (k, h) :: table => if Str.eqb k m then Some h else lookup_handler table m
  end.

(** ** Line parser *)

Definition tab_to_space (c : ascii) : ascii := if code c =? 9 then chr 32 else c.

(** Position of the first comma outside of quotes and brackets. *)
Fixpoint comma_split_pos (s : string) (i : nat) (in_quotes : bool)
    (bracket_level : Z) : option nat :=
  match s with
  | EmptyString => None
  | String c t =>
      let in_quotes := scan_quotes c in_quotes in
      let bracket_level := scan_brackets c bracket_level in
      if ch_eqb c comma && negb in_quotes && (bracket_level =? 0) then Some i
      else comma_split_pos t (S i) in_quotes bracket_level
  end.

(** Main parser to break a line into label, mnemonic, and operands. *)
Definition parse (line : string) : M unit :=
  let line := Str.map tab_to_space line in
  let '(comment, line) :=
    match Str.find_char0 semicolon line with
    | Some comment_pos =>
        (trim (Str.substr_from (S comment_pos) line), Str.substr 0 comment_pos line)
    | None => (EmptyString, line)
    end in
  let line := trim line in
  if Str.empty line
  then modify (set_parsed EmptyString EmptyString EmptyString EmptyString comment)
  else
    let temp_upper := to_lower line in
    match Str.find " equ " 0 temp_upper with
    | Some equ_pos =>
        let label := Str.substr 0 equ_pos line in
        let operand1 := Str.substr_from (equ_pos + 5) line in
        modify (set_parsed (to_lower (trim label)) "equ" (trim operand1)
                  EmptyString comment)
    | None =>
        let '(label, line) :=
          match Str.find_char0 (chr 58) line with
          | Some label_pos =>
              (trim (Str.substr 0 label_pos line),
               trim (Str.substr_from (S label_pos) line))
          | None => (EmptyString, line)
          end in
        let '(mnemonic, ss) := Str.read_word line in
        let operands_part := trim (Str.getline ss) in
        let '(operand1, operand2) :=
          match comma_split_pos operands_part 0 false 0 with
          | Some pos =>
              (trim (Str.substr 0 pos operands_part),
               trim (Str.substr_from (S pos) operands_part))
          | None => (operands_part, EmptyString)
          end in
        let '(mnemonic, operand1) :=
          if Str.empty mnemonic && negb (Str.empty operand1)
          then (operand1, EmptyString) else (mnemonic, operand1) in
        modify (set_parsed (to_lower label) (to_lower mnemonic) operand1 operand2 comment)
    end.

(** Dispatches a parsed instruction to the correct handler function. *)
Definition process_instruction : M unit :=
  a <- get ;;
  if Str.empty (mnemonic a) && Str.empty (label a) then pure tt
  else
    match lookup_handler mnemonic_handlers (mnemonic a) with
    | Some handler => handler
    | None =>
        if Str.empty (mnemonic a) && negb (Str.empty (label a))
        then pass_action 0 [] true
        else if negb (Str.empty (mnemonic a))
        then report_error ("unknown mnemonic " +:+ quoted (mnemonic a)) (lineno a)
        else pure tt
    end.

(** ** Macro expander and conditional handling *)

Definition digit_char (d : Z) : ascii :=
  if d <? 10 then chr (48 + d) else chr (55 + d).

(** Digits of [n] in [base], most significant first, in front of [acc]. *)
Fixpoint render_digits (fuel : nat) (base n : Z) (acc : string) : string :=
  match fuel with
  | O => acc
  | S fuel =>
      let acc := String (digit_char (n mod base)) acc in
      if n / base =? 0 then acc else render_digits fuel base (n / base) acc
  end.

Definition render (base n : Z) : string :=
  render_digits (S (Z.to_nat (Z.log2 n))) base n EmptyString.

(** [std::to_string(int)] *)
Definition to_string (n : Z) : string :=
  if n <? 0 then String minus_sign (render 10 (- n)) else render 10 n.

(** [s.replace(pos, len, r)] *)
Definition replace (pos len : nat) (r s : string) : string :=
  Str.take pos s +:+ r +:+ Str.drop (pos + len) s.

(** The substitution loop
      [while ((pos = body_line.find(x, pos)) != npos)
         { body_line.replace(pos, x.length(), y); pos += y.length(); }];
    [None] when the loop is still running after [turns] turns. *)
Fixpoint replace_loop (turns : nat) (x y body_line : string) (pos : nat)
    : option string :=
  match Str.find x pos body_line with
  | None => Some body_line
  | Some pos =>
      match turns with
      | O => None
      | S turns =>
          replace_loop turns x y (replace pos (String.length x) y body_line)
            (pos + String.length y)
      end
  end.

Definition substitute (x y body_line : string) : M string :=
  match replace_loop (String.length body_line) x y body_line 0 with
  | Some s => pure s
  | None => fail Hang
  end.

(** [std::map<std::string, std::string>]: kept in key order, which is the
    order the expander walks it in. *)
Fixpoint map_assign (k v : string) (m : list (string * string))
    : list (string * string) :=
  match m with
  | [] => [(k, v)]
  | (k', v') :: m' =>
      if Str.eqb k k' then (k, v) :: m'
      else if String.ltb k k' then (k, v) :: m
      else (k', v') :: map_assign k v m'
  end.

(** Find and prepare unique names for local labels. *)
Definition local_labels_of_line (counter : Z) (local_label_map : list (string * string))
    (body_line : string) : list (string * string) :=
  let temp_body := trim body_line in
  let '(body_first_word, ss) := Str.read_word temp_body in
  if Str.eqb (to_lower body_first_word) "local" then
    let '(local_args_part, _) := Str.read_word ss in
    let local_labels := split_args local_args_part comma in
    fold_left (fun m label_name =>
                 map_assign label_name (label_name +:+ "_" +:+ to_string counter) m)
              local_labels local_label_map
  else local_label_map.

Definition build_local_label_map (counter : Z) (body_lines : list string)
    : list (string * string) :=
  fold_left (local_labels_of_line counter) body_lines [].

Fixpoint substitute_all (pairs : list (string * string)) (body_line : string)
    : M string :=
  match pairs with
  | [] => pure body_line
  | (x, y) :: pairs =>
      body_line <- substitute x y body_line ;;
      substitute_all pairs body_line
  end.

Definition pop_back {A} (l : list A) : list A := removelast l.

(** The recursive heart of the assembler; [depth] bounds the nesting of
    macro expansions. *)
Fixpoint expand_and_process_line (depth : nat) (line : string)
    (original_lineno : Z) : M unit :=
  match depth with
  | O => fail OutOfFuel
  | S depth =>
      let temp_line := trim line in
      if Str.empty temp_line
         || ch_eqb (default Ascii.zero (Str.front temp_line)) semicolon
      then pure tt
      else
        let '(first_word, ss) := Str.read_word temp_line in
        let lower_first := to_lower first_word in
        if Str.eqb lower_first "if" then
          a <- get ;;
          let is_active := negb (should_skip a) in
          let condition_expr := Str.getline ss in
          condition_result <- (if is_active then evaluate_conditional condition_expr
                               else pure false) ;;
          modify (fun a => set_if_stack (if_stack a ++ [condition_result]) a)
        else if Str.eqb lower_first "endif" then
          a <- get ;;
          (if bool_decide (if_stack a = [])
           then report_error "ENDIF without IF" original_lineno
           else pure tt) ;;
          modify (fun a => set_if_stack (pop_back (if_stack a)) a)
        else
          a <- get ;;
          if should_skip a then pure tt
          else if Str.eqb lower_first "error" || Str.eqb lower_first "local" then pure tt
          else
            match macros a !! lower_first with
            | Some macro_def =>
                modify (fun a =>
                  set_macro_expansion_counter (to_int (macro_expansion_counter a + 1)) a) ;;
                let args_part := Str.getline ss in
                let args := split_args args_part comma in
                (if negb (length args =? length (params macro_def))%nat
                 then report_error ("macro '" +:+ name macro_def
                                    +:+ "' argument count mismatch") original_lineno
                 else pure tt) ;;
                a <- get ;;
                let local_label_map :=
                  build_local_label_map (macro_expansion_counter a)
                    (body_lines macro_def) in
                for_each (fun body_line =>
                            body_line <- substitute_all
                                           (combine (params macro_def) args) body_line ;;
                            body_line <- substitute_all local_label_map body_line ;;
                            expand_and_process_line depth body_line original_lineno)
                         (body_lines macro_def)
            | None =>
                modify (set_lineno original_lineno) ;;
                parse line ;;
                process_instruction
            end
  end.

(** ** Pass engine *)

(** Resets all state variables to their defaults for a fresh assembly run. *)
Definition reset_state (a : Assembler) : Assembler :=
  {| lineno := 0; address := 0; source_pass := 1; assembly_finished := false;
     macro_expansion_counter := 0; output := []; symbol_table := ∅; macros := ∅;
     if_stack := if_stack a; cross_reference_data := cross_reference_data a;
     label := label a; mnemonic := mnemonic a; operand1 := operand1 a;
     operand2 := operand2 a; comment := comment a |}.

Definition empty_macro : Macro :=
  {| name := EmptyString; params := []; body_lines := [] |}.

(** Pass 0: finds and stores all macro definitions. *)
Fixpoint preprocess_macros_loop (lines : list string) (i : Z)
    (in_macro_def : bool) (current_macro : Macro) : M bool :=
  match lines with
  | [] => pure in_macro_def
  | line :: lines =>
      let temp_line := trim line in
      let '(first_word, ss) := Str.read_word temp_line in
      let '(second_word, ss) := Str.read_word ss in
      let first_word := to_lower first_word in
      let second_word := to_lower second_word in
      if Str.eqb second_word "macro" then
        (if in_macro_def
         then report_error "nested macro definitions are not supported" i
         else pure tt) ;;
        let params_part := Str.getline ss in
        preprocess_macros_loop lines (i + 1) true
          {| name := first_word; params := split_args params_part comma;
             body_lines := [] |}
      else if Str.eqb first_word "endm" || Str.eqb first_word "mend" then
        (if negb in_macro_def then report_error "ENDM without MACRO" i else pure tt) ;;
        modify (fun a => set_macros (<[name current_macro := current_macro]> (macros a)) a) ;;
        preprocess_macros_loop lines (i + 1) false current_macro
      else if in_macro_def then
        preprocess_macros_loop lines (i + 1) in_macro_def
          {| name := name current_macro; params := params current_macro;
             body_lines := body_lines current_macro ++ [line] |}
      else preprocess_macros_loop lines (i + 1) in_macro_def current_macro
  end.

Definition preprocess_macros (lines : list string) : M unit :=
  in_macro_def <- preprocess_macros_loop lines 0 false empty_macro ;;
  if in_macro_def
  then report_error "MACRO definition not closed with ENDM" (Z.of_nat (length lines))
  else pure tt.

(** Main loop for Pass 1 and Pass 2.  The listing stream, which the
    loop only writes to, is left out. *)
Fixpoint do_pass_loop (depth : nat) (lines : list string) (i : Z)
    (in_macro_def : bool) : M unit :=
  modify (set_lineno i) ;;
  match lines with
  | [] => pure tt
  | current_line :: lines =>
      a <- get ;;
      if assembly_finished a then pure tt
      else
        let temp_line := trim current_line in
        if Str.empty temp_line then do_pass_loop depth lines (i + 1) in_macro_def
        else
          let '(first_word, ss) := Str.read_word temp_line in
          let '(second_word, _) := Str.read_word ss in
          let in_macro_def :=
            if Str.eqb (to_lower second_word) "macro" then true else in_macro_def in
          if in_macro_def then
            let lower_first := to_lower first_word in
            let in_macro_def :=
              if Str.eqb lower_first "endm" || Str.eqb lower_first "mend"
              then false else in_macro_def in
            do_pass_loop depth lines (i + 1) in_macro_def
          else
            expand_and_process_line depth current_line i ;;
            do_pass_loop depth lines (i + 1) in_macro_def
  end.

Definition do_pass (depth : nat) (lines : list string) : M unit :=
  modify (set_if_stack []) ;;
  do_pass_loop depth lines 0 false ;;
  a <- get ;;
  if negb (bool_decide (if_stack a = []))
  then report_error "IF block not closed with ENDIF" (Z.of_nat (length lines))
  else pure tt.

(** Main entry point for the assembly process. *)
Definition assemble (depth : nat) (lines : list string) : M unit :=
  modify reset_state ;;
  preprocess_macros lines ;;
  modify (set_source_pass 1) ;;
  do_pass depth lines ;;
  modify (set_source_pass 2) ;;
  modify (set_address 0) ;;
  modify (set_output []) ;;
  modify (set_assembly_finished false) ;;
  modify (set_macro_expansion_counter 0) ;;
  do_pass depth lines.

(** The constructor. *)
Definition new_Assembler : Assembler :=
  reset_state
    {| lineno := 0; address := 0; source_pass := 1; assembly_finished := false;
       macro_expansion_counter := 0; output := []; symbol_table := ∅; macros := ∅;
       if_stack := []; cross_reference_data := ∅;
       label := EmptyString; mnemonic := EmptyString; operand1 := EmptyString;
       operand2 := EmptyString; comment := EmptyString |}.


(** * main.cpp: the names of the files and what is written to them *)

(** [s.find_last_of(chars)]: the last position that holds one of [chars]. *)
Fixpoint find_last_of (chars s : string) : option nat :=
  match s with
  | EmptyString => None
  | String c t =>
      match find_last_of chars t with
      | Some n => Some (S n)
      | None =>
          match Str.find_char0 c chars with
          | Some _ => Some O
          | None => None
          end
      end
  end.

(** [s.rfind(c)] *)
Fixpoint rfind_char (c : ascii) (s : string) : option nat :=
  match s with
  | EmptyString => None
  | String d t =>
      match rfind_char c t with
      | Some n => Some (S n)
      | None => if ch_eqb c d then Some O else None
      end
  end.

Definition backslash : ascii := chr 92.
Definition dot : ascii := chr 46.

(** The two characters [main] takes for path separators. *)
Definition separators : string := String "/" (String backslash EmptyString).

(** The name of the source file without its directories and without
    its last extension: [main] names the output files after it. *)
Definition get_base_filename (path : string) : string :=
  let filename :=
    match find_last_of separators path with
    | None => path
    | Some last_slash => Str.substr_from (last_slash + 1) path
    end in
  match rfind_char dot filename with
  | None => filename
  | Some last_dot => Str.substr 0 last_dot filename
  end.

Definition toupper (c : ascii) : ascii :=
  if islower c then chr (code c - 32) else c.

(** [os << std::setw(width) << text] with the fill character [fill] and
    the default adjustment, to the right. *)
Definition pad_left (width : nat) (fill : ascii) (text : string) : string :=
  string_of_list_ascii (repeat fill (width - String.length text)) +:+ text.

(** An unsigned number written with [std::hex], [std::uppercase],
    [std::setfill('0')] and [std::setw(width)]. *)
Definition hex_field (width : nat) (n : Z) : string :=
  pad_left width "0" (render 16 n).

Definition newline : string := String (chr 10) EmptyString.

(** One line of the symbol file: the value in four hexadecimal digits, a
    blank, the first sixteen characters of the symbol in upper case. *)
Definition symbol_line (symbol : string) (value : Z) : string :=
  let symbol :=
    if (16 <? String.length symbol)%nat then Str.substr 0 16 symbol else symbol in
  let symbol := Str.map toupper symbol in
  hex_field 4 value +:+ " " +:+ symbol +:+ newline.

(** The pairs of a [std::map] with [std::string] keys, in the order of
    the keys. *)
Fixpoint insert_in_key_order {A} (k : string) (v : A) (l : list (string * A))
    : list (string * A) :=
  match l with
  | [] => [(k, v)]
  | (k', v') :: l' =>
      if String.ltb k k' then (k, v) :: l else (k', v') :: insert_in_key_order k v l'
  end.

Definition in_key_order {A} (m : gmap string A) : list (string * A) :=
  fold_right (fun kv l => insert_in_key_order (fst kv) (snd kv) l) [] (map_to_list m).

(** [write_symbol_table]: the text of the symbol file; for an empty
    table no file is written. *)
Definition write_symbol_table (table : gmap string Z) : option string :=
  if decide (table = ∅) then None
  else Some (String.concat EmptyString
               (List.map (fun kv => symbol_line (fst kv) (snd kv)) (in_key_order table))).

(** [write_cross_reference_file] reads the address of every symbol of
    the cross-reference data with [sym_table.at(symbol)], which throws
    [std::out_of_range] for a symbol the table does not hold. *)
Definition cross_reference_address (a : Assembler) (symbol : string) : exn + Z :=
  match symbol_table a !! symbol with
  | Some address => inr address
  | None => inl out_of_range
  end.

(** * What a failure shows to the outside *)

(** The line [report_error] writes to [std::cerr]; the other failures
    write no diagnostic of the assembler. *)
Definition diagnostic (f : failure) : option string :=
  match f with
  | Fatal line message =>
      Some ("asm80> line " +:+ to_string line +:+ ": " +:+ message)
  | _ => None
  end.

(** The status the process ends with: [exit(1)] after [report_error];
    an uncaught exception, a trap or a loop that never exits gives no
    exit status of the program's choosing. *)
Definition exit_status (f : failure) : option Z :=
  match f with
  | Fatal _ _ => Some 1
  | _ => None
  end.

(** What the caller reads after [assemble] returned: [getOutput()] and
    [getSymbolTable()]. *)
Definition image (r : result (unit * Assembler)) : result (list Z * gmap string Z) :=
  match r with
  | Ok (_, a) => Ok (output a, symbol_table a)
  | Fail f => Fail f
  end.

(** * The scenarios of the specification *)

Definition scenario_A : list string :=
  [ "ORG 100H"; "MVI A,5"; "MVI B,10"; "ADD B"; "STA RESULT"; "HLT";
    "RESULT: DS 1"; "END" ].

Definition scenario_B : list string :=
  [ "ORG 0"; "JMP TARGET"; "NOP"; "TARGET: HLT" ].

Definition scenario_C : list string :=
  [ "ORG 0"; "DB " +:+ quoted "AB" +:+ ",'C',65,<1,2,3>" ].

Definition scenario_D : list string :=
  [ "ORG 0"; "VAL EQU 1234H"; "DB LOW VAL, HIGH VAL" ].

Definition scenario_E : list string :=
  [ "DELAY MACRO COUNT"; "      LOCAL LOOP"; "      MVI B,COUNT"; "LOOP: DCR B";
    "      JNZ LOOP"; "      ENDM"; "      ORG 0"; "      DELAY 5"; "      DELAY 3" ].

Definition scenario_F : list string :=
  [ "DEBUG EQU 1"; "      ORG 0"; "      IF DEBUG EQ 1"; "      MVI A,0FFH";
    "      ENDIF"; "      IF DEBUG EQ 0"; "      MVI A,00H"; "      ENDIF";
    "      HLT" ].

(** The ten bytes and the address Scenario A is documented with. *)
Definition scenario_A_documented_bytes : list Z :=
  [0x3e; 0x05; 0x06; 0x0a; 0x80; 0x32; 0x08; 0x01; 0x76; 0x00].

(** An assembler in pass [pass] that knows [val] = 1234H and [debug] = 1. *)
Definition with_symbols (pass : Z) : Assembler :=
  set_source_pass pass
    (set_symbol_table (<["val" := 0x1234]> (<["debug" := 1]> ∅)) new_Assembler).

(** A size that refers to a symbol defined further down. *)
Definition forward_ds : list string := [ "DS X"; "X EQU 5" ].

(** A macro with two local labels, declared with a blank after the
    comma, with a blank before it, and with none. *)
Definition two_locals (declaration : string) : list string :=
  [ "WAIT2 MACRO COUNT"; declaration; "      MVI B,COUNT"; "LP1:  DCR B";
    "      JNZ LP1"; "      MVI C,COUNT"; "LP2:  DCR C"; "      JNZ LP2";
    "      ENDM"; "      ORG 0"; "      WAIT2 5"; "      WAIT2 3" ].

(** The state after the first pass of [assemble]. *)
Definition first_pass (depth : nat) (lines : list string) : M unit :=
  modify reset_state ;;
  preprocess_macros lines ;;
  modify (set_source_pass 1) ;;
  do_pass depth lines.

(** * Relations between the state before and after a step *)

(** [m] relates every state it returns from to the state it ended in. *)
Definition keeps {A} (R : relation Assembler) (m : M A) : Prop :=
  forall a x a', m a = Ok (x, a') -> R a a'.

(** What every relation followed through the evaluator has to allow:
    doing nothing, two steps in a row, a cross-reference entry and a
    change of the output buffer. *)
Class FrameRel (R : relation Assembler) : Prop := {
  frame_refl : forall a, R a a;
  frame_trans : forall a b c, R a b -> R b c -> R a c;
  frame_reference : forall term line a, R a (record_reference term line a);
  frame_output : forall o a, R a (set_output o a)
}.

(** One pass only adds to what it found: the pass number and the macro
    table stay, the symbol table keeps its bindings (and is not touched
    outside pass 1), every cross-reference list keeps its entries in
    front. *)
Record extends (a a' : Assembler) : Prop := {
  ext_pass : source_pass a' = source_pass a;
  ext_macros : macros a' = macros a;
  ext_symbols : symbol_table a ⊆ symbol_table a';
  ext_frozen : source_pass a <> 1 -> symbol_table a' = symbol_table a;
  ext_references :
    forall k, default [] (cross_reference_data a !! k)
                `prefix_of` default [] (cross_reference_data a' !! k)
}.

(** The cross-reference lists of [a] are initial segments of those of [a']. *)
Definition references_grow (a a' : Assembler) : Prop :=
  forall k, default [] (cross_reference_data a !! k)
              `prefix_of` default [] (cross_reference_data a' !! k).

(** The parsed line of a state. *)
Definition line_of (a : Assembler) : string * string * string * string :=
  (label a, mnemonic a, operand1 a, operand2 a).

(** Neither the location counter nor the parsed line changed. *)
Definition stays (a a' : Assembler) : Prop :=
  address a' = address a /\ line_of a' = line_of a.

(** What a handler does to the location counter. *)
Inductive shift :=
| Keep
| Add (n : Z).

Definition apply_shift (s : shift) (z : Z) : Z :=
  match s with
  | Keep => z
  | Add n => to_uint16 (z + n)
  end.

Definition then_shift (s t : shift) : shift :=
  match s, t with
  | Keep, _ => t
  | _, Keep => s
  | Add n, Add m => Add (n + m)
  end.

(** [m] leaves the parsed line alone and moves the location counter by
    the shift [F] reads off the parsed line. *)
Definition advances {A} (F : string * string * string * string -> shift) (m : M A) : Prop :=
  forall a x a', m a = Ok (x, a') ->
    line_of a' = line_of a /\ address a' = apply_shift (F (line_of a)) (address a).

Definition shift_sum (l : list shift) : shift := fold_right then_shift Keep l.

(** The operand list of [db] and [dw], read off the parsed line. *)
Definition operands_of (l : string * string * string * string) : string :=
  let '(_, _, operand1, operand2) := l in
  if negb (Str.empty operand2) then operand1 +:+ "," +:+ operand2 else operand1.

(** What one argument of [db] adds: one per byte of a group, the length
    of a string, one otherwise. *)
Definition db_argument_shift (arg : string) : shift :=
  let temp_arg := trim arg in
  let len := String.length temp_arg in
  if (2 <? len)%nat
     && ch_eqb (default Ascii.zero (Str.front temp_arg)) langle
     && ch_eqb (default Ascii.zero (Str.back temp_arg)) rangle
  then shift_sum (List.map (fun _ => Add 1)
                    (split_args (Str.substr 1 (len - 2) temp_arg) comma))
  else if is_quote_delimited temp_arg
  then Add (Z.of_nat (String.length (Str.substr 1 (len - 2) temp_arg)))
  else Add 1.

Definition db_shift (l : string * string * string * string) : shift :=
  shift_sum (List.map db_argument_shift (split_args (operands_of l) comma)).

Definition dw_shift (l : string * string * string * string) : shift :=
  shift_sum (List.map (fun _ => Add 2) (split_args (operands_of l) comma)).

(** The value of the first operand is the same in both states (whenever
    it has a value in both). *)
Definition operand_value_agrees (a1 a2 : Assembler) : Prop :=
  forall v1 v2 b1 b2,
    evaluate_expression (operand1 a1) a1 = Ok (v1, b1) ->
    evaluate_expression (operand1 a2) a2 = Ok (v2, b2) ->
    v1 = v2.

(** Every character of [s] satisfies [p]. *)
Fixpoint all_chars (p : ascii -> bool) (s : string) : bool :=
  match s with
  | EmptyString => true
  | String c t => p c && all_chars p t
  end.

Definition not_space (c : ascii) : bool := negb (isspace c).

(** The state in which [process_instruction] meets [line] in pass
    [pass], with the given symbols and location counter 0. *)
Definition met (pass : Z) (symbols : gmap string Z) (line : string) : Assembler :=
  match parse line (set_source_pass pass (set_symbol_table symbols new_Assembler)) with
  | Ok (_, a) => a
  | Fail _ => new_Assembler
  end.

(** The state a call ends in (the state it started in when it fails). *)
Definition state_after (m : M unit) (a : Assembler) : Assembler :=
  match m a with
  | Ok (_, a') => a'
  | Fail _ => a
  end.

(** What [assemble] does between the passes. *)
Definition second_pass_setup : M unit :=
  modify (set_source_pass 2) ;;
  modify (set_address 0) ;;
  modify (set_output []) ;;
  modify (set_assembly_finished false) ;;
  modify (set_macro_expansion_counter 0).

(** The location counter after the first [count] lines of [lines], in
    pass 1 and in pass 2 (which follows a whole pass 1). *)
Definition counter_after (pass : Z) (depth : nat) (lines : list string) (count : nat)
    : result Z :=
  let run :=
    if pass =? 1
    then modify reset_state ;; preprocess_macros lines ;;
         modify (set_source_pass 1) ;; do_pass depth (firstn count lines)
    else first_pass depth lines ;; second_pass_setup ;;
         do_pass depth (firstn count lines) in
  match run new_Assembler with
  | Ok (_, a) => Ok (address a)
  | Fail f => Fail f
  end.

(** [m] does not stop for want of fuel, and what it returns satisfies [Q]. *)
Definition fuelled {A} (Q : A -> Prop) (m : M A) : Prop :=
  forall a, match m a with
            | Ok (x, _) => Q x
            | Fail f => f <> OutOfFuel
            end.

(** The iterator returned is not behind the one given. *)
Definition not_behind (it : string) (r : Z * string) : Prop :=
  (String.length (snd r) <= String.length it)%nat.
(** * Classes of characters and of texts the properties speak of *)

(** Neither a comma, a quote, an angle bracket nor a semicolon: what
    [split_args] copies without looking at it. *)
Definition is_plain (c : ascii) : bool :=
  negb (ch_eqb c comma || ch_eqb c squote || ch_eqb c dquote
        || ch_eqb c langle || ch_eqb c rangle || ch_eqb c semicolon).

(** As [is_plain], the comma allowed: the inside of a quoted or
    bracketed argument. *)
Definition is_inner (c : ascii) : bool :=
  negb (ch_eqb c squote || ch_eqb c dquote
        || ch_eqb c langle || ch_eqb c rangle || ch_eqb c semicolon).

(** * Effects of a call on the state *)

(** A relation that allows doing nothing and two steps in a row. *)
Class StepRel (R : relation Assembler) : Prop := {
  step_refl : forall a, R a a;
  step_trans : forall a b c, R a b -> R b c -> R a c
}.

(** What evaluating an expression does: [a'] is [a] with entries put
    in the cross-reference store, each under a symbol [a] knows. *)
Definition looked_up (a a' : Assembler) : Prop :=
  exists refs,
    a' = set_cross_reference_data refs a
    /\ forall k, refs !! k <> cross_reference_data a !! k ->
                 is_Some (symbol_table a !! k).

(** Every symbol of the cross-reference store is in the symbol table:
    what [write_cross_reference_file] relies on for [sym_table.at]. *)
Definition references_known (a : Assembler) : Prop :=
  forall k, is_Some (cross_reference_data a !! k) -> is_Some (symbol_table a !! k).

(** What a step of pass 2 put in the output buffer, and how far it
    moved the location counter beyond that: the counter went, modulo
    2^16, [unbacked] further than the bytes that were appended. *)
Definition appended (unbacked : Z) (a a' : Assembler) : Prop :=
  exists bytes,
    output a' = output a ++ bytes
    /\ to_uint16 (address a')
       = to_uint16 (address a + unbacked + Z.of_nat (length bytes)).

(** The effect of a handler, or of a part of one: it only adds to the
    tables ([extends]); it keeps the cross-reference store within the
    symbol table; in pass 1 it leaves the output buffer alone; in pass
    2 it appends to it and moves the location counter along. *)
Record effect (unbacked : Z) (a a' : Assembler) : Prop := {
  eff_extends : extends a a';
  eff_known : references_known a -> references_known a';
  eff_silent : source_pass a = 1 -> output a' = output a;
  eff_appended : source_pass a = 2 -> appended unbacked a a'
}.

(** The parts of [effect] that do not count bytes. *)
Record quiet_effect (a a' : Assembler) : Prop := {
  qeff_extends : extends a a';
  qeff_known : references_known a -> references_known a';
  qeff_silent : source_pass a = 1 -> output a' = output a
}.

(** Only the macro table changed. *)
Definition only_macros (a a' : Assembler) : Prop := a' = set_macros (macros a') a.

(** [m], run in pass 1 on a line with a label, binds the label to the
    location counter the line started at. *)
Definition names_the_line {A} (m : M A) : Prop :=
  forall a x a',
    m a = Ok (x, a') -> source_pass a = 1 -> Str.empty (label a) = false ->
    symbol_table a' !! label a = Some (address a).

(** * Source lines *)

(** The first word of a source line, in lower case: what
    [expand_and_process_line] compares with the directives and looks up
    in the macro table. *)
Definition first_word (line : string) : string :=
  to_lower (fst (Str.read_word (trim line))).

(** What follows the first word, split at the commas: the arguments of
    a macro invocation. *)
Definition arguments_of (line : string) : list string :=
  split_args (Str.getline (snd (Str.read_word (trim line)))) comma.

(** Neither blank nor a comment line. *)
Definition has_text (line : string) : bool :=
  negb (Str.empty (trim line)
        || ch_eqb (default Ascii.zero (Str.front (trim line))) semicolon).

(** * Expressions as [evaluate_expression] reads them *)

(** The operators of the two precedence levels. *)
Inductive additive := Plus | Minus | Or | Xor.
Inductive multiplicative := Times | Divide | And.

(** A factor is a decimal number or an expression in parentheses; a
    term is a chain of factors, an expression a chain of terms. *)
Inductive expression :=
| Expression (t : term) (rest : more_terms)
with more_terms :=
| NoTerm
| NextTerm (o : additive) (t : term) (rest : more_terms)
with term :=
| Term (f : factor) (rest : more_factors)
with more_factors :=
| NoFactor
| NextFactor (o : multiplicative) (f : factor) (rest : more_factors)
with factor :=
| Number (n : Z)
| Group (e : expression).

Scheme expression_mut := Induction for expression Sort Prop
  with more_terms_mut := Induction for more_terms Sort Prop
  with term_mut := Induction for term Sort Prop
  with more_factors_mut := Induction for more_factors Sort Prop
  with factor_mut := Induction for factor Sort Prop.
Combined Scheme expression_mutind
  from expression_mut, more_terms_mut, term_mut, more_factors_mut, factor_mut.

Definition additive_text (o : additive) : string :=
  match o with Plus => "+" | Minus => "-" | Or => "OR" | Xor => "XOR" end.

Definition multiplicative_text (o : multiplicative) : string :=
  match o with Times => "*" | Divide => "/" | And => "AND" end.

(** The text of an expression: a blank on both sides of every operator. *)
Fixpoint text_of_expression (e : expression) : string :=
  match e with
  | Expression t rest => text_of_term t +:+ text_of_more_terms rest
  end
with text_of_more_terms (r : more_terms) : string :=
  match r with
  | NoTerm => EmptyString
  | NextTerm o t rest =>
      " " +:+ additive_text o +:+ " " +:+ text_of_term t +:+ text_of_more_terms rest
  end
with text_of_term (t : term) : string :=
  match t with
  | Term f rest => text_of_factor f +:+ text_of_more_factors rest
  end
with text_of_more_factors (r : more_factors) : string :=
  match r with
  | NoFactor => EmptyString
  | NextFactor o f rest =>
      " " +:+ multiplicative_text o +:+ " " +:+ text_of_factor f
      +:+ text_of_more_factors rest
  end
with text_of_factor (f : factor) : string :=
  match f with
  | Number n => render 10 n
  | Group e => "(" +:+ text_of_expression e +:+ ")"
  end.

(** The numbers are those [int] holds without a sign. *)
Fixpoint numbers_fit (e : expression) : Prop :=
  match e with
  | Expression t rest => numbers_fit_term t /\ numbers_fit_more_terms rest
  end
with numbers_fit_more_terms (r : more_terms) : Prop :=
  match r with
  | NoTerm => True
  | NextTerm _ t rest => numbers_fit_term t /\ numbers_fit_more_terms rest
  end
with numbers_fit_term (t : term) : Prop :=
  match t with
  | Term f rest => numbers_fit_factor f /\ numbers_fit_more_factors rest
  end
with numbers_fit_more_factors (r : more_factors) : Prop :=
  match r with
  | NoFactor => True
  | NextFactor _ f rest => numbers_fit_factor f /\ numbers_fit_more_factors rest
  end
with numbers_fit_factor (f : factor) : Prop :=
  match f with
  | Number n => 0 <= n <= INT_MAX
  | Group e => numbers_fit e
  end.

(** The value by the usual rules: factors before terms, each level from
    left to right, in [int] arithmetic; [None] where a division has no
    quotient. *)
Definition apply_additive (o : additive) (x y : Z) : Z :=
  match o with
  | Plus => to_int (x + y)
  | Minus => to_int (x - y)
  | Or => Z.lor x y
  | Xor => Z.lxor x y
  end.

Definition apply_multiplicative (o : multiplicative) (x y : Z) : option Z :=
  match o with
  | Times => Some (to_int (x * y))
  | Divide =>
      if (y =? 0) || ((x =? INT_MIN) && (y =? -1)) then None else Some (Z.quot x y)
  | And => Some (Z.land x y)
  end.

Fixpoint value_of_expression (e : expression) : option Z :=
  match e with
  | Expression t rest =>
      match value_of_term t with
      | Some v => value_of_more_terms v rest
      | None => None
      end
  end
with value_of_more_terms (acc : Z) (r : more_terms) : option Z :=
  match r with
  | NoTerm => Some acc
  | NextTerm o t rest =>
      match value_of_term t with
      | Some v => value_of_more_terms (apply_additive o acc v) rest
      | None => None
      end
  end
with value_of_term (t : term) : option Z :=
  match t with
  | Term f rest =>
      match value_of_factor f with
      | Some v => value_of_more_factors v rest
      | None => None
      end
  end
with value_of_more_factors (acc : Z) (r : more_factors) : option Z :=
  match r with
  | NoFactor => Some acc
  | NextFactor o f rest =>
      match value_of_factor f with
      | Some v =>
          match apply_multiplicative o acc v with
          | Some acc => value_of_more_factors acc rest
          | None => None
          end
      | None => None
      end
  end
with value_of_factor (f : factor) : option Z :=
  match f with
  | Number n => Some n
  | Group e => value_of_expression e
  end.

(** How deep the parentheses nest, and how many operators a chain has. *)
Fixpoint nesting (e : expression) : nat :=
  match e with
  | Expression t rest => Nat.max (nesting_term t) (nesting_more_terms rest)
  end
with nesting_more_terms (r : more_terms) : nat :=
  match r with
  | NoTerm => O
  | NextTerm _ t rest => Nat.max (nesting_term t) (nesting_more_terms rest)
  end
with nesting_term (t : term) : nat :=
  match t with
  | Term f rest => Nat.max (nesting_factor f) (nesting_more_factors rest)
  end
with nesting_more_factors (r : more_factors) : nat :=
  match r with
  | NoFactor => O
  | NextFactor _ f rest => Nat.max (nesting_factor f) (nesting_more_factors rest)
  end
with nesting_factor (f : factor) : nat :=
  match f with
  | Number _ => O
  | Group e => S (nesting e)
  end.

Fixpoint count_terms (r : more_terms) : nat :=
  match r with NoTerm => O | NextTerm _ _ rest => S (count_terms rest) end.

Fixpoint count_factors (r : more_factors) : nat :=
  match r with NoFactor => O | NextFactor _ _ rest => S (count_factors rest) end.

(** What the evaluator returns for a value and the text left over. *)
Definition outcome (v : option Z) (rest : string) (a : Assembler)
    : result (Z * string * Assembler) :=
  match v with
  | Some v => Ok (v, rest, a)
  | None => Fail DivisionTrap
  end.

(** The first character of the text left over is no letter or digit,
    and its first token is not an operator of the level. *)
Definition starts_alnum (rest : string) : bool :=
  match rest with String c _ => isalnum c | EmptyString => false end.

Definition is_multiplicative (op : string) : bool :=
  Str.eqb op "*" || Str.eqb op "/" || Str.eqb op "and".

Definition is_additive (op : string) : bool :=
  Str.eqb op "+" || Str.eqb op "-" || Str.eqb op "or" || Str.eqb op "xor".

Definition ends_term (rest : string) : bool :=
  negb (starts_alnum rest) && negb (is_multiplicative (to_lower (fst (get_token rest)))).

Definition ends_expression (rest : string) : bool :=
  ends_term rest && negb (is_additive (to_lower (fst (get_token rest)))).

(** A name: a letter, [$] or [_], then letters, digits, [$] and [_]. *)
Definition is_identifier (s : string) : bool :=
  match s with
  | String c t => is_ident_start c && all_chars is_ident_char t
  | EmptyString => false
  end.

(** * File names *)

Definition is_separator (c : ascii) : bool := ch_eqb c "/" || ch_eqb c backslash.

(** A text that holds no path separator, or no dot. *)
Definition no_separator (s : string) : bool :=
  all_chars (fun c => negb (is_separator c)) s.

Definition no_dot (s : string) : bool :=
  all_chars (fun c => negb (ch_eqb dot c)) s.

(** * Conditions *)

(** The six relations of [evaluate_conditional], each with the word and
    the sign its table gives. *)
Inductive relational := NotEqual | Equal | AtLeast | AtMost | Greater | Less.

Definition word_of (r : relational) : string :=
  match r with
  | NotEqual => "ne" | Equal => "eq" | AtLeast => "ge"
  | AtMost => "le" | Greater => "gt" | Less => "lt"
  end.

Definition sign_of (r : relational) : string :=
  match r with
  | NotEqual => "!=" | Equal => "=" | AtLeast => ">="
  | AtMost => "<=" | Greater => ">" | Less => "<"
  end.

Definition holds (r : relational) (x y : Z) : bool :=
  match r with
  | NotEqual => negb (x =? y)
  | Equal => x =? y
  | AtLeast => y <=? x
  | AtMost => x <=? y
  | Greater => y <? x
  | Less => x <? y
  end.

(** The operand of an [IF]: what follows the word on the line, two
    expressions with an operator between blanks. *)
Definition condition_text (e1 : expression) (op : string) (e2 : expression) : string :=
  " " +:+ text_of_expression e1 +:+ " " +:+ op +:+ " " +:+ text_of_expression e2.

(** No character of [s] is a character of [p]. *)
Definition apart (p s : string) : bool :=
  all_chars (fun c => all_chars (fun d => negb (ch_eqb d c)) p) s.

(** The spellings of the table. *)
Definition spellings : list string :=
  flat_map (fun op => [fst op; snd op]) relational_ops.

(** No character of a relational operator. *)
Definition is_quiet (c : ascii) : bool :=
  forallb (fun p => all_chars (fun d => negb (ch_eqb d c)) p) spellings.

(** * The ranges of the machine types *)

(** [uint8_t] and [uint16_t]. *)
Definition is_byte (b : Z) : Prop := 0 <= b < 256.
Definition is_word (v : Z) : Prop := 0 <= v < 65536.

(** The location counter and the symbols are values of [uint16_t], the
    output buffer holds values of [uint8_t]. *)
Record in_range (a : Assembler) : Prop := {
  address_in_range : is_word (address a);
  symbols_in_range : forall k v, symbol_table a !! k = Some v -> is_word v;
  output_in_range : Forall is_byte (output a)
}.

Definition stays_in_range (a a' : Assembler) : Prop := in_range a -> in_range a'.

(** * Macro definitions *)

(** The second word of a source line, in lower case, and what follows
    it, split at the commas: in the first line of a macro definition the
    word [MACRO] and the parameters. *)
Definition second_word (line : string) : string :=
  to_lower (fst (Str.read_word (snd (Str.read_word (trim line))))).

Definition parameters_of (line : string) : list string :=
  split_args (Str.getline (snd (Str.read_word (snd (Str.read_word (trim line))))))
    comma.

(** A line that neither opens nor closes a macro definition. *)
Definition inside_line (line : string) : Prop :=
  second_word line <> "macro" /\ first_word line <> "endm" /\ first_word line <> "mend".

Definition closes_macro (line : string) : Prop :=
  second_word line <> "macro" /\ (first_word line = "endm" \/ first_word line = "mend").

(** * Source statements *)

Definition colon : ascii := chr 58.

(** A blank or a tab. *)
Definition is_blank (c : ascii) : bool := (code c =? 32) || (code c =? 9).

(** A character of a label or of a mnemonic: no whitespace, no
    semicolon, no colon. *)
Definition is_word_char (c : ascii) : bool :=
  negb (isspace c) && negb (ch_eqb c semicolon) && negb (ch_eqb c colon).

(** A character of an operand: a blank is allowed, other whitespace, a
    semicolon and a colon are not. *)
Definition is_operand_char (c : ascii) : bool :=
  ((code c =? 32) || negb (isspace c))
  && negb (ch_eqb c semicolon) && negb (ch_eqb c colon).

(** The blanks and tabs between the parts of a statement. *)
Record layout := {
  indent : string;
  after_label : string;
  after_mnemonic : string;
  before_comma : string;
  after_comma : string;
  before_comment : string
}.

Definition is_layout (g : layout) : bool :=
  all_chars is_blank (indent g) && all_chars is_blank (after_label g)
  && all_chars is_blank (after_mnemonic g) && all_chars is_blank (before_comma g)
  && all_chars is_blank (after_comma g) && all_chars is_blank (before_comment g).

(** A statement as it is written: the label with its colon, the
    mnemonic, the operands with a comma between them, the comment
    after a semicolon; a part that is empty is left out with its
    delimiter. *)
Definition statement_text (g : layout)
    (label mnemonic operand1 operand2 comment : string) : string :=
  indent g
  +:+ (if Str.empty label then EmptyString else label +:+ String colon (after_label g))
  +:+ mnemonic +:+ " " +:+ after_mnemonic g
  +:+ (if Str.empty operand2 then operand1
       else operand1 +:+ before_comma g +:+ String comma (after_comma g) +:+ operand2)
  +:+ before_comment g
  +:+ (if Str.empty comment then EmptyString else String semicolon comment).

(** The layout with its tabs turned into blanks, as [parse] reads it. *)
Definition untabbed (g : layout) : layout :=
  {| indent := Str.map tab_to_space (indent g);
     after_label := Str.map tab_to_space (after_label g);
     after_mnemonic := Str.map tab_to_space (after_mnemonic g);
     before_comma := Str.map tab_to_space (before_comma g);
     after_comma := Str.map tab_to_space (after_comma g);
     before_comment := Str.map tab_to_space (before_comment g) |}.

(** The 256 characters. *)
Definition all_ascii : list ascii := List.map ascii_of_nat (seq 0 256).

(** Neither end of the text is whitespace. *)
Definition tight (s : string) : Prop :=
  (forall c, Str.front s = Some c -> isspace c = false)
  /\ (forall c, Str.back s = Some c -> isspace c = false).

(** * What an assembly does not depend on *)

(** The parts of the state that code may not have looked at: the
    cross-reference store, which is only written to; the fields that
    [parse] sets before a handler reads them; the stack of conditions,
    which [do_pass] empties before it reads a line. *)
Inductive view := Fields | Lines | Start.

Definition forget (v : view) (a : Assembler) : Assembler :=
  let a := set_cross_reference_data ∅ a in
  match v with
  | Fields => a
  | Lines => set_parsed EmptyString EmptyString EmptyString EmptyString EmptyString a
  | Start =>
      set_if_stack []
        (set_parsed EmptyString EmptyString EmptyString EmptyString EmptyString a)
  end.

(** Two states that differ in nothing but what the view leaves out. *)
Definition alike (v : view) (a b : Assembler) : Prop := forget v a = forget v b.

Definition same_outcome {A} (v : view) (r1 r2 : result (A * Assembler)) : Prop :=
  match r1, r2 with
  | Ok (x, a'), Ok (y, b') => x = y /\ alike v a' b'
  | Fail e, Fail f => e = f
  | _, _ => False
  end.

(** From states that are alike in the view [v1], [m] goes to the same
    result and to states that are alike in the view [v2], or fails the
    same way. *)
Definition respects_to {A} (v1 v2 : view) (m : M A) : Prop :=
  forall a b, alike v1 a b -> same_outcome v2 (m a) (m b).

Definition respects {A} (v : view) (m : M A) : Prop := respects_to v v m.

(** * The opcodes *)

(** The entries of the handler table that are no instructions. *)
Definition directive_names : list string :=
  ["db"; "dw"; "ds"; "end"; "equ"; "name"; "org"; "title"].

Definition instruction_names : list string :=
  filter (fun m => negb (existsb (String.eqb m) directive_names))
    (List.map fst mnemonic_handlers).

(** No operand, the names of the registers and of the register pairs,
    and the numbers of the restart vectors. *)
Definition operand_texts : list string :=
  [""; "a"; "b"; "c"; "d"; "e"; "h"; "l"; "m"; "bc"; "de"; "hl"; "sp"; "psw";
   "0"; "1"; "2"; "3"; "4"; "5"; "6"; "7"].

(** The first byte that pass 2 puts out for a parsed instruction, when
    it accepts it. *)
Definition first_byte (m o1 o2 : string) : option Z :=
  match process_instruction
          (set_source_pass 2
             (set_parsed EmptyString m o1 o2 EmptyString new_Assembler)) with
  | Ok (_, a') => head (output a')
  | Fail _ => None
  end.

Definition opcodes_of (m : string) : list Z :=
  flat_map (fun p => match first_byte m (fst p) (snd p) with
                     | Some b => [b]
                     | None => []
                     end)
           (list_prod operand_texts operand_texts).

(** The opcodes of two mnemonics are apart, the opcode 76H of [mov] and
    [hlt] excepted. *)
Definition apart_but_halt (e1 e2 : string * list Z) : bool :=
  String.eqb (fst e1) (fst e2)
  || forallb (fun b =>
                negb (existsb (Z.eqb b) (snd e2))
                || ((b =? 0x76)
                    && ((String.eqb (fst e1) "mov" && String.eqb (fst e2) "hlt")
                        || (String.eqb (fst e1) "hlt" && String.eqb (fst e2) "mov"))))
             (snd e1).

Definition opcodes_apart : bool :=
  let table := List.map (fun m => (m, opcodes_of m)) instruction_names in
  forallb (fun e1 => forallb (apart_but_halt e1) table) table.

(** Every failure of [m] satisfies [P]. *)
Definition fails_as {A} (P : failure -> Prop) (m : M A) : Prop :=
  forall a f, m a = Fail f -> P f.

(** The failures of the source that are no endless loop: a fatal
    error, an uncaught exception, a division trap; and the bound of
    the model. *)
Definition is_stop (f : failure) : Prop := f <> Hang.

(** * The values the location counter depends on *)

(** What a pass reads from the symbol table to move the location
    counter or to choose the lines it assembles: the size a [DS]
    reserves, the address an [ORG] sets, the condition of an [IF]. *)
Inductive reading :=
| Size (v : Z)
| Origin (v : Z)
| Condition (b : bool).

(** [k] on what [m] returns and the state it ends in; nothing when [m]
    fails. *)
Definition after {A B} (m : M A) (k : A -> Assembler -> list B) (a : Assembler) : list B :=
  match m a with
  | Ok (x, a') => k x a'
  | Fail _ => []
  end.

(** The reading of [process_instruction] on the parsed line of [a]:
    the value [ds] and [org] compute from their first operand. *)
Definition readings_of_instruction (a : Assembler) : list reading :=
  if Str.eqb (mnemonic a) "ds"
  then after (evaluate_expression (operand1 a)) (fun v _ => [Size v]) a
  else if Str.eqb (mnemonic a) "org"
  then after (evaluate_expression (operand1 a)) (fun v _ => [Origin v]) a
  else [].

(** The readings of a loop: those of each turn, in the state the turns
    before it left. *)
Fixpoint readings_of_each {A} (readings : A -> Assembler -> list reading)
    (f : A -> M unit) (l : list A) (a : Assembler) : list reading :=
  match l with
  | [] => []
  | x :: l => readings x a ++ after (f x) (fun _ => readings_of_each readings f l) a
  end.

(** The readings of [expand_and_process_line], in the order it makes
    them: the condition of an [IF] that is not skipped, the readings of
    the lines of a macro body, those of the instruction of any other
    line that is not skipped. *)
Fixpoint readings_of_line (depth : nat) (line : string) (original_lineno : Z)
    (a : Assembler) : list reading :=
  match depth with
  | O => []
  | S depth =>
      let temp_line := trim line in
      if Str.empty temp_line
         || ch_eqb (default Ascii.zero (Str.front temp_line)) semicolon
      then []
      else
        let '(first_word, ss) := Str.read_word temp_line in
        let lower_first := to_lower first_word in
        if Str.eqb lower_first "if" then
          if should_skip a then []
          else after (evaluate_conditional (Str.getline ss))
                     (fun condition_result _ => [Condition condition_result]) a
        else if Str.eqb lower_first "endif" then []
        else if should_skip a then []
        else if Str.eqb lower_first "error" || Str.eqb lower_first "local" then []
        else
          match macros a !! lower_first with
          | Some macro_def =>
              let args := split_args (Str.getline ss) comma in
              after (modify (fun a =>
                       set_macro_expansion_counter
                         (to_int (macro_expansion_counter a + 1)) a) ;;
                     (if negb (length args =? length (params macro_def))%nat
                      then report_error ("macro '" +:+ name macro_def
                                         +:+ "' argument count mismatch") original_lineno
                      else pure tt) ;;
                     get)
                    (fun a =>
                       let local_label_map :=
                         build_local_label_map (macro_expansion_counter a)
                           (body_lines macro_def) in
                       readings_of_each
                         (fun body_line =>
                            after (body_line <- substitute_all
                                                  (combine (params macro_def) args)
                                                  body_line ;;
                                   substitute_all local_label_map body_line)
                                  (fun body_line =>
                                     readings_of_line depth body_line original_lineno))
                         (fun body_line =>
                            body_line <- substitute_all
                                           (combine (params macro_def) args) body_line ;;
                            body_line <- substitute_all local_label_map body_line ;;
                            expand_and_process_line depth body_line original_lineno)
                         (body_lines macro_def))
                    a
          | None =>
              after (modify (set_lineno original_lineno) ;; parse line)
                    (fun _ => readings_of_instruction) a
          end
  end.

(** The readings of [do_pass_loop]: those of the lines it hands to
    [expand_and_process_line], up to the line that finds
    [assembly_finished] set. *)
Fixpoint readings_of_lines (depth : nat) (lines : list string) (i : Z)
    (in_macro_def : bool) (a : Assembler) : list reading :=
  match lines with
  | [] => []
  | current_line :: lines =>
      let a := set_lineno i a in
      if assembly_finished a then []
      else
        let temp_line := trim current_line in
        if Str.empty temp_line then readings_of_lines depth lines (i + 1) in_macro_def a
        else
          let '(first_word, ss) := Str.read_word temp_line in
          let '(second_word, _) := Str.read_word ss in
          let in_macro_def :=
            if Str.eqb (to_lower second_word) "macro" then true else in_macro_def in
          if in_macro_def then
            let lower_first := to_lower first_word in
            let in_macro_def :=
              if Str.eqb lower_first "endm" || Str.eqb lower_first "mend"
              then false else in_macro_def in
            readings_of_lines depth lines (i + 1) in_macro_def a
          else
            readings_of_line depth current_line i a
            ++ after (expand_and_process_line depth current_line i)
                     (fun _ => readings_of_lines depth lines (i + 1) in_macro_def) a
  end.

(** What [assemble] does before the loop of a pass: for pass 1 the
    reset and the macro definitions, for pass 2 the whole of pass 1 and
    the setup; then the first statement of [do_pass]. *)
Definition pass_start (pass : Z) (depth : nat) (lines : list string) : M unit :=
  (if pass =? 1
   then modify reset_state ;; preprocess_macros lines ;; modify (set_source_pass 1)
   else first_pass depth lines ;; second_pass_setup) ;;
  modify (set_if_stack []).

(** The readings of a pass of [assemble], started in [a]. *)
Definition readings_in_pass (pass : Z) (depth : nat) (lines : list string)
    (a : Assembler) : list reading :=
  after (pass_start pass depth lines)
        (fun _ => readings_of_lines depth lines 0 false) a.

(** The location counter of a pass of [assemble], started in [a], when
    its loop has gone through the first [count] lines. *)
Definition location_counter (pass : Z) (depth : nat) (lines : list string)
    (count : nat) (a : Assembler) : result Z :=
  match (pass_start pass depth lines ;;
         do_pass_loop depth (firstn count lines) 0 false) a with
  | Ok (_, a') => Ok (address a')
  | Fail f => Fail f
  end.

(** Two states at the same place of a pass: the same location counter,
    conditional stack, macros, expansion counter and [END] flag. *)
Record in_step (a1 a2 : Assembler) : Prop := {
  step_address : address a1 = address a2;
  step_if_stack : if_stack a1 = if_stack a2;
  step_macros : macros a1 = macros a2;
  step_counter : macro_expansion_counter a1 = macro_expansion_counter a2;
  step_finished : assembly_finished a1 = assembly_finished a2
}.

(** What a handler leaves alone apart from the location counter, the
    tables and the output. *)
Record holds_place (a a' : Assembler) : Prop := {
  place_if_stack : if_stack a' = if_stack a;
  place_macros : macros a' = macros a;
  place_counter : macro_expansion_counter a' = macro_expansion_counter a;
  place_finished : assembly_finished a' = assembly_finished a
}.

(** As [holds_place], but for [end], which sets the flag. *)
Definition place_after (ends : bool) (a a' : Assembler) : Prop :=
  if ends then a' = set_assembly_finished true a else holds_place a a'.

(** A condition on a symbol defined further down. *)
Definition forward_if : list string := [ "IF X"; "NOP"; "ENDIF"; "X EQU 1" ].

(** A program with forward references that no [DS], [ORG] or [IF]
    reads: a macro with a conditional block, a jump ahead, a buffer. *)
Definition steady_program : list string :=
  [ "SIZE  EQU 2";
    "FILL  MACRO Q";
    "      IF Q GT 1";
    "      DS Q";
    "      ENDIF";
    "      ENDM";
    "      ORG 100H";
    "      JMP DONE";
    "      FILL SIZE";
    "BUF:  DS SIZE * 2";
    "DONE: HLT";
    "      END" ].

(** [m], run from two states in step that read the same, ends in two
    states in step: the readings of the two runs are compared one by
    one, [r1] and [r2] being what the rest of the passes reads. *)
Definition in_step_through (m : M unit) (readings : Assembler -> list reading) : Prop :=
  forall a1 a2 a1' a2' r1 r2,
    in_step a1 a2 ->
    m a1 = Ok (tt, a1') -> m a2 = Ok (tt, a2') ->
    readings a1 ++ r1 = readings a2 ++ r2 ->
    in_step a1' a2' /\ r1 = r2.

(** * Rules for [keeps] *)

Section Keeps.
Context {R : relation Assembler} `{!FrameRel R}.

Lemma keeps_pure {A} (x : A) : keeps R (pure x).
Proof. intros a y a' E. injection E as _ <-. apply frame_refl. Qed.

Lemma keeps_fail {A} (e : failure) : keeps R (@fail A e).
Proof. intros a y a' E. discriminate. Qed.

Lemma keeps_get : keeps R get.
Proof. intros a y a' E. injection E as _ <-. apply frame_refl. Qed.

Lemma keeps_bind {A B} (m : M A) (k : A -> M B) :
  keeps R m -> (forall x, keeps R (k x)) -> keeps R (bind m k).
Proof.
  intros Hm Hk a y a' E. unfold bind in E.
  destruct (m a) as [[x b]|] eqn:Em; [|discriminate].
  eapply frame_trans; [eapply Hm | eapply Hk]; eassumption.
Qed.

Lemma keeps_modify (f : Assembler -> Assembler) :
  (forall a, R a (f a)) -> keeps R (modify f).
Proof. intros Hf a y a' E. injection E as _ <-. apply Hf. Qed.

Lemma keeps_when (b : bool) (m : M unit) : keeps R m -> keeps R (when b m).
Proof. destruct b; [trivial | intros _; apply keeps_pure]. Qed.

Lemma keeps_for_each {A} (f : A -> M unit) (l : list A) :
  (forall x, keeps R (f x)) -> keeps R (for_each f l).
Proof.
  intros Hf. induction l as [|x l IH]; [apply keeps_pure|].
  apply keeps_bind; [apply Hf | intros _; exact IH].
Qed.

Lemma keeps_push_back (b : Z) : keeps R (push_back b).
Proof. apply keeps_modify. intros a. apply frame_output. Qed.

End Keeps.

(** One step of a proof that a sequence of calls keeps a relation:
    split the sequence, decide a branch, or leave the call to [prim]. *)
Ltac keeps_with prim :=
  repeat (cbv zeta;
    lazymatch goal with
    | |- keeps _ (bind _ _) => apply keeps_bind; [| intros ?]
    | |- keeps _ (pure _) => apply keeps_pure
    | |- keeps _ (fail _) => apply keeps_fail
    | |- keeps _ (report_error _ _) => apply keeps_fail
    | |- keeps _ get => apply keeps_get
    | |- keeps _ (when _ _) => apply keeps_when
    | |- keeps _ (for_each _ _) => apply keeps_for_each; intros ?
    | |- keeps _ (push_back _) => apply keeps_push_back
    | |- keeps _ (if ?b then _ else _) => destruct b
    | |- keeps _ (match ?x with _ => _ end) => destruct x
    | |- keeps _ _ => prim
    end).

Section KeepsEvaluator.
Context {R : relation Assembler} `{!FrameRel R}.

Lemma keeps_get_number (input : string) : keeps R (get_number input).
Proof. unfold get_number. keeps_with ltac:(fail). Qed.

Lemma keeps_evaluate_single_term (term_str : string) :
  keeps R (evaluate_single_term term_str).
Proof.
  unfold evaluate_single_term.
  keeps_with ltac:(first [ apply keeps_get_number
                         | apply keeps_modify; intros; apply frame_reference ]).
Qed.

Lemma keeps_int_div (x y : Z) : keeps R (int_div x y).
Proof. unfold int_div. keeps_with ltac:(fail). Qed.

Section Descent.
Variable rec : string -> M (Z * string).
Hypothesis keeps_rec : forall it, keeps R (rec it).

Lemma keeps_parse_expr_factor (it : string) : keeps R (parse_expr_factor rec it).
Proof.
  unfold parse_expr_factor.
  keeps_with ltac:(first [ apply keeps_rec | apply keeps_evaluate_single_term ]).
Qed.

Lemma keeps_parse_expr_term_loop (turns : nat) (result : Z) (it : string) :
  keeps R (parse_expr_term_loop rec turns result it).
Proof.
  revert result it. induction turns as [|turns IH]; intros result it; simpl.
  - apply keeps_fail.
  - keeps_with ltac:(first [ apply keeps_parse_expr_factor | apply keeps_int_div | apply IH ]).
Qed.

Lemma keeps_parse_expr_term (it : string) : keeps R (parse_expr_term rec it).
Proof.
  unfold parse_expr_term.
  keeps_with ltac:(first [ apply keeps_parse_expr_factor | apply keeps_parse_expr_term_loop ]).
Qed.

Lemma keeps_evaluate_expression_loop (turns : nat) (result : Z) (it : string) :
  keeps R (evaluate_expression_loop rec turns result it).
Proof.
  revert result it. induction turns as [|turns IH]; intros result it; simpl.
  - apply keeps_fail.
  - keeps_with ltac:(first [ apply keeps_parse_expr_term | apply IH ]).
Qed.

Lemma keeps_evaluate_expression_body (it : string) :
  keeps R (evaluate_expression_body rec it).
Proof.
  unfold evaluate_expression_body.
  keeps_with ltac:(first [ apply keeps_parse_expr_term | apply keeps_evaluate_expression_loop ]).
Qed.

End Descent.

Lemma keeps_evaluate_expression_it (depth : nat) (it : string) :
  keeps R (evaluate_expression_it depth it).
Proof.
  revert it. induction depth as [|depth IH]; intros it; simpl.
  - apply keeps_fail.
  - apply keeps_evaluate_expression_body. exact IH.
Qed.

Lemma keeps_evaluate_expression (expr : string) : keeps R (evaluate_expression expr).
Proof.
  unfold evaluate_expression.
  keeps_with ltac:(apply keeps_evaluate_expression_it).
Qed.

Lemma keeps_evaluate_conditional (expr : string) : keeps R (evaluate_conditional expr).
Proof.
  unfold evaluate_conditional.
  keeps_with ltac:(apply keeps_evaluate_expression).
Qed.

Lemma keeps_check_operands (valid : bool) (n : string) : keeps R (check_operands valid n).
Proof. unfold check_operands. keeps_with ltac:(fail). Qed.

Lemma keeps_register_offset8 (r : string) : keeps R (register_offset8 r).
Proof. unfold register_offset8. keeps_with ltac:(fail). Qed.

Lemma keeps_register_offset16 : keeps R register_offset16.
Proof. unfold register_offset16. keeps_with ltac:(fail). Qed.

Lemma keeps_immediate_operand (t : ImmediateType) : keeps R (immediate_operand t).
Proof. unfold immediate_operand. keeps_with ltac:(apply keeps_evaluate_expression). Qed.

Lemma keeps_address16 (operand : string) : keeps R (address16 operand).
Proof. unfold address16. keeps_with ltac:(apply keeps_evaluate_expression). Qed.

End KeepsEvaluator.

(** The calls that keep every [FrameRel]. *)
Ltac keeps_frame :=
  first [ apply keeps_evaluate_expression | apply keeps_check_operands
        | apply keeps_register_offset8 | apply keeps_register_offset16
        | apply keeps_immediate_operand | apply keeps_address16
        | apply keeps_get_number | apply keeps_evaluate_conditional ].

(** * One pass only adds: [extends] through the whole engine *)

Lemma bind_ok {A B} (m : M A) (k : A -> M B) a y a' :
  bind m k a = Ok (y, a') -> exists x b, m a = Ok (x, b) /\ k x b = Ok (y, a').
Proof.
  unfold bind. destruct (m a) as [[x b]|]; [|discriminate].
  intros E. exists x, b. split; [reflexivity | exact E].
Qed.

Lemma keeps_weaken {A} (R R' : relation Assembler) (m : M A) :
  (forall a a', R a a' -> R' a a') -> keeps R m -> keeps R' m.
Proof. intros HR Hm a x a' E. apply HR. eapply Hm. exact E. Qed.

Lemma reference_lookup term line a k :
  default [] (cross_reference_data (record_reference term line a) !! k)
  = if decide (term = k)
    then default [] (cross_reference_data a !! k) ++ [line]
    else default [] (cross_reference_data a !! k).
Proof.
  unfold record_reference; cbn.
  rewrite lookup_insert. destruct (decide (term = k)) as [->|]; reflexivity.
Qed.

Lemma references_grow_reference term line a :
  references_grow a (record_reference term line a).
Proof.
  intros k. rewrite reference_lookup.
  destruct (decide (term = k)); [apply prefix_app_r|]; reflexivity.
Qed.

#[global] Instance references_grow_frame : FrameRel references_grow.
Proof.
  split.
  - intros a k. reflexivity.
  - intros a b c Hab Hbc k. etransitivity; [apply Hab | apply Hbc].
  - apply references_grow_reference.
  - intros o a k. reflexivity.
Qed.

Lemma extends_refl a : extends a a.
Proof. split; try reflexivity. Qed.

Lemma extends_trans a b c : extends a b -> extends b c -> extends a c.
Proof.
  intros [P1 M1 S1 F1 X1] [P2 M2 S2 F2 X2]. split.
  - congruence.
  - congruence.
  - etransitivity; eassumption.
  - intros Hp. rewrite F2, F1; congruence.
  - intros k. etransitivity; [apply X1 | apply X2].
Qed.

(** A change of fields the relation does not read. *)
Lemma extends_same a a' :
  source_pass a' = source_pass a -> macros a' = macros a ->
  symbol_table a' = symbol_table a ->
  cross_reference_data a' = cross_reference_data a ->
  extends a a'.
Proof.
  intros Hp Hm Hs Hx. split; try assumption.
  - rewrite Hs. reflexivity.
  - intros _. assumption.
  - intros k. rewrite Hx. reflexivity.
Qed.

#[global] Instance extends_frame : FrameRel extends.
Proof.
  split.
  - apply extends_refl.
  - apply extends_trans.
  - intros term line a. split; try reflexivity.
    apply references_grow_reference.
  - intros o a. apply extends_same; reflexivity.
Qed.

Lemma extends_grows a a' : extends a a' -> references_grow a a'.
Proof. intros H. exact (ext_references _ _ H). Qed.

Lemma keeps_setter (f : Assembler -> Assembler) :
  (forall a, source_pass (f a) = source_pass a) ->
  (forall a, macros (f a) = macros a) ->
  (forall a, symbol_table (f a) = symbol_table a) ->
  (forall a, cross_reference_data (f a) = cross_reference_data a) ->
  keeps extends (modify f).
Proof. intros. apply keeps_modify. intros a. apply extends_same; auto. Qed.

(** In pass 1 a new label extends the table; a present one is fatal. *)
Lemma add_label_extends a x a' :
  source_pass a = 1 -> add_label a = Ok (x, a') -> extends a a'.
Proof.
  intros Hp E. unfold add_label in E.
  apply bind_ok in E as (a1 & b & Eg & E). injection Eg as <- <-.
  apply bind_ok in E as (u & b & Ec & E).
  destruct (bool_decide (is_Some (symbol_table a !! label a))) eqn:Hl;
    [discriminate|].
  injection Ec as _ <-.
  apply bind_ok in E as (u' & b & Em & E).
  injection Em as _ <-. injection E as _ <-.
  apply bool_decide_eq_false in Hl.
  eapply extends_trans; [|apply frame_reference].
  split; cbn; try reflexivity.
  - apply insert_subseteq. destruct (symbol_table a !! label a) eqn:Hs; [|reflexivity].
    exfalso. apply Hl. eexists. reflexivity.
  - intros Hn. contradiction.
Qed.

Lemma keeps_pass_action (n : Z) (bytes : list Z) (flag : bool) :
  keeps extends (pass_action n bytes flag).
Proof.
  intros a x a' E. unfold pass_action in E.
  apply bind_ok in E as (a1 & b & Eg & E). injection Eg as <- <-.
  apply bind_ok in E as (u & b & E1 & E2). injection E2 as _ <-.
  apply extends_trans with b; [|apply extends_same; reflexivity].
  destruct (source_pass a =? 1) eqn:Hp.
  - apply Z.eqb_eq in Hp.
    destruct (negb (Str.empty (label a)) && flag); unfold when in E1.
    + eapply add_label_extends; eassumption.
    + injection E1 as _ <-. apply extends_refl.
  - injection E1 as _ <-. apply extends_same; reflexivity.
Qed.

Lemma keeps_equ : keeps extends Mnemonic.equ.
Proof.
  intros a x a' E. unfold Mnemonic.equ in E.
  apply bind_ok in E as (a1 & b & Eg & E). injection Eg as <- <-.
  apply bind_ok in E as (u & b & E1 & E).
  assert (b = a) as ->.
  { destruct (Str.empty (label a)); [discriminate|]. injection E1 as _ <-. reflexivity. }
  apply bind_ok in E as (u1 & b & E2 & E).
  apply bind_ok in E as (v & c & E3 & E).
  assert (Hab : extends a b) by (eapply (keeps_check_operands (R:=extends)); eassumption).
  assert (Hbc : extends b c) by (eapply (keeps_evaluate_expression (R:=extends)); eassumption).
  assert (Hac : extends a c) by (eapply extends_trans; eassumption).
  eapply extends_trans; [exact Hac|].
  destruct (source_pass a =? 1) eqn:Hp; unfold when in E.
  - apply Z.eqb_eq in Hp.
    apply bind_ok in E as (c1 & d & Eg & E). injection Eg as <- <-.
    apply bind_ok in E as (u2 & d & Ec & E).
    destruct (bool_decide (is_Some (symbol_table c !! label c))) eqn:Hl;
      [discriminate|].
    injection Ec as _ <-. injection E as _ <-.
    apply bool_decide_eq_false in Hl.
    split; cbn; try reflexivity.
    + apply insert_subseteq. destruct (symbol_table c !! label c) eqn:Hs; [|reflexivity].
      exfalso. apply Hl. eexists. reflexivity.
    + intros Hn. exfalso. apply Hn. rewrite (ext_pass _ _ Hac). exact Hp.
  - injection E as _ <-. apply extends_refl.
Qed.

Lemma keeps_flagged_loop {A} (body : bool -> A -> M unit) (flag : bool) (l : list A) :
  (forall b x, keeps extends (body b x)) -> keeps extends (Mnemonic.flagged_loop body flag l).
Proof.
  intros Hb. revert flag. induction l as [|x l IH]; intros flag; cbn.
  - apply keeps_pure.
  - apply keeps_bind; [apply Hb | intros _; apply IH].
Qed.

(** The calls of the handlers. *)
Ltac keeps_call :=
  first [ keeps_frame | apply keeps_pass_action
        | apply keeps_setter; reflexivity
        | apply keeps_modify; intros; apply frame_output
        | apply keeps_modify; intros ?;
          match goal with |- extends _ (if ?c then _ else _) => destruct c end;
          [apply frame_output | apply extends_refl] ].

Lemma keeps_db_byte (flag : bool) (s : string) : keeps extends (Mnemonic.db_byte flag s).
Proof. unfold Mnemonic.db_byte. keeps_with keeps_call. Qed.

Lemma keeps_db_argument (flag : bool) (s : string) :
  keeps extends (Mnemonic.db_argument flag s).
Proof.
  unfold Mnemonic.db_argument.
  keeps_with ltac:(first [ apply keeps_flagged_loop; apply keeps_db_byte | keeps_call ]).
Qed.

Lemma keeps_db : keeps extends Mnemonic.db.
Proof.
  unfold Mnemonic.db.
  keeps_with ltac:(first [ apply keeps_flagged_loop; apply keeps_db_argument | keeps_call ]).
Qed.

Ltac keeps_handler :=
  cbn [snd];
  first [ exact keeps_db | exact keeps_equ
        | match goal with |- keeps _ ?h => unfold h end; keeps_with keeps_call ].

Lemma handlers_keep_extends :
  Forall (fun entry => keeps extends (snd entry)) mnemonic_handlers.
Proof.
  unfold mnemonic_handlers.
  repeat (constructor; [keeps_handler|]).
  constructor.
Qed.

Lemma lookup_handler_Forall (P : M unit -> Prop) table m h :
  Forall (fun entry => P (snd entry)) table ->
  lookup_handler table m = Some h -> P h.
Proof.
  induction 1 as [|[k h'] table Hh _ IH]; cbn; [discriminate|].
  destruct (Str.eqb k m); [|exact IH].
  intros E. injection E as <-. exact Hh.
Qed.

Lemma keeps_parse (line : string) : keeps extends (parse line).
Proof. unfold parse. keeps_with keeps_call. Qed.

Lemma keeps_process_instruction : keeps extends process_instruction.
Proof.
  unfold process_instruction.
  apply keeps_bind; [apply keeps_get | intros a].
  destruct (Str.empty (mnemonic a) && Str.empty (label a)); [apply keeps_pure|].
  destruct (lookup_handler mnemonic_handlers (mnemonic a)) as [h|] eqn:Hh.
  - eapply (lookup_handler_Forall (keeps extends)); [apply handlers_keep_extends | exact Hh].
  - keeps_with keeps_call.
Qed.

Lemma keeps_substitute_all {R : relation Assembler} `{!FrameRel R} pairs body_line :
  keeps R (substitute_all pairs body_line).
Proof.
  revert body_line. induction pairs as [|[x y] pairs IH]; intros body_line; cbn.
  - apply keeps_pure.
  - apply keeps_bind; [|intros s; apply IH].
    unfold substitute. destruct (replace_loop _ _ _ _ _); [apply keeps_pure | apply keeps_fail].
Qed.

Lemma keeps_expand_and_process_line (depth : nat) (line : string) (n : Z) :
  keeps extends (expand_and_process_line depth line n).
Proof.
  revert line. induction depth as [|depth IH]; intros line; cbn.
  - apply keeps_fail.
  - keeps_with ltac:(first [ apply keeps_substitute_all | apply IH | apply keeps_parse
                           | apply keeps_process_instruction | keeps_call ]).
Qed.

Lemma keeps_do_pass_loop (depth : nat) (lines : list string) (i : Z) (in_macro_def : bool) :
  keeps extends (do_pass_loop depth lines i in_macro_def).
Proof.
  revert i in_macro_def. induction lines as [|l lines IH]; intros i in_macro_def; cbn.
  - keeps_with keeps_call.
  - keeps_with ltac:(first [ apply IH | apply keeps_expand_and_process_line | keeps_call ]).
Qed.

Lemma keeps_do_pass (depth : nat) (lines : list string) :
  keeps extends (do_pass depth lines).
Proof.
  unfold do_pass.
  keeps_with ltac:(first [ apply keeps_do_pass_loop | keeps_call ]).
Qed.

#[global] Instance stays_frame : FrameRel stays.
Proof.
  split.
  - intros a. split; reflexivity.
  - intros a b c [A1 L1] [A2 L2]. split; congruence.
  - intros term line a. split; reflexivity.
  - intros o a. split; reflexivity.
Qed.

(** * The symbol table and the cross-reference store over a run *)

Lemma add_label_duplicate (a : Assembler) :
  is_Some (symbol_table a !! label a) ->
  add_label a = Fail (Fatal (lineno a + 1) ("duplicate label: " +:+ quoted (label a))).
Proof.
  intros Hl. unfold add_label, bind, get.
  rewrite bool_decide_eq_true_2 by exact Hl. reflexivity.
Qed.

Lemma check_operands_ok valid n a x b : check_operands valid n a = Ok (x, b) -> b = a.
Proof.
  unfold check_operands. destruct valid; [|discriminate].
  intros E. injection E as _ <-. reflexivity.
Qed.


Lemma bind_assoc {A B C} (m : M A) (k : A -> M B) (h : B -> M C) a :
  bind (bind m k) h a = bind m (fun x => bind (k x) h) a.
Proof. unfold bind. destruct (m a) as [[x b]|]; reflexivity. Qed.

(** [assemble] is its first pass, the setup and the second pass. *)
Lemma assemble_two_passes (depth : nat) (lines : list string) (a : Assembler) :
  assemble depth lines a
  = (first_pass depth lines ;; second_pass_setup ;; do_pass depth lines) a.
Proof.
  unfold assemble, first_pass, second_pass_setup.
  repeat rewrite bind_assoc. unfold bind.
  destruct (modify reset_state a) as [[? ?]|]; [|reflexivity].
  destruct (preprocess_macros lines _) as [[? ?]|]; [|reflexivity].
  destruct (modify (set_source_pass 1) _) as [[? ?]|]; [|reflexivity].
  destruct (do_pass depth lines _) as [[? ?]|]; reflexivity.
Qed.



Lemma keeps_preprocess_macros_loop lines i in_macro_def current_macro :
  keeps references_grow (preprocess_macros_loop lines i in_macro_def current_macro).
Proof.
  revert i in_macro_def current_macro.
  induction lines as [|l lines IH]; intros i in_macro_def current_macro; cbn.
  - apply keeps_pure.
  - keeps_with ltac:(first [ apply IH | apply keeps_modify; intros ? ?; reflexivity ]).
Qed.

Lemma keeps_assemble (depth : nat) (lines : list string) :
  keeps references_grow (assemble depth lines).
Proof.
  unfold assemble, preprocess_macros.
  keeps_with ltac:(first [ apply keeps_preprocess_macros_loop
                         | apply (keeps_weaken extends); [apply extends_grows | apply keeps_do_pass]
                         | apply keeps_modify; intros ? ?; reflexivity ]).
Qed.

(** C10: [reset_state] leaves [cross_reference_data] as it was and puts
    the other state variables back to those of a new assembler (the
    conditional stack is emptied by [do_pass], the fields of the parsed
    line are filled by [parse]); so the lists [assemble] ends with start
    with the lists it was called with.  Run twice on Scenario B, it
    leaves every entry twice, and the same image as the first run. *)
Theorem reset_state_keeps_cross_references :
  (forall a, cross_reference_data (reset_state a) = cross_reference_data a
             /\ set_parsed EmptyString EmptyString EmptyString EmptyString EmptyString
                  (set_if_stack [] (reset_state a))
                = set_cross_reference_data (cross_reference_data a) new_Assembler)
  /\ (forall depth lines a, do_pass depth lines (set_if_stack [] a) = do_pass depth lines a)
  /\ (forall depth lines a a',
        assemble depth lines a = Ok (tt, a') ->
        forall k, default [] (cross_reference_data a !! k)
                    `prefix_of` default [] (cross_reference_data a' !! k))
  /\ (exists a1 a2,
        assemble 1 scenario_B new_Assembler = Ok (tt, a1)
        /\ assemble 1 scenario_B a1 = Ok (tt, a2)
        /\ cross_reference_data a1 !! "target" = Some [-4; 2]
        /\ cross_reference_data a2 !! "target" = Some [-4; 2; -4; 2]
        /\ output a2 = output a1 /\ symbol_table a2 = symbol_table a1).
Proof.
  split; [intros a; split; reflexivity|].
  split; [reflexivity|].
  split; [intros depth lines a a' E; exact (keeps_assemble depth lines _ _ _ E)|].
  do 2 eexists.
  split; [vm_compute; reflexivity|].
  split; [vm_compute; reflexivity|].
  repeat split; vm_compute; reflexivity.
Qed.

(** * The location counter: what a handler adds does not depend on the pass *)

Lemma to_uint16_add (z n m : Z) :
  to_uint16 (to_uint16 (z + n) + m) = to_uint16 (z + (n + m)).
Proof.
  unfold to_uint16, wrap. cbn [andb].
  rewrite Zplus_mod_idemp_l. f_equal. lia.
Qed.

Lemma apply_then_shift (s t : shift) (z : Z) :
  apply_shift (then_shift s t) z = apply_shift t (apply_shift s z).
Proof.
  destruct s, t; cbn; try reflexivity.
  symmetry. apply to_uint16_add.
Qed.

Lemma advances_frame {A} F (m : M A) :
  (forall l, F l = Keep) -> keeps stays m -> advances F m.
Proof.
  intros HF Hm a x a' E. destruct (Hm a x a' E) as [Ha Hl].
  split; [exact Hl | rewrite HF; exact Ha].
Qed.

Lemma advances_fail {A} F (e : failure) : advances F (@fail A e).
Proof. intros a x a' E. discriminate. Qed.

Lemma advances_bind_l {A B} F (m : M A) (k : A -> M B) :
  keeps stays m -> (forall x, advances F (k x)) -> advances F (bind m k).
Proof.
  intros Hm Hk a y a' E. apply bind_ok in E as (x & b & E1 & E2).
  destruct (Hm a x b E1) as [Ha Hl]. destruct (Hk x b y a' E2) as [Hl' Ha'].
  split; [congruence | rewrite Ha', Hl, Ha; reflexivity].
Qed.

Lemma advances_bind_r {A B} F (m : M A) (k : A -> M B) :
  advances F m -> (forall x, keeps stays (k x)) -> advances F (bind m k).
Proof.
  intros Hm Hk a y a' E. apply bind_ok in E as (x & b & E1 & E2).
  destruct (Hm a x b E1) as [Hl Ha]. destruct (Hk x b y a' E2) as [Ha' Hl'].
  split; congruence.
Qed.

Lemma advances_bind {A B} F G (m : M A) (k : A -> M B) :
  advances F m -> (forall x, advances G (k x)) ->
  advances (fun l => then_shift (F l) (G l)) (bind m k).
Proof.
  intros Hm Hk a y a' E. apply bind_ok in E as (x & b & E1 & E2).
  destruct (Hm a x b E1) as [Hl Ha]. destruct (Hk x b y a' E2) as [Hl' Ha'].
  split; [congruence|].
  rewrite apply_then_shift, Ha', Hl, Ha. reflexivity.
Qed.

Lemma keeps_stays_setter (f : Assembler -> Assembler) :
  (forall a, address (f a) = address a) -> (forall a, line_of (f a) = line_of a) ->
  keeps stays (modify f).
Proof. intros Ha Hl. apply keeps_modify. intros a. split; auto. Qed.

Lemma keeps_stays_add_label : keeps stays add_label.
Proof.
  unfold add_label.
  keeps_with ltac:(apply keeps_stays_setter; reflexivity).
Qed.

Lemma advances_pass_action (n : Z) (bytes : list Z) (flag : bool) :
  advances (fun _ => Add n) (pass_action n bytes flag).
Proof.
  intros a x a' E. unfold pass_action in E.
  apply bind_ok in E as (a1 & b & Eg & E). injection Eg as <- <-.
  apply bind_ok in E as (u & b & E1 & E2). injection E2 as _ <-.
  assert (Hk : keeps stays (if source_pass a =? 1
                            then when (negb (Str.empty (label a)) && flag) add_label
                            else modify (fun a => set_output (output a ++ bytes) a))).
  { keeps_with ltac:(first [ apply keeps_stays_add_label
                           | apply keeps_modify; intros; apply frame_output ]). }
  pose proof (Hk _ _ _ E1) as Hb.
  destruct Hb as [Ha Hl]. split; [exact Hl | cbn; rewrite Ha; reflexivity].
Qed.

(** A call that leaves the location counter and the parsed line alone. *)
Ltac stays_call :=
  first [ keeps_frame | apply keeps_stays_add_label
        | apply keeps_stays_setter; reflexivity
        | apply keeps_modify; intros; apply frame_output
        | apply keeps_modify; intros ?;
          match goal with |- stays _ (if ?c then _ else _) => destruct c end;
          [apply frame_output | apply frame_refl] ].

(** Walks a handler up to its [pass_action]. *)
Ltac advances_walk :=
  repeat (cbv zeta;
    lazymatch goal with
    | |- advances _ (fail _) => apply advances_fail
    | |- advances _ (report_error _ _) => apply advances_fail
    | |- advances _ (pass_action _ _ _) => apply advances_pass_action
    | |- advances _ (bind (pass_action _ _ _) _) =>
        apply advances_bind_r; [apply advances_pass_action | intros ?; solve [keeps_with stays_call]]
    | |- advances _ (bind _ _) =>
        apply advances_bind_l; [solve [keeps_with stays_call] | intros ?]
    | |- advances _ (if ?b then _ else _) => destruct b
    | |- advances _ (match ?x with _ => _ end) => destruct x
    | |- advances _ _ =>
        apply advances_frame; [intros; reflexivity | solve [keeps_with stays_call]]
    end).

Lemma flagged_loop_advances {A} (body : bool -> A -> M unit) (G : A -> shift)
    (flag : bool) (l : list A) :
  (forall b x, advances (fun _ => G x) (body b x)) ->
  advances (fun _ => shift_sum (List.map G l)) (Mnemonic.flagged_loop body flag l).
Proof.
  intros Hb. revert flag. induction l as [|x l IH]; intros flag; cbn.
  - apply advances_frame; [reflexivity | apply keeps_pure].
  - apply (advances_bind (fun _ => G x) (fun _ => shift_sum (List.map G l))).
    + apply Hb.
    + intros _. apply IH.
Qed.

Lemma for_each_advances {A} (f : A -> M unit) (s : shift) (l : list A) :
  (forall x, advances (fun _ => s) (f x)) ->
  advances (fun _ => shift_sum (List.map (fun _ => s) l)) (for_each f l).
Proof.
  intros Hf. induction l as [|x l IH]; cbn.
  - apply advances_frame; [reflexivity | apply keeps_pure].
  - apply (advances_bind (fun _ => s) (fun _ => shift_sum (List.map (fun _ => s) l))).
    + apply Hf.
    + intros _. apply IH.
Qed.

Lemma db_byte_advances (flag : bool) (s : string) :
  advances (fun _ => Add 1) (Mnemonic.db_byte flag s).
Proof. unfold Mnemonic.db_byte. advances_walk. Qed.

Lemma db_argument_advances (flag : bool) (arg : string) :
  advances (fun _ => db_argument_shift arg) (Mnemonic.db_argument flag arg).
Proof.
  unfold Mnemonic.db_argument, db_argument_shift.
  apply advances_bind_l; [apply keeps_get | intros a]. cbv zeta.
  destruct (_ && _ && _).
  - apply flagged_loop_advances. intros. apply db_byte_advances.
  - destruct (is_quote_delimited (trim arg)); advances_walk.
Qed.

Lemma operands_of_line (a : Assembler) : Mnemonic.all_operands a = operands_of (line_of a).
Proof. reflexivity. Qed.

Lemma db_advances : advances db_shift Mnemonic.db.
Proof.
  intros a x a' E. unfold Mnemonic.db in E.
  apply bind_ok in E as (a1 & b & Eg & E). injection Eg as <- <-.
  apply bind_ok in E as (u & b & Ec & E). apply check_operands_ok in Ec as ->.
  cbv zeta in E. rewrite operands_of_line in E.
  exact (flagged_loop_advances _ db_argument_shift _ _ db_argument_advances a x a' E).
Qed.

Lemma dw_advances : advances dw_shift Mnemonic.dw.
Proof.
  intros a x a' E. unfold Mnemonic.dw in E.
  apply bind_ok in E as (a1 & b & Eg & E). injection Eg as <- <-.
  apply bind_ok in E as (u & b & Ec & E). apply check_operands_ok in Ec as ->.
  cbv zeta in E. rewrite operands_of_line in E.
  refine (for_each_advances _ (Add 2) _ _ a x a' E).
  intros arg. advances_walk.
Qed.

(** [ds] adds the value of its first operand, [org] jumps to it. *)
Lemma ds_advances_by_value a x a' :
  Mnemonic.ds a = Ok (x, a') ->
  exists size b, evaluate_expression (operand1 a) a = Ok (size, b)
                 /\ address a' = to_uint16 (address a + size).
Proof.
  intros E. unfold Mnemonic.ds in E.
  apply bind_ok in E as (a1 & b & Eg & E). injection Eg as <- <-.
  apply bind_ok in E as (u & b & Ec & E). apply check_operands_ok in Ec as ->.
  apply bind_ok in E as (size & c & Ev & E).
  exists size, c. split; [exact Ev|].
  assert (Hc : stays a c) by (eapply (keeps_evaluate_expression (R:=stays)); eassumption).
  revert E.
  match goal with |- ?m c = _ -> _ =>
    assert (Hm : advances (fun _ => Add size) m) by advances_walk
  end.
  intros E. destruct (Hm _ _ _ E) as [_ Ha]. destruct Hc as [Hc _].
  rewrite Ha, Hc. reflexivity.
Qed.

Lemma org_advances_by_value a x a' :
  Mnemonic.org a = Ok (x, a') ->
  exists v b, evaluate_expression (operand1 a) a = Ok (v, b)
              /\ address a' = to_uint16 v.
Proof.
  intros E. unfold Mnemonic.org in E.
  apply bind_ok in E as (a1 & b & Eg & E). injection Eg as <- <-.
  apply bind_ok in E as (u & b & Ec & E). apply check_operands_ok in Ec as ->.
  apply bind_ok in E as (v & c & Ev & E).
  exists v, c. split; [exact Ev|].
  cbv zeta in E.
  apply bind_ok in E as (u1 & d & _ & E). injection E as _ <-. reflexivity.
Qed.

Ltac advances_entry :=
  cbn [fst snd];
  first [ left; split; reflexivity
        | right; left; split; reflexivity
        | right; right;
          first [ exists db_shift; exact db_advances
                | exists dw_shift; exact dw_advances
                | eexists (fun _ => _);
                  match goal with |- advances _ ?h => unfold h end; advances_walk ] ].

Lemma handlers_advance :
  Forall (fun entry =>
            (fst entry = "ds" /\ snd entry = Mnemonic.ds)
            \/ (fst entry = "org" /\ snd entry = Mnemonic.org)
            \/ exists F, advances F (snd entry))
         mnemonic_handlers.
Proof.
  unfold mnemonic_handlers.
  repeat (constructor; [advances_entry|]).
  constructor.
Qed.

Lemma lookup_handler_entry (P : string * M unit -> Prop) table m h :
  Forall P table -> lookup_handler table m = Some h -> exists k, Str.eqb k m = true /\ P (k, h).
Proof.
  induction 1 as [|[k h'] table Hh _ IH]; cbn; [discriminate|].
  destruct (Str.eqb k m) eqn:Hk; [|exact IH].
  intros E. injection E as <-. exists k. split; assumption.
Qed.

Lemma advances_alike {A} F (m : M A) a1 a2 x1 x2 a1' a2' :
  advances F m -> line_of a1 = line_of a2 -> address a1 = address a2 ->
  m a1 = Ok (x1, a1') -> m a2 = Ok (x2, a2') -> address a1' = address a2'.
Proof.
  intros Hm Hl Ha E1 E2.
  destruct (Hm _ _ _ E1) as [_ ->]. destruct (Hm _ _ _ E2) as [_ ->].
  rewrite Hl, Ha. reflexivity.
Qed.

(** A parsed line met with the same location counter in two states
    (two passes) leaves [process_instruction] with the same location
    counter in both, whatever else the states hold; for [ds] and [org],
    when the value of their operand is the same in both. *)
Lemma process_instruction_advances_alike (a1 a2 a1' a2' : Assembler) :
  line_of a1 = line_of a2 ->
  address a1 = address a2 ->
  (mnemonic a1 = "ds" \/ mnemonic a1 = "org" -> operand_value_agrees a1 a2) ->
  process_instruction a1 = Ok (tt, a1') ->
  process_instruction a2 = Ok (tt, a2') ->
  address a1' = address a2'.
Proof.
  intros Hl Ha Hv E1 E2.
  assert (Hm : mnemonic a2 = mnemonic a1 /\ label a2 = label a1
               /\ operand1 a2 = operand1 a1).
  { unfold line_of in Hl. injection Hl as -> -> -> _. auto. }
  destruct Hm as (Hm & Hlab & Hop).
  unfold process_instruction in E1, E2.
  apply bind_ok in E1 as (b1 & c1 & Eg1 & E1). injection Eg1 as <- <-.
  apply bind_ok in E2 as (b2 & c2 & Eg2 & E2). injection Eg2 as <- <-.
  rewrite Hm, Hlab in E2.
  destruct (Str.empty (mnemonic a1) && Str.empty (label a1)).
  { injection E1 as <-. injection E2 as <-. exact Ha. }
  destruct (lookup_handler mnemonic_handlers (mnemonic a1)) as [h|] eqn:Hh.
  - destruct (lookup_handler_entry _ _ _ _ handlers_advance Hh) as (k & Hk & HP).
    apply String.eqb_eq in Hk. cbn [fst snd] in HP.
    destruct HP as [[Hds ->] | [[Horg ->] | [F HF]]].
    + destruct (ds_advances_by_value _ _ _ E1) as (v1 & d1 & Ev1 & ->).
      destruct (ds_advances_by_value _ _ _ E2) as (v2 & d2 & Ev2 & ->).
      rewrite (Hv (or_introl (eq_trans (eq_sym Hk) Hds)) _ _ _ _ Ev1 Ev2), Ha.
      reflexivity.
    + destruct (org_advances_by_value _ _ _ E1) as (v1 & d1 & Ev1 & ->).
      destruct (org_advances_by_value _ _ _ E2) as (v2 & d2 & Ev2 & ->).
      rewrite (Hv (or_intror (eq_trans (eq_sym Hk) Horg)) _ _ _ _ Ev1 Ev2).
      reflexivity.
    + exact (advances_alike F h _ _ _ _ _ _ HF Hl Ha E1 E2).
  - destruct (Str.empty (mnemonic a1) && negb (Str.empty (label a1))).
    + exact (advances_alike _ _ _ _ _ _ _ _ (advances_pass_action 0 [] true) Hl Ha E1 E2).
    + destruct (negb (Str.empty (mnemonic a1))); [discriminate|].
      injection E1 as <-. injection E2 as <-. exact Ha.
Qed.

(** * Number parser: rendering and reading back *)

Lemma code_chr (n : Z) : 0 <= n < 256 -> code (chr n) = n.
Proof.
  intros Hn. unfold code, chr.
  rewrite N_ascii_embedding by lia. lia.
Qed.

Lemma digit_value_digit_char (d : Z) :
  0 <= d < 36 -> digit_value (digit_char d) = Some d.
Proof.
  intros Hd. unfold digit_value, digit_char, isdigit, isalpha, isupper, islower, tolower, isupper.
  destruct (d <? 10) eqn:H10.
  - apply Z.ltb_lt in H10. rewrite code_chr by lia.
    replace ((48 <=? 48 + d) && (48 + d <=? 57)) with true by (symmetry; apply andb_true_iff; lia).
    f_equal. lia.
  - apply Z.ltb_ge in H10. rewrite code_chr by lia.
    replace ((48 <=? 55 + d) && (55 + d <=? 57)) with false by (symmetry; apply andb_false_iff; lia).
    replace ((65 <=? 55 + d) && (55 + d <=? 90)) with true by (symmetry; apply andb_true_iff; lia).
    cbn [orb]. rewrite code_chr by lia. f_equal. lia.
Qed.

Section Rendering.
Variable base : Z.
Hypothesis base_range : 2 <= base <= 16.

Lemma render_digits_S (f : nat) (n : Z) (acc : string) :
  render_digits (S f) base n acc
  = if n / base =? 0 then String (digit_char (n mod base)) acc
    else render_digits f base (n / base) (String (digit_char (n mod base)) acc).
Proof. reflexivity. Qed.

Lemma scan_render_digits (f : nat) : forall (n : Z) (acc : string) (pre : option Z),
  0 <= n < 2 ^ (Z.of_nat f + 1) ->
  exists k, 0 <= k
    /\ scan_digits base (render_digits (S f) base n acc) pre
       = scan_digits base acc (Some (default 0 pre * base ^ k + n)).
Proof.
  induction f as [|f IH]; intros n acc pre Hn.
  - assert (Hq : n / base = 0) by (apply Z.div_small; cbn in Hn; lia).
    exists 1. split; [lia|].
    rewrite render_digits_S, Hq. cbn [Z.eqb scan_digits].
    rewrite digit_value_digit_char by (pose proof (Z.mod_pos_bound n base); lia).
    replace (n mod base <? base) with true
      by (symmetry; apply Z.ltb_lt; apply Z.mod_pos_bound; lia).
    rewrite Z.mod_small by (apply Z.div_small_iff in Hq; lia).
    f_equal. f_equal. lia.
  - rewrite render_digits_S.
    pose proof (Z.mod_pos_bound n base ltac:(lia)) as Hm.
    destruct (n / base =? 0) eqn:Hq.
    + apply Z.eqb_eq in Hq.
      exists 1. split; [lia|]. cbn [scan_digits].
      rewrite digit_value_digit_char by lia.
      replace (n mod base <? base) with true by (symmetry; apply Z.ltb_lt; lia).
      rewrite Z.mod_small by (apply Z.div_small_iff in Hq; lia).
      f_equal. f_equal. lia.
    + apply Z.eqb_neq in Hq.
      assert (Hd : 0 <= n / base < 2 ^ (Z.of_nat f + 1)).
      { split; [apply Z.div_pos; lia|].
        apply Z.div_lt_upper_bound; [lia|].
        replace (Z.of_nat (S f) + 1) with (Z.succ (Z.of_nat f + 1)) in Hn by lia.
        rewrite Z.pow_succ_r in Hn by lia.
        assert (0 < 2 ^ (Z.of_nat f + 1)) by (apply Z.pow_pos_nonneg; lia).
        nia. }
      destruct (IH (n / base) (String (digit_char (n mod base)) acc) pre Hd)
        as (k & Hk & E).
      exists (k + 1). split; [lia|].
      rewrite E. cbn [scan_digits].
      rewrite digit_value_digit_char by lia.
      replace (n mod base <? base) with true by (symmetry; apply Z.ltb_lt; lia).
      cbn [default]. f_equal. f_equal.
      rewrite Z.pow_add_r, Z.pow_1_r by lia.
      unfold id. rewrite (Z.div_mod n base) at 3 by lia. ring.
Qed.

Lemma log2_fuel (n : Z) : 0 <= n -> 0 <= n < 2 ^ (Z.of_nat (Z.to_nat (Z.log2 n)) + 1).
Proof.
  intros Hn. rewrite Z2Nat.id by apply Z.log2_nonneg.
  destruct (Z.eq_dec n 0) as [->|Hz]; [cbn; lia|].
  pose proof (Z.log2_spec n ltac:(lia)). lia.
Qed.

Lemma scan_render (n : Z) : 0 <= n -> scan_digits base (render base n) None = Some n.
Proof.
  intros Hn. unfold render.
  destruct (scan_render_digits _ n EmptyString None (log2_fuel n Hn)) as (k & _ & E).
  rewrite E. cbn. reflexivity.
Qed.

Lemma all_chars_render_digits (f : nat) : forall (n : Z) (acc : string),
  0 <= n -> all_chars (is_digit_in base) acc = true ->
  all_chars (is_digit_in base) (render_digits f base n acc) = true.
Proof.
  induction f as [|f IH]; intros n acc Hn Hacc; [exact Hacc|].
  rewrite render_digits_S.
  pose proof (Z.mod_pos_bound n base ltac:(lia)) as Hm.
  assert (Hc : all_chars (is_digit_in base) (String (digit_char (n mod base)) acc) = true).
  { cbn. rewrite Hacc. unfold is_digit_in.
    rewrite digit_value_digit_char by lia.
    replace (n mod base <? base) with true by (symmetry; apply Z.ltb_lt; lia).
    reflexivity. }
  destruct (n / base =? 0); [exact Hc|].
  apply IH; [apply Z.div_pos; lia | exact Hc].
Qed.

Lemma render_digits_not_empty (f : nat) (n : Z) (acc : string) :
  render_digits (S f) base n acc <> EmptyString.
Proof.
  revert n acc. induction f as [|f IH]; intros n acc; rewrite render_digits_S.
  - destruct (n / base =? 0); discriminate.
  - destruct (n / base =? 0); [discriminate|]. apply IH.
Qed.

Lemma all_chars_render (n : Z) :
  0 <= n -> all_chars (is_digit_in base) (render base n) = true.
Proof. intros Hn. apply all_chars_render_digits; [exact Hn | reflexivity]. Qed.

Lemma render_not_empty (n : Z) : render base n <> EmptyString.
Proof. apply render_digits_not_empty. Qed.

End Rendering.

(** What a digit of a base up to 16 is not. *)
Lemma digit_char_facts (c : ascii) :
  is_digit_in 16 c = true ->
  isspace c = false /\ ch_eqb c minus_sign = false /\ (code c =? 43) = false
  /\ (code (tolower c) =? 120) = false.
Proof.
  destruct c as [[] [] [] [] [] [] [] []]; vm_compute; intros H;
    try discriminate H; repeat split; reflexivity.
Qed.

Lemma decimal_digit_no_suffix (c : ascii) :
  is_digit_in 10 c = true ->
  (code (tolower c) =? 104) = false /\ (code (tolower c) =? 113) = false
  /\ (code (tolower c) =? 98) = false.
Proof.
  destruct c as [[] [] [] [] [] [] [] []]; vm_compute; intros H;
    try discriminate H; repeat split; reflexivity.
Qed.

Lemma is_digit_in_le (base : Z) (c : ascii) :
  base <= 16 -> is_digit_in base c = true -> is_digit_in 16 c = true.
Proof.
  unfold is_digit_in. destruct (digit_value c); [|trivial].
  intros Hb H. apply Z.ltb_lt in H. apply Z.ltb_lt. lia.
Qed.

Lemma all_chars_impl (p q : ascii -> bool) (s : string) :
  (forall c, p c = true -> q c = true) -> all_chars p s = true -> all_chars q s = true.
Proof.
  intros Hpq. induction s as [|c s IH]; cbn; [trivial|].
  intros H. apply andb_true_iff in H as [Hc Hs].
  rewrite (Hpq c Hc), (IH Hs). reflexivity.
Qed.

Lemma append_cons (c : ascii) (s t : string) :
  String c s +:+ t = String c (s +:+ t).
Proof. reflexivity. Qed.

Lemma all_chars_app (p : ascii -> bool) (s t : string) :
  all_chars p (s +:+ t) = all_chars p s && all_chars p t.
Proof.
  induction s as [|c s IH]; [reflexivity|].
  rewrite append_cons. cbn [all_chars].
  rewrite IH. apply andb_assoc.
Qed.

Lemma trim_no_space (s : string) : all_chars not_space s = true -> trim s = s.
Proof.
  intros H. unfold trim, ltrim.
  assert (Hl : Str.skip_ws s = s).
  { destruct s as [|c s]; [reflexivity|]. cbn in *.
    apply andb_true_iff in H as [Hc _]. unfold not_space in Hc.
    apply negb_true_iff in Hc. rewrite Hc. reflexivity. }
  rewrite Hl. induction s as [|c s IH]; [reflexivity|].
  cbn in H. apply andb_true_iff in H as [Hc Hs].
  assert (Hs' : Str.skip_ws s = s).
  { destruct s as [|d s]; [reflexivity|]. cbn in *.
    apply andb_true_iff in Hs as [Hd _]. unfold not_space in Hd.
    apply negb_true_iff in Hd. rewrite Hd. reflexivity. }
  cbn. rewrite (IH Hs Hs').
  unfold not_space in Hc. apply negb_true_iff in Hc. rewrite Hc.
  destruct s; reflexivity.
Qed.

Lemma back_app_char (s : string) (c : ascii) :
  Str.back (s +:+ String c EmptyString) = Some c.
Proof.
  induction s as [|d s IH]; [reflexivity|].
  rewrite append_cons. cbn [Str.back].
  destruct (s +:+ String c EmptyString) eqn:E; [|exact IH].
  destruct s; discriminate.
Qed.

Lemma pop_back_app_char (s : string) (c : ascii) :
  Str.pop_back (s +:+ String c EmptyString) = s.
Proof.
  induction s as [|d s IH]; [reflexivity|].
  rewrite append_cons. cbn [Str.pop_back].
  destruct (s +:+ String c EmptyString) eqn:E; [destruct s; discriminate|].
  rewrite IH. reflexivity.
Qed.

Lemma back_cons (d : ascii) (s : string) : exists c, Str.back (String d s) = Some c.
Proof.
  revert d. induction s as [|e s IH]; intros d; [exists d; reflexivity|].
  destruct (IH e) as (c & E). exists c. exact E.
Qed.

Lemma back_all_chars (p : ascii -> bool) (s : string) (c : ascii) :
  all_chars p s = true -> Str.back s = Some c -> p c = true.
Proof.
  induction s as [|d s IH]; cbn; [discriminate|].
  intros H E. apply andb_true_iff in H as [Hd Hs].
  destruct s as [|e s]; [injection E as <-; exact Hd|].
  exact (IH Hs E).
Qed.

Lemma to_int_small (n : Z) : 0 <= n <= INT_MAX -> to_int n = n.
Proof.
  unfold INT_MAX, to_int, wrap. intros Hn. cbn [andb].
  rewrite Z.mod_small by lia.
  replace (2 ^ (32 - 1) <=? n) with false by (symmetry; apply Z.leb_gt; lia).
  reflexivity.
Qed.

Section ReadingBack.
Variable base : Z.
Hypothesis base_range : 2 <= base <= 16.
Variable n : Z.
Hypothesis n_range : 0 <= n <= INT_MAX.

Lemma render_digit16 : all_chars (is_digit_in 16) (render base n) = true.
Proof.
  apply (all_chars_impl (is_digit_in base)).
  - intros c. apply is_digit_in_le. lia.
  - apply all_chars_render; lia.
Qed.

Lemma strto_render : strto (render base n) base = Converted false n.
Proof.
  pose proof render_digit16 as Hall.
  pose proof (scan_render base base_range n ltac:(lia)) as Hscan.
  pose proof (render_not_empty base n) as Hne.
  unfold strto.
  destruct (render base n) as [|d r] eqn:Hr; [contradiction|].
  cbn in Hall. apply andb_true_iff in Hall as [Hd Hrest].
  destruct (digit_char_facts d Hd) as (Hsp & Hminus & Hplus & _).
  cbn [Str.skip_ws]. rewrite Hsp, Hminus, Hplus.
  assert (Hx : match r with
               | String x (String h t) =>
                   (base =? 16) && (code d =? 48) && (code (tolower x) =? 120)
                   && is_digit_in 16 h
               | _ => false
               end = false).
  { destruct r as [|x [|h t]]; try reflexivity.
    cbn in Hrest. apply andb_true_iff in Hrest as [Hx _].
    destruct (digit_char_facts x Hx) as (_ & _ & _ & ->).
    rewrite andb_false_r. reflexivity. }
  destruct r as [|x [|h t]]; try (rewrite Hscan; reflexivity).
  rewrite Hx, Hscan. reflexivity.
Qed.

Lemma stoul_render : stoul (render base n) base = inr n.
Proof.
  unfold stoul. rewrite strto_render.
  replace (ULONG_MAX <? n) with false; [reflexivity|].
  symmetry. apply Z.ltb_ge. unfold ULONG_MAX, INT_MAX in *. lia.
Qed.

Lemma render_front : exists d, Str.front (render base n) = Some d /\ is_digit_in 16 d = true.
Proof.
  pose proof render_digit16 as Hall.
  pose proof (render_not_empty base n) as Hne.
  destruct (render base n) as [|d r]; [contradiction|].
  cbn in Hall. apply andb_true_iff in Hall as [Hd _].
  exists d. split; [reflexivity | exact Hd].
Qed.

(** A rendering followed by its radix letter is read back. *)
Lemma get_number_suffixed (c : ascii) (a : Assembler) :
  isspace c = false ->
  (if code (tolower c) =? 104 then 16
   else if code (tolower c) =? 113 then 8
   else if code (tolower c) =? 98 then 2 else 0) = base ->
  get_number (render base n +:+ String c EmptyString) a = Ok (n, a).
Proof.
  intros Hc Hbase. unfold get_number.
  assert (Hns : all_chars not_space (render base n +:+ String c EmptyString) = true).
  { rewrite all_chars_app. apply andb_true_iff. split.
    - apply (all_chars_impl (is_digit_in 16)); [|apply render_digit16].
      intros d Hd. unfold not_space. destruct (digit_char_facts d Hd) as (-> & _). reflexivity.
    - cbn. unfold not_space. rewrite Hc. reflexivity. }
  rewrite (trim_no_space _ Hns).
  destruct render_front as (d & Hfront & Hd).
  destruct (render base n) as [|d' r] eqn:Hr; [discriminate|].
  injection Hfront as ->.
  rewrite append_cons. cbn [Str.empty Str.front].
  destruct (digit_char_facts d Hd) as (_ & Hminus & _).
  rewrite bool_decide_eq_false_2.
  2:{ intros E. injection E as ->. discriminate Hminus. }
  rewrite <- append_cons.
  rewrite back_app_char, pop_back_app_char. cbn [default from_option]. unfold id.
  rewrite <- Hr.
  destruct (code (tolower c) =? 104);
    [|destruct (code (tolower c) =? 113); [|destruct (code (tolower c) =? 98); [|lia]]];
    rewrite Hbase, stoul_render; unfold pure;
    rewrite to_int_small by exact n_range; reflexivity.
Qed.

End ReadingBack.

Lemma get_number_decimal (n : Z) (a : Assembler) :
  0 <= n <= INT_MAX -> get_number (render 10 n) a = Ok (n, a).
Proof.
  intros Hn. unfold get_number.
  assert (Hb : 2 <= 10 <= 16) by lia.
  pose proof (all_chars_render 10 Hb n ltac:(lia)) as H10.
  pose proof (render_digit16 10 Hb n Hn) as H16.
  assert (Hns : all_chars not_space (render 10 n) = true).
  { apply (all_chars_impl (is_digit_in 16)); [|exact H16].
    intros d Hd. unfold not_space. destruct (digit_char_facts d Hd) as (-> & _). reflexivity. }
  rewrite (trim_no_space _ Hns).
  destruct (render_front 10 Hb n Hn) as (d & Hfront & Hd).
  pose proof (stoul_render 10 Hb n Hn) as Hst.
  destruct (render 10 n) as [|d' r] eqn:Hr; [discriminate|].
  injection Hfront as ->.
  cbn [Str.empty Str.front].
  destruct (digit_char_facts d Hd) as (_ & Hminus & _).
  rewrite bool_decide_eq_false_2.
  2:{ intros E. injection E as ->. discriminate Hminus. }
  destruct (back_cons d r) as (l & Hl). rewrite Hl.
  pose proof (back_all_chars _ _ _ H10 Hl) as Hdig.
  destruct (decimal_digit_no_suffix l Hdig) as (H1 & H2 & H3).
  cbn [default from_option]. unfold id. rewrite H1, H2, H3, Hst. unfold pure.
  rewrite to_int_small by exact Hn. reflexivity.
Qed.

(** C6: for every n from 0 to FFFFH, [get_number] returns n on the
    hexadecimal rendering of n followed by H or h, on the octal one
    followed by Q or q, on the binary one followed by B or b, and on
    the decimal one without suffix; it leaves the assembler as it is. *)
Theorem get_number_round_trip (n : Z) (a : Assembler) :
  0 <= n <= 0xFFFF ->
  get_number (render 16 n +:+ "H") a = Ok (n, a)
  /\ get_number (render 16 n +:+ "h") a = Ok (n, a)
  /\ get_number (render 8 n +:+ "Q") a = Ok (n, a)
  /\ get_number (render 8 n +:+ "q") a = Ok (n, a)
  /\ get_number (render 2 n +:+ "B") a = Ok (n, a)
  /\ get_number (render 2 n +:+ "b") a = Ok (n, a)
  /\ get_number (render 10 n) a = Ok (n, a).
Proof.
  intros Hn.
  assert (Hi : 0 <= n <= INT_MAX) by (unfold INT_MAX; lia).
  repeat split;
    first [ apply get_number_decimal; exact Hi
          | apply get_number_suffixed; [lia | exact Hi | reflexivity | reflexivity] ].
Qed.

Lemma get_number_round_trip_witness :
  0 <= 0xBEEF <= 0xFFFF
  /\ render 16 0xBEEF = "BEEF" /\ render 8 0xBEEF = "137357"
  /\ render 2 0xBEEF = "1011111011101111" /\ render 10 0xBEEF = "48879"
  /\ get_number "BEEFH" new_Assembler = Ok (0xBEEF, new_Assembler)
  /\ get_number "137357q" new_Assembler = Ok (0xBEEF, new_Assembler)
  /\ get_number "48879" new_Assembler = Ok (0xBEEF, new_Assembler).
Proof.
  assert (H : 0 <= 0xBEEF <= 0xFFFF) by lia.
  pose proof (get_number_round_trip 0xBEEF new_Assembler H) as (H1 & _ & _ & H4 & _ & _ & H7).
  repeat split; try reflexivity; try lia; assumption.
Defined.

(** * The bounds of the model are never met by the evaluator *)

Lemma fuelled_pure {A} (Q : A -> Prop) (x : A) : Q x -> fuelled Q (pure x).
Proof. intros H a. exact H. Qed.

Lemma fuelled_fail {A} (Q : A -> Prop) (e : failure) :
  e <> OutOfFuel -> fuelled Q (fail e).
Proof. intros H a. exact H. Qed.

Lemma fuelled_bind {A B} (P : A -> Prop) (Q : B -> Prop) (m : M A) (k : A -> M B) :
  fuelled P m -> (forall x, P x -> fuelled Q (k x)) -> fuelled Q (bind m k).
Proof.
  intros Hm Hk a. unfold bind. specialize (Hm a).
  destruct (m a) as [[x b]|f]; [apply (Hk x Hm) | exact Hm].
Qed.

Lemma fuelled_weaken {A} (P Q : A -> Prop) (m : M A) :
  (forall x, P x -> Q x) -> fuelled P m -> fuelled Q m.
Proof.
  intros H Hm a. specialize (Hm a).
  destruct (m a) as [[x b]|f]; [apply H; exact Hm | exact Hm].
Qed.

Lemma fuelled_get_number (input : string) : fuelled (fun _ => True) (get_number input).
Proof.
  intros a. unfold get_number.
  destruct (Str.empty (trim input)); [exact I|].
  destruct (bool_decide _).
  - destruct (stoi _ _); cbn; [discriminate | exact I].
  - destruct (if _ =? 104 then _ else _) as [base s].
    destruct (stoul s base); cbn; [discriminate | exact I].
Qed.

Lemma fuelled_evaluate_single_term (term_str : string) :
  fuelled (fun _ => True) (evaluate_single_term term_str).
Proof.
  intros a. unfold evaluate_single_term.
  destruct (Str.empty _); [exact I|].
  destruct (is_char_constant _); [exact I|].
  unfold bind, get.
  destruct (Str.eqb _ "$"); [exact I|].
  destruct (Str.starts_with "low " _).
  { destruct (symbol_table a !! _); [exact I|].
    destruct (source_pass a =? 2); cbn; [discriminate | exact I]. }
  destruct (Str.starts_with "high " _).
  { destruct (symbol_table a !! _); [exact I|].
    destruct (source_pass a =? 2); cbn; [discriminate | exact I]. }
  destruct (_ || _); [apply fuelled_get_number|].
  destruct (symbol_table a !! _); [exact I|].
  destruct (source_pass a =? 2); cbn; [discriminate | exact I].
Qed.

Lemma skip_ws_length (s : string) : (String.length (Str.skip_ws s) <= String.length s)%nat.
Proof.
  induction s as [|c s IH]; cbn; [lia|].
  destruct (isspace c); cbn; lia.
Qed.

Lemma take_while_length (p : ascii -> bool) (s w r : string) :
  take_while p s = (w, r) -> String.length s = (String.length w + String.length r)%nat.
Proof.
  revert w r. induction s as [|c s IH]; intros w r; cbn.
  - intros E. injection E as <- <-. reflexivity.
  - destruct (p c).
    + destruct (take_while p s) as [w' r'] eqn:E'. intros E. injection E as <- <-.
      cbn. rewrite (IH _ _ eq_refl). reflexivity.
    + intros E. injection E as <- <-. reflexivity.
Qed.

(** A token is taken from the front: the iterator does not go back, and
    it moves when the token is not empty. *)
Lemma get_token_length (it tok it' : string) :
  get_token it = (tok, it') ->
  (String.length it' <= String.length it)%nat
  /\ (tok <> EmptyString -> (String.length it' < String.length it)%nat).
Proof.
  unfold get_token. pose proof (skip_ws_length it) as Hs.
  destruct (Str.skip_ws it) as [|c t] eqn:Hsk.
  - intros E. injection E as <- <-. split; [cbn; lia | congruence].
  - cbn [String.length] in Hs. destruct (is_ident_start c).
    + intros E. pose proof (take_while_length _ _ _ _ E) as Hl.
      cbn [String.length] in Hl. split; [lia|].
      intros Hne. destruct tok; [congruence|]. cbn [String.length] in Hl. lia.
    + destruct (_ || _).
      * destruct (take_while isalnum t) as [w r] eqn:Ew. intros E. injection E as <- <-.
        pose proof (take_while_length _ _ _ _ Ew). split; intros; lia.
      * intros E. injection E as <- <-. split; intros; lia.
Qed.

Section DescentFuel.
Variable rec : string -> M (Z * string).
Variable bound : nat.
Hypothesis rec_fuelled :
  forall it, (String.length it < bound)%nat -> fuelled (not_behind it) (rec it).

Lemma fuelled_parse_expr_factor (it : string) :
  (String.length it <= bound)%nat ->
  fuelled (not_behind it) (parse_expr_factor rec it).
Proof.
  intros Hb. unfold parse_expr_factor.
  destruct (get_token it) as [token it1] eqn:Et.
  destruct (get_token_length _ _ _ Et) as [Hle Hlt].
  destruct (Str.eqb token "(") eqn:Ep.
  - apply String.eqb_eq in Ep. subst token.
    specialize (Hlt ltac:(discriminate)).
    apply (fuelled_bind (not_behind it1)); [apply rec_fuelled; lia|].
    intros [result it2] H2. unfold not_behind in H2. cbn [snd] in H2.
    destruct (get_token it2) as [closing it3] eqn:Ec.
    destruct (get_token_length _ _ _ Ec) as [Hle3 _].
    apply (fuelled_bind (fun _ => True)); [intros a; exact I|]. intros a _.
    apply (fuelled_bind (fun _ => True)).
    { destruct (negb _); [apply fuelled_fail; discriminate | apply fuelled_pure; exact I]. }
    intros _ _. apply fuelled_pure. unfold not_behind. cbn [snd]. lia.
  - apply (fuelled_bind (fun _ => True)); [apply fuelled_evaluate_single_term|].
    intros v _. apply fuelled_pure. unfold not_behind. cbn [snd]. lia.
Qed.

Lemma fuelled_int_div (x y : Z) : fuelled (fun _ => True) (int_div x y).
Proof.
  intros a. unfold int_div. destruct (_ || _); cbn; [discriminate | exact I].
Qed.

Lemma fuelled_parse_expr_term_loop (turns : nat) : forall (result : Z) (it : string),
  (String.length it < turns)%nat -> (String.length it <= bound)%nat ->
  fuelled (not_behind it) (parse_expr_term_loop rec turns result it).
Proof.
  induction turns as [|turns IH]; intros result it Ht Hb; [lia|].
  cbn [parse_expr_term_loop].
  destruct (get_token it) as [op it1] eqn:Et.
  destruct (get_token_length _ _ _ Et) as [Hle Hlt].
  destruct (negb (Str.eqb (to_lower op) "*") && negb (Str.eqb (to_lower op) "/")
            && negb (Str.eqb (to_lower op) "and")) eqn:Hop.
  - apply fuelled_pure. unfold not_behind. cbn [snd]. lia.
  - assert (Hne : op <> EmptyString).
    { intros ->. cbn in Hop. discriminate. }
    specialize (Hlt Hne).
    apply (fuelled_bind (not_behind it1)); [apply fuelled_parse_expr_factor; lia|].
    intros [rhs it2] H2. unfold not_behind in H2. cbn [snd] in H2.
    apply (fuelled_bind (fun _ => True)).
    { destruct (Str.eqb _ "*"); [apply fuelled_pure; exact I|].
      destruct (Str.eqb _ "/"); [apply fuelled_int_div | apply fuelled_pure; exact I]. }
    intros r _.
    apply (fuelled_weaken (not_behind it2)); [unfold not_behind; lia|].
    apply IH; lia.
Qed.

Lemma fuelled_parse_expr_term (it : string) :
  (String.length it <= bound)%nat -> fuelled (not_behind it) (parse_expr_term rec it).
Proof.
  intros Hb. unfold parse_expr_term.
  apply (fuelled_bind (not_behind it)); [apply fuelled_parse_expr_factor; exact Hb|].
  intros [result it1] H1. unfold not_behind in H1. cbn [snd] in H1.
  apply (fuelled_weaken (not_behind it1)); [unfold not_behind; lia|].
  apply fuelled_parse_expr_term_loop; lia.
Qed.

Lemma fuelled_evaluate_expression_loop (turns : nat) : forall (result : Z) (it : string),
  (String.length it < turns)%nat -> (String.length it <= bound)%nat ->
  fuelled (not_behind it) (evaluate_expression_loop rec turns result it).
Proof.
  induction turns as [|turns IH]; intros result it Ht Hb; [lia|].
  cbn [evaluate_expression_loop].
  destruct (get_token it) as [op it1] eqn:Et.
  destruct (get_token_length _ _ _ Et) as [Hle Hlt].
  destruct (negb (Str.eqb (to_lower op) "+") && negb (Str.eqb (to_lower op) "-")
            && negb (Str.eqb (to_lower op) "or") && negb (Str.eqb (to_lower op) "xor"))
    eqn:Hop.
  - apply fuelled_pure. unfold not_behind. cbn [snd]. lia.
  - assert (Hne : op <> EmptyString).
    { intros ->. cbn in Hop. discriminate. }
    specialize (Hlt Hne).
    apply (fuelled_bind (not_behind it1)); [apply fuelled_parse_expr_term; lia|].
    intros [rhs it2] H2. unfold not_behind in H2. cbn [snd] in H2.
    apply (fuelled_weaken (not_behind it2)); [unfold not_behind; lia|].
    apply IH; lia.
Qed.

Lemma fuelled_evaluate_expression_body (it : string) :
  (String.length it <= bound)%nat ->
  fuelled (not_behind it) (evaluate_expression_body rec it).
Proof.
  intros Hb. unfold evaluate_expression_body.
  apply (fuelled_bind (not_behind it)); [apply fuelled_parse_expr_term; exact Hb|].
  intros [result it1] H1. unfold not_behind in H1. cbn [snd] in H1.
  apply (fuelled_weaken (not_behind it1)); [unfold not_behind; lia|].
  apply fuelled_evaluate_expression_loop; lia.
Qed.

End DescentFuel.

Lemma fuelled_evaluate_expression_it (depth : nat) : forall it,
  (String.length it < depth)%nat ->
  fuelled (not_behind it) (evaluate_expression_it depth it).
Proof.
  induction depth as [|depth IH]; intros it Hd; [lia|].
  cbn [evaluate_expression_it].
  apply (fuelled_evaluate_expression_body _ depth IH). lia.
Qed.

(** The depth and the turns [evaluate_expression] grants are enough for
    every expression: it returns a value or fails as the source does. *)
Lemma evaluate_expression_never_out_of_fuel (expr : string) (a : Assembler) :
  evaluate_expression expr a <> Fail OutOfFuel.
Proof.
  unfold evaluate_expression.
  assert (H : fuelled (fun _ : Z => True)
                (r <- evaluate_expression_it (S (String.length expr)) expr ;; pure (fst r))).
  { apply (fuelled_bind (not_behind expr)).
    - apply fuelled_evaluate_expression_it. lia.
    - intros r _. apply fuelled_pure. exact I. }
  specialize (H a). intros E. rewrite E in H. apply H. reflexivity.
Qed.

(** * The substitution loop: when it exits *)

Lemma length_append (s t : string) :
  String.length (s +:+ t) = (String.length s + String.length t)%nat.
Proof.
  induction s as [|c s IH]; [reflexivity|].
  rewrite append_cons. cbn [String.length]. rewrite IH. reflexivity.
Qed.

Lemma length_drop (n : nat) (s : string) :
  String.length (Str.drop n s) = (String.length s - n)%nat.
Proof.
  revert s. induction n as [|n IH]; intros s; [cbn; lia|].
  destruct s as [|c s]; [reflexivity|]. cbn. apply IH.
Qed.

Lemma length_take (n : nat) (s : string) :
  (n <= String.length s)%nat -> String.length (Str.take n s) = n.
Proof.
  revert s. induction n as [|n IH]; intros s Hn; [reflexivity|].
  destruct s as [|c s]; cbn in *; [lia|]. rewrite IH; lia.
Qed.

Lemma starts_with_length (p s : string) :
  Str.starts_with p s = true -> (String.length p <= String.length s)%nat.
Proof.
  revert s. induction p as [|c p IH]; intros s; cbn; [lia|].
  destruct s as [|d s]; [discriminate|].
  intros H. apply andb_true_iff in H as [_ H]. specialize (IH _ H). cbn. lia.
Qed.

Lemma find0_bound (p s : string) (n : nat) :
  Str.find0 p s = Some n -> (n + String.length p <= String.length s)%nat.
Proof.
  revert n. induction s as [|c s IH]; intros n; cbn [Str.find0].
  - destruct (Str.starts_with p EmptyString) eqn:E; [|discriminate].
    intros H. injection H as <-. apply starts_with_length in E. lia.
  - destruct (Str.starts_with p (String c s)) eqn:E.
    + intros H. injection H as <-. apply starts_with_length in E. lia.
    + destruct (Str.find0 p s) as [m|]; [|discriminate].
      intros H. injection H as <-. specialize (IH m eq_refl). cbn. lia.
Qed.

Lemma find_bound (p s : string) (pos q : nat) :
  Str.find p pos s = Some q ->
  (pos <= q)%nat /\ (q + String.length p <= String.length s)%nat.
Proof.
  unfold Str.find. destruct (String.length s <? pos)%nat eqn:E; [discriminate|].
  apply Nat.ltb_ge in E.
  destruct (Str.find0 p (Str.drop pos s)) as [m|] eqn:Ef; [|discriminate].
  intros H. injection H as <-. apply find0_bound in Ef.
  rewrite length_drop in Ef. lia.
Qed.

Lemma find_empty (s : string) (pos : nat) :
  (pos <= String.length s)%nat -> Str.find EmptyString pos s = Some pos.
Proof.
  intros H. unfold Str.find.
  replace (String.length s <? pos)%nat with false by (symmetry; apply Nat.ltb_ge; lia).
  destruct (Str.drop pos s); cbn; f_equal; lia.
Qed.

Lemma length_replace (q l : nat) (y s : string) :
  (q + l <= String.length s)%nat ->
  String.length (replace q l y s) = (q + String.length y + (String.length s - (q + l)))%nat.
Proof.
  intros H. unfold replace.
  rewrite !length_append, length_take, length_drop by lia. lia.
Qed.

(** For the empty name the loop is still running after any number of turns. *)
Lemma replace_loop_empty_name (turns : nat) : forall (y s : string) (pos : nat),
  (pos <= String.length s)%nat -> replace_loop turns EmptyString y s pos = None.
Proof.
  induction turns as [|turns IH]; intros y s pos Hp; cbn [replace_loop];
    rewrite (find_empty _ _ Hp); [reflexivity|].
  apply IH. rewrite length_replace by (cbn; lia). cbn. lia.
Qed.

(** For any other name it has exited after as many turns as characters
    are left to search. *)
Lemma replace_loop_exits (turns : nat) : forall (x y s : string) (pos : nat),
  x <> EmptyString -> (String.length s - pos <= turns)%nat ->
  replace_loop turns x y s pos <> None.
Proof.
  induction turns as [|turns IH]; intros x y s pos Hx Ht; cbn [replace_loop];
    destruct (Str.find x pos s) as [q|] eqn:Ef; try discriminate;
    destruct (find_bound _ _ _ _ Ef) as [Hq Hl];
    assert (0 < String.length x)%nat by (destruct x; [congruence | cbn; lia]).
  - lia.
  - apply IH; [exact Hx|]. rewrite length_replace by lia. lia.
Qed.

(** [substitute] hangs exactly for the empty name. *)
Lemma substitute_hangs_iff_empty_name (x y body_line : string) (a : Assembler) :
  (x = EmptyString -> substitute x y body_line a = Fail Hang)
  /\ (x <> EmptyString -> exists s, substitute x y body_line a = Ok (s, a)).
Proof.
  unfold substitute. split.
  - intros ->. rewrite replace_loop_empty_name by lia. reflexivity.
  - intros Hx.
    pose proof (replace_loop_exits (String.length body_line) x y body_line 0 Hx ltac:(lia)) as H.
    destruct (replace_loop _ _ _ _ _) as [s|]; [|congruence].
    exists s. reflexivity.
Qed.

(** * No token reaches the [LOW] and [HIGH] branches *)

Lemma ident_char_not_space (c : ascii) : is_ident_char c = true -> not_space c = true.
Proof. destruct c as [[] [] [] [] [] [] [] []]; vm_compute; congruence. Qed.

Lemma alnum_not_space (c : ascii) : isalnum c = true -> not_space c = true.
Proof. destruct c as [[] [] [] [] [] [] [] []]; vm_compute; congruence. Qed.

Lemma tolower_not_space (c : ascii) : not_space c = true -> not_space (tolower c) = true.
Proof. destruct c as [[] [] [] [] [] [] [] []]; vm_compute; congruence. Qed.

Lemma blank_is_space (c : ascii) : ch_eqb (chr 32) c = true -> not_space c = false.
Proof. destruct c as [[] [] [] [] [] [] [] []]; vm_compute; congruence. Qed.

Lemma take_while_all_chars (p q : ascii -> bool) (s w r : string) :
  (forall c, p c = true -> q c = true) ->
  take_while p s = (w, r) -> all_chars q w = true.
Proof.
  intros Hpq. revert w r. induction s as [|c s IH]; intros w r; cbn.
  - intros E. injection E as <- <-. reflexivity.
  - destruct (p c) eqn:Hc.
    + destruct (take_while p s) as [w' r'] eqn:E'. intros E. injection E as <- <-.
      cbn. rewrite (Hpq c Hc), (IH _ _ eq_refl). reflexivity.
    + intros E. injection E as <- <-. reflexivity.
Qed.

Lemma skip_ws_head (s : string) (c : ascii) (t : string) :
  Str.skip_ws s = String c t -> not_space c = true.
Proof.
  induction s as [|d s IH]; cbn; [discriminate|].
  destruct (isspace d) eqn:Hd; [exact IH|].
  intros E. injection E as <- <-. unfold not_space. rewrite Hd. reflexivity.
Qed.

Lemma get_token_no_space (it tok it' : string) :
  get_token it = (tok, it') -> all_chars not_space tok = true.
Proof.
  unfold get_token. destruct (Str.skip_ws it) as [|c t] eqn:Hs.
  - intros E. injection E as <- <-. reflexivity.
  - pose proof (skip_ws_head _ _ _ Hs) as Hc.
    destruct (is_ident_start c).
    + apply take_while_all_chars. exact ident_char_not_space.
    + destruct (_ || _).
      * destruct (take_while isalnum t) as [w r] eqn:Ew. intros E. injection E as <- <-.
        cbn. rewrite Hc. apply (take_while_all_chars _ _ _ _ _ alnum_not_space Ew).
      * intros E. injection E as <- <-. cbn. rewrite Hc. reflexivity.
Qed.

Lemma all_chars_to_lower (s : string) :
  all_chars not_space s = true -> all_chars not_space (to_lower s) = true.
Proof.
  unfold to_lower. induction s as [|c s IH]; cbn; [trivial|].
  intros H. apply andb_true_iff in H as [Hc Hs].
  rewrite (tolower_not_space c Hc), (IH Hs). reflexivity.
Qed.

Lemma starts_with_blank (p s : string) :
  all_chars not_space s = true -> all_chars not_space p = false ->
  (forall c, In c (list_ascii_of_string p) -> not_space c = false -> c = chr 32) ->
  Str.starts_with p s = false.
Proof.
  revert s. induction p as [|c p IH]; intros s Hs Hp Hblank; [discriminate|].
  destruct s as [|d s]; [reflexivity|].
  cbn in Hs, Hp |- *. apply andb_true_iff in Hs as [Hd Hs'].
  destruct (ch_eqb c d) eqn:Hcd; [|reflexivity]. cbn [andb].
  destruct (not_space c) eqn:Hc.
  - apply IH; [exact Hs' | exact Hp |].
    intros e He. apply Hblank. right. exact He.
  - rewrite (Hblank c (or_introl eq_refl) Hc) in Hcd.
    rewrite (blank_is_space d Hcd) in Hd. discriminate.
Qed.

(** What [parse_expr_factor] hands to [evaluate_single_term] never
    starts with [low ] or [high ], the blank included. *)
Lemma token_is_no_operator_term (it : string) :
  Str.starts_with "low " (to_lower (trim (fst (get_token it)))) = false
  /\ Str.starts_with "high " (to_lower (trim (fst (get_token it)))) = false.
Proof.
  destruct (get_token it) as [tok it'] eqn:E. cbn [fst].
  pose proof (get_token_no_space _ _ _ E) as Hns.
  rewrite (trim_no_space _ Hns).
  pose proof (all_chars_to_lower _ Hns) as Hl.
  split; apply starts_with_blank; try exact Hl; try reflexivity;
    intros c Hin Hc; cbn in Hin;
    repeat (destruct Hin as [<-|Hin]; [first [discriminate Hc | reflexivity]|]);
    contradiction.
Qed.

(** * The remaining claims and the instances of the general theorems *)

(** C2, counterexample: [DS X] before [X EQU 5] assembles, and leaves
    the location counter at 0 in pass 1 and at 5 in pass 2. *)
Lemma forward_ds_counters_differ :
  (exists symbols, image (assemble 1 forward_ds new_Assembler)
                   = Ok ([0; 0; 0; 0; 0], symbols))
  /\ counter_after 1 1 forward_ds 1 = Ok 0
  /\ counter_after 2 1 forward_ds 1 = Ok 5.
Proof.
  split; [eexists; vm_compute; reflexivity|].
  split; vm_compute; reflexivity.
Qed.

Lemma process_instruction_advances_alike_witness :
  line_of (met 1 (<["x" := 5]> ∅) "BUF: DS X") = line_of (met 2 (<["x" := 5]> ∅) "BUF: DS X")
  /\ address (state_after process_instruction (met 1 (<["x" := 5]> ∅) "BUF: DS X")) = 5
  /\ address (state_after process_instruction (met 2 (<["x" := 5]> ∅) "BUF: DS X")) = 5.
Proof.
  assert (H1 : process_instruction (met 1 (<["x" := 5]> ∅) "BUF: DS X")
               = Ok (tt, state_after process_instruction (met 1 (<["x" := 5]> ∅) "BUF: DS X")))
    by (vm_compute; reflexivity).
  assert (H2 : process_instruction (met 2 (<["x" := 5]> ∅) "BUF: DS X")
               = Ok (tt, state_after process_instruction (met 2 (<["x" := 5]> ∅) "BUF: DS X")))
    by (vm_compute; reflexivity).
  assert (Hl : line_of (met 1 (<["x" := 5]> ∅) "BUF: DS X")
               = line_of (met 2 (<["x" := 5]> ∅) "BUF: DS X"))
    by (vm_compute; reflexivity).
  assert (Ha : address (met 1 (<["x" := 5]> ∅) "BUF: DS X")
               = address (met 2 (<["x" := 5]> ∅) "BUF: DS X"))
    by (vm_compute; reflexivity).
  assert (Hv : mnemonic (met 1 (<["x" := 5]> ∅) "BUF: DS X") = "ds"
               \/ mnemonic (met 1 (<["x" := 5]> ∅) "BUF: DS X") = "org" ->
               operand_value_agrees (met 1 (<["x" := 5]> ∅) "BUF: DS X")
                                    (met 2 (<["x" := 5]> ∅) "BUF: DS X")).
  { intros _ v1 v2 b1 b2 E1 E2.
    vm_compute in E1. vm_compute in E2.
    injection E1 as <- _. injection E2 as <- _. reflexivity. }
  pose proof (process_instruction_advances_alike _ _ _ _ Hl Ha Hv H1 H2) as H.
  split; [exact Hl|].
  split; [vm_compute; reflexivity|].
  rewrite <- H. vm_compute. reflexivity.
Defined.


Lemma reset_state_keeps_cross_references_witness :
  [-4; 2] `prefix_of`
    default [] (cross_reference_data
                  (state_after (assemble 1 scenario_B)
                     (state_after (assemble 1 scenario_B) new_Assembler)) !! "target").
Proof.
  destruct reset_state_keeps_cross_references as (_ & _ & Hgrow & _).
  assert (E : assemble 1 scenario_B (state_after (assemble 1 scenario_B) new_Assembler)
              = Ok (tt, state_after (assemble 1 scenario_B)
                          (state_after (assemble 1 scenario_B) new_Assembler)))
    by (vm_compute; reflexivity).
  pose proof (Hgrow _ _ _ _ E "target") as H.
  replace (default [] (cross_reference_data
                         (state_after (assemble 1 scenario_B) new_Assembler) !! "target"))
    with [-4; 2] in H by (vm_compute; reflexivity).
  exact H.
Defined.

(** C9: [parse_expr_term] divides by whatever its right-hand factor
    evaluates to; when that is 0 the run ends in the division itself:
    no [report_error], no diagnostic line, no exit status.  [1/0] does
    so in every state, and as a [DB] operand it does so in pass 2 (pass
    1 does not evaluate the operand). *)
Theorem division_by_zero_is_unguarded :
  (forall rec turns result it it1 it2 a b,
      get_token it = ("/", it1) ->
      parse_expr_factor rec it1 a = Ok ((0, it2), b) ->
      parse_expr_term_loop rec (S turns) result it a = Fail DivisionTrap)
  /\ (forall a, evaluate_expression "1/0" a = Fail DivisionTrap)
  /\ (forall depth a, assemble (S depth) ["DB 1/0"] a = Fail DivisionTrap)
  /\ (exists a, first_pass 1 ["DB 1/0"] new_Assembler = Ok (tt, a))
  /\ diagnostic DivisionTrap = None /\ exit_status DivisionTrap = None.
Proof.
  split.
  - intros rec turns result it it1 it2 a b Ht Hf.
    cbn [parse_expr_term_loop]. rewrite Ht.
    change (to_lower "/") with "/".
    change (negb (Str.eqb "/" "*") && negb (Str.eqb "/" "/") && negb (Str.eqb "/" "and"))
      with false.
    cbn iota. unfold bind at 1. rewrite Hf.
    change (Str.eqb "/" "*") with false. change (Str.eqb "/" "/") with true.
    cbn iota. unfold bind, int_div. reflexivity.
  - split; [intros a; vm_compute; reflexivity|].
    split; [intros depth a; vm_compute; reflexivity|].
    split; [eexists; vm_compute; reflexivity|].
    split; reflexivity.
Qed.

Lemma division_by_zero_is_unguarded_witness :
  get_token "/ (2 - 2)" = ("/", " (2 - 2)")
  /\ parse_expr_term_loop (evaluate_expression_it 1) 1 7 "/ (2 - 2)" new_Assembler
     = Fail DivisionTrap.
Proof.
  split; [reflexivity|].
  refine (proj1 division_by_zero_is_unguarded (evaluate_expression_it 1) 0%nat 7
            "/ (2 - 2)" " (2 - 2)" EmptyString new_Assembler new_Assembler _ _).
  - reflexivity.
  - vm_compute. reflexivity.
Defined.

(** * The scenarios, run on the model *)

(** C1, counterexample: on Scenario A the output buffer has 266 bytes,
    not ten, and [result] is not at 0108H. *)
Lemma scenario_A_is_not_ten_bytes :
  exists bytes symbols,
    image (assemble 1 scenario_A new_Assembler) = Ok (bytes, symbols)
    /\ bytes <> scenario_A_documented_bytes
    /\ length bytes = 266%nat
    /\ symbols !! "result" <> Some 0x0108.
Proof.
  do 2 eexists. split; [vm_compute; reflexivity|].
  repeat split; vm_compute; discriminate.
Qed.

(** C1, amended: on Scenario A, whatever the assembler held before, the
    output is the 256 zero bytes [ORG 100H] pads with, followed by
    3E 05 06 0A 80 32 09 01 76 00, and [result] is at 0109H. *)
Theorem scenario_A_output (depth : nat) (a0 : Assembler) :
  exists symbols,
    image (assemble (S depth) scenario_A a0)
      = Ok (repeat 0 256 ++ [0x3e; 0x05; 0x06; 0x0a; 0x80; 0x32; 0x09; 0x01; 0x76; 0x00],
            symbols)
    /\ symbols !! "result" = Some 0x0109.
Proof.
  eexists. split; vm_compute; reflexivity.
Qed.

Lemma undefined_symbol_in_pass_2 (term : string) (a : Assembler) :
  Str.empty (trim term) = false ->
  is_char_constant (trim term) = false ->
  Str.eqb (to_lower (trim term)) "$" = false ->
  Str.starts_with "low " (to_lower (trim term)) = false ->
  Str.starts_with "high " (to_lower (trim term)) = false ->
  isdigit (default Ascii.zero (Str.front (to_lower (trim term))))
  || ((1 <? String.length (to_lower (trim term)))%nat
      && ch_eqb (default Ascii.zero (Str.front (to_lower (trim term)))) minus_sign) = false ->
  symbol_table a !! to_lower (trim term) = None ->
  source_pass a = 2 ->
  evaluate_single_term term a
  = Fail (Fatal (lineno a + 1)
            ("undefined label in expression: " +:+ to_lower (trim term))).
Proof.
  intros H1 H2 H3 H4 H5 H6 H7 H8. unfold evaluate_single_term.
  rewrite H1, H2. unfold bind, get. rewrite H3, H4, H5, H6, H7, H8. reflexivity.
Qed.

Lemma low_is_looked_up (l : string) (a : Assembler) :
  source_pass a = 2 -> symbol_table a !! "low" = None ->
  evaluate_expression ("LOW " +:+ l) a
  = Fail (Fatal (lineno a + 1) "undefined label in expression: low").
Proof.
  intros Hp Hs. unfold evaluate_expression. cbn [evaluate_expression_it].
  unfold evaluate_expression_body, parse_expr_term, parse_expr_factor.
  change ("LOW " +:+ l) with (String "L" (String "O" (String "W" (String " " l)))).
  assert (Ht : get_token (String "L" (String "O" (String "W" (String " " l))))
               = ("LOW", String " " l)) by (vm_compute; reflexivity).
  rewrite Ht. change (Str.eqb "LOW" "(") with false. cbn iota.
  unfold bind.
  rewrite (undefined_symbol_in_pass_2 "LOW" a); try reflexivity; assumption.
Qed.

(** C3, the code at the failing input: [LOW VAL] reaches
    [evaluate_single_term] as the token [LOW] alone, which is looked up
    as a symbol; the branch for the operator is taken only for a term
    that holds the blank, which no token does.  Scenario D ends with a
    fatal error at its third line. *)
Theorem scenario_D_low_is_a_symbol_lookup :
  (forall depth a0, assemble (S depth) scenario_D a0
                    = Fail (Fatal 3 "undefined label in expression: low"))
  /\ (forall it, Str.starts_with "low " (to_lower (trim (fst (get_token it)))) = false
                 /\ Str.starts_with "high " (to_lower (trim (fst (get_token it)))) = false)
  /\ (forall l a, source_pass a = 2 -> symbol_table a !! "low" = None ->
                  evaluate_expression ("LOW " +:+ l) a
                  = Fail (Fatal (lineno a + 1) "undefined label in expression: low"))
  /\ get_token "LOW VAL" = ("LOW", " VAL")
  /\ (exists a, evaluate_single_term "LOW VAL" (with_symbols 2) = Ok (0x34, a))
  /\ evaluate_expression "HIGH VAL" (with_symbols 2)
       = Fail (Fatal 1 "undefined label in expression: high")
  /\ evaluate_expression "LOW VAL" (with_symbols 1) = Ok (0, with_symbols 1).
Proof.
  split; [intros depth a0; vm_compute; reflexivity|].
  split; [exact token_is_no_operator_term|].
  split; [exact low_is_looked_up|].
  split; [vm_compute; reflexivity|].
  split; [eexists; vm_compute; reflexivity|].
  split; vm_compute; reflexivity.
Qed.

(** C4, the code at the failing input: the search of
    [evaluate_conditional] is for the lower-case words only, so [EQ] is
    no operator and both blocks of Scenario F are assembled; and [=] is
    searched before [<=] and [>=]. *)
Theorem scenario_F_assembles_both_blocks (depth : nat) (a0 : Assembler) :
  (exists symbols, image (assemble (S depth) scenario_F a0)
                     = Ok ([0x3e; 0xff; 0x3e; 0x00; 0x76], symbols))
  /\ find_relational_op relational_ops " DEBUG EQ 0" = None
  /\ (exists a, evaluate_conditional " DEBUG EQ 0" (with_symbols 1) = Ok (true, a))
  /\ (exists a, evaluate_conditional " DEBUG eq 0" (with_symbols 1) = Ok (false, a))
  /\ find_relational_op relational_ops "1 <= 2" = Some ("=", 3%nat)
  /\ evaluate_conditional "1 <= 2" (with_symbols 1) = Ok (false, with_symbols 1).
Proof.
  split; [eexists; vm_compute; reflexivity|].
  split; [vm_compute; reflexivity|].
  split; [eexists; vm_compute; reflexivity|].
  split; [eexists; vm_compute; reflexivity|].
  split; vm_compute; reflexivity.
Qed.

(** C7, the code at the failing input: a literal that starts with [-]
    is converted by [stoi] outside the [try] block; its exception is
    caught nowhere, so no diagnostic line is written and the process
    does not end through [exit(1)].  A literal converted by [stoul] is
    reported when it has no leading digit of its base, and accepted up
    to its first character that is no digit otherwise. *)
Theorem malformed_negative_literal_is_uncaught (depth : nat) (a0 : Assembler) :
  assemble (S depth) ["RST -X"] a0 = Fail (Uncaught invalid_argument)
  /\ assemble (S depth) ["DB -99999999999"] a0 = Fail (Uncaught out_of_range)
  /\ get_number "-X" a0 = Fail (Uncaught invalid_argument)
  /\ diagnostic (Uncaught invalid_argument) = None
  /\ exit_status (Uncaught invalid_argument) = None
  /\ get_number "9Q" a0 = Fail (Fatal (lineno a0 + 1) "invalid number format: 9")
  /\ get_number "12xyz" a0 = Ok (12, a0).
Proof.
  repeat split; vm_compute; reflexivity.
Qed.

(** C8, the code at the failing input: the scan for [LOCAL] reads one
    blank-delimited word after the keyword.  With a blank after the
    comma the second label is not in the map and the empty name is, for
    which the substitution loop never exits (it is still running after
    any number of turns, and for no other name); with a blank before the
    comma the second label is not renamed and its second expansion is a
    duplicate label.  Without blanks both labels are renamed. *)
Theorem local_declaration_reads_one_word :
  (forall x y body_line a,
      (x = EmptyString -> substitute x y body_line a = Fail Hang)
      /\ (x <> EmptyString -> exists s, substitute x y body_line a = Ok (s, a)))
  /\ (forall turns y s, replace_loop turns EmptyString y s 0 = None)
  /\ build_local_label_map 1 ["      LOCAL LP1, LP2"] = [(EmptyString, "_1"); ("LP1", "LP1_1")]
  /\ build_local_label_map 1 ["      LOCAL LP1 ,LP2"] = [("LP1", "LP1_1")]
  /\ build_local_label_map 1 ["      LOCAL LP1,LP2"] = [("LP1", "LP1_1"); ("LP2", "LP2_1")]
  /\ assemble 2 (two_locals "      LOCAL LP1, LP2") new_Assembler = Fail Hang
  /\ assemble 2 (two_locals "      LOCAL LP1 ,LP2") new_Assembler
       = Fail (Fatal 12 ("duplicate label: " +:+ quoted "lp2"))
  /\ (exists bytes symbols,
        image (assemble 2 (two_locals "      LOCAL LP1,LP2") new_Assembler)
          = Ok (bytes, symbols)
        /\ map_to_list symbols
           = [("lp1_1", 2); ("lp1_2", 14); ("lp2_1", 8); ("lp2_2", 20)]).
Proof.
  split; [exact substitute_hangs_iff_empty_name|].
  split; [intros turns y s; apply replace_loop_empty_name; lia|].
  repeat (split; [vm_compute; reflexivity|]).
  do 2 eexists; split; vm_compute; reflexivity.
Qed.

(** * Further properties of the code *)

(** * The failures of the evaluator *)

Section FailsAs.
Context (P : failure -> Prop).

Lemma fails_as_pure {A} (x : A) : fails_as P (pure x).
Proof. intros a f E. discriminate. Qed.

Lemma fails_as_get : fails_as P get.
Proof. intros a f E. discriminate. Qed.

Lemma fails_as_modify (g : Assembler -> Assembler) : fails_as P (modify g).
Proof. intros a f E. discriminate. Qed.

Lemma fails_as_fail {A} (e : failure) : P e -> fails_as P (@fail A e).
Proof. intros He a f E. injection E as <-. exact He. Qed.

Lemma fails_as_bind {A B} (m : M A) (k : A -> M B) :
  fails_as P m -> (forall x, fails_as P (k x)) -> fails_as P (bind m k).
Proof.
  intros Hm Hk a f E. unfold bind in E.
  destruct (m a) as [[x b]|g] eqn:Em.
  - exact (Hk x b f E).
  - injection E as <-. exact (Hm a g Em).
Qed.

End FailsAs.

(** One step of a proof that a sequence of calls fails only as [P] allows. *)
Ltac fails_with prim :=
  repeat (cbv zeta;
    lazymatch goal with
    | |- fails_as _ (bind _ _) => apply fails_as_bind; [| intros ?]
    | |- fails_as _ (pure _) => apply fails_as_pure
    | |- fails_as _ get => apply fails_as_get
    | |- fails_as _ (modify _) => apply fails_as_modify
    | |- fails_as _ (fail _) => apply fails_as_fail; discriminate
    | |- fails_as _ (report_error _ _) => apply fails_as_fail; discriminate
    | |- fails_as _ (if ?b then _ else _) => destruct b
    | |- fails_as _ (match ?x with _ => _ end) => destruct x
    | |- fails_as _ _ => prim
    end).

Lemma stops_get_number (input : string) : fails_as is_stop (get_number input).
Proof. unfold get_number, is_stop. fails_with ltac:(idtac; fail). Qed.

Lemma stops_evaluate_single_term (term_str : string) :
  fails_as is_stop (evaluate_single_term term_str).
Proof.
  unfold evaluate_single_term.
  fails_with ltac:(first [apply stops_get_number | unfold is_stop]).
Qed.

Lemma stops_int_div (x y : Z) : fails_as is_stop (int_div x y).
Proof. unfold int_div, is_stop. fails_with ltac:(idtac; fail). Qed.

Section StopsDescent.
Variable rec : string -> M (Z * string).
Hypothesis stops_rec : forall it, fails_as is_stop (rec it).

Lemma stops_parse_expr_factor (it : string) : fails_as is_stop (parse_expr_factor rec it).
Proof.
  unfold parse_expr_factor.
  fails_with ltac:(first [ apply stops_rec | apply stops_evaluate_single_term
                         | unfold is_stop ]).
Qed.

Lemma stops_parse_expr_term_loop (turns : nat) (result : Z) (it : string) :
  fails_as is_stop (parse_expr_term_loop rec turns result it).
Proof.
  revert result it. induction turns as [|turns IH]; intros result it; simpl.
  - apply fails_as_fail. discriminate.
  - fails_with ltac:(first [ apply stops_parse_expr_factor | apply stops_int_div
                           | apply IH ]).
Qed.

Lemma stops_parse_expr_term (it : string) : fails_as is_stop (parse_expr_term rec it).
Proof.
  unfold parse_expr_term.
  fails_with ltac:(first [ apply stops_parse_expr_factor
                         | apply stops_parse_expr_term_loop ]).
Qed.

Lemma stops_evaluate_expression_loop (turns : nat) (result : Z) (it : string) :
  fails_as is_stop (evaluate_expression_loop rec turns result it).
Proof.
  revert result it. induction turns as [|turns IH]; intros result it; simpl.
  - apply fails_as_fail. discriminate.
  - fails_with ltac:(first [ apply stops_parse_expr_term | apply IH ]).
Qed.

Lemma stops_evaluate_expression_body (it : string) :
  fails_as is_stop (evaluate_expression_body rec it).
Proof.
  unfold evaluate_expression_body.
  fails_with ltac:(first [ apply stops_parse_expr_term
                         | apply stops_evaluate_expression_loop ]).
Qed.

End StopsDescent.

Lemma stops_evaluate_expression_it (depth : nat) (it : string) :
  fails_as is_stop (evaluate_expression_it depth it).
Proof.
  revert it. induction depth as [|depth IH]; intros it; simpl.
  - apply fails_as_fail. discriminate.
  - apply stops_evaluate_expression_body. exact IH.
Qed.

Lemma evaluate_expression_never_hangs (expr : string) (a : Assembler) :
  evaluate_expression expr a <> Fail Hang.
Proof.
  assert (H : fails_as is_stop (evaluate_expression expr)).
  { unfold evaluate_expression.
    fails_with ltac:(apply stops_evaluate_expression_it). }
  intros E. exact (H a Hang E eq_refl).
Qed.

(** X1: the expression evaluator returns on every expression, in every
    state, with a value or with one of the failures of the source: a
    fatal error, an uncaught exception of the number conversion, or a
    division trap.  It neither loops for ever nor reaches the bounds the
    model puts on its loops and on the nesting of parentheses: each
    turn of the two loops reads an operator and each nested call follows
    an opening parenthesis, so the characters of the expression bound
    them. *)
Theorem expression_evaluation_terminates (expr : string) (a : Assembler) :
  (exists v a', evaluate_expression expr a = Ok (v, a'))
  \/ (exists line message, evaluate_expression expr a = Fail (Fatal line message))
  \/ (exists e, evaluate_expression expr a = Fail (Uncaught e))
  \/ evaluate_expression expr a = Fail DivisionTrap.
Proof.
  pose proof (evaluate_expression_never_out_of_fuel expr a) as Hfuel.
  pose proof (evaluate_expression_never_hangs expr a) as Hhang.
  destruct (evaluate_expression expr a) as [[v a']|[line message|e| | |]].
  - left. exists v, a'. reflexivity.
  - right. left. exists line, message. reflexivity.
  - right. right. left. exists e. reflexivity.
  - right. right. right. reflexivity.
  - contradiction.
  - contradiction.
Qed.

(** X2: the substitution loop of the macro expander exits for every
    name that is not empty and for no empty one. *)
Theorem substitution_loop_exits_iff_name_not_empty (x y body_line : string) :
  (x <> EmptyString ->
   replace_loop (String.length body_line) x y body_line 0 <> None)
  /\ (x = EmptyString -> forall turns, replace_loop turns x y body_line 0 = None).
Proof.
  split.
  - intros Hx. apply replace_loop_exits; [exact Hx | lia].
  - intros -> turns. apply replace_loop_empty_name. lia.
Qed.

Lemma substitution_loop_exits_witness :
  replace_loop 9 "LOOP" "LOOP_1" "JNZ  LOOP" 0 = Some "JNZ  LOOP_1".
Proof.
  pose proof (proj1 (substitution_loop_exits_iff_name_not_empty "LOOP" "LOOP_1" "JNZ  LOOP")
                ltac:(discriminate)) as H.
  destruct (replace_loop (String.length "JNZ  LOOP") "LOOP" "LOOP_1" "JNZ  LOOP" 0) eqn:E;
    [|contradiction].
  vm_compute in E. injection E as <-. reflexivity.
Defined.

(** Scenario B, a forward reference: the output is C3 04 00 00 76
    and [target] is at 0004H. *)
Theorem scenario_B_output (depth : nat) (a0 : Assembler) :
  exists symbols,
    image (assemble (S depth) scenario_B a0) = Ok ([0xc3; 0x04; 0x00; 0x00; 0x76], symbols)
    /\ symbols !! "target" = Some 0x0004.
Proof. eexists. split; vm_compute; reflexivity. Qed.

(** Scenario C, a string, a character constant, a number and a
    group in one [DB]: the output is 41 42 43 41 01 02 03. *)
Theorem scenario_C_output (depth : nat) (a0 : Assembler) :
  exists symbols,
    image (assemble (S depth) scenario_C a0)
    = Ok ([0x41; 0x42; 0x43; 0x41; 0x01; 0x02; 0x03], symbols).
Proof. eexists. vm_compute. reflexivity. Qed.

(** Scenario E, a macro with a [LOCAL] label invoked twice: the
    labels are [loop_1] at 0002H and [loop_2] at 0008H, and each [JNZ]
    goes to the loop of its own expansion. *)
Theorem scenario_E_output (depth : nat) (a0 : Assembler) :
  exists symbols,
    image (assemble (S (S depth)) scenario_E a0)
    = Ok ([0x06; 0x05; 0x05; 0xc2; 0x02; 0x00; 0x06; 0x03; 0x05; 0xc2; 0x08; 0x00], symbols)
    /\ map_to_list symbols = [("loop_1", 2); ("loop_2", 8)].
Proof. eexists. split; vm_compute; reflexivity. Qed.

(** The tokenizer reads a minus sign that a digit follows as the
    start of a number, also after an operand: [5-3] is the number 5
    followed by the token [-3], and evaluates to 5; with blanks around
    the sign it is the difference 2. *)
Theorem minus_before_a_digit_is_a_sign (a : Assembler) :
  get_token "-3" = ("-3", EmptyString)
  /\ evaluate_expression "5-3" a = Ok (5, a)
  /\ evaluate_expression "5 - 3" a = Ok (2, a).
Proof. repeat split; vm_compute; reflexivity. Qed.

(** * The string helpers: [trim] and [split_args] *)

Lemma append_nil_r (s : string) : s +:+ EmptyString = s.
Proof.
  induction s as [|c s IH]; [reflexivity|].
  rewrite append_cons, IH. reflexivity.
Qed.

Lemma append_assoc (s t u : string) : (s +:+ t) +:+ u = s +:+ (t +:+ u).
Proof.
  induction s as [|c s IH]; [reflexivity|].
  rewrite !append_cons, IH. reflexivity.
Qed.

Lemma skip_ws_split (s : string) :
  exists pre, s = pre +:+ Str.skip_ws s /\ all_chars isspace pre = true.
Proof.
  induction s as [|c s (pre & E & H)]; [exists EmptyString; split; reflexivity|].
  cbn [Str.skip_ws]. destruct (isspace c) eqn:Hc.
  - exists (String c pre). rewrite append_cons, <- E. cbn.
    rewrite Hc, H. split; reflexivity.
  - exists EmptyString. split; reflexivity.
Qed.

Lemma skip_ws_front (s : string) (c : ascii) :
  Str.front (Str.skip_ws s) = Some c -> isspace c = false.
Proof.
  destruct (Str.skip_ws s) as [|d t] eqn:E; [discriminate|].
  intros H. injection H as <-.
  apply skip_ws_head in E. unfold not_space in E.
  apply negb_true_iff in E. exact E.
Qed.

Lemma skip_ws_fixed (s : string) :
  (forall c, Str.front s = Some c -> isspace c = false) -> Str.skip_ws s = s.
Proof.
  destruct s as [|c s]; [reflexivity|].
  intros H. cbn. rewrite (H c eq_refl). reflexivity.
Qed.

Lemma rtrim_split (s : string) :
  exists post, s = rtrim s +:+ post /\ all_chars isspace post = true.
Proof.
  induction s as [|c s (post & E & H)]; [exists EmptyString; split; reflexivity|].
  cbn [rtrim]. destruct (rtrim s) as [|d t] eqn:Er.
  - destruct (isspace c) eqn:Hc.
    + exists (String c post). change (EmptyString +:+ post) with post in E.
      subst s. split; [reflexivity|]. cbn. rewrite Hc. exact H.
    + exists post. rewrite append_cons, <- E. split; [reflexivity | exact H].
  - exists post. rewrite append_cons, <- E. split; [reflexivity | exact H].
Qed.

Lemma rtrim_back (s : string) (c : ascii) :
  Str.back (rtrim s) = Some c -> isspace c = false.
Proof.
  induction s as [|d s IH]; [discriminate|].
  cbn [rtrim]. destruct (rtrim s) as [|e t] eqn:Er.
  - destruct (isspace d) eqn:Hd; [discriminate|].
    intros H. injection H as <-. exact Hd.
  - exact IH.
Qed.

Lemma rtrim_front (s : string) (c : ascii) :
  Str.front s = Some c -> isspace c = false -> Str.front (rtrim s) = Some c.
Proof.
  destruct s as [|d s]; [discriminate|].
  intros H Hc. injection H as ->. cbn [rtrim].
  destruct (rtrim s); [rewrite Hc|]; reflexivity.
Qed.

Lemma rtrim_fixed (s : string) :
  (forall c, Str.back s = Some c -> isspace c = false) -> rtrim s = s.
Proof.
  induction s as [|d s IH]; [reflexivity|].
  intros H. cbn [rtrim]. destruct s as [|e t].
  - cbn. rewrite (H d eq_refl). reflexivity.
  - rewrite IH by (intros c Hc; apply H; exact Hc). reflexivity.
Qed.

Lemma trim_front (s : string) (c : ascii) :
  Str.front (trim s) = Some c -> isspace c = false.
Proof.
  unfold trim, ltrim. intros H.
  destruct (Str.skip_ws s) as [|d t] eqn:E; [discriminate|].
  pose proof (skip_ws_front s d) as Hd. rewrite E in Hd. specialize (Hd eq_refl).
  rewrite (rtrim_front (String d t) d eq_refl Hd) in H.
  injection H as <-. exact Hd.
Qed.

Lemma trim_fixed (s : string) :
  (forall c, Str.front s = Some c -> isspace c = false) ->
  (forall c, Str.back s = Some c -> isspace c = false) ->
  trim s = s.
Proof.
  intros Hf Hb. unfold trim, ltrim.
  rewrite (skip_ws_fixed s Hf). apply rtrim_fixed. exact Hb.
Qed.

Lemma trim_blank (s : string) : all_chars isspace s = true -> trim s = EmptyString.
Proof.
  intros H. unfold trim, ltrim.
  assert (E : Str.skip_ws s = EmptyString).
  { induction s as [|c s IH]; [reflexivity|].
    cbn in H |- *. apply andb_true_iff in H as [Hc Hs].
    rewrite Hc. exact (IH Hs). }
  rewrite E. reflexivity.
Qed.

(** X3: [trim] removes the whitespace at both ends and nothing else: the
    text is its trimmed form between two runs of whitespace, the
    trimmed form neither starts nor ends with whitespace, and a second
    [trim] changes nothing. *)
Theorem trim_removes_the_surrounding_whitespace (s : string) :
  (exists pre post, s = pre +:+ trim s +:+ post
                    /\ all_chars isspace pre = true /\ all_chars isspace post = true)
  /\ (forall c, Str.front (trim s) = Some c -> isspace c = false)
  /\ (forall c, Str.back (trim s) = Some c -> isspace c = false)
  /\ trim (trim s) = trim s.
Proof.
  split; [|split; [|split]].
  - destruct (skip_ws_split s) as (pre & E1 & H1).
    destruct (rtrim_split (Str.skip_ws s)) as (post & E2 & H2).
    exists pre, post. split; [|split; assumption].
    unfold trim, ltrim. rewrite <- E2. exact E1.
  - apply trim_front.
  - intros c. unfold trim. apply rtrim_back.
  - apply trim_fixed; [apply trim_front | intros c; unfold trim; apply rtrim_back].
Qed.

(** ** [split_args] *)

Lemma plain_is_inner (c : ascii) : is_plain c = true -> is_inner c = true.
Proof. destruct c as [[] [] [] [] [] [] [] []]; vm_compute; congruence. Qed.

Lemma plain_scan (c : ascii) (q : bool) (lvl : Z) :
  is_inner c = true -> scan_quotes c q = q /\ scan_brackets c lvl = lvl.
Proof.
  unfold is_inner, scan_quotes, scan_brackets. intros H.
  apply negb_true_iff in H.
  destruct (ch_eqb c squote), (ch_eqb c dquote), (ch_eqb c langle), (ch_eqb c rangle);
    try discriminate; split; reflexivity.
Qed.

Lemma plain_no_comma (c : ascii) : is_plain c = true -> ch_eqb c comma = false.
Proof.
  unfold is_plain. intros H. apply negb_true_iff in H.
  destruct (ch_eqb c comma); [discriminate | reflexivity].
Qed.

Lemma inner_no_semicolon (c : ascii) : is_inner c = true -> ch_eqb semicolon c = false.
Proof. destruct c as [[] [] [] [] [] [] [] []]; vm_compute; congruence. Qed.

Lemma find_char0_none (c : ascii) (s : string) :
  all_chars (fun d => negb (ch_eqb c d)) s = true -> Str.find_char0 c s = None.
Proof.
  induction s as [|d s IH]; [reflexivity|].
  cbn. intros H. apply andb_true_iff in H as [Hd Hs].
  apply negb_true_iff in Hd. rewrite Hd, (IH Hs). reflexivity.
Qed.

Lemma strip_comment_inner (s : string) :
  all_chars (fun c => is_inner c || ch_eqb c comma) s = true -> strip_comment s = s.
Proof.
  intros H. unfold strip_comment. rewrite find_char0_none; [reflexivity|].
  revert H. apply all_chars_impl. intros c Hc.
  apply orb_true_iff in Hc as [Hc|Hc].
  - rewrite (inner_no_semicolon c Hc). reflexivity.
  - revert Hc. destruct c as [[] [] [] [] [] [] [] []]; vm_compute; congruence.
Qed.

(** A stretch the loop copies: outside quotes and brackets when it
    holds no comma, inside them whatever it holds. *)
Lemma split_loop_copy (s rest cur : string) (lvl : Z) (q : bool) :
  all_chars is_inner s = true ->
  all_chars is_plain s = true \/ lvl <> 0 \/ q = true ->
  split_args_loop comma (s +:+ rest) cur lvl q
  = split_args_loop comma rest (cur +:+ s) lvl q.
Proof.
  revert cur. induction s as [|c s IH]; intros cur Hi Hc.
  - rewrite append_nil_r. reflexivity.
  - cbn in Hi. apply andb_true_iff in Hi as [Hci Hsi].
    rewrite append_cons. cbn [split_args_loop].
    destruct (plain_scan c q lvl Hci) as [-> ->].
    assert (Hno : ch_eqb c comma && negb q && (lvl =? 0) = false).
    { destruct Hc as [Hp|[Hl|Hq]].
      - cbn in Hp. apply andb_true_iff in Hp as [Hp _].
        rewrite (plain_no_comma c Hp). reflexivity.
      - apply Z.eqb_neq in Hl. rewrite Hl. apply andb_false_r.
      - rewrite Hq. cbn. rewrite andb_false_r. reflexivity. }
    rewrite Hno, IH.
    + rewrite append_assoc. reflexivity.
    + exact Hsi.
    + destruct Hc as [Hp|Hc]; [|right; exact Hc].
      left. cbn in Hp. apply andb_true_iff in Hp as [_ Hp]. exact Hp.
Qed.

Lemma split_loop_end (cur : string) (lvl : Z) (q : bool) :
  split_args_loop comma EmptyString cur lvl q = [trim cur].
Proof. reflexivity. Qed.

Lemma split_loop_comma (rest cur : string) :
  split_args_loop comma (String comma rest) cur 0 false
  = trim cur :: split_args_loop comma rest EmptyString 0 false.
Proof. reflexivity. Qed.

Lemma all_chars_plain_inner (s : string) :
  all_chars is_plain s = true -> all_chars is_inner s = true.
Proof. apply all_chars_impl. exact plain_is_inner. Qed.

Lemma split_loop_join (parts : list string) : forall cur,
  parts <> [] -> Forall (fun p => all_chars is_plain p = true) parts ->
  split_args_loop comma (String.concat "," parts) cur 0 false
  = match parts with
    | p :: ps => trim (cur +:+ p) :: List.map trim ps
    | [] => []
    end.
Proof.
  induction parts as [|p ps IH]; intros cur Hne Hall; [contradiction|].
  apply Forall_cons_1 in Hall as [Hp Hps].
  destruct ps as [|p' ps].
  - cbn [String.concat List.map].
    rewrite <- (append_nil_r p) at 1.
    rewrite split_loop_copy; [reflexivity | apply all_chars_plain_inner; exact Hp | left; exact Hp].
  - change (String.concat "," (p :: p' :: ps))
      with (p +:+ String comma (String.concat "," (p' :: ps))).
    rewrite split_loop_copy; [| apply all_chars_plain_inner; exact Hp | left; exact Hp].
    rewrite split_loop_comma. f_equal.
    rewrite (IH EmptyString); [reflexivity | discriminate | exact Hps].
Qed.

Lemma all_chars_join (parts : list string) :
  Forall (fun p => all_chars is_plain p = true) parts ->
  all_chars (fun c => is_inner c || ch_eqb c comma) (String.concat "," parts) = true.
Proof.
  induction parts as [|p ps IH]; intros Hall; [reflexivity|].
  apply Forall_cons_1 in Hall as [Hp Hps].
  assert (Hp' : all_chars (fun c => is_inner c || ch_eqb c comma) p = true).
  { revert Hp. apply all_chars_impl. intros c Hc.
    rewrite (plain_is_inner c Hc). reflexivity. }
  destruct ps as [|p' ps]; [exact Hp'|].
  change (String.concat "," (p :: p' :: ps))
    with (p +:+ String comma (String.concat "," (p' :: ps))).
  rewrite all_chars_app, Hp'. cbn [all_chars andb].
  rewrite (IH Hps). reflexivity.
Qed.

Lemma split_loop_not_empty (d : ascii) (s cur : string) (lvl : Z) (q : bool) :
  split_args_loop d s cur lvl q <> [].
Proof.
  revert cur lvl q. induction s as [|c s IH]; intros cur lvl q; cbn; [discriminate|].
  destruct (_ && _); [discriminate | apply IH].
Qed.

Lemma strip_comment_delimited (c e : ascii) (s : string) :
  all_chars is_inner s = true ->
  ch_eqb semicolon c = false -> ch_eqb semicolon e = false ->
  strip_comment (String c s +:+ String e EmptyString)
  = String c s +:+ String e EmptyString.
Proof.
  intros Hs Hc He. unfold strip_comment. rewrite find_char0_none; [reflexivity|].
  rewrite append_cons. cbn [all_chars]. rewrite all_chars_app. cbn [all_chars].
  rewrite Hc, He. cbn [negb andb]. rewrite andb_true_r.
  revert Hs. apply all_chars_impl. intros d Hd.
  rewrite (inner_no_semicolon d Hd). reflexivity.
Qed.

Lemma trim_delimited (c e : ascii) (s : string) :
  isspace c = false -> isspace e = false ->
  trim (String c s +:+ String e EmptyString) = String c s +:+ String e EmptyString.
Proof.
  intros Hc He. apply trim_fixed.
  - intros d Hd. injection Hd as <-. exact Hc.
  - intros d Hd. rewrite back_app_char in Hd. injection Hd as <-. exact He.
Qed.

(** An argument between angle brackets is one token. *)
Lemma split_args_bracketed (s : string) :
  all_chars is_inner s = true ->
  split_args (String langle s +:+ String rangle EmptyString) comma
  = [String langle s +:+ String rangle EmptyString].
Proof.
  intros Hs. unfold split_args.
  rewrite (strip_comment_delimited langle rangle s Hs) by reflexivity.
  rewrite append_cons. cbn [split_args_loop].
  change (scan_quotes langle false) with false.
  change (scan_brackets langle 0) with 1.
  change (ch_eqb langle comma && negb false && (1 =? 0)) with false. cbv iota.
  rewrite split_loop_copy; [| exact Hs | right; left; discriminate].
  cbn [split_args_loop].
  change (scan_quotes rangle false) with false.
  change (scan_brackets rangle 1) with 0.
  change (ch_eqb rangle comma && negb false && (0 =? 0)) with false. cbv iota.
  rewrite append_assoc.
  change (EmptyString +:+ String langle EmptyString) with (String langle EmptyString).
  change (String langle EmptyString +:+ (s +:+ String rangle EmptyString))
    with (String langle s +:+ String rangle EmptyString).
  rewrite (trim_delimited langle rangle) by reflexivity. reflexivity.
Qed.

(** An argument between two quotes of a kind is one token. *)
Lemma split_args_quoted (q : ascii) (s : string) :
  q = squote \/ q = dquote -> all_chars is_inner s = true ->
  split_args (String q s +:+ String q EmptyString) comma
  = [String q s +:+ String q EmptyString].
Proof.
  intros Hq Hs. unfold split_args.
  rewrite (strip_comment_delimited q q s Hs) by (destruct Hq as [-> | ->]; reflexivity).
  rewrite append_cons. cbn [split_args_loop].
  replace (scan_quotes q false) with true by (destruct Hq as [-> | ->]; reflexivity).
  replace (scan_brackets q 0) with 0 by (destruct Hq as [-> | ->]; reflexivity).
  rewrite andb_false_r. cbn [negb andb]. cbv iota.
  rewrite split_loop_copy; [| exact Hs | right; right; reflexivity].
  cbn [split_args_loop].
  replace (scan_quotes q true) with false by (destruct Hq as [-> | ->]; reflexivity).
  replace (scan_brackets q 0) with 0 by (destruct Hq as [-> | ->]; reflexivity).
  replace (ch_eqb q comma) with false by (destruct Hq as [-> | ->]; reflexivity).
  cbn [negb andb]. cbv iota.
  rewrite append_assoc.
  change (EmptyString +:+ String q EmptyString) with (String q EmptyString).
  change (String q EmptyString +:+ (s +:+ String q EmptyString))
    with (String q s +:+ String q EmptyString).
  rewrite (trim_delimited q q) by (destruct Hq as [-> | ->]; reflexivity). reflexivity.
Qed.

(** X4: [split_args] always returns at least one token (one empty token for
    an empty text); on arguments that hold no comma, quote, bracket or
    semicolon it undoes the joining with commas, up to [trim]; and an
    argument between quotes or between angle brackets is one token,
    whatever commas it holds. *)
Theorem split_args_undoes_the_joining_with_commas :
  (forall s d, split_args s d <> [])
  /\ (forall parts, parts <> [] ->
        Forall (fun p => all_chars is_plain p = true) parts ->
        split_args (String.concat "," parts) comma = List.map trim parts)
  /\ (forall s, all_chars is_inner s = true ->
        split_args (String langle s +:+ String rangle EmptyString) comma
        = [String langle s +:+ String rangle EmptyString]
        /\ split_args (String squote s +:+ String squote EmptyString) comma
           = [String squote s +:+ String squote EmptyString]).
Proof.
  split; [|split].
  - intros s d. apply split_loop_not_empty.
  - intros parts Hne Hall. unfold split_args.
    rewrite (strip_comment_inner _ (all_chars_join parts Hall)).
    rewrite split_loop_join by assumption.
    destruct parts as [|p ps]; [contradiction | reflexivity].
  - intros s Hs. split.
    + exact (split_args_bracketed s Hs).
    + exact (split_args_quoted squote s (or_introl eq_refl) Hs).
Qed.

Lemma split_args_undoes_the_joining_witness :
  split_args (String.concat "," ["b"; " 10H "; "c"]) comma
  = List.map trim ["b"; " 10H "; "c"]
  /\ split_args (String langle "1,2" +:+ String rangle EmptyString) comma
     = [String langle "1,2" +:+ String rangle EmptyString].
Proof.
  split.
  - apply (proj1 (proj2 split_args_undoes_the_joining_with_commas));
      [discriminate | repeat constructor].
  - apply (proj1 (proj2 (proj2 split_args_undoes_the_joining_with_commas) "1,2" eq_refl)).
Defined.


(** * [std::to_string] and the names of local labels *)

Lemma digits_not_space (n : Z) :
  0 <= n -> all_chars not_space (render 10 n) = true.
Proof.
  intros Hn. apply (all_chars_impl (is_digit_in 16)).
  - intros d Hd. unfold not_space. destruct (digit_char_facts d Hd) as (-> & _). reflexivity.
  - apply (all_chars_impl (is_digit_in 10)).
    + intros c. apply is_digit_in_le. lia.
    + apply all_chars_render; lia.
Qed.

Lemma get_number_negative (m : Z) (a : Assembler) :
  0 <= m <= - INT_MIN ->
  get_number (String minus_sign (render 10 m)) a = Ok (- m, a).
Proof.
  intros Hm. unfold get_number.
  assert (Hns : all_chars not_space (String minus_sign (render 10 m)) = true).
  { cbn [all_chars]. rewrite digits_not_space by lia. reflexivity. }
  rewrite (trim_no_space _ Hns). cbn [Str.empty Str.front].
  rewrite bool_decide_eq_true_2 by reflexivity.
  unfold stoi, strto. cbn [Str.skip_ws].
  change (isspace minus_sign) with false. cbv iota.
  change (ch_eqb minus_sign minus_sign) with true. cbv iota.
  assert (Hscan : scan_digits 10 (render 10 m) None = Some m)
    by (apply scan_render; lia).
  assert (Hx : match render 10 m with
               | String z (String x (String h t)) =>
                   if (10 =? 16) && (code z =? 48) && (code (tolower x) =? 120)
                      && is_digit_in 16 h
                   then String h t else render 10 m
               | _ => render 10 m
               end = render 10 m).
  { destruct (render 10 m) as [|z [|x [|h t]]]; reflexivity. }
  rewrite Hx, Hscan.
  replace ((- m <? INT_MIN) || (INT_MAX <? - m)) with false; [reflexivity|].
  symmetry. apply orb_false_iff. unfold INT_MIN, INT_MAX in *.
  split; [apply Z.ltb_ge | apply Z.ltb_ge]; lia.
Qed.

Lemma get_number_to_string (n : Z) (a : Assembler) :
  INT_MIN <= n <= INT_MAX -> get_number (to_string n) a = Ok (n, a).
Proof.
  intros Hn. unfold to_string. destruct (n <? 0) eqn:Hneg.
  - apply Z.ltb_lt in Hneg.
    rewrite get_number_negative by (unfold INT_MIN in *; lia).
    rewrite Z.opp_involutive. reflexivity.
  - apply Z.ltb_ge in Hneg. apply get_number_decimal. lia.
Qed.

(** X5: what [std::to_string] writes for an [int], [get_number] reads back:
    the decimal text of every n from INT_MIN to INT_MAX, with its sign,
    is the number n again, and the assembler is left as it was. *)
Theorem to_string_is_read_back_by_get_number (n : Z) (a : Assembler) :
  INT_MIN <= n <= INT_MAX -> get_number (to_string n) a = Ok (n, a).
Proof. apply get_number_to_string. Qed.

Lemma to_string_is_read_back_witness :
  to_string (-2147483648) = "-2147483648"
  /\ get_number "-2147483648" new_Assembler = Ok (-2147483648, new_Assembler).
Proof.
  split; [reflexivity|].
  apply (to_string_is_read_back_by_get_number (-2147483648) new_Assembler).
  unfold INT_MIN, INT_MAX. lia.
Defined.

Lemma to_string_inj (n m : Z) :
  INT_MIN <= n <= INT_MAX -> INT_MIN <= m <= INT_MAX ->
  to_string n = to_string m -> n = m.
Proof.
  intros Hn Hm E.
  pose proof (get_number_to_string n new_Assembler Hn) as E1.
  pose proof (get_number_to_string m new_Assembler Hm) as E2.
  rewrite E in E1. rewrite E1 in E2. injection E2 as ->. reflexivity.
Qed.

Lemma map_assign_In (k v k' v' : string) (m : list (string * string)) :
  In (k, v) (map_assign k' v' m) -> (k, v) = (k', v') \/ In (k, v) m.
Proof.
  induction m as [|[k0 v0] m IH]; cbn.
  - intros [E|[]]. left. symmetry. exact E.
  - destruct (Str.eqb k' k0).
    + intros [E|H]; [left; symmetry; exact E | right; right; exact H].
    + destruct (String.ltb k' k0).
      * intros [E|H]; [left; symmetry; exact E | right; exact H].
      * intros [E|H]; [right; left; exact E|].
        destruct (IH H) as [E|H']; [left; exact E | right; right; exact H'].
Qed.

Lemma local_labels_of_line_In (counter : Z) (m : list (string * string))
    (body_line k v : string) :
  (forall k v, In (k, v) m -> v = k +:+ "_" +:+ to_string counter) ->
  In (k, v) (local_labels_of_line counter m body_line) ->
  v = k +:+ "_" +:+ to_string counter.
Proof.
  intros Hm. unfold local_labels_of_line.
  destruct (Str.read_word (trim body_line)) as [body_first_word ss].
  destruct (Str.eqb (to_lower body_first_word) "local"); [|apply Hm].
  destruct (Str.read_word ss) as [local_args_part rest].
  generalize (split_args local_args_part comma). intros labels.
  revert m Hm. induction labels as [|l labels IH]; intros m Hm; cbn [fold_left].
  - apply Hm.
  - apply IH. intros k0 v0 H0.
    apply map_assign_In in H0 as [E|H0]; [|apply Hm; exact H0].
    injection E as -> ->. reflexivity.
Qed.

(** X6: every name the expander makes for a [LOCAL] label is the label, an
    underscore and the number of the expansion in decimal; so the same
    label gets different names in expansions with different numbers. *)
Theorem local_labels_are_numbered_by_the_expansion :
  (forall counter body_lines k v,
     In (k, v) (build_local_label_map counter body_lines) ->
     v = k +:+ "_" +:+ to_string counter)
  /\ (forall k c1 c2,
        INT_MIN <= c1 <= INT_MAX -> INT_MIN <= c2 <= INT_MAX -> c1 <> c2 ->
        k +:+ "_" +:+ to_string c1 <> k +:+ "_" +:+ to_string c2).
Proof.
  split.
  - intros counter body_lines. unfold build_local_label_map.
    assert (H : forall m, (forall k v, In (k, v) m -> v = k +:+ "_" +:+ to_string counter) ->
                forall k v, In (k, v) (fold_left (local_labels_of_line counter) body_lines m) ->
                            v = k +:+ "_" +:+ to_string counter).
    { induction body_lines as [|l body_lines IH]; intros m Hm; cbn [fold_left]; [exact Hm|].
      apply IH. intros k v. apply local_labels_of_line_In. exact Hm. }
    apply H. intros k v [].
  - intros k c1 c2 H1 H2 Hne E.
    apply String.app_inj in E. apply String.app_inj in E.
    apply Hne. apply to_string_inj; assumption.
Qed.

Lemma local_labels_are_numbered_witness :
  build_local_label_map 7 ["  LOCAL LOOP"; " MVI B,5"] = [("LOOP", "LOOP_7")]
  /\ "LOOP_7" <> "LOOP_8".
Proof.
  split; [reflexivity|].
  apply (proj2 local_labels_are_numbered_by_the_expansion "LOOP" 7 8);
    unfold INT_MIN, INT_MAX; lia.
Defined.

(** * The effect of the evaluator on the state *)

Section Steps.
Context {R : relation Assembler} `{!StepRel R}.

Lemma steps_pure {A} (x : A) : keeps R (pure x).
Proof. intros a y a' E. injection E as _ <-. apply step_refl. Qed.

Lemma steps_fail {A} (e : failure) : keeps R (@fail A e).
Proof. intros a y a' E. discriminate. Qed.

Lemma steps_get : keeps R get.
Proof. intros a y a' E. injection E as _ <-. apply step_refl. Qed.

Lemma steps_bind {A B} (m : M A) (k : A -> M B) :
  keeps R m -> (forall x, keeps R (k x)) -> keeps R (bind m k).
Proof.
  intros Hm Hk a y a' E. apply bind_ok in E as (x & b & E1 & E2).
  eapply step_trans; [eapply Hm | eapply Hk]; eassumption.
Qed.

Lemma steps_modify (f : Assembler -> Assembler) :
  (forall a, R a (f a)) -> keeps R (modify f).
Proof. intros Hf a y a' E. injection E as _ <-. apply Hf. Qed.

Lemma steps_when (b : bool) (m : M unit) : keeps R m -> keeps R (when b m).
Proof. destruct b; [trivial | intros _; apply steps_pure]. Qed.

Lemma steps_for_each {A} (f : A -> M unit) (l : list A) :
  (forall x, keeps R (f x)) -> keeps R (for_each f l).
Proof.
  intros Hf. induction l as [|x l IH]; [apply steps_pure|].
  apply steps_bind; [apply Hf | intros _; exact IH].
Qed.

End Steps.

(** As [keeps_with], for a relation that is only a [StepRel]. *)
Ltac steps_with prim :=
  repeat (cbv zeta;
    lazymatch goal with
    | |- keeps _ (bind _ _) => apply steps_bind; [| intros ?]
    | |- keeps _ (pure _) => apply steps_pure
    | |- keeps _ (fail _) => apply steps_fail
    | |- keeps _ (report_error _ _) => apply steps_fail
    | |- keeps _ get => apply steps_get
    | |- keeps _ (when _ _) => apply steps_when
    | |- keeps _ (for_each _ _) => apply steps_for_each; intros ?
    | |- keeps _ (if ?b then _ else _) => destruct b
    | |- keeps _ (match ?x with _ => _ end) => destruct x
    | |- keeps _ _ => prim
    end).

Lemma set_cross_reference_data_same (a : Assembler) :
  set_cross_reference_data (cross_reference_data a) a = a.
Proof. destruct a. reflexivity. Qed.

Lemma looked_up_refl (a : Assembler) : looked_up a a.
Proof.
  exists (cross_reference_data a). split.
  - symmetry. apply set_cross_reference_data_same.
  - intros k Hk. contradiction.
Qed.

Lemma looked_up_trans (a b c : Assembler) :
  looked_up a b -> looked_up b c -> looked_up a c.
Proof.
  intros (r1 & -> & H1) (r2 & -> & H2). exists r2. split; [reflexivity|].
  intros k Hk. cbn in H2.
  destruct (decide (r2 !! k = r1 !! k)) as [E|E].
  - apply H1. rewrite <- E. exact Hk.
  - apply H2. exact E.
Qed.

#[global] Instance looked_up_step : StepRel looked_up.
Proof. split; [exact looked_up_refl | exact looked_up_trans]. Qed.

Lemma looked_up_reference (term : string) (line : Z) (a : Assembler) :
  is_Some (symbol_table a !! term) -> looked_up a (record_reference term line a).
Proof.
  intros Hs. eexists. split; [reflexivity|].
  intros k Hk. destruct (decide (term = k)) as [<-|Hne]; [exact Hs|].
  exfalso. apply Hk. apply lookup_insert_ne. exact Hne.
Qed.

Lemma looks_up_get_number (input : string) : keeps looked_up (get_number input).
Proof. unfold get_number. steps_with ltac:(fail). Qed.

Lemma looks_up_evaluate_single_term (term_str : string) :
  keeps looked_up (evaluate_single_term term_str).
Proof.
  intros a x a' E. unfold evaluate_single_term in E.
  destruct (Str.empty (trim term_str)); [injection E as _ <-; apply looked_up_refl|].
  destruct (is_char_constant (trim term_str)); [injection E as _ <-; apply looked_up_refl|].
  unfold bind at 1 in E. unfold get at 1 in E.
  destruct (Str.eqb _ "$"); [injection E as _ <-; apply looked_up_refl|].
  destruct (Str.starts_with "low " _).
  { destruct (symbol_table a !! _); [injection E as _ <-; apply looked_up_refl|].
    destruct (source_pass a =? 2); [discriminate|].
    injection E as _ <-. apply looked_up_refl. }
  destruct (Str.starts_with "high " _).
  { destruct (symbol_table a !! _); [injection E as _ <-; apply looked_up_refl|].
    destruct (source_pass a =? 2); [discriminate|].
    injection E as _ <-. apply looked_up_refl. }
  destruct (_ || _); [exact (looks_up_get_number _ _ _ _ E)|].
  destruct (symbol_table a !! to_lower (trim term_str)) as [v|] eqn:Hs.
  - injection E as _ <-. apply looked_up_reference. exists v. exact Hs.
  - destruct (source_pass a =? 2); [discriminate|].
    injection E as _ <-. apply looked_up_refl.
Qed.

Lemma looks_up_int_div (x y : Z) : keeps looked_up (int_div x y).
Proof. unfold int_div. steps_with ltac:(fail). Qed.

Section LooksUpDescent.
Variable rec : string -> M (Z * string).
Hypothesis looks_up_rec : forall it, keeps looked_up (rec it).

Lemma looks_up_parse_expr_factor (it : string) :
  keeps looked_up (parse_expr_factor rec it).
Proof.
  unfold parse_expr_factor.
  steps_with ltac:(first [ apply looks_up_rec | apply looks_up_evaluate_single_term ]).
Qed.

Lemma looks_up_parse_expr_term_loop (turns : nat) (result : Z) (it : string) :
  keeps looked_up (parse_expr_term_loop rec turns result it).
Proof.
  revert result it. induction turns as [|turns IH]; intros result it; simpl.
  - apply steps_fail.
  - steps_with ltac:(first [ apply looks_up_parse_expr_factor | apply looks_up_int_div
                           | apply IH ]).
Qed.

Lemma looks_up_parse_expr_term (it : string) : keeps looked_up (parse_expr_term rec it).
Proof.
  unfold parse_expr_term.
  steps_with ltac:(first [ apply looks_up_parse_expr_factor
                         | apply looks_up_parse_expr_term_loop ]).
Qed.

Lemma looks_up_evaluate_expression_loop (turns : nat) (result : Z) (it : string) :
  keeps looked_up (evaluate_expression_loop rec turns result it).
Proof.
  revert result it. induction turns as [|turns IH]; intros result it; simpl.
  - apply steps_fail.
  - steps_with ltac:(first [ apply looks_up_parse_expr_term | apply IH ]).
Qed.

Lemma looks_up_evaluate_expression_body (it : string) :
  keeps looked_up (evaluate_expression_body rec it).
Proof.
  unfold evaluate_expression_body.
  steps_with ltac:(first [ apply looks_up_parse_expr_term
                         | apply looks_up_evaluate_expression_loop ]).
Qed.

End LooksUpDescent.

Lemma looks_up_evaluate_expression_it (depth : nat) (it : string) :
  keeps looked_up (evaluate_expression_it depth it).
Proof.
  revert it. induction depth as [|depth IH]; intros it; simpl.
  - apply steps_fail.
  - apply looks_up_evaluate_expression_body. exact IH.
Qed.

Lemma looks_up_evaluate_expression (expr : string) :
  keeps looked_up (evaluate_expression expr).
Proof.
  unfold evaluate_expression.
  steps_with ltac:(apply looks_up_evaluate_expression_it).
Qed.

Lemma looks_up_evaluate_conditional (expr : string) :
  keeps looked_up (evaluate_conditional expr).
Proof.
  unfold evaluate_conditional.
  steps_with ltac:(apply looks_up_evaluate_expression).
Qed.

(** * The effect of the handlers *)

Lemma to_uint16_congr (x x' y : Z) :
  to_uint16 x = to_uint16 x' -> to_uint16 (x + y) = to_uint16 (x' + y).
Proof.
  unfold to_uint16, wrap. cbn [andb]. intros H.
  rewrite <- (Zplus_mod_idemp_l x), <- (Zplus_mod_idemp_l x'), H. reflexivity.
Qed.

Lemma to_uint16_idem (x : Z) : to_uint16 (to_uint16 x) = to_uint16 x.
Proof. unfold to_uint16, wrap. cbn [andb]. apply Zmod_mod. Qed.

Lemma appended_refl (a : Assembler) : appended 0 a a.
Proof.
  exists []. split; [symmetry; apply app_nil_r|].
  cbn. rewrite !Z.add_0_r. reflexivity.
Qed.

Lemma appended_trans (d1 d2 : Z) (a b c : Assembler) :
  appended d1 a b -> appended d2 b c -> appended (d1 + d2) a c.
Proof.
  intros (l1 & O1 & A1) (l2 & O2 & A2). exists (l1 ++ l2). split.
  - rewrite O2, O1, app_assoc. reflexivity.
  - rewrite A2. rewrite length_app, Nat2Z.inj_add.
    rewrite <- Z.add_assoc.
    rewrite (to_uint16_congr _ _ _ A1). f_equal. lia.
Qed.

Lemma appended_same (a a' : Assembler) :
  output a' = output a -> address a' = address a -> appended 0 a a'.
Proof.
  intros Ho Ha. exists []. split; [rewrite Ho; symmetry; apply app_nil_r|].
  cbn. rewrite Ha, !Z.add_0_r. reflexivity.
Qed.

Lemma effect_refl (a : Assembler) : effect 0 a a.
Proof.
  split; [apply extends_refl | trivial | reflexivity | intros _; apply appended_refl].
Qed.

Lemma effect_trans (d1 d2 : Z) (a b c : Assembler) :
  effect d1 a b -> effect d2 b c -> effect (d1 + d2) a c.
Proof.
  intros [E1 K1 S1 A1] [E2 K2 S2 A2].
  pose proof (ext_pass _ _ E1) as Hp.
  split.
  - eapply extends_trans; eassumption.
  - auto.
  - intros H. rewrite S2, S1; [reflexivity | exact H | congruence].
  - intros H. eapply appended_trans; [apply A1; exact H | apply A2; congruence].
Qed.

Lemma effect_index (d d' : Z) (a a' : Assembler) : d = d' -> effect d a a' -> effect d' a a'.
Proof. intros ->. trivial. Qed.

Lemma effect_pure {A} (x : A) : keeps (effect 0) (pure x).
Proof. intros a y a' E. injection E as _ <-. apply effect_refl. Qed.

Lemma effect_fail {A} (d : Z) (e : failure) : keeps (effect d) (@fail A e).
Proof. intros a y a' E. discriminate. Qed.

Lemma effect_bind {A B} (d d1 d2 : Z) (m : M A) (k : A -> M B) :
  keeps (effect d1) m -> (forall x, keeps (effect d2) (k x)) -> d1 + d2 = d ->
  keeps (effect d) (bind m k).
Proof.
  intros Hm Hk <- a y a' E. apply bind_ok in E as (x & b & E1 & E2).
  eapply effect_trans; [eapply Hm | eapply Hk]; eassumption.
Qed.

Lemma looked_up_known (a a' : Assembler) :
  looked_up a a' -> references_known a -> references_known a'.
Proof.
  intros (refs & -> & H) Hk k Hs. cbn in Hs |- *.
  destruct (decide (refs !! k = cross_reference_data a !! k)) as [E|E].
  - apply Hk. rewrite <- E. exact Hs.
  - apply H. exact E.
Qed.

Lemma effect_quiet {A} (m : M A) :
  keeps extends m -> keeps looked_up m -> keeps (effect 0) m.
Proof.
  intros He Hl a x a' E. specialize (He a x a' E). specialize (Hl a x a' E).
  split.
  - exact He.
  - apply looked_up_known. exact Hl.
  - intros _. destruct Hl as (refs & -> & _). reflexivity.
  - intros _. destruct Hl as (refs & -> & _). apply appended_same; reflexivity.
Qed.

Lemma looks_up_check_operands (valid : bool) (n : string) :
  keeps looked_up (check_operands valid n).
Proof. unfold check_operands. steps_with ltac:(fail). Qed.

Lemma looks_up_register_offset8 (r : string) : keeps looked_up (register_offset8 r).
Proof. unfold register_offset8. steps_with ltac:(fail). Qed.

Lemma looks_up_register_offset16 : keeps looked_up register_offset16.
Proof. unfold register_offset16. steps_with ltac:(fail). Qed.

(** The calls that only look symbols up. *)
Ltac effect_quiet_call :=
  apply effect_quiet;
  [ keeps_frame
  | first [ apply looks_up_evaluate_expression | apply looks_up_check_operands
          | apply looks_up_register_offset8 | apply looks_up_register_offset16
          | apply looks_up_get_number | apply looks_up_evaluate_conditional ] ].

Lemma add_label_ok (a : Assembler) x a' :
  add_label a = Ok (x, a') ->
  symbol_table a !! label a = None
  /\ a' = record_reference (label a) (- (lineno a + 1))
            (set_symbol_table (<[label a := address a]> (symbol_table a)) a).
Proof.
  unfold add_label, bind, get, modify.
  destruct (bool_decide (is_Some (symbol_table a !! label a))) eqn:Hl; [discriminate|].
  cbn. intros E. injection E as _ <-.
  apply bool_decide_eq_false in Hl. split; [|reflexivity].
  destruct (symbol_table a !! label a) eqn:Hs; [|reflexivity].
  exfalso. apply Hl. eexists. reflexivity.
Qed.

Lemma add_label_known (a : Assembler) x a' :
  add_label a = Ok (x, a') -> references_known a -> references_known a'.
Proof.
  intros E Hk. apply add_label_ok in E as [_ ->].
  intros k Hs. unfold record_reference in Hs |- *. cbn in Hs |- *.
  destruct (decide (label a = k)) as [<-|Hne].
  - rewrite lookup_insert_eq. eexists. reflexivity.
  - rewrite lookup_insert_ne in Hs by exact Hne.
    rewrite lookup_insert_ne by exact Hne. apply Hk. exact Hs.
Qed.

Lemma effect_pass_action (n : Z) (bytes : list Z) (flag : bool) :
  keeps (effect (n - Z.of_nat (length bytes))) (pass_action n bytes flag).
Proof.
  intros a x a' E. pose proof (keeps_pass_action n bytes flag a x a' E) as Hext.
  unfold pass_action in E.
  apply bind_ok in E as (a1 & b & Eg & E). injection Eg as <- <-.
  apply bind_ok in E as (u & b & E1 & E2). injection E2 as _ <-.
  split; [exact Hext | | |].
  - intros Hk. destruct (source_pass a =? 1).
    + destruct (negb (Str.empty (label a)) && flag); unfold when in E1.
      * apply add_label_known in E1; [|exact Hk]. exact E1.
      * injection E1 as _ <-. exact Hk.
    + injection E1 as _ <-. exact Hk.
  - intros Hp. rewrite Hp in E1. change (1 =? 1) with true in E1. cbv iota in E1.
    destruct (negb (Str.empty (label a)) && flag); unfold when in E1.
    + apply add_label_ok in E1 as [_ ->]. reflexivity.
    + injection E1 as _ <-. reflexivity.
  - intros Hp. rewrite Hp in E1. change (2 =? 1) with false in E1. cbv iota in E1.
    injection E1 as _ <-. exists bytes. split; [reflexivity|].
    cbn [address set_address set_output]. rewrite to_uint16_idem. f_equal. lia.
Qed.

(** Nothing done, outside pass 2. *)
Lemma effect_skip (d : Z) (a : Assembler) : source_pass a <> 2 -> effect d a a.
Proof.
  intros Hp. split; [apply extends_refl | trivial | reflexivity | contradiction].
Qed.

(** Bytes appended, in pass 2, after symbols were looked up. *)
Lemma effect_emit (bytes : list Z) (a b : Assembler) :
  source_pass a = 2 -> extends a b -> looked_up a b ->
  effect (- Z.of_nat (length bytes)) a (set_output (output b ++ bytes) b).
Proof.
  intros Hp He Hl. split.
  - eapply extends_trans; [exact He | apply frame_output].
  - intros Hk. exact (looked_up_known _ _ Hl Hk).
  - intros H1. rewrite Hp in H1. discriminate.
  - intros _. destruct Hl as (refs & -> & _). exists bytes. split; [reflexivity|].
    cbn [address set_output set_cross_reference_data]. f_equal. lia.
Qed.

Lemma push_back_ok (b : Z) (a : Assembler) :
  push_back b a = Ok (tt, set_output (output a ++ [b]) a).
Proof. reflexivity. Qed.

Lemma effect_immediate_operand (t : ImmediateType) :
  keeps (effect (match t with IMMEDIATE8 => -1 | IMMEDIATE16 => -2 end))
        (immediate_operand t).
Proof.
  intros a x a' E. unfold immediate_operand in E.
  apply bind_ok in E as (a1 & b & Eg & E). injection Eg as <- <-.
  destruct (source_pass a =? 2) eqn:Hp; cbn [negb] in E.
  - apply Z.eqb_eq in Hp.
    apply bind_ok in E as (v & b & Ev & E).
    pose proof (keeps_evaluate_expression (R:=extends) _ _ _ _ Ev) as He.
    pose proof (looks_up_evaluate_expression _ _ _ _ Ev) as Hl.
    destruct t.
    + injection E as _ <-.
      refine (effect_index _ _ _ _ _ (effect_emit [_] _ _ Hp He Hl)). reflexivity.
    + unfold bind in E. rewrite push_back_ok in E. injection E as _ <-.
      cbn [output set_output]. rewrite <- app_assoc.
      refine (effect_index _ _ _ _ _ (effect_emit [_; _] _ _ Hp He Hl)). reflexivity.
  - injection E as _ <-. apply effect_skip. apply Z.eqb_neq. exact Hp.
Qed.

Lemma effect_address16 (operand : string) : keeps (effect (-2)) (address16 operand).
Proof.
  intros a x a' E. unfold address16 in E.
  apply bind_ok in E as (a1 & b & Eg & E). injection Eg as <- <-.
  destruct (source_pass a =? 2) eqn:Hp; cbn [negb] in E.
  - apply Z.eqb_eq in Hp.
    apply bind_ok in E as (v & b & Ev & E).
    pose proof (keeps_evaluate_expression (R:=extends) _ _ _ _ Ev) as He.
    pose proof (looks_up_evaluate_expression _ _ _ _ Ev) as Hl.
    unfold bind in E. rewrite push_back_ok in E. injection E as _ <-.
    cbn [output set_output]. rewrite <- app_assoc.
    refine (effect_index _ _ _ _ _ (effect_emit [_; _] _ _ Hp He Hl)). reflexivity.
  - injection E as _ <-. apply effect_skip. apply Z.eqb_neq. exact Hp.
Qed.

(** A step that is taken in pass 2 only, the pass being read off the
    state the handler started in. *)
Lemma effect_when_pass (p d : Z) (m : M unit) (b : Assembler) x a' :
  (source_pass b = 2 -> m b = Ok (x, a') -> effect d b a') ->
  source_pass b = p -> when (p =? 2) m b = Ok (x, a') -> effect d b a'.
Proof.
  intros Hm Hp E. destruct (p =? 2) eqn:Hp2; unfold when in E.
  - apply Z.eqb_eq in Hp2. apply Hm; [congruence | exact E].
  - injection E as _ <-. apply effect_skip. apply Z.eqb_neq in Hp2. congruence.
Qed.

Lemma effect_emit_value (e : string) (f : Z -> Z) (b : Assembler) x a' :
  source_pass b = 2 ->
  (v <- evaluate_expression e ;; push_back (f v)) b = Ok (x, a') ->
  effect (-1) b a'.
Proof.
  intros Hp E. apply bind_ok in E as (v & c & Ev & E).
  pose proof (keeps_evaluate_expression (R:=extends) _ _ _ _ Ev) as He.
  pose proof (looks_up_evaluate_expression _ _ _ _ Ev) as Hl.
  injection E as _ <-.
  refine (effect_index _ _ _ _ _ (effect_emit [_] _ _ Hp He Hl)). reflexivity.
Qed.

Lemma set_output_same (a : Assembler) : set_output (output a) a = a.
Proof. destruct a. reflexivity. Qed.

Lemma for_each_push_back (l : list Z) (b : Assembler) :
  for_each push_back l b = Ok (tt, set_output (output b ++ l) b).
Proof.
  revert b. induction l as [|z l IH]; intros b; cbn [for_each].
  - unfold pure. rewrite app_nil_r, set_output_same. reflexivity.
  - unfold bind. rewrite push_back_ok, IH. cbn [output set_output].
    rewrite <- app_assoc. reflexivity.
Qed.

Lemma length_string_bytes (s : string) :
  length (Mnemonic.string_bytes s) = String.length s.
Proof.
  unfold Mnemonic.string_bytes. rewrite length_map.
  induction s as [|c s IH]; [reflexivity|]. cbn. rewrite IH. reflexivity.
Qed.

(** A [pass_action] followed by a step of pass 2 that backs it with bytes. *)
Lemma effect_action_then (n d : Z) (flag : bool) (p : Z) (m : M unit) (a : Assembler) x a' :
  (forall b y c, source_pass b = 2 -> m b = Ok (y, c) -> effect d b c) ->
  source_pass a = p -> n + d = 0 ->
  (pass_action n [] flag ;; when (p =? 2) m) a = Ok (x, a') ->
  effect 0 a a'.
Proof.
  intros Hm Hp Hd E. apply bind_ok in E as (u & b & E1 & E2).
  pose proof (effect_pass_action _ _ _ _ _ _ E1) as H1.
  assert (Hpb : source_pass b = p) by (rewrite (ext_pass _ _ (eff_extends _ _ _ H1)); exact Hp).
  pose proof (effect_when_pass p d m b x a' (Hm b x a') Hpb E2) as H2.
  refine (effect_index _ _ _ _ _ (effect_trans _ _ _ _ _ H1 H2)).
  cbn [length]. lia.
Qed.

Lemma effect_db_byte (flag : bool) (s : string) : keeps (effect 0) (Mnemonic.db_byte flag s).
Proof.
  intros a x a' E. unfold Mnemonic.db_byte in E.
  apply bind_ok in E as (a1 & b & Eg & E). injection Eg as <- <-.
  eapply (effect_action_then 1 (-1)); [| reflexivity | reflexivity | exact E].
  intros b y c Hp. apply effect_emit_value. exact Hp.
Qed.

Lemma effect_flagged_loop {A} (body : bool -> A -> M unit) (flag : bool) (l : list A) :
  (forall b x, keeps (effect 0) (body b x)) ->
  keeps (effect 0) (Mnemonic.flagged_loop body flag l).
Proof.
  intros Hb. revert flag. induction l as [|x l IH]; intros flag; cbn.
  - apply effect_pure.
  - eapply effect_bind; [apply Hb | intros _; apply IH | reflexivity].
Qed.

Lemma effect_for_each {A} (f : A -> M unit) (l : list A) :
  (forall x, keeps (effect 0) (f x)) -> keeps (effect 0) (for_each f l).
Proof.
  intros Hf. induction l as [|x l IH]; cbn.
  - apply effect_pure.
  - eapply effect_bind; [apply Hf | intros _; apply IH | reflexivity].
Qed.

Lemma effect_db_argument (flag : bool) (arg : string) :
  keeps (effect 0) (Mnemonic.db_argument flag arg).
Proof.
  intros a x a' E. unfold Mnemonic.db_argument in E.
  apply bind_ok in E as (a1 & b & Eg & E). injection Eg as <- <-.
  cbv zeta in E.
  destruct (_ && _ && _).
  { exact (effect_flagged_loop _ _ _ effect_db_byte _ _ _ E). }
  destruct (is_quote_delimited (trim arg)).
  { eapply (effect_action_then _ (- Z.of_nat (String.length
              (Str.substr 1 (String.length (trim arg) - 2) (trim arg)))));
      [| reflexivity | | exact E]; [|lia].
    intros b y c Hp Ec. rewrite for_each_push_back in Ec. injection Ec as _ <-.
    refine (effect_index _ _ _ _ _
              (effect_emit _ _ _ Hp (extends_refl b) (looked_up_refl b))).
    rewrite length_string_bytes. reflexivity. }
  destruct (is_char_constant (trim arg)).
  { eapply (effect_action_then 1 (-1)); [| reflexivity | reflexivity | exact E].
    intros b y c Hp Ec. injection Ec as _ <-.
    refine (effect_index _ _ _ _ _
              (effect_emit [_] _ _ Hp (extends_refl b) (looked_up_refl b))).
    reflexivity. }
  eapply (effect_action_then 1 (-1)); [| reflexivity | reflexivity | exact E].
  intros b y c Hp. apply effect_emit_value. exact Hp.
Qed.

Lemma effect_get : keeps (effect 0) get.
Proof. intros a y a' E. injection E as _ <-. apply effect_refl. Qed.

Lemma effect_db : keeps (effect 0) Mnemonic.db.
Proof.
  unfold Mnemonic.db.
  eapply effect_bind; [apply effect_get | intros a | reflexivity].
  eapply effect_bind; [effect_quiet_call | intros _ | reflexivity].
  apply effect_flagged_loop. apply effect_db_argument.
Qed.

Lemma effect_for_each_pass {A} (p : Z) (f : A -> M unit) (l : list A) :
  (forall x b y c, source_pass b = p -> f x b = Ok (y, c) -> effect 0 b c) ->
  forall b y c, source_pass b = p -> for_each f l b = Ok (y, c) -> effect 0 b c.
Proof.
  intros Hf. induction l as [|x l IH]; intros b y c Hp E; cbn in E.
  - injection E as _ <-. apply effect_refl.
  - apply bind_ok in E as (u & b' & E1 & E2).
    pose proof (Hf x b u b' Hp E1) as H1.
    assert (Hp' : source_pass b' = p)
      by (rewrite (ext_pass _ _ (eff_extends _ _ _ H1)); exact Hp).
    exact (effect_trans 0 0 _ _ _ H1 (IH _ _ _ Hp' E2)).
Qed.

Lemma effect_dw : keeps (effect 0) Mnemonic.dw.
Proof.
  intros a x a' E. unfold Mnemonic.dw in E.
  apply bind_ok in E as (a1 & b & Eg & E). injection Eg as <- <-.
  apply bind_ok in E as (u & b & Ec & E).
  apply check_operands_ok in Ec as ->.
  revert E. apply (effect_for_each_pass (source_pass a)); [|reflexivity].
  intros arg b y c Hp E.
  eapply (effect_action_then 2 (-2)); [| exact Hp | reflexivity | exact E].
  intros b' y' c' _. apply effect_address16.
Qed.

Lemma effect_ds : keeps (effect 0) Mnemonic.ds.
Proof.
  intros a x a' E. unfold Mnemonic.ds in E.
  apply bind_ok in E as (a1 & b & Eg & E). injection Eg as <- <-.
  apply bind_ok in E as (u & b & Ec & E).
  apply check_operands_ok in Ec as ->.
  apply bind_ok in E as (size & b & Es & E).
  pose proof (effect_quiet _ (keeps_evaluate_expression (R:=extends) _)
                (looks_up_evaluate_expression _) _ _ _ Es) as H1.
  apply bind_ok in E as (u1 & b1 & Eneg & E).
  destruct (size <? 0) eqn:Hneg; [discriminate|].
  apply Z.ltb_ge in Hneg. injection Eneg as _ <-.
  apply bind_ok in E as (fill_value & c & Ef & E).
  assert (H2 : effect 0 b c).
  { destruct (negb (Str.empty (operand2 a))).
    - apply bind_ok in Ef as (v & c' & Ev & Ef). injection Ef as _ <-.
      exact (effect_quiet _ (keeps_evaluate_expression (R:=extends) _)
               (looks_up_evaluate_expression _) _ _ _ Ev).
    - injection Ef as _ <-. apply effect_refl. }
  apply bind_ok in E as (u2 & c' & Ew & E).
  pose proof (effect_pass_action _ _ _ _ _ _ E) as H4.
  assert (Hpc : source_pass c = source_pass a).
  { rewrite (ext_pass _ _ (eff_extends _ _ _ H2)).
    exact (ext_pass _ _ (eff_extends _ _ _ H1)). }
  assert (H3 : effect (- size) c c').
  { refine (effect_when_pass (source_pass a) _ _ c u2 c' _ Hpc Ew).
    intros Hp Em. injection Em as _ <-.
    refine (effect_index _ _ _ _ _
              (effect_emit _ _ _ Hp (extends_refl c) (looked_up_refl c))).
    rewrite repeat_length. lia. }
  refine (effect_index _ _ _ _ _
            (effect_trans _ _ _ _ _ H1
               (effect_trans _ _ _ _ _ H2 (effect_trans _ _ _ _ _ H3 H4)))).
  cbn [length]. lia.
Qed.

Lemma effect_end : keeps (effect 0) Mnemonic.end_.
Proof.
  unfold Mnemonic.end_.
  eapply effect_bind; [apply effect_get | intros a | reflexivity].
  eapply effect_bind; [effect_quiet_call | intros _ | reflexivity].
  intros a0 x a' E. injection E as _ <-.
  split; [apply extends_same; reflexivity | trivial | reflexivity |].
  intros _. apply appended_same; reflexivity.
Qed.

Lemma effect_equ : keeps (effect 0) Mnemonic.equ.
Proof.
  intros a x a' E. pose proof (keeps_equ _ _ _ E) as Hext.
  unfold Mnemonic.equ in E.
  apply bind_ok in E as (a1 & b & Eg & E). injection Eg as <- <-.
  apply bind_ok in E as (u & b & E1 & E).
  assert (b = a) as ->.
  { destruct (Str.empty (label a)); [discriminate|]. injection E1 as _ <-. reflexivity. }
  apply bind_ok in E as (u1 & b & E2 & E).
  apply check_operands_ok in E2 as ->.
  apply bind_ok in E as (v & c & E3 & E).
  pose proof (looks_up_evaluate_expression _ _ _ _ E3) as Hl.
  pose proof (looked_up_known _ _ Hl) as Hk.
  destruct Hl as (refs & -> & _).
  assert (Hshape : a' = set_cross_reference_data refs a
                   \/ a' = set_symbol_table
                             (<[label a := to_uint16 v]> (symbol_table a))
                             (set_cross_reference_data refs a)).
  { destruct (source_pass a =? 1); unfold when in E.
    - apply bind_ok in E as (c1 & d & Eg & E). injection Eg as <- <-.
      apply bind_ok in E as (u2 & d & Ec & E).
      destruct (bool_decide _); [discriminate|].
      injection Ec as _ <-. injection E as _ <-. right. reflexivity.
    - injection E as _ <-. left. reflexivity. }
  split; [exact Hext | | |].
  - intros Hkn. specialize (Hk Hkn).
    destruct Hshape as [->| ->]; [exact Hk|].
    intros k Hs. cbn in Hs |- *. specialize (Hk k Hs). cbn in Hk.
    destruct (decide (label a = k)) as [<-|Hne].
    + rewrite lookup_insert_eq. eexists. reflexivity.
    + rewrite lookup_insert_ne by exact Hne. exact Hk.
  - intros _. destruct Hshape as [->| ->]; reflexivity.
  - intros _. destruct Hshape as [->| ->]; apply appended_same; reflexivity.
Qed.

(** [org]: everything but the count of bytes, and the count when the
    counter does not go back. *)
Lemma effect_org (a : Assembler) x a' :
  Mnemonic.org a = Ok (x, a') ->
  quiet_effect a a'
  /\ (source_pass a = 2 -> address a <= address a' -> appended 0 a a')
  /\ (address a' <= address a -> output a' = output a).
Proof.
  intros E.
  assert (Hext : extends a a').
  { revert E. generalize a x a'. change (keeps extends Mnemonic.org).
    unfold Mnemonic.org. keeps_with keeps_call. }
  unfold Mnemonic.org in E.
  apply bind_ok in E as (a1 & b & Eg & E). injection Eg as <- <-.
  apply bind_ok in E as (u & b & Ec & E).
  apply check_operands_ok in Ec as ->.
  apply bind_ok in E as (v & c & Ev & E).
  pose proof (looks_up_evaluate_expression _ _ _ _ Ev) as Hl.
  pose proof (looked_up_known _ _ Hl) as Hk.
  destruct Hl as (refs & -> & _).
  apply bind_ok in E as (u1 & c & Ew & E). injection E as _ <-.
  destruct (source_pass a =? 2) eqn:Hp; unfold when in Ew; injection Ew as _ <-.
  - cbn [address set_cross_reference_data] in *.
    destruct (address a <? to_uint16 v) eqn:Hlt.
    + split; [split|split].
      * exact Hext.
      * exact Hk.
      * intros H1. apply Z.eqb_eq in Hp. congruence.
      * intros _ _. eexists. split; [reflexivity|].
        cbn [address set_address]. rewrite repeat_length.
        apply Z.ltb_lt in Hlt. f_equal. lia.
      * cbn [address set_address]. apply Z.ltb_lt in Hlt. lia.
    + split; [split|split].
      * exact Hext.
      * exact Hk.
      * intros _. reflexivity.
      * intros _ Hle. cbn [address set_address] in Hle |- *.
        apply Z.ltb_ge in Hlt. apply appended_same; [reflexivity|].
        cbn [address set_address set_cross_reference_data]. lia.
      * intros _. reflexivity.
  - split; [split|split].
    + exact Hext.
    + exact Hk.
    + intros _. reflexivity.
    + intros H2. apply Z.eqb_neq in Hp. contradiction.
    + intros _. reflexivity.
Qed.

#[global] Instance effect_step : StepRel (effect 0).
Proof.
  split; [exact effect_refl|].
  intros a b c H1 H2. exact (effect_trans 0 0 a b c H1 H2).
Qed.

(** The opcode and what follows it: the advance is backed. *)
Lemma effect_action_1 (opcode : Z) (flag : bool) :
  keeps (effect 0) (pass_action 1 [opcode] flag).
Proof. apply effect_pass_action. Qed.

Lemma effect_action_0 (flag : bool) : keeps (effect 0) (pass_action 0 [] flag).
Proof. apply effect_pass_action. Qed.

Lemma effect_action_immediate8 (opcode : Z) (flag : bool) :
  keeps (effect 0) (pass_action 2 [opcode] flag ;; immediate_operand IMMEDIATE8).
Proof.
  eapply effect_bind;
    [apply effect_pass_action | intros _; apply effect_immediate_operand | reflexivity].
Qed.

Lemma effect_action_immediate16 (opcode : Z) (flag : bool) :
  keeps (effect 0) (pass_action 3 [opcode] flag ;; immediate_operand IMMEDIATE16).
Proof.
  eapply effect_bind;
    [apply effect_pass_action | intros _; apply effect_immediate_operand | reflexivity].
Qed.

Lemma effect_action_address16 (opcode : Z) (flag : bool) (operand : string) :
  keeps (effect 0) (pass_action 3 [opcode] flag ;; address16 operand).
Proof.
  eapply effect_bind;
    [apply effect_pass_action | intros _; apply effect_address16 | reflexivity].
Qed.

(** Walks a handler built from the calls above. *)
Ltac effect_walk :=
  repeat (cbv zeta;
    lazymatch goal with
    | |- keeps _ (bind (pass_action _ _ _) _) =>
        first [ apply effect_action_immediate8 | apply effect_action_immediate16
              | apply effect_action_address16 ]
    | |- keeps _ (pass_action _ _ _) =>
        first [ apply effect_action_1 | apply effect_action_0 ]
    | |- keeps _ (bind _ _) => apply steps_bind; [| intros ?]
    | |- keeps _ (pure _) => apply steps_pure
    | |- keeps _ (fail _) => apply steps_fail
    | |- keeps _ (report_error _ _) => apply steps_fail
    | |- keeps _ get => apply steps_get
    | |- keeps _ (if ?b then _ else _) => destruct b
    | |- keeps _ (match ?x with _ => _ end) => destruct x
    | |- keeps _ _ => effect_quiet_call
    end).

Ltac effect_handler :=
  cbn [snd fst];
  first [ exact effect_db | exact effect_dw | exact effect_ds | exact effect_equ
        | exact effect_end | exact (effect_pure tt)
        | match goal with |- keeps _ ?h => unfold h end; solve [effect_walk] ].

(** Every entry of the table but [org] has the effect of a step that
    backs the whole advance of the location counter with bytes. *)
Lemma handlers_effect :
  Forall (fun entry => (fst entry = "org" /\ snd entry = Mnemonic.org)
                       \/ keeps (effect 0) (snd entry))
         mnemonic_handlers.
Proof.
  unfold mnemonic_handlers.
  repeat (constructor;
          [first [ right; effect_handler | left; split; reflexivity ]|]).
  constructor.
Qed.

Lemma quiet_of_effect (d : Z) (a a' : Assembler) : effect d a a' -> quiet_effect a a'.
Proof. intros [E K S _]. split; assumption. Qed.

Lemma quiet_effect_refl (a : Assembler) : quiet_effect a a.
Proof. exact (quiet_of_effect 0 a a (effect_refl a)). Qed.

Lemma quiet_effect_trans (a b c : Assembler) :
  quiet_effect a b -> quiet_effect b c -> quiet_effect a c.
Proof.
  intros [E1 K1 S1] [E2 K2 S2]. split.
  - eapply extends_trans; eassumption.
  - auto.
  - intros H. rewrite S2, S1; [reflexivity | exact H |].
    rewrite (ext_pass _ _ E1). exact H.
Qed.

#[global] Instance quiet_effect_step : StepRel quiet_effect.
Proof. split; [exact quiet_effect_refl | exact quiet_effect_trans]. Qed.

(** A change of fields that neither the tables nor the output read. *)
Lemma quiet_effect_same (a a' : Assembler) :
  source_pass a' = source_pass a -> macros a' = macros a ->
  symbol_table a' = symbol_table a ->
  cross_reference_data a' = cross_reference_data a ->
  output a' = output a ->
  quiet_effect a a'.
Proof.
  intros Hp Hm Hs Hx Ho. split.
  - apply extends_same; assumption.
  - intros Hk k. rewrite Hx, Hs. apply Hk.
  - intros _. exact Ho.
Qed.

Lemma quiet_setter (f : Assembler -> Assembler) :
  (forall a, source_pass (f a) = source_pass a) ->
  (forall a, macros (f a) = macros a) ->
  (forall a, symbol_table (f a) = symbol_table a) ->
  (forall a, cross_reference_data (f a) = cross_reference_data a) ->
  (forall a, output (f a) = output a) ->
  keeps quiet_effect (modify f).
Proof. intros. apply steps_modify. intros a. apply quiet_effect_same; auto. Qed.

Lemma quiet_looked_up {A} (m : M A) :
  keeps extends m -> keeps looked_up m -> keeps quiet_effect m.
Proof.
  intros He Hl. apply (keeps_weaken (effect 0)); [apply quiet_of_effect|].
  apply effect_quiet; assumption.
Qed.

Lemma handlers_quiet :
  Forall (fun entry => keeps quiet_effect (snd entry)) mnemonic_handlers.
Proof.
  eapply Forall_impl; [exact handlers_effect|].
  intros [k h] [[_ ->]|H]; cbn [snd] in *.
  - intros a x a' E. apply (effect_org a x a' E).
  - apply (keeps_weaken (effect 0)); [apply quiet_of_effect | exact H].
Qed.

Lemma quiet_parse (line : string) : keeps quiet_effect (parse line).
Proof. unfold parse. steps_with ltac:(apply quiet_setter; reflexivity). Qed.

Lemma quiet_process_instruction : keeps quiet_effect process_instruction.
Proof.
  unfold process_instruction.
  apply steps_bind; [apply steps_get | intros a].
  destruct (Str.empty (mnemonic a) && Str.empty (label a)); [apply steps_pure|].
  destruct (lookup_handler mnemonic_handlers (mnemonic a)) as [h|] eqn:Hh.
  - eapply (lookup_handler_Forall (keeps quiet_effect)); [apply handlers_quiet | exact Hh].
  - steps_with ltac:(apply (keeps_weaken (effect 0));
                       [apply quiet_of_effect | apply effect_action_0]).
Qed.

Lemma steps_substitute_all {R : relation Assembler} `{!StepRel R} pairs body_line :
  keeps R (substitute_all pairs body_line).
Proof.
  revert body_line. induction pairs as [|[x y] pairs IH]; intros body_line; cbn.
  - apply steps_pure.
  - apply steps_bind; [|intros s; apply IH].
    unfold substitute. destruct (replace_loop _ _ _ _ _); [apply steps_pure | apply steps_fail].
Qed.

Lemma quiet_expand_and_process_line (depth : nat) (line : string) (n : Z) :
  keeps quiet_effect (expand_and_process_line depth line n).
Proof.
  revert line. induction depth as [|depth IH]; intros line; cbn.
  - apply steps_fail.
  - steps_with ltac:(first [ apply steps_substitute_all | apply IH | apply quiet_parse
                           | apply quiet_process_instruction
                           | apply quiet_looked_up;
                             [apply keeps_evaluate_conditional
                             | apply looks_up_evaluate_conditional]
                           | apply quiet_setter; reflexivity ]).
Qed.

Lemma quiet_do_pass_loop (depth : nat) (lines : list string) (i : Z) (in_macro_def : bool) :
  keeps quiet_effect (do_pass_loop depth lines i in_macro_def).
Proof.
  revert i in_macro_def. induction lines as [|l lines IH]; intros i in_macro_def; cbn.
  - steps_with ltac:(apply quiet_setter; reflexivity).
  - steps_with ltac:(first [ apply IH | apply quiet_expand_and_process_line
                           | apply quiet_setter; reflexivity ]).
Qed.

Lemma quiet_do_pass (depth : nat) (lines : list string) :
  keeps quiet_effect (do_pass depth lines).
Proof.
  unfold do_pass.
  steps_with ltac:(first [ apply quiet_do_pass_loop | apply quiet_setter; reflexivity ]).
Qed.

(** * The output buffer and the location counter over the passes *)

Lemma lookup_org : lookup_handler mnemonic_handlers "org" = Some Mnemonic.org.
Proof. reflexivity. Qed.

Lemma process_instruction_appended (a a' : Assembler) :
  source_pass a = 2 -> process_instruction a = Ok (tt, a') ->
  (mnemonic a = "org" -> address a <= address a') ->
  appended 0 a a'.
Proof.
  intros Hp E Horg. unfold process_instruction in E.
  apply bind_ok in E as (b & c & Eg & E). injection Eg as <- <-.
  destruct (Str.empty (mnemonic a) && Str.empty (label a)).
  { injection E as <-. apply appended_same; reflexivity. }
  destruct (lookup_handler mnemonic_handlers (mnemonic a)) as [h|] eqn:Hh.
  - destruct (lookup_handler_entry _ _ _ _ handlers_effect Hh) as (k & Hk & HP).
    apply String.eqb_eq in Hk. cbn [fst snd] in HP.
    destruct HP as [[Hko ->]|HP].
    + apply (effect_org a tt a' E); [exact Hp|]. apply Horg. congruence.
    + exact (eff_appended _ _ _ (HP a tt a' E) Hp).
  - destruct (Str.empty (mnemonic a) && negb (Str.empty (label a))).
    + exact (eff_appended _ _ _ (effect_action_0 true a tt a' E) Hp).
    + destruct (negb (Str.empty (mnemonic a))); [discriminate|].
      injection E as <-. apply appended_same; reflexivity.
Qed.

(** X7: in pass 2 every parsed line that is processed appends to the output
    buffer exactly as many bytes as it moves the location counter on,
    modulo 2^16: the buffer stays the image of the addresses the
    counter went through.  The one exception is an [ORG] that takes the
    counter back: it appends nothing. *)
Theorem pass_2_backs_every_advance_with_bytes :
  (forall a a',
     source_pass a = 2 -> process_instruction a = Ok (tt, a') ->
     (mnemonic a = "org" -> address a <= address a') ->
     exists bytes,
       output a' = output a ++ bytes
       /\ to_uint16 (address a') = to_uint16 (address a + Z.of_nat (length bytes)))
  /\ (forall a a',
        Mnemonic.org a = Ok (tt, a') -> address a' <= address a ->
        output a' = output a).
Proof.
  split.
  - intros a a' Hp E Horg.
    destruct (process_instruction_appended a a' Hp E Horg) as (bytes & Ho & Ha).
    exists bytes. split; [exact Ho|]. rewrite Ha, Z.add_0_r. reflexivity.
  - intros a a' E. apply (effect_org a tt a' E).
Qed.

Lemma pass_2_backs_every_advance_witness :
  exists bytes,
    output (state_after process_instruction (met 2 ∅ "LXI H,1234H"))
    = output (met 2 ∅ "LXI H,1234H") ++ bytes
    /\ to_uint16 (address (state_after process_instruction (met 2 ∅ "LXI H,1234H")))
       = to_uint16 (address (met 2 ∅ "LXI H,1234H") + Z.of_nat (length bytes)).
Proof.
  apply (proj1 pass_2_backs_every_advance_with_bytes).
  - reflexivity.
  - vm_compute. reflexivity.
  - vm_compute. discriminate.
Defined.

(** X8: in pass 1 nothing is written to the output buffer: not by a parsed
    line, not by a source line with the macros it expands to, not by
    the whole pass. *)
Theorem pass_1_leaves_the_output_buffer_alone :
  (forall a a',
     source_pass a = 1 -> process_instruction a = Ok (tt, a') -> output a' = output a)
  /\ (forall depth line n a a',
        source_pass a = 1 -> expand_and_process_line depth line n a = Ok (tt, a') ->
        output a' = output a)
  /\ (forall depth lines a a',
        source_pass a = 1 -> do_pass depth lines a = Ok (tt, a') ->
        output a' = output a).
Proof.
  split; [|split].
  - intros a a' Hp E. exact (qeff_silent _ _ (quiet_process_instruction _ _ _ E) Hp).
  - intros depth line n a a' Hp E.
    exact (qeff_silent _ _ (quiet_expand_and_process_line _ _ _ _ _ _ E) Hp).
  - intros depth lines a a' Hp E.
    exact (qeff_silent _ _ (quiet_do_pass _ _ _ _ _ E) Hp).
Qed.

Lemma pass_1_leaves_the_output_buffer_alone_witness :
  output (state_after (do_pass 2%nat scenario_A) (set_output [1; 2; 3] new_Assembler))
  = [1; 2; 3].
Proof.
  apply (proj2 (proj2 pass_1_leaves_the_output_buffer_alone) 2%nat scenario_A
           (set_output [1; 2; 3] new_Assembler)).
  - reflexivity.
  - vm_compute. reflexivity.
Defined.

(** ** The cross-reference store stays within the symbol table *)

#[global] Instance only_macros_step : StepRel only_macros.
Proof.
  split.
  - intros a. destruct a. reflexivity.
  - intros a b c -> ->. reflexivity.
Qed.

Lemma only_macros_preprocess_macros_loop lines i in_macro_def current_macro :
  keeps only_macros (preprocess_macros_loop lines i in_macro_def current_macro).
Proof.
  revert i in_macro_def current_macro.
  induction lines as [|l lines IH]; intros i in_macro_def current_macro; cbn.
  - apply steps_pure.
  - steps_with ltac:(first [ apply IH | apply steps_modify; intros ?; reflexivity ]).
Qed.

Lemma only_macros_preprocess_macros lines : keeps only_macros (preprocess_macros lines).
Proof.
  unfold preprocess_macros.
  steps_with ltac:(apply only_macros_preprocess_macros_loop).
Qed.

Lemma assemble_references_known (depth : nat) (lines : list string) (a a' : Assembler) :
  cross_reference_data a = ∅ -> assemble depth lines a = Ok (tt, a') ->
  references_known a'.
Proof.
  intros Hx E. unfold assemble in E.
  apply bind_ok in E as (u0 & b0 & E0 & E). injection E0 as _ <-.
  apply bind_ok in E as (u1 & b1 & E1 & E).
  apply only_macros_preprocess_macros in E1.
  apply bind_ok in E as (u2 & b2 & E2 & E). injection E2 as _ <-.
  apply bind_ok in E as (u3 & b3 & E3 & E).
  apply quiet_do_pass in E3.
  apply bind_ok in E as (u4 & b4 & E4 & E). injection E4 as _ <-.
  apply bind_ok in E as (u5 & b5 & E5 & E). injection E5 as _ <-.
  apply bind_ok in E as (u6 & b6 & E6 & E). injection E6 as _ <-.
  apply bind_ok in E as (u7 & b7 & E7 & E). injection E7 as _ <-.
  apply bind_ok in E as (u8 & b8 & E8 & E). injection E8 as _ <-.
  apply quiet_do_pass in E.
  apply (qeff_known _ _ E). intros k Hk. apply (qeff_known _ _ E3); [|exact Hk].
  rewrite E1. intros k' Hk'. cbn in Hk'. rewrite Hx in Hk'.
  rewrite lookup_empty in Hk'. destruct Hk' as [? ?]. discriminate.
Qed.

(** * The two passes in step *)

#[global] Instance holds_place_frame : FrameRel holds_place.
Proof.
  split.
  - intros a. split; reflexivity.
  - intros a b c [] []. split; congruence.
  - intros term line a. split; reflexivity.
  - intros o a. split; reflexivity.
Qed.

Lemma keeps_place_add_label : keeps holds_place add_label.
Proof.
  unfold add_label.
  keeps_with ltac:(apply keeps_modify; intros ?; split; reflexivity).
Qed.

(** A call of a handler that holds the place. *)
Ltac place_call :=
  first [ keeps_frame | apply keeps_place_add_label
        | apply keeps_modify; intros ?; split; reflexivity
        | apply keeps_modify; intros ?;
          match goal with |- holds_place _ (if ?c then _ else _) => destruct c end;
          split; reflexivity ].

Lemma keeps_place_pass_action (n : Z) (bytes : list Z) (flag : bool) :
  keeps holds_place (pass_action n bytes flag).
Proof. unfold pass_action. keeps_with place_call. Qed.

Lemma keeps_place_flagged_loop {A} (body : bool -> A -> M unit) (flag : bool) (l : list A) :
  (forall b x, keeps holds_place (body b x)) ->
  keeps holds_place (Mnemonic.flagged_loop body flag l).
Proof.
  intros Hb. revert flag. induction l as [|x l IH]; intros flag; cbn.
  - apply keeps_pure.
  - apply keeps_bind; [apply Hb | intros _; apply IH].
Qed.

Ltac place_handler_call :=
  first [ apply keeps_place_pass_action | place_call ].

Lemma keeps_place_db_byte (flag : bool) (s : string) :
  keeps holds_place (Mnemonic.db_byte flag s).
Proof. unfold Mnemonic.db_byte. keeps_with place_handler_call. Qed.

Lemma keeps_place_db_argument (flag : bool) (s : string) :
  keeps holds_place (Mnemonic.db_argument flag s).
Proof.
  unfold Mnemonic.db_argument.
  keeps_with ltac:(first [ apply keeps_place_flagged_loop; apply keeps_place_db_byte
                         | place_handler_call ]).
Qed.

Lemma keeps_place_db : keeps holds_place Mnemonic.db.
Proof.
  unfold Mnemonic.db.
  keeps_with ltac:(first [ apply keeps_place_flagged_loop; apply keeps_place_db_argument
                         | place_handler_call ]).
Qed.

Lemma end_sets_the_flag (a : Assembler) (x : unit) (a' : Assembler) :
  Mnemonic.end_ a = Ok (x, a') -> a' = set_assembly_finished true a.
Proof.
  unfold Mnemonic.end_. intros E.
  apply bind_ok in E as (a1 & b & Eg & E). injection Eg as <- <-.
  apply bind_ok in E as (u & b & Ec & E). apply check_operands_ok in Ec as ->.
  injection E as _ <-. reflexivity.
Qed.

Ltac place_entry :=
  cbn [fst snd];
  match goal with
  | |- keeps (place_after (Str.eqb ?k "end")) _ =>
      let b := eval vm_compute in (Str.eqb k "end") in
      change (Str.eqb k "end") with b; unfold place_after
  end;
  first [ exact keeps_place_db
        | exact end_sets_the_flag
        | match goal with |- keeps _ ?h => unfold h end; keeps_with place_handler_call ].

Lemma handlers_hold_the_place :
  Forall (fun entry => keeps (place_after (Str.eqb (fst entry) "end")) (snd entry))
         mnemonic_handlers.
Proof.
  unfold mnemonic_handlers.
  repeat (constructor; [place_entry|]).
  constructor.
Qed.

Lemma lookup_handler_none_end (m : string) :
  lookup_handler mnemonic_handlers m = None -> Str.eqb m "end" = false.
Proof.
  intros H. destruct (Str.eqb m "end") eqn:E; [|reflexivity].
  apply String.eqb_eq in E. subst m. vm_compute in H. discriminate.
Qed.

(** What [process_instruction] leaves alone: all of the place, or, for
    [end], all but the flag. *)
Lemma process_instruction_place (a a' : Assembler) :
  process_instruction a = Ok (tt, a') -> place_after (Str.eqb (mnemonic a) "end") a a'.
Proof.
  unfold process_instruction. intros E.
  apply bind_ok in E as (b & c & Eg & E). injection Eg as <- <-.
  destruct (Str.empty (mnemonic a) && Str.empty (label a)) eqn:Hempty.
  - injection E as <-. apply andb_true_iff in Hempty as [Hm _].
    destruct (mnemonic a); [|discriminate]. cbn. apply frame_refl.
  - destruct (lookup_handler mnemonic_handlers (mnemonic a)) as [h|] eqn:Hh.
    + destruct (lookup_handler_entry _ _ _ _ handlers_hold_the_place Hh) as (k & Hk & HP).
      apply String.eqb_eq in Hk. subst k. exact (HP _ _ _ E).
    + rewrite (lookup_handler_none_end _ Hh). cbn [place_after].
      revert E.
      match goal with |- ?m a = _ -> _ => assert (Hm : keeps holds_place m) end.
      { keeps_with place_handler_call. }
      apply Hm.
Qed.

(** [parse] fills the five fields of the line from the text alone. *)
Lemma parse_sets (line : string) :
  exists l m o1 o2 c, forall a, parse line a = Ok (tt, set_parsed l m o1 o2 c a).
Proof.
  unfold parse. cbv zeta.
  repeat match goal with
         | |- context [match ?x with _ => _ end] =>
             lazymatch x with
             | context [match _ with _ => _ end] => fail
             | _ => destruct x
             end
         end;
    do 5 eexists; intros a; reflexivity.
Qed.

(** The substitutions do not look at the state. *)
Lemma substitute_all_apart pairs body_line a s a' :
  substitute_all pairs body_line a = Ok (s, a') ->
  a' = a /\ forall b, substitute_all pairs body_line b = Ok (s, b).
Proof.
  revert body_line. induction pairs as [|[x y] pairs IH]; intros body_line; cbn.
  - intros E. injection E as <- <-. split; reflexivity.
  - unfold bind, substitute.
    destruct (replace_loop _ _ _ _ _) as [t|]; [|discriminate].
    cbn. exact (IH t).
Qed.

Lemma lookup_ds : lookup_handler mnemonic_handlers "ds" = Some Mnemonic.ds.
Proof. reflexivity. Qed.

Lemma process_instruction_handler (a : Assembler) (k : string) (h : M unit) :
  mnemonic a = k -> k <> EmptyString ->
  lookup_handler mnemonic_handlers k = Some h ->
  process_instruction a = h a.
Proof.
  intros Hm Hk Hh. unfold process_instruction, bind, get. rewrite Hm, Hh.
  destruct k; [contradiction|]. reflexivity.
Qed.

Lemma in_step_place (a1 a2 a1' a2' : Assembler) :
  in_step a1 a2 -> holds_place a1 a1' -> holds_place a2 a2' ->
  address a1' = address a2' -> in_step a1' a2'.
Proof. intros [] [] [] Ha. split; congruence. Qed.

(** A parsed line met in two states in step: the instruction leaves
    them in step when they read the same. *)
Lemma process_instruction_in_step (b1 b2 b1' b2' : Assembler) (r1 r2 : list reading) :
  line_of b1 = line_of b2 -> in_step b1 b2 ->
  process_instruction b1 = Ok (tt, b1') -> process_instruction b2 = Ok (tt, b2') ->
  readings_of_instruction b1 ++ r1 = readings_of_instruction b2 ++ r2 ->
  in_step b1' b2' /\ r1 = r2.
Proof.
  intros Hl Hs E1 E2 Hr.
  assert (Hm : mnemonic b2 = mnemonic b1 /\ operand1 b2 = operand1 b1).
  { unfold line_of in Hl. injection Hl as _ -> -> _. auto. }
  destruct Hm as (Hm & Hop).
  assert (Hv : (mnemonic b1 = "ds" \/ mnemonic b1 = "org" -> operand_value_agrees b1 b2)
               /\ r1 = r2).
  { unfold readings_of_instruction in Hr. rewrite Hm, Hop in Hr.
    destruct (Str.eqb (mnemonic b1) "ds") eqn:Hds.
    - apply String.eqb_eq in Hds.
      rewrite (process_instruction_handler b1 "ds" _ Hds ltac:(discriminate) lookup_ds) in E1.
      rewrite (process_instruction_handler b2 "ds" _ (eq_trans Hm Hds)
                 ltac:(discriminate) lookup_ds) in E2.
      destruct (ds_advances_by_value _ _ _ E1) as (v1 & d1 & Ev1 & _).
      destruct (ds_advances_by_value _ _ _ E2) as (v2 & d2 & Ev2 & _).
      rewrite Hop in Ev2. unfold after in Hr. rewrite Ev1, Ev2 in Hr.
      injection Hr as Hv Hr. split; [|exact Hr].
      intros _ w1 w2 c1 c2 F1 F2. rewrite Hop in F2. congruence.
    - destruct (Str.eqb (mnemonic b1) "org") eqn:Horg.
      + apply String.eqb_eq in Horg.
        rewrite (process_instruction_handler b1 "org" _ Horg ltac:(discriminate) lookup_org)
          in E1.
        rewrite (process_instruction_handler b2 "org" _ (eq_trans Hm Horg)
                   ltac:(discriminate) lookup_org) in E2.
        destruct (org_advances_by_value _ _ _ E1) as (v1 & d1 & Ev1 & _).
        destruct (org_advances_by_value _ _ _ E2) as (v2 & d2 & Ev2 & _).
        rewrite Hop in Ev2. unfold after in Hr. rewrite Ev1, Ev2 in Hr.
        injection Hr as Hv Hr. split; [|exact Hr].
        intros _ w1 w2 c1 c2 F1 F2. rewrite Hop in F2. congruence.
      + split; [|exact Hr].
        apply String.eqb_neq in Hds, Horg. intros [H|H]; contradiction. }
  destruct Hv as [Hv <-]. split; [|reflexivity].
  pose proof (process_instruction_advances_alike _ _ _ _ Hl (step_address _ _ Hs) Hv E1 E2)
    as Ha.
  pose proof (process_instruction_place _ _ E1) as P1.
  pose proof (process_instruction_place _ _ E2) as P2.
  rewrite Hm in P2.
  destruct (Str.eqb (mnemonic b1) "end"); cbn [place_after] in P1, P2.
  - subst b1' b2'. destruct Hs. split; cbn; congruence.
  - exact (in_step_place _ _ _ _ Hs P1 P2 Ha).
Qed.

Lemma through_each {A} (f : A -> M unit) (readings : A -> Assembler -> list reading)
    (l : list A) :
  (forall x, in_step_through (f x) (readings x)) ->
  in_step_through (for_each f l) (readings_of_each readings f l).
Proof.
  intros Hf. induction l as [|x l IH]; intros a1 a2 a1' a2' r1 r2 Hs E1 E2 Hr.
  - injection E1 as <-. injection E2 as <-. split; [exact Hs | exact Hr].
  - cbn [for_each] in E1, E2. cbn [readings_of_each] in Hr.
    apply bind_ok in E1 as ([] & b1 & F1 & E1). apply bind_ok in E2 as ([] & b2 & F2 & E2).
    unfold after in Hr. rewrite F1, F2, <- !app_assoc in Hr.
    destruct (Hf x _ _ _ _ _ _ Hs F1 F2 Hr) as [Hb Hr'].
    exact (IH _ _ _ _ _ _ Hb E1 E2 Hr').
Qed.

Lemma should_skip_in_step (a1 a2 : Assembler) :
  in_step a1 a2 -> should_skip a2 = should_skip a1.
Proof. intros Hs. unfold should_skip. rewrite (step_if_stack _ _ Hs). reflexivity. Qed.

Lemma in_step_set_if_stack (a1 a2 : Assembler) (s : list bool) :
  in_step a1 a2 -> in_step (set_if_stack s a1) (set_if_stack s a2).
Proof. intros []. split; cbn; congruence. Qed.

Lemma in_step_set_lineno (a1 a2 : Assembler) (i j : Z) :
  in_step a1 a2 -> in_step (set_lineno i a1) (set_lineno j a2).
Proof. intros []. split; cbn; congruence. Qed.

(** An [IF]: the condition is read when the line is not skipped. *)
Lemma if_in_step (condition_expr : string) :
  in_step_through
    (a <- get ;;
     let is_active := negb (should_skip a) in
     condition_result <- (if is_active then evaluate_conditional condition_expr
                          else pure false) ;;
     modify (fun a => set_if_stack (if_stack a ++ [condition_result]) a))
    (fun a => if should_skip a then []
              else after (evaluate_conditional condition_expr)
                         (fun condition_result _ => [Condition condition_result]) a).
Proof.
  intros a1 a2 a1' a2' r1 r2 Hs E1 E2 Hr.
  apply bind_ok in E1 as (x1 & b1 & Eg1 & E1). injection Eg1 as <- <-.
  apply bind_ok in E2 as (x2 & b2 & Eg2 & E2). injection Eg2 as <- <-.
  cbv zeta in E1, E2. rewrite (should_skip_in_step _ _ Hs) in E2, Hr.
  apply bind_ok in E1 as (c1 & d1 & F1 & E1). apply bind_ok in E2 as (c2 & d2 & F2 & E2).
  injection E1 as <-. injection E2 as <-.
  destruct (should_skip a1); cbn [negb] in F1, F2.
  - injection F1 as <- <-. injection F2 as <- <-.
    split; [|exact Hr]. rewrite <- (step_if_stack _ _ Hs).
    apply in_step_set_if_stack. exact Hs.
  - unfold after in Hr. rewrite F1, F2 in Hr. injection Hr as -> Hr.
    split; [|exact Hr].
    pose proof (keeps_evaluate_conditional (R:=holds_place) _ _ _ _ F1) as P1.
    pose proof (keeps_evaluate_conditional (R:=holds_place) _ _ _ _ F2) as P2.
    pose proof (keeps_evaluate_conditional (R:=stays) _ _ _ _ F1) as [A1 _].
    pose proof (keeps_evaluate_conditional (R:=stays) _ _ _ _ F2) as [A2 _].
    assert (Hd : in_step d1 d2).
    { apply (in_step_place _ _ _ _ Hs P1 P2). rewrite A1, A2. apply Hs. }
    rewrite <- (step_if_stack _ _ Hd). apply in_step_set_if_stack. exact Hd.
Qed.

Lemma endif_in_step (n : Z) :
  in_step_through
    (a <- get ;;
     (if bool_decide (if_stack a = [])
      then report_error "ENDIF without IF" n
      else pure tt) ;;
     modify (fun a => set_if_stack (pop_back (if_stack a)) a))
    (fun _ => []).
Proof.
  intros a1 a2 a1' a2' r1 r2 Hs E1 E2 Hr.
  apply bind_ok in E1 as (x1 & b1 & Eg1 & E1). injection Eg1 as <- <-.
  apply bind_ok in E2 as (x2 & b2 & Eg2 & E2). injection Eg2 as <- <-.
  apply bind_ok in E1 as ([] & d1 & F1 & E1). apply bind_ok in E2 as ([] & d2 & F2 & E2).
  injection E1 as <-. injection E2 as <-.
  destruct (bool_decide (if_stack a1 = [])); [discriminate|].
  destruct (bool_decide (if_stack a2 = [])); [discriminate|].
  injection F1 as <-. injection F2 as <-.
  split; [|exact Hr]. rewrite <- (step_if_stack _ _ Hs).
  apply in_step_set_if_stack. exact Hs.
Qed.

(** A line that is no [IF], no [ENDIF] and no macro: parsed, then
    handed to [process_instruction]. *)
Lemma instruction_line_in_step (line : string) (n : Z) :
  in_step_through
    (modify (set_lineno n) ;; parse line ;; process_instruction)
    (after (modify (set_lineno n) ;; parse line) (fun _ => readings_of_instruction)).
Proof.
  intros a1 a2 a1' a2' r1 r2 Hs E1 E2 Hr.
  destruct (parse_sets line) as (l & m & o1 & o2 & c & Hp).
  unfold after in Hr. unfold bind, modify in E1, E2, Hr.
  rewrite Hp in E1, E2, Hr. rewrite Hp in Hr.
  refine (process_instruction_in_step _ _ _ _ _ _ _ _ E1 E2 Hr).
  - reflexivity.
  - destruct Hs. split; cbn; congruence.
Qed.

Lemma body_line_in_step (depth : nat) (n : Z) (pairs locals : list (string * string))
    (body_line : string) :
  (forall line, in_step_through (expand_and_process_line depth line n)
                                (readings_of_line depth line n)) ->
  in_step_through
    (body_line <- substitute_all pairs body_line ;;
     body_line <- substitute_all locals body_line ;;
     expand_and_process_line depth body_line n)
    (after (body_line <- substitute_all pairs body_line ;;
            substitute_all locals body_line)
           (fun body_line => readings_of_line depth body_line n)).
Proof.
  intros IH a1 a2 a1' a2' r1 r2 Hs E1 E2 Hr.
  apply bind_ok in E1 as (s & b1 & F1 & E1).
  apply substitute_all_apart in F1 as [-> F1].
  apply bind_ok in E1 as (t & c1 & G1 & E1).
  apply substitute_all_apart in G1 as [-> G1].
  unfold bind in E2. rewrite F1, G1 in E2.
  unfold after, bind in Hr. rewrite !F1, !G1 in Hr.
  exact (IH t _ _ _ _ _ _ Hs E1 E2 Hr).
Qed.

(** A macro invocation: the lines of the body, with the same arguments
    and the same local labels in both runs. *)
Lemma invocation_in_step (depth : nat) (n : Z) (macro_def : Macro) (args : list string) :
  (forall line, in_step_through (expand_and_process_line depth line n)
                                (readings_of_line depth line n)) ->
  in_step_through
    (modify (fun a =>
       set_macro_expansion_counter (to_int (macro_expansion_counter a + 1)) a) ;;
     (if negb (length args =? length (params macro_def))%nat
      then report_error ("macro '" +:+ name macro_def
                         +:+ "' argument count mismatch") n
      else pure tt) ;;
     a <- get ;;
     let local_label_map :=
       build_local_label_map (macro_expansion_counter a) (body_lines macro_def) in
     for_each (fun body_line =>
                 body_line <- substitute_all (combine (params macro_def) args) body_line ;;
                 body_line <- substitute_all local_label_map body_line ;;
                 expand_and_process_line depth body_line n)
              (body_lines macro_def))
    (after (modify (fun a =>
              set_macro_expansion_counter (to_int (macro_expansion_counter a + 1)) a) ;;
            (if negb (length args =? length (params macro_def))%nat
             then report_error ("macro '" +:+ name macro_def
                                +:+ "' argument count mismatch") n
             else pure tt) ;;
            get)
           (fun a =>
              let local_label_map :=
                build_local_label_map (macro_expansion_counter a) (body_lines macro_def) in
              readings_of_each
                (fun body_line =>
                   after (body_line <- substitute_all (combine (params macro_def) args)
                                         body_line ;;
                          substitute_all local_label_map body_line)
                         (fun body_line => readings_of_line depth body_line n))
                (fun body_line =>
                   body_line <- substitute_all (combine (params macro_def) args)
                                  body_line ;;
                   body_line <- substitute_all local_label_map body_line ;;
                   expand_and_process_line depth body_line n)
                (body_lines macro_def))).
Proof.
  intros IH a1 a2 a1' a2' r1 r2 Hs E1 E2 Hr.
  destruct (negb (length args =? length (params macro_def))%nat).
  { apply bind_ok in E1 as ([] & b1 & _ & E1). discriminate. }
  assert (P : forall a,
             (modify (fun a => set_macro_expansion_counter
                                 (to_int (macro_expansion_counter a + 1)) a) ;;
              pure tt ;; get) a
             = Ok (set_macro_expansion_counter (to_int (macro_expansion_counter a + 1)) a,
                   set_macro_expansion_counter (to_int (macro_expansion_counter a + 1)) a))
    by reflexivity.
  unfold after in Hr. rewrite P in Hr. rewrite P in Hr. clear P.
  apply bind_ok in E1 as ([] & b1 & F1 & E1). injection F1 as <-.
  apply bind_ok in E1 as ([] & c1 & G1 & E1). injection G1 as <-.
  apply bind_ok in E1 as (x1 & d1 & H1 & E1). injection H1 as <- <-.
  apply bind_ok in E2 as ([] & b2 & F2 & E2). injection F2 as <-.
  apply bind_ok in E2 as ([] & c2 & G2 & E2). injection G2 as <-.
  apply bind_ok in E2 as (x2 & d2 & H2 & E2). injection H2 as <- <-.
  cbv zeta in E1, E2, Hr.
  cbn [macro_expansion_counter set_macro_expansion_counter] in E1, E2, Hr.
  rewrite <- (step_counter _ _ Hs) in E2, Hr.
  refine (through_each _ _ _ _ _ _ _ _ _ _ _ E1 E2 Hr).
  - intros body_line. apply body_line_in_step. exact IH.
  - destruct Hs. split; cbn; congruence.
Qed.

(** The two runs of [expand_and_process_line] stay in step. *)
Lemma expand_in_step (depth : nat) (n : Z) :
  forall line, in_step_through (expand_and_process_line depth line n)
                               (readings_of_line depth line n).
Proof.
  induction depth as [|depth IH]; intros line a1 a2 a1' a2' r1 r2 Hs E1 E2 Hr.
  - discriminate.
  - cbn [expand_and_process_line readings_of_line] in E1, E2, Hr.
    destruct (Str.empty (trim line)
              || ch_eqb (default Ascii.zero (Str.front (trim line))) semicolon).
    { injection E1 as <-. injection E2 as <-. split; [exact Hs | exact Hr]. }
    destruct (Str.read_word (trim line)) as [first_word ss].
    destruct (Str.eqb (to_lower first_word) "if").
    { exact (if_in_step _ _ _ _ _ _ _ Hs E1 E2 Hr). }
    destruct (Str.eqb (to_lower first_word) "endif").
    { exact (endif_in_step _ _ _ _ _ _ _ Hs E1 E2 Hr). }
    apply bind_ok in E1 as (x1 & b1 & G1 & E1). injection G1 as <- <-.
    apply bind_ok in E2 as (x2 & b2 & G2 & E2). injection G2 as <- <-.
    rewrite (should_skip_in_step _ _ Hs) in E2, Hr.
    destruct (should_skip a1).
    { injection E1 as <-. injection E2 as <-. split; [exact Hs | exact Hr]. }
    destruct (Str.eqb (to_lower first_word) "error" || Str.eqb (to_lower first_word) "local").
    { injection E1 as <-. injection E2 as <-. split; [exact Hs | exact Hr]. }
    rewrite <- (step_macros _ _ Hs) in E2, Hr.
    destruct (macros a1 !! to_lower first_word) as [macro_def|].
    + exact (invocation_in_step depth n macro_def _ IH _ _ _ _ _ _ Hs E1 E2 Hr).
    + exact (instruction_line_in_step _ _ _ _ _ _ _ _ Hs E1 E2 Hr).
Qed.

Lemma do_pass_loop_cons (depth : nat) (l : string) (lines : list string) (i : Z)
    (in_macro_def : bool) (a : Assembler) :
  do_pass_loop depth (l :: lines) i in_macro_def a
  = (let a := set_lineno i a in
     if assembly_finished a then Ok (tt, a)
     else if Str.empty (trim l) then do_pass_loop depth lines (i + 1) in_macro_def a
     else
       let '(first_word, ss) := Str.read_word (trim l) in
       let '(second_word, _) := Str.read_word ss in
       let in_macro_def :=
         if Str.eqb (to_lower second_word) "macro" then true else in_macro_def in
       if in_macro_def then
         do_pass_loop depth lines (i + 1)
           (if Str.eqb (to_lower first_word) "endm" || Str.eqb (to_lower first_word) "mend"
            then false else in_macro_def) a
       else
         (expand_and_process_line depth l i ;;
          do_pass_loop depth lines (i + 1) in_macro_def) a).
Proof.
  cbn [do_pass_loop]. unfold bind at 1, modify at 1. unfold bind at 1, get at 1.
  cbv zeta.
  destruct (assembly_finished (set_lineno i a)); [reflexivity|].
  destruct (Str.empty (trim l)); [reflexivity|].
  destruct (Str.read_word (trim l)) as [first_word ss].
  destruct (Str.read_word ss) as [second_word ss'].
  destruct (if Str.eqb (to_lower second_word) "macro" then true else in_macro_def);
    reflexivity.
Qed.

(** The two runs of the loop of a pass stay in step, and so after
    every line: the loop over the first [count] lines returns in both,
    in two states in step. *)
Lemma do_pass_loop_in_step (depth : nat) (lines : list string) :
  forall (i : Z) (in_macro_def : bool) (a1 a2 e1 e2 : Assembler),
    in_step a1 a2 ->
    do_pass_loop depth lines i in_macro_def a1 = Ok (tt, e1) ->
    do_pass_loop depth lines i in_macro_def a2 = Ok (tt, e2) ->
    readings_of_lines depth lines i in_macro_def a1
    = readings_of_lines depth lines i in_macro_def a2 ->
    forall count, exists c1 c2,
      do_pass_loop depth (firstn count lines) i in_macro_def a1 = Ok (tt, c1)
      /\ do_pass_loop depth (firstn count lines) i in_macro_def a2 = Ok (tt, c2)
      /\ in_step c1 c2.
Proof.
  assert (Hnil : forall i m a1 a2, in_step a1 a2 ->
            exists c1 c2, do_pass_loop depth [] i m a1 = Ok (tt, c1)
                          /\ do_pass_loop depth [] i m a2 = Ok (tt, c2) /\ in_step c1 c2).
  { intros i m a1 a2 Hs. exists (set_lineno i a1), (set_lineno i a2).
    split; [reflexivity|]. split; [reflexivity|]. apply in_step_set_lineno. exact Hs. }
  induction lines as [|l lines IH]; intros i m a1 a2 e1 e2 Hs E1 E2 Hr count.
  - rewrite firstn_nil. apply Hnil. exact Hs.
  - destruct count as [|count]; [apply Hnil; exact Hs|].
    cbn [firstn]. rewrite !do_pass_loop_cons. rewrite do_pass_loop_cons in E1, E2.
    cbn [readings_of_lines] in Hr. cbv zeta in E1, E2, Hr |- *.
    pose proof (in_step_set_lineno a1 a2 i i Hs) as Hb.
    rewrite <- (step_finished _ _ Hb) in *.
    destruct (assembly_finished (set_lineno i a1)).
    { exists (set_lineno i a1), (set_lineno i a2). auto. }
    destruct (Str.empty (trim l)).
    { exact (IH _ _ _ _ _ _ Hb E1 E2 Hr count). }
    destruct (Str.read_word (trim l)) as [first_word ss].
    destruct (Str.read_word ss) as [second_word ss'].
    destruct (if Str.eqb (to_lower second_word) "macro" then true else m).
    { exact (IH _ _ _ _ _ _ Hb E1 E2 Hr count). }
    apply bind_ok in E1 as ([] & d1 & F1 & E1). apply bind_ok in E2 as ([] & d2 & F2 & E2).
    unfold after in Hr. rewrite F1, F2 in Hr.
    destruct (expand_in_step depth i l _ _ _ _ _ _ Hb F1 F2 Hr) as [Hd Hr'].
    unfold bind. rewrite F1, F2.
    exact (IH _ _ _ _ _ _ Hd E1 E2 Hr' count).
Qed.

Lemma do_pass_loop_of_do_pass (depth : nat) (lines : list string) (a a' : Assembler) :
  do_pass depth lines a = Ok (tt, a') ->
  do_pass_loop depth lines 0 false (set_if_stack [] a) = Ok (tt, a').
Proof.
  unfold do_pass. intros E.
  apply bind_ok in E as ([] & b & F & E). injection F as <-.
  apply bind_ok in E as ([] & c & F & E). rewrite F.
  apply bind_ok in E as (x & d & G & E). injection G as <- <-.
  destruct (negb (bool_decide (if_stack c = []))); [discriminate|].
  injection E as <-. reflexivity.
Qed.

(** An assembly that returns: where the loops of its two passes start,
    in step, and that they return. *)
Lemma passes_start_in_step (depth : nat) (lines : list string) (a a' : Assembler) :
  assemble depth lines a = Ok (tt, a') ->
  exists s1 s2 e1,
    pass_start 1 depth lines a = Ok (tt, s1)
    /\ pass_start 2 depth lines a = Ok (tt, s2)
    /\ do_pass_loop depth lines 0 false s1 = Ok (tt, e1)
    /\ do_pass_loop depth lines 0 false s2 = Ok (tt, a')
    /\ in_step s1 s2.
Proof.
  intros E. rewrite assemble_two_passes in E.
  apply bind_ok in E as ([] & e1 & E1 & E).
  apply bind_ok in E as ([] & p2 & E2 & E3).
  injection E2 as <-.
  pose proof E1 as F. unfold first_pass in F.
  apply bind_ok in F as ([] & b0 & F0 & F). injection F0 as <-.
  apply bind_ok in F as ([] & b1 & F1 & F).
  apply bind_ok in F as ([] & p1 & F2 & F). injection F2 as <-.
  pose proof (only_macros_preprocess_macros lines _ _ _ F1) as Hm.
  pose proof (keeps_do_pass depth lines _ _ _ F) as Hx.
  exists (set_if_stack [] (set_source_pass 1 b1)),
         (set_if_stack []
            (set_macro_expansion_counter 0
               (set_assembly_finished false
                  (set_output [] (set_address 0 (set_source_pass 2 e1)))))),
         e1.
  split; [|split; [|split; [|split]]].
  - unfold pass_start. cbn [Z.eqb Pos.eqb]. unfold bind, modify. rewrite F1. reflexivity.
  - unfold pass_start. cbn [Z.eqb Pos.eqb]. unfold bind at 1 2. rewrite E1. reflexivity.
  - apply do_pass_loop_of_do_pass. exact F.
  - apply do_pass_loop_of_do_pass in E3. exact E3.
  - unfold only_macros in Hm. split; cbn.
    + rewrite Hm. reflexivity.
    + reflexivity.
    + symmetry. apply (ext_macros _ _ Hx).
    + rewrite Hm. reflexivity.
    + rewrite Hm. reflexivity.
Qed.

Lemma location_counter_ok (pass : Z) (depth : nat) (lines : list string) (count : nat)
    (a s c : Assembler) :
  pass_start pass depth lines a = Ok (tt, s) ->
  do_pass_loop depth (firstn count lines) 0 false s = Ok (tt, c) ->
  location_counter pass depth lines count a = Ok (address c).
Proof. intros Hs Hc. unfold location_counter, bind. rewrite Hs, Hc. reflexivity. Qed.

Lemma counter_after_start (pass : Z) (depth : nat) (lines : list string) (count : nat)
    (s c : Assembler) :
  (pass = 1 \/ pass = 2) ->
  pass_start pass depth lines new_Assembler = Ok (tt, s) ->
  do_pass_loop depth (firstn count lines) 0 false s = Ok (tt, c) ->
  counter_after pass depth lines count
  = if negb (bool_decide (if_stack c = []))
    then Fail (Fatal (Z.of_nat (length (firstn count lines)) + 1)
                 "IF block not closed with ENDIF")
    else Ok (address c).
Proof.
  intros Hp Hs Hc. unfold counter_after.
  assert (E : (if pass =? 1
               then modify reset_state ;; preprocess_macros lines ;;
                    modify (set_source_pass 1) ;; do_pass depth (firstn count lines)
               else first_pass depth lines ;; second_pass_setup ;;
                    do_pass depth (firstn count lines)) new_Assembler
              = (pass_start pass depth lines ;;
                 do_pass_loop depth (firstn count lines) 0 false ;;
                 a <- get ;;
                 if negb (bool_decide (if_stack a = []))
                 then report_error "IF block not closed with ENDIF"
                        (Z.of_nat (length (firstn count lines)))
                 else pure tt) new_Assembler).
  { unfold pass_start, do_pass.
    destruct Hp as [-> | ->]; cbn [Z.eqb Pos.eqb]; unfold bind, modify.
    - destruct (preprocess_macros lines _) as [[[] b]|]; reflexivity.
    - destruct (first_pass depth lines _) as [[[] b]|]; [|reflexivity].
      destruct (second_pass_setup b) as [[[] b']|]; reflexivity. }
  cbv zeta. rewrite E. unfold bind at 1. rewrite Hs. unfold bind at 1. rewrite Hc.
  unfold bind, get. destruct (negb (bool_decide (if_stack c = []))); reflexivity.
Qed.

(** C2: for every source program on which assembly completes, and in
    which the size of every [DS], the address of every [ORG] and the
    condition of every [IF] that a pass evaluates has the same value in
    pass 1 as in pass 2, the location counter after any given line in
    pass 1 equals the location counter after the same line in pass 2:
    the loop of each pass over the first [count] lines returns, and
    with the same counter; so every handler advanced the counter alike
    in the two passes.  The second part says the same of
    [counter_after], which runs [do_pass] on the first lines (and so
    ends with the same error in both passes when an [IF] is open). *)
Theorem location_counters_agree_line_by_line
    (depth : nat) (lines : list string) (a a' : Assembler) :
  assemble depth lines a = Ok (tt, a') ->
  readings_in_pass 1 depth lines a = readings_in_pass 2 depth lines a ->
  (forall count, exists counter,
     location_counter 1 depth lines count a = Ok counter
     /\ location_counter 2 depth lines count a = Ok counter)
  /\ (a = new_Assembler ->
      forall count, counter_after 1 depth lines count = counter_after 2 depth lines count).
Proof.
  intros E Hr.
  destruct (passes_start_in_step depth lines a a' E) as (s1 & s2 & e1 & S1 & S2 & L1 & L2 & Hs).
  unfold readings_in_pass, after in Hr. rewrite S1, S2 in Hr.
  pose proof (do_pass_loop_in_step depth lines 0 false s1 s2 e1 a' Hs L1 L2 Hr) as H.
  split.
  - intros count. destruct (H count) as (c1 & c2 & C1 & C2 & Hc).
    exists (address c1). split.
    + exact (location_counter_ok 1 depth lines count a s1 c1 S1 C1).
    + rewrite (step_address _ _ Hc).
      exact (location_counter_ok 2 depth lines count a s2 c2 S2 C2).
  - intros -> count. destruct (H count) as (c1 & c2 & C1 & C2 & Hc).
    rewrite (counter_after_start 1 depth lines count s1 c1 (or_introl eq_refl) S1 C1).
    rewrite (counter_after_start 2 depth lines count s2 c2 (or_intror eq_refl) S2 C2).
    rewrite (step_address _ _ Hc), (step_if_stack _ _ Hc). reflexivity.
Qed.

Lemma location_counters_agree_witness :
  (exists a', assemble 3 steady_program new_Assembler = Ok (tt, a'))
  /\ readings_in_pass 1 3 steady_program new_Assembler
     = [Origin 256; Condition true; Size 2; Size 4]
  /\ readings_in_pass 2 3 steady_program new_Assembler
     = [Origin 256; Condition true; Size 2; Size 4]
  /\ location_counter 1 3 steady_program 10 new_Assembler = Ok 265
  /\ location_counter 2 3 steady_program 10 new_Assembler = Ok 265
  /\ counter_after 1 3 steady_program 10 = counter_after 2 3 steady_program 10.
Proof.
  assert (E : assemble 3 steady_program new_Assembler
              = Ok (tt, state_after (assemble 3 steady_program) new_Assembler))
    by (vm_compute; reflexivity).
  assert (R1 : readings_in_pass 1 3 steady_program new_Assembler
               = [Origin 256; Condition true; Size 2; Size 4])
    by (vm_compute; reflexivity).
  assert (R2 : readings_in_pass 2 3 steady_program new_Assembler
               = [Origin 256; Condition true; Size 2; Size 4])
    by (vm_compute; reflexivity).
  destruct (location_counters_agree_line_by_line 3 steady_program _ _ E
              (eq_trans R1 (eq_sym R2))) as [H1 H2].
  split; [eexists; exact E|]. split; [exact R1|]. split; [exact R2|].
  destruct (H1 10%nat) as (c & C1 & C2).
  assert (Hc : c = 265).
  { assert (C : location_counter 1 3 steady_program 10 new_Assembler = Ok 265)
      by (vm_compute; reflexivity).
    rewrite C in C1. injection C1 as <-. reflexivity. }
  rewrite Hc in C1, C2.
  split; [exact C1|]. split; [exact C2|].
  exact (H2 eq_refl 10%nat).
Defined.

(** The forward [DS] and a forward [IF] read differently in the two
    passes, and the counters part: after the [ENDIF] the second pass is
    one byte ahead. *)
Lemma forward_readings_differ :
  readings_in_pass 1 1 forward_ds new_Assembler = [Size 0]
  /\ readings_in_pass 2 1 forward_ds new_Assembler = [Size 5]
  /\ readings_in_pass 1 1 forward_if new_Assembler = [Condition false]
  /\ readings_in_pass 2 1 forward_if new_Assembler = [Condition true]
  /\ (exists a', assemble 1 forward_if new_Assembler = Ok (tt, a') /\ output a' = [0])
  /\ counter_after 1 1 forward_if 3 = Ok 0
  /\ counter_after 2 1 forward_if 3 = Ok 1.
Proof.
  repeat split; try (vm_compute; reflexivity).
  eexists. split; vm_compute; reflexivity.
Qed.

(** * Labels: what a label on a line is bound to *)

Lemma names_fail {A} (e : failure) : names_the_line (@fail A e).
Proof. intros a x a' E. discriminate. Qed.

(** Calls that only look symbols up may come first. *)
Lemma names_after {A B} (m : M A) (k : A -> M B) :
  keeps looked_up m -> (forall x, names_the_line (k x)) -> names_the_line (bind m k).
Proof.
  intros Hm Hk a y a' E Hp Hl. apply bind_ok in E as (x & b & E1 & E2).
  destruct (Hm a x b E1) as (refs & -> & _).
  exact (Hk x _ y a' E2 Hp Hl).
Qed.

(** Calls that only add to the tables may follow. *)
Lemma names_before {A B} (m : M A) (k : A -> M B) :
  names_the_line m -> (forall x, keeps extends (k x)) -> names_the_line (bind m k).
Proof.
  intros Hm Hk a y a' E Hp Hl. apply bind_ok in E as (x & b & E1 & E2).
  eapply lookup_weaken; [exact (Hm a x b E1 Hp Hl)|].
  exact (ext_symbols _ _ (Hk x b y a' E2)).
Qed.

Lemma names_pass_action_when (n : Z) (bytes : list Z) (flag : bool) (a : Assembler) x a' :
  pass_action n bytes flag a = Ok (x, a') -> source_pass a = 1 ->
  negb (Str.empty (label a)) && flag = true ->
  symbol_table a' !! label a = Some (address a).
Proof.
  intros E Hp Hf. unfold pass_action in E.
  apply bind_ok in E as (a1 & b & Eg & E). injection Eg as <- <-.
  apply bind_ok in E as (u & b & E1 & E2). injection E2 as _ <-.
  rewrite Hp in E1. change (1 =? 1) with true in E1. cbv iota in E1.
  rewrite Hf in E1. unfold when in E1.
  apply add_label_ok in E1 as [_ ->].
  cbn. apply lookup_insert_eq.
Qed.

Lemma names_pass_action (n : Z) (bytes : list Z) :
  names_the_line (pass_action n bytes true).
Proof.
  intros a x a' E Hp Hl. eapply names_pass_action_when; [exact E | exact Hp |].
  rewrite Hl. reflexivity.
Qed.

(** Walks a handler up to its first [pass_action]. *)
Ltac names_walk :=
  repeat (cbv zeta;
    lazymatch goal with
    | |- names_the_line (fail _) => apply names_fail
    | |- names_the_line (report_error _ _) => apply names_fail
    | |- names_the_line (pass_action _ _ true) => apply names_pass_action
    | |- names_the_line (bind (pass_action _ _ true) _) =>
        apply names_before; [apply names_pass_action | intros ?; solve [keeps_with keeps_call]]
    | |- names_the_line (bind _ _) =>
        apply names_after;
        [ first [ apply steps_get | apply looks_up_check_operands
                | apply looks_up_register_offset8 | apply looks_up_register_offset16
                | apply looks_up_get_number | apply looks_up_evaluate_expression ]
        | intros ? ]
    | |- names_the_line (if ?b then _ else _) => destruct b
    | |- names_the_line (match ?x with _ => _ end) => destruct x
    end).

(** The first step of a loop over a list that is not empty. *)
Lemma names_flagged_loop {A} (body : bool -> A -> M unit) (l : list A) :
  l <> [] ->
  (forall x, names_the_line (body true x)) ->
  (forall b x, keeps extends (body b x)) ->
  names_the_line (Mnemonic.flagged_loop body true l).
Proof.
  intros Hne Hb He. destruct l as [|x l]; [contradiction|]. cbn.
  apply names_before; [apply Hb|]. intros _. apply keeps_flagged_loop. exact He.
Qed.

Lemma names_db_byte (s : string) : names_the_line (Mnemonic.db_byte true s).
Proof.
  intros a x a' E Hp Hl. unfold Mnemonic.db_byte in E.
  apply bind_ok in E as (a1 & b & Eg & E). injection Eg as <- <-.
  apply bind_ok in E as (u & b & E1 & E2).
  rewrite Hp in E2. change (1 =? 2) with false in E2. injection E2 as _ <-.
  eapply names_pass_action_when; [exact E1 | exact Hp |].
  rewrite Hl. reflexivity.
Qed.

Lemma names_db_argument (arg : string) : names_the_line (Mnemonic.db_argument true arg).
Proof.
  intros a x a' E Hp Hl. unfold Mnemonic.db_argument in E.
  apply bind_ok in E as (a1 & b & Eg & E). injection Eg as <- <-.
  cbv zeta in E. rewrite Hp in E. change (1 =? 2) with false in E.
  unfold when in E.
  assert (Hf : negb (Str.empty (label a)) && (negb (Str.empty (label a)) && true) = true)
    by (rewrite Hl; reflexivity).
  destruct (_ && _ && _).
  { revert E Hp Hl. generalize a x a'. change (names_the_line
      (Mnemonic.flagged_loop Mnemonic.db_byte true
         (split_args (Str.substr 1 (String.length (trim arg) - 2) (trim arg)) comma))).
    apply names_flagged_loop;
      [apply split_loop_not_empty | apply names_db_byte | apply keeps_db_byte]. }
  destruct (is_quote_delimited (trim arg)).
  { apply bind_ok in E as (u & b & E1 & E2). injection E2 as _ <-.
    exact (names_pass_action_when _ _ _ _ _ _ E1 Hp Hf). }
  destruct (is_char_constant (trim arg)).
  { apply bind_ok in E as (u & b & E1 & E2). injection E2 as _ <-.
    exact (names_pass_action_when _ _ _ _ _ _ E1 Hp Hf). }
  apply bind_ok in E as (u & b & E1 & E2). injection E2 as _ <-.
  exact (names_pass_action_when _ _ _ _ _ _ E1 Hp Hf).
Qed.

Lemma names_db : names_the_line Mnemonic.db.
Proof.
  unfold Mnemonic.db.
  apply names_after; [apply steps_get | intros a].
  apply names_after; [apply looks_up_check_operands | intros _].
  apply names_flagged_loop;
    [apply split_loop_not_empty | apply names_db_argument | apply keeps_db_argument].
Qed.

Lemma names_dw : names_the_line Mnemonic.dw.
Proof.
  unfold Mnemonic.dw.
  apply names_after; [apply steps_get | intros a].
  apply names_after; [apply looks_up_check_operands | intros _].
  cbv zeta.
  pose proof (split_loop_not_empty comma (strip_comment (Mnemonic.all_operands a))
                EmptyString 0 false) as Hne.
  change (split_args_loop comma (strip_comment (Mnemonic.all_operands a)) EmptyString 0 false)
    with (split_args (Mnemonic.all_operands a) comma) in Hne.
  destruct (split_args (Mnemonic.all_operands a) comma) as [|arg args]; [contradiction|].
  cbn [for_each].
  apply names_before.
  - apply names_before; [apply names_pass_action|].
    intros _. keeps_with keeps_call.
  - intros _. keeps_with keeps_call.
Qed.

Lemma names_ds : names_the_line Mnemonic.ds.
Proof.
  intros a x a' E Hp Hl. unfold Mnemonic.ds in E.
  apply bind_ok in E as (a1 & b & Eg & E). injection Eg as <- <-.
  apply bind_ok in E as (u & b & Ec & E).
  apply check_operands_ok in Ec as ->.
  apply bind_ok in E as (size & b & Es & E).
  destruct (looks_up_evaluate_expression _ _ _ _ Es) as (r1 & -> & _).
  apply bind_ok in E as (u1 & b1 & Eneg & E).
  destruct (size <? 0); [discriminate|]. injection Eneg as _ <-.
  apply bind_ok in E as (fill_value & c & Ef & E).
  assert (Hc : exists r2, c = set_cross_reference_data r2 a).
  { destruct (negb (Str.empty (operand2 a))).
    - apply bind_ok in Ef as (v & c' & Ev & Ef). injection Ef as _ <-.
      destruct (looks_up_evaluate_expression _ _ _ _ Ev) as (r2 & -> & _).
      exists r2. reflexivity.
    - injection Ef as _ <-. exists r1. reflexivity. }
  destruct Hc as (r2 & ->).
  rewrite Hp in E. change (1 =? 2) with false in E. unfold when in E.
  apply bind_ok in E as (u2 & c' & Ew & E). injection Ew as _ <-.
  exact (names_pass_action _ _ _ _ _ E Hp Hl).
Qed.

(** [end] and [org] refuse a line that has a label. *)
Lemma names_end : names_the_line Mnemonic.end_.
Proof.
  intros a x a' E Hp Hl. unfold Mnemonic.end_ in E.
  apply bind_ok in E as (a1 & b & Eg & E). injection Eg as <- <-.
  apply bind_ok in E as (u & b & Ec & E).
  rewrite Hl in Ec. discriminate.
Qed.

Lemma names_org : names_the_line Mnemonic.org.
Proof.
  intros a x a' E Hp Hl. unfold Mnemonic.org in E.
  apply bind_ok in E as (a1 & b & Eg & E). injection Eg as <- <-.
  apply bind_ok in E as (u & b & Ec & E).
  rewrite Hl, andb_false_r in Ec. discriminate.
Qed.

Ltac names_handler :=
  cbn [snd fst];
  first [ exact names_db | exact names_dw | exact names_ds
        | exact names_end | exact names_org
        | match goal with |- names_the_line ?h => unfold h end; solve [names_walk] ].

(** Every entry of the table that defines the label of its line defines
    it as the address the line starts at; [equ], [name] and [title] do
    not. *)
Lemma handlers_name_the_line :
  Forall (fun entry => fst entry = "equ" \/ fst entry = "name" \/ fst entry = "title"
                       \/ names_the_line (snd entry))
         mnemonic_handlers.
Proof.
  unfold mnemonic_handlers.
  repeat (constructor;
          [first [ right; right; right; names_handler
                 | left; reflexivity
                 | right; left; reflexivity
                 | right; right; left; reflexivity ]|]).
  constructor.
Qed.

(** X9: a parsed line with a label, processed in pass 1, binds the label to
    the location counter the line started at, whatever the instruction
    or directive (a line with nothing but the label included); [equ]
    binds its label to the value of its operand instead, and [name] and
    [title] do nothing at all, so a label on their line is never
    defined. *)
Theorem a_label_names_the_address_its_line_starts_at :
  (forall a a',
     source_pass a = 1 -> Str.empty (label a) = false ->
     mnemonic a <> "equ" -> mnemonic a <> "name" -> mnemonic a <> "title" ->
     process_instruction a = Ok (tt, a') ->
     symbol_table a' !! label a = Some (address a))
  /\ (forall a, mnemonic a = "name" \/ mnemonic a = "title" ->
                process_instruction a = Ok (tt, a)).
Proof.
  split.
  - intros a a' Hp Hl Hequ Hname Htitle E. unfold process_instruction in E.
    apply bind_ok in E as (b & c & Eg & E). injection Eg as <- <-.
    rewrite Hl, andb_false_r in E.
    destruct (lookup_handler mnemonic_handlers (mnemonic a)) as [h|] eqn:Hh.
    + destruct (lookup_handler_entry _ _ _ _ handlers_name_the_line Hh) as (k & Hk & HP).
      apply String.eqb_eq in Hk. cbn [fst snd] in HP.
      destruct HP as [->|[->|[->|HP]]]; try congruence.
      exact (HP a tt a' E Hp Hl).
    + cbn [negb] in E. rewrite andb_true_r in E.
      destruct (Str.empty (mnemonic a)).
      * exact (names_pass_action 0 [] a tt a' E Hp Hl).
      * discriminate.
  - intros a [Hm|Hm]; unfold process_instruction, bind, get; rewrite Hm; reflexivity.
Qed.

Lemma a_label_names_the_address_witness :
  symbol_table (state_after process_instruction
                  (set_address 0x0104 (met 1 ∅ "LOOP: DCR B")))
    !! "loop" = Some 0x0104.
Proof.
  apply (proj1 a_label_names_the_address_its_line_starts_at
           (set_address 0x0104 (met 1 ∅ "LOOP: DCR B"))).
  - reflexivity.
  - reflexivity.
  - vm_compute. discriminate.
  - vm_compute. discriminate.
  - vm_compute. discriminate.
  - vm_compute. reflexivity.
Defined.

(** ** [DW] with a label *)

Lemma split_args_empty : split_args EmptyString comma = [EmptyString].
Proof. reflexivity. Qed.

(** X10: in pass 1 [dw] adds the label of its line once for every value: on a
    line with a label and two or more values the second addition finds
    the label present, and the line is refused as a duplicate label;
    with one value the line is accepted. *)
Theorem dw_with_a_label_takes_one_value (a : Assembler) :
  source_pass a = 1 -> Str.empty (label a) = false ->
  (2 <= length (split_args (Mnemonic.all_operands a) comma))%nat ->
  Mnemonic.dw a
  = Fail (Fatal (lineno a + 1) ("duplicate label: " +:+ quoted (label a))).
Proof.
  intros Hp Hl Hlen. unfold Mnemonic.dw.
  unfold bind at 1. unfold get at 1.
  assert (Hne : Str.empty (Mnemonic.all_operands a) = false).
  { destruct (Mnemonic.all_operands a) eqn:Ho; [|reflexivity].
    rewrite split_args_empty in Hlen. cbn in Hlen. lia. }
  rewrite Hne. unfold bind at 1. cbn [negb check_operands pure].
  destruct (split_args (Mnemonic.all_operands a) comma) as [|arg1 [|arg2 args]];
    cbn in Hlen; try lia.
  cbn [for_each]. rewrite Hp. change (1 =? 2) with false. unfold when.
  assert (Hact : forall b, source_pass b = 1 -> Str.empty (label b) = false ->
            pass_action 2 [] true b
            = match symbol_table b !! label b with
              | Some _ => Fail (Fatal (lineno b + 1)
                                  ("duplicate label: " +:+ quoted (label b)))
              | None => Ok (tt, set_address (to_uint16 (address b + 2))
                                  (record_reference (label b) (- (lineno b + 1))
                                     (set_symbol_table
                                        (<[label b := address b]> (symbol_table b)) b)))
              end).
  { intros b Hpb Hlb. unfold pass_action. unfold bind at 1. unfold get at 1.
    rewrite Hpb, Hlb. change (1 =? 1) with true. cbn [negb andb when].
    unfold bind at 1.
    destruct (symbol_table b !! label b) as [v|] eqn:Hs.
    - rewrite add_label_duplicate by (exists v; exact Hs). reflexivity.
    - unfold add_label, bind, get, modify.
      rewrite bool_decide_eq_false_2; [reflexivity|].
      rewrite Hs. intros [? ?]. discriminate. }
  unfold bind at 1. unfold bind at 1. rewrite (Hact a Hp Hl).
  destruct (symbol_table a !! label a) as [v|] eqn:Hs; [reflexivity|].
  cbn [pure]. unfold bind at 1. unfold bind at 1.
  rewrite Hact; [| exact Hp | exact Hl].
  cbn [label lineno symbol_table set_address record_reference
       set_cross_reference_data set_symbol_table].
  rewrite lookup_insert_eq. reflexivity.
Qed.

Lemma dw_with_a_label_witness :
  Mnemonic.dw (met 1 ∅ "TAB: DW 1,2")
  = Fail (Fatal 1 ("duplicate label: " +:+ quoted "tab"))
  /\ image (Mnemonic.dw (met 1 ∅ "TAB: DW 1")) = Ok ([], <["tab" := 0]> ∅).
Proof.
  split; [|vm_compute; reflexivity].
  apply (dw_with_a_label_takes_one_value (met 1 ∅ "TAB: DW 1,2")).
  - reflexivity.
  - reflexivity.
  - vm_compute. lia.
Defined.

(** * Source lines: conditional blocks, macro invocations, [END] *)

Lemma expand_unfold (depth : nat) (line : string) (n : Z) (a : Assembler) :
  has_text line = true ->
  expand_and_process_line (S depth) line n a
  = (if Str.eqb (first_word line) "if" then
       a <- get ;;
       let is_active := negb (should_skip a) in
       let condition_expr := Str.getline (snd (Str.read_word (trim line))) in
       condition_result <- (if is_active then evaluate_conditional condition_expr
                            else pure false) ;;
       modify (fun a => set_if_stack (if_stack a ++ [condition_result]) a)
     else if Str.eqb (first_word line) "endif" then
       a <- get ;;
       (if bool_decide (if_stack a = [])
        then report_error "ENDIF without IF" n
        else pure tt) ;;
       modify (fun a => set_if_stack (pop_back (if_stack a)) a)
     else
       a <- get ;;
       if should_skip a then pure tt
       else if Str.eqb (first_word line) "error" || Str.eqb (first_word line) "local"
       then pure tt
       else
         match macros a !! first_word line with
         | Some macro_def =>
             modify (fun a =>
               set_macro_expansion_counter (to_int (macro_expansion_counter a + 1)) a) ;;
             (if negb (length (arguments_of line) =? length (params macro_def))%nat
              then report_error ("macro '" +:+ name macro_def
                                 +:+ "' argument count mismatch") n
              else pure tt) ;;
             a <- get ;;
             for_each (fun body_line =>
                         body_line <- substitute_all
                                        (combine (params macro_def) (arguments_of line))
                                        body_line ;;
                         body_line <- substitute_all
                                        (build_local_label_map (macro_expansion_counter a)
                                           (body_lines macro_def)) body_line ;;
                         expand_and_process_line depth body_line n)
                      (body_lines macro_def)
         | None =>
             modify (set_lineno n) ;;
             parse line ;;
             process_instruction
         end) a.
Proof.
  unfold has_text, first_word, arguments_of. intros Ht. apply negb_true_iff in Ht.
  cbn [expand_and_process_line]. rewrite Ht.
  destruct (Str.read_word (trim line)) as [w ss]. reflexivity.
Qed.

Lemma set_if_stack_same (a : Assembler) : set_if_stack (if_stack a) a = a.
Proof. destruct a. reflexivity. Qed.

Lemma pop_back_push {A} (l : list A) (x : A) : pop_back (l ++ [x]) = l.
Proof. unfold pop_back. apply removelast_last. Qed.

Lemma should_skip_not_empty (a : Assembler) : should_skip a = true -> if_stack a <> [].
Proof. unfold should_skip. intros H E. rewrite E in H. discriminate. Qed.

(** X11: inside a conditional block whose condition, or that of a block
    around it, is false, a line does nothing, whatever it holds (no
    mnemonic is looked up, no operand evaluated, no error reported);
    an [IF] puts [false] on the stack without evaluating its condition,
    and the [ENDIF] that follows takes it off again, which leaves the
    assembler as it was. *)
Theorem a_false_block_is_skipped (depth : nat) (n : Z) (a : Assembler) :
  should_skip a = true ->
  (forall line, first_word line <> "if" -> first_word line <> "endif" ->
     expand_and_process_line (S depth) line n a = Ok (tt, a))
  /\ (forall line, has_text line = true -> first_word line = "if" ->
        expand_and_process_line (S depth) line n a
        = Ok (tt, set_if_stack (if_stack a ++ [false]) a))
  /\ (forall line line', has_text line = true -> first_word line = "if" ->
        has_text line' = true -> first_word line' = "endif" ->
        (expand_and_process_line (S depth) line n ;;
         expand_and_process_line (S depth) line' n) a = Ok (tt, a)).
Proof.
  intros Hs.
  assert (Hif : forall line, has_text line = true -> first_word line = "if" ->
            expand_and_process_line (S depth) line n a
            = Ok (tt, set_if_stack (if_stack a ++ [false]) a)).
  { intros line Ht Hw. rewrite expand_unfold by exact Ht. rewrite Hw.
    change (Str.eqb "if" "if") with true. cbv iota.
    unfold bind, get. rewrite Hs. reflexivity. }
  split; [|split; [exact Hif|]].
  - intros line Hif' Hendif.
    destruct (has_text line) eqn:Ht.
    + rewrite expand_unfold by exact Ht.
      apply String.eqb_neq in Hif', Hendif. unfold Str.eqb.
      rewrite Hif', Hendif. unfold bind, get. rewrite Hs. reflexivity.
    + unfold has_text in Ht. apply negb_false_iff in Ht.
      cbn [expand_and_process_line]. rewrite Ht. reflexivity.
  - intros line line' Ht Hw Ht' Hw'. unfold bind at 1. rewrite (Hif line Ht Hw).
    rewrite expand_unfold by exact Ht'. rewrite Hw'.
    change (Str.eqb "endif" "if") with false.
    change (Str.eqb "endif" "endif") with true. cbv iota.
    unfold bind, get, modify. cbn [if_stack set_if_stack].
    rewrite bool_decide_eq_false_2 by (intros E; destruct (if_stack a); discriminate).
    unfold pure. cbn [if_stack set_if_stack]. rewrite pop_back_push.
    assert (E : forall l, set_if_stack (if_stack a) (set_if_stack l a) = a)
      by (intros l; destruct a; reflexivity).
    rewrite E. reflexivity.
Qed.

Lemma a_false_block_is_skipped_witness :
  expand_and_process_line 1 "  FROB 1,2,3 ; no such mnemonic" 7
    (set_if_stack [true; false] new_Assembler)
  = Ok (tt, set_if_stack [true; false] new_Assembler).
Proof.
  apply (proj1 (a_false_block_is_skipped 0 7 (set_if_stack [true; false] new_Assembler)
                  eq_refl)).
  - vm_compute. discriminate.
  - vm_compute. discriminate.
Defined.

(** ** A macro with a parameter whose name is empty *)

Lemma split_args_blank (s : string) :
  all_chars isspace s = true -> split_args s comma = [EmptyString].
Proof.
  intros H.
  assert (Hp : all_chars is_plain s = true).
  { revert H. apply all_chars_impl.
    intros c. destruct c as [[] [] [] [] [] [] [] []]; vm_compute; congruence. }
  unfold split_args. rewrite strip_comment_inner.
  - rewrite <- (append_nil_r s) at 1.
    rewrite split_loop_copy; [| apply all_chars_plain_inner; exact Hp | left; exact Hp].
    cbn [split_args_loop]. change (EmptyString +:+ s) with s.
    rewrite (trim_blank s H). reflexivity.
  - revert Hp. apply all_chars_impl. intros c Hc.
    rewrite (plain_is_inner c Hc). reflexivity.
Qed.

Lemma substitute_all_empty_name (pairs : list (string * string)) (body_line : string)
    (a : Assembler) :
  (exists y, In (EmptyString, y) pairs) ->
  substitute_all pairs body_line a = Fail Hang.
Proof.
  revert body_line. induction pairs as [|[x y] pairs IH]; intros body_line [y0 Hin].
  - destruct Hin.
  - cbn [substitute_all]. unfold bind.
    destruct (string_dec x EmptyString) as [->|Hx].
    + rewrite (proj1 (substitute_hangs_iff_empty_name EmptyString y body_line a) eq_refl).
      reflexivity.
    + destruct (proj2 (substitute_hangs_iff_empty_name x y body_line a) Hx) as (s & ->).
      apply IH. destruct Hin as [E|Hin]; [congruence|].
      exists y0. exact Hin.
Qed.

Lemma combine_In_l {A B} (l : list A) (l' : list B) (x : A) :
  length l' = length l -> In x l -> exists y, In (x, y) (combine l l').
Proof.
  revert l'. induction l as [|z l IH]; intros l' Hlen Hin; [destruct Hin|].
  destruct l' as [|y l']; [discriminate|]. cbn.
  destruct Hin as [->|Hin].
  - exists y. left. reflexivity.
  - destruct (IH l' ltac:(cbn in Hlen; lia) Hin) as (y' & Hy). exists y'. right. exact Hy.
Qed.

(** X12: a parameter list that is blank is one parameter with the empty
    name, and the substitution loop for such a parameter never exits.
    So a macro that was declared without parameters, and whose body has
    a line, cannot be invoked: the expansion of its first body line
    never returns. *)
Theorem a_macro_without_parameters_cannot_be_expanded :
  (forall s, all_chars isspace s = true -> split_args s comma = [EmptyString])
  /\ (forall depth line n a macro_def,
        has_text line = true -> should_skip a = false ->
        first_word line <> "if" -> first_word line <> "endif" ->
        first_word line <> "error" -> first_word line <> "local" ->
        macros a !! first_word line = Some macro_def ->
        In EmptyString (params macro_def) ->
        body_lines macro_def <> [] ->
        length (arguments_of line) = length (params macro_def) ->
        expand_and_process_line (S depth) line n a = Fail Hang).
Proof.
  split; [exact split_args_blank|].
  intros depth line n a macro_def Ht Hs Hif Hendif Herror Hlocal Hm Hin Hbody Hlen.
  rewrite expand_unfold by exact Ht.
  apply String.eqb_neq in Hif, Hendif, Herror, Hlocal. unfold Str.eqb.
  rewrite Hif, Hendif, Herror, Hlocal. cbn [orb].
  unfold bind at 1. unfold get at 1. rewrite Hs, Hm.
  unfold bind at 1. unfold modify at 1.
  unfold bind at 1. rewrite Hlen, Nat.eqb_refl. cbn [negb]. unfold pure at 1.
  unfold bind at 1. unfold get at 1.
  destruct (body_lines macro_def) as [|l ls] eqn:Hb; [contradiction|].
  cbn [for_each]. unfold bind at 1. unfold bind at 1.
  rewrite substitute_all_empty_name; [reflexivity|].
  apply combine_In_l; [exact Hlen | exact Hin].
Qed.

Lemma a_macro_without_parameters_witness :
  macros (state_after (preprocess_macros ["BEEP MACRO"; " NOP"; " ENDM"]) new_Assembler)
    !! "beep"
  = Some {| name := "beep"; params := [EmptyString]; body_lines := [" NOP"] |}
  /\ expand_and_process_line 1 " BEEP" 3
       (state_after (preprocess_macros ["BEEP MACRO"; " NOP"; " ENDM"]) new_Assembler)
     = Fail Hang.
Proof.
  split; [vm_compute; reflexivity|].
  apply (proj2 a_macro_without_parameters_cannot_be_expanded 0%nat " BEEP" 3 _
           {| name := "beep"; params := [EmptyString]; body_lines := [" NOP"] |}).
  - reflexivity.
  - reflexivity.
  - vm_compute. discriminate.
  - vm_compute. discriminate.
  - vm_compute. discriminate.
  - vm_compute. discriminate.
  - vm_compute. reflexivity.
  - left. reflexivity.
  - discriminate.
  - reflexivity.
Defined.

(** ** [END] *)

Lemma do_pass_loop_finished (depth : nat) (lines : list string) (i : Z) (m : bool)
    (a : Assembler) :
  assembly_finished a = true ->
  do_pass_loop depth lines i m a = Ok (tt, set_lineno i a).
Proof.
  intros Hf. destruct lines as [|l lines]; cbn [do_pass_loop].
  - reflexivity.
  - unfold bind, modify, get. cbn [assembly_finished set_lineno]. rewrite Hf. reflexivity.
Qed.

Lemma do_pass_loop_app (depth : nat) (pre post : list string) :
  forall (i : Z) (m : bool) (a a' : Assembler),
    do_pass_loop depth pre i m a = Ok (tt, a') -> assembly_finished a' = true ->
    do_pass_loop depth (pre ++ post) i m a = Ok (tt, a').
Proof.
  induction pre as [|l pre IH]; intros i m a a' E Hf.
  - cbn in E. injection E as <-. cbn [app].
    apply do_pass_loop_finished. exact Hf.
  - cbn [app do_pass_loop] in E |- *.
    unfold bind at 1 in E. unfold bind at 1. unfold modify at 1 in E. unfold modify at 1.
    unfold bind at 1 in E. unfold bind at 1. unfold get at 1 in E. unfold get at 1.
    destruct (assembly_finished (set_lineno i a)); [exact E|].
    destruct (Str.empty (trim l)); [exact (IH _ _ _ _ E Hf)|].
    destruct (Str.read_word (trim l)) as [first_word ss].
    destruct (Str.read_word ss) as [second_word ss'].
    destruct (if Str.eqb (to_lower second_word) "macro" then true else m).
    + exact (IH _ _ _ _ E Hf).
    + unfold bind at 1 in E. unfold bind at 1.
      destruct (expand_and_process_line depth l i (set_lineno i a)) as [[u b]|f];
        [|discriminate].
      exact (IH _ _ _ _ E Hf).
Qed.

(** X13: once [END] has set [assembly_finished], the pass looks at no
    further line: whatever follows the lines of a pass that ended with
    the flag set, the pass returns the same state.  (Pass 0 does read
    on: [preprocess_macros] does not know the flag.) *)
Theorem nothing_after_end_is_assembled (depth : nat) (pre post : list string)
    (a a' : Assembler) :
  do_pass depth pre a = Ok (tt, a') -> assembly_finished a' = true ->
  do_pass depth (pre ++ post) a = Ok (tt, a').
Proof.
  intros E Hf. unfold do_pass in E |- *.
  unfold bind at 1 in E. unfold bind at 1. unfold modify at 1 in E. unfold modify at 1.
  unfold bind at 1 in E. unfold bind at 1.
  destruct (do_pass_loop depth pre 0 false (set_if_stack [] a)) as [[u b]|f] eqn:El;
    [|discriminate].
  destruct u.
  assert (Hb : b = a' /\ if_stack b = []).
  { unfold bind, get in E. destruct (bool_decide (if_stack b = [])) eqn:Hd.
    - apply bool_decide_eq_true in Hd. injection E as <-. split; [reflexivity | exact Hd].
    - discriminate. }
  destruct Hb as [-> Hi].
  rewrite (do_pass_loop_app depth pre post 0 false _ _ El Hf).
  unfold bind, get. rewrite Hi. reflexivity.
Qed.

Lemma nothing_after_end_is_assembled_witness :
  image (do_pass 1 ([" MVI A,1"; " END"] ++ [" FROB"; " IF"])
           (set_source_pass 2 new_Assembler))
  = Ok ([0x3e; 0x01], ∅).
Proof.
  rewrite (nothing_after_end_is_assembled 1 [" MVI A,1"; " END"] [" FROB"; " IF"]
             (set_source_pass 2 new_Assembler)
             (state_after (do_pass 1 [" MVI A,1"; " END"])
                (set_source_pass 2 new_Assembler))).
  - reflexivity.
  - vm_compute. reflexivity.
  - reflexivity.
Defined.

(** * The expression evaluator follows the usual precedence *)

Lemma take_while_app (p : ascii -> bool) (w rest : string) :
  all_chars p w = true ->
  match rest with String c _ => p c = false | EmptyString => True end ->
  take_while p (w +:+ rest) = (w, rest).
Proof.
  intros Hw Hr. induction w as [|c w IH].
  - change (EmptyString +:+ rest) with rest.
    destruct rest as [|c r]; [reflexivity|]. cbn. rewrite Hr. reflexivity.
  - cbn in Hw. apply andb_true_iff in Hw as [Hc Hw].
    rewrite append_cons. cbn [take_while]. rewrite Hc, (IH Hw). reflexivity.
Qed.

Lemma decimal_digit_facts (c : ascii) :
  is_digit_in 10 c = true ->
  isdigit c = true /\ isalnum c = true /\ isspace c = false
  /\ is_ident_start c = false /\ tolower c = c
  /\ ch_eqb c squote = false /\ Ascii.eqb c "$" = false /\ Ascii.eqb c "(" = false
  /\ ch_eqb (chr 108) c = false /\ ch_eqb (chr 104) c = false.
Proof. destruct c as [[] [] [] [] [] [] [] []]; vm_compute; intuition congruence. Qed.

Lemma decimal_digits (n : Z) : 0 <= n -> all_chars (is_digit_in 10) (render 10 n) = true.
Proof. intros Hn. apply all_chars_render; lia. Qed.

Lemma number_text (n : Z) :
  0 <= n -> exists d r, render 10 n = String d r /\ is_digit_in 10 d = true
                        /\ all_chars (is_digit_in 10) r = true.
Proof.
  intros Hn. pose proof (decimal_digits n Hn) as H.
  pose proof (render_not_empty 10 n) as Hne.
  destruct (render 10 n) as [|d r]; [contradiction|].
  cbn in H. apply andb_true_iff in H as [Hd Hr]. exists d, r. auto.
Qed.

Lemma get_token_number (n : Z) (rest : string) :
  0 <= n -> starts_alnum rest = false ->
  get_token (render 10 n +:+ rest) = (render 10 n, rest).
Proof.
  intros Hn Hrest. destruct (number_text n Hn) as (d & r & -> & Hd & Hr).
  destruct (decimal_digit_facts d Hd) as (Hdig & _ & Hsp & Hid & _).
  rewrite append_cons. unfold get_token. cbn [Str.skip_ws]. rewrite Hsp, Hid, Hdig.
  cbn [orb]. rewrite take_while_app; [reflexivity | |].
  - revert Hr. apply all_chars_impl. intros c Hc. apply (decimal_digit_facts c Hc).
  - destruct rest; [exact I | exact Hrest].
Qed.

Lemma to_lower_digits (s : string) :
  all_chars (is_digit_in 10) s = true -> to_lower s = s.
Proof.
  unfold to_lower. induction s as [|c s IH]; [reflexivity|].
  cbn. intros H. apply andb_true_iff in H as [Hc Hs].
  destruct (decimal_digit_facts c Hc) as (_ & _ & _ & _ & -> & _).
  rewrite (IH Hs). reflexivity.
Qed.

Lemma evaluate_single_term_number (n : Z) (a : Assembler) :
  0 <= n <= INT_MAX -> evaluate_single_term (render 10 n) a = Ok (n, a).
Proof.
  intros Hn. unfold evaluate_single_term.
  rewrite (trim_no_space _ (digits_not_space n ltac:(lia))).
  pose proof (decimal_digits n ltac:(lia)) as Hall.
  rewrite (to_lower_digits _ Hall).
  destruct (number_text n ltac:(lia)) as (d & r & E & Hd & Hr).
  destruct (decimal_digit_facts d Hd)
    as (Hdig & _ & _ & _ & _ & Hq & Hdollar & _ & Hl & Hh).
  assert (H1 : Str.empty (render 10 n) = false) by (rewrite E; reflexivity).
  assert (H2 : is_char_constant (render 10 n) = false).
  { rewrite E. unfold is_char_constant. cbn [Str.front default from_option].
    unfold id. rewrite Hq, andb_false_r. reflexivity. }
  assert (H3 : Str.eqb (render 10 n) "$" = false).
  { rewrite E. unfold Str.eqb. cbn [String.eqb]. rewrite Hdollar. reflexivity. }
  assert (H4 : Str.starts_with "low " (render 10 n) = false).
  { rewrite E. cbn [Str.starts_with]. change (ch_eqb "l" d) with (ch_eqb (chr 108) d).
    rewrite Hl. reflexivity. }
  assert (H5 : Str.starts_with "high " (render 10 n) = false).
  { rewrite E. cbn [Str.starts_with]. change (ch_eqb "h" d) with (ch_eqb (chr 104) d).
    rewrite Hh. reflexivity. }
  assert (H6 : isdigit (default Ascii.zero (Str.front (render 10 n))) = true).
  { rewrite E. exact Hdig. }
  rewrite H1, H2. unfold bind, get. rewrite H3, H4, H5, H6. cbn [orb].
  apply get_number_decimal. exact Hn.
Qed.

Lemma number_is_no_parenthesis (n : Z) : 0 <= n -> Str.eqb (render 10 n) "(" = false.
Proof.
  intros Hn. destruct (number_text n Hn) as (d & r & -> & Hd & _).
  destruct (decimal_digit_facts d Hd) as (_ & _ & _ & _ & _ & _ & _ & Hp & _).
  unfold Str.eqb. cbn [String.eqb]. rewrite Hp. reflexivity.
Qed.

Lemma get_token_multiplicative (o : multiplicative) (it : string) :
  get_token (" " +:+ multiplicative_text o +:+ " " +:+ it)
  = (multiplicative_text o, String " " it).
Proof. destruct o; reflexivity. Qed.

Lemma get_token_additive (o : additive) (it : string) :
  get_token (" " +:+ additive_text o +:+ " " +:+ it) = (additive_text o, String " " it).
Proof. destruct o; reflexivity. Qed.

Section Descent.
Variable rec : string -> M (Z * string).

Lemma parse_expr_factor_number (n : Z) (rest : string) (a : Assembler) :
  0 <= n <= INT_MAX -> starts_alnum rest = false ->
  parse_expr_factor rec (render 10 n +:+ rest) a = Ok (n, rest, a).
Proof.
  intros Hn Hrest. unfold parse_expr_factor.
  rewrite get_token_number by (exact Hrest || lia).
  rewrite number_is_no_parenthesis by lia.
  unfold bind. rewrite evaluate_single_term_number by exact Hn. reflexivity.
Qed.

(** A blank in front of a factor is skipped. *)
Lemma parse_expr_factor_blank (it : string) :
  parse_expr_factor rec (String " " it) = parse_expr_factor rec it.
Proof. reflexivity. Qed.

Lemma parse_expr_term_blank (it : string) :
  parse_expr_term rec (String " " it) = parse_expr_term rec it.
Proof. reflexivity. Qed.

Lemma parse_expr_term_loop_ends (turns : nat) (acc : Z) (rest : string) (a : Assembler) :
  ends_term rest = true ->
  parse_expr_term_loop rec (S turns) acc rest a = Ok (acc, rest, a).
Proof.
  unfold ends_term, is_multiplicative. intros H.
  apply andb_true_iff in H as [_ H]. apply negb_true_iff in H.
  apply orb_false_iff in H as [H H3]. apply orb_false_iff in H as [H1 H2].
  cbn [parse_expr_term_loop]. destruct (get_token rest) as [op it].
  cbn [fst] in H1, H2, H3. rewrite H1, H2, H3. reflexivity.
Qed.

Lemma evaluate_expression_loop_ends (turns : nat) (acc : Z) (rest : string)
    (a : Assembler) :
  ends_expression rest = true ->
  evaluate_expression_loop rec (S turns) acc rest a = Ok (acc, rest, a).
Proof.
  unfold ends_expression, is_additive. intros H.
  apply andb_true_iff in H as [_ H]. apply negb_true_iff in H.
  apply orb_false_iff in H as [H H4]. apply orb_false_iff in H as [H H3].
  apply orb_false_iff in H as [H1 H2].
  cbn [evaluate_expression_loop]. destruct (get_token rest) as [op it].
  cbn [fst] in H1, H2, H3, H4. rewrite H1, H2, H3, H4. reflexivity.
Qed.

Lemma parse_expr_term_loop_step (turns : nat) (acc : Z) (o : multiplicative)
    (it : string) (a : Assembler) :
  parse_expr_term_loop rec (S turns) acc
    (" " +:+ multiplicative_text o +:+ " " +:+ it) a
  = match parse_expr_factor rec it a with
    | Ok (rhs, it', a') =>
        match apply_multiplicative o acc rhs with
        | Some acc' => parse_expr_term_loop rec turns acc' it' a'
        | None => Fail DivisionTrap
        end
    | Fail f => Fail f
    end.
Proof.
  cbn [parse_expr_term_loop]. rewrite get_token_multiplicative.
  destruct o; cbn [multiplicative_text]; unfold bind; rewrite parse_expr_factor_blank.
  - change (to_lower "*") with "*". cbn.
    destruct (parse_expr_factor rec it a) as [[[rhs it'] a']|f]; reflexivity.
  - change (to_lower "/") with "/". cbn.
    destruct (parse_expr_factor rec it a) as [[[rhs it'] a']|f]; [|reflexivity].
    unfold int_div. destruct (_ || _); reflexivity.
  - change (to_lower "AND") with "and". cbn.
    destruct (parse_expr_factor rec it a) as [[[rhs it'] a']|f]; reflexivity.
Qed.

Lemma evaluate_expression_loop_step (turns : nat) (acc : Z) (o : additive)
    (it : string) (a : Assembler) :
  evaluate_expression_loop rec (S turns) acc
    (" " +:+ additive_text o +:+ " " +:+ it) a
  = match parse_expr_term rec it a with
    | Ok (rhs, it', a') =>
        evaluate_expression_loop rec turns (apply_additive o acc rhs) it' a'
    | Fail f => Fail f
    end.
Proof.
  cbn [evaluate_expression_loop]. rewrite get_token_additive.
  destruct o; cbn [additive_text]; unfold bind; rewrite parse_expr_term_blank.
  - change (to_lower "+") with "+". cbn.
    destruct (parse_expr_term rec it a) as [[[rhs it'] a']|f]; reflexivity.
  - change (to_lower "-") with "-". cbn.
    destruct (parse_expr_term rec it a) as [[[rhs it'] a']|f]; reflexivity.
  - change (to_lower "OR") with "or". cbn.
    destruct (parse_expr_term rec it a) as [[[rhs it'] a']|f]; reflexivity.
  - change (to_lower "XOR") with "xor". cbn.
    destruct (parse_expr_term rec it a) as [[[rhs it'] a']|f]; reflexivity.
Qed.

Lemma parse_expr_factor_group (it : string) (a : Assembler) :
  parse_expr_factor rec (String "(" it) a
  = match rec it a with
    | Ok (result, it', a') =>
        if Str.eqb (fst (get_token it')) ")"
        then Ok (result, snd (get_token it'), a')
        else Fail (Fatal (lineno a' + 1) "mismatched parentheses in expression")
    | Fail f => Fail f
    end.
Proof.
  unfold parse_expr_factor.
  change (get_token (String "(" it)) with ("(", it). cbv beta iota.
  change (Str.eqb "(" "(") with true. cbv iota. unfold bind at 1.
  destruct (rec it a) as [[[result it'] a']|f]; [|reflexivity].
  destruct (get_token it') as [closing_paren it'']. cbn [fst snd].
  unfold bind, get. destruct (Str.eqb closing_paren ")"); reflexivity.
Qed.

End Descent.

Lemma ends_term_additive (o : additive) (it : string) :
  ends_term (" " +:+ additive_text o +:+ " " +:+ it) = true.
Proof. unfold ends_term. rewrite get_token_additive. destruct o; reflexivity. Qed.

Lemma ends_term_more_terms (r : more_terms) (rest : string) :
  ends_expression rest = true -> ends_term (text_of_more_terms r +:+ rest) = true.
Proof.
  intros H. destruct r as [|o t r]; cbn [text_of_more_terms].
  - apply andb_true_iff in H as [H _]. exact H.
  - rewrite !append_assoc. apply ends_term_additive.
Qed.

Lemma no_alnum_more_factors (r : more_factors) (rest : string) :
  ends_term rest = true -> starts_alnum (text_of_more_factors r +:+ rest) = false.
Proof.
  intros H. destruct r as [|o f r]; cbn [text_of_more_factors].
  - apply andb_true_iff in H as [H _]. apply negb_true_iff in H. exact H.
  - reflexivity.
Qed.

Lemma ends_expression_close (rest : string) : ends_expression (String ")" rest) = true.
Proof. reflexivity. Qed.

Lemma count_terms_length (r : more_terms) :
  (count_terms r <= String.length (text_of_more_terms r))%nat.
Proof.
  induction r as [|o t r IH]; cbn [count_terms text_of_more_terms]; [lia|].
  rewrite !length_append. cbn [String.length]. lia.
Qed.

Lemma count_factors_length (r : more_factors) :
  (count_factors r <= String.length (text_of_more_factors r))%nat.
Proof.
  induction r as [|o f r IH]; cbn [count_factors text_of_more_factors]; [lia|].
  rewrite !length_append. cbn [String.length]. lia.
Qed.

Lemma nesting_length :
  (forall e, (nesting e <= String.length (text_of_expression e))%nat)
  /\ (forall r, (nesting_more_terms r <= String.length (text_of_more_terms r))%nat)
  /\ (forall t, (nesting_term t <= String.length (text_of_term t))%nat)
  /\ (forall r, (nesting_more_factors r <= String.length (text_of_more_factors r))%nat)
  /\ (forall f, (nesting_factor f <= String.length (text_of_factor f))%nat).
Proof.
  apply expression_mutind; intros;
    cbn [nesting nesting_more_terms nesting_term nesting_more_factors nesting_factor
         text_of_expression text_of_more_terms text_of_term text_of_more_factors
         text_of_factor];
    rewrite ?length_append; cbn [String.length]; lia.
Qed.

(** The descent of the evaluator over the text of an expression, with
    the nesting of its recursion and the turns of its loops bounded as
    [evaluate_expression] bounds them. *)
Lemma descent_follows_the_syntax :
  (forall e, numbers_fit e -> forall d rest a,
     (nesting e <= d)%nat -> ends_expression rest = true ->
     evaluate_expression_body (evaluate_expression_it d)
       (text_of_expression e +:+ rest) a
     = outcome (value_of_expression e) rest a)
  /\ (forall r, numbers_fit_more_terms r -> forall d turns acc rest a,
        (nesting_more_terms r <= d)%nat -> (count_terms r < turns)%nat ->
        ends_expression rest = true ->
        evaluate_expression_loop (evaluate_expression_it d) turns acc
          (text_of_more_terms r +:+ rest) a
        = outcome (value_of_more_terms acc r) rest a)
  /\ (forall t, numbers_fit_term t -> forall d rest a,
        (nesting_term t <= d)%nat -> ends_term rest = true ->
        parse_expr_term (evaluate_expression_it d) (text_of_term t +:+ rest) a
        = outcome (value_of_term t) rest a)
  /\ (forall r, numbers_fit_more_factors r -> forall d turns acc rest a,
        (nesting_more_factors r <= d)%nat -> (count_factors r < turns)%nat ->
        ends_term rest = true ->
        parse_expr_term_loop (evaluate_expression_it d) turns acc
          (text_of_more_factors r +:+ rest) a
        = outcome (value_of_more_factors acc r) rest a)
  /\ (forall f, numbers_fit_factor f -> forall d rest a,
        (nesting_factor f <= d)%nat -> starts_alnum rest = false ->
        parse_expr_factor (evaluate_expression_it d) (text_of_factor f +:+ rest) a
        = outcome (value_of_factor f) rest a).
Proof.
  apply expression_mutind.
  - intros t IHt r IHr [Ht Hr] d rest a Hd Hend.
    cbn [text_of_expression value_of_expression nesting] in *.
    rewrite append_assoc. unfold evaluate_expression_body, bind.
    rewrite IHt; [| exact Ht | lia | apply ends_term_more_terms; exact Hend].
    destruct (value_of_term t) as [v|]; cbn [outcome]; [|reflexivity].
    apply IHr; [exact Hr | lia | | exact Hend].
    pose proof (count_terms_length r). rewrite length_append. lia.
  - intros _ d turns acc rest a _ Hturns Hend.
    destruct turns as [|turns]; [lia|].
    change (text_of_more_terms NoTerm +:+ rest) with rest.
    apply evaluate_expression_loop_ends. exact Hend.
  - intros o t IHt r IHr [Ht Hr] d turns acc rest a Hd Hturns Hend.
    cbn [text_of_more_terms value_of_more_terms nesting_more_terms count_terms] in *.
    destruct turns as [|turns]; [lia|].
    rewrite !append_assoc. rewrite evaluate_expression_loop_step.
    rewrite IHt; [| exact Ht | lia | apply ends_term_more_terms; exact Hend].
    destruct (value_of_term t) as [v|]; cbn [outcome]; [|reflexivity].
    apply IHr; [exact Hr | lia | lia | exact Hend].
  - intros f IHf r IHr [Hf Hr] d rest a Hd Hend.
    cbn [text_of_term value_of_term nesting_term] in *.
    rewrite append_assoc. unfold parse_expr_term, bind.
    rewrite IHf; [| exact Hf | lia | apply no_alnum_more_factors; exact Hend].
    destruct (value_of_factor f) as [v|]; cbn [outcome]; [|reflexivity].
    apply IHr; [exact Hr | lia | | exact Hend].
    pose proof (count_factors_length r). rewrite length_append. lia.
  - intros _ d turns acc rest a _ Hturns Hend.
    destruct turns as [|turns]; [lia|].
    change (text_of_more_factors NoFactor +:+ rest) with rest.
    apply parse_expr_term_loop_ends. exact Hend.
  - intros o f IHf r IHr [Hf Hr] d turns acc rest a Hd Hturns Hend.
    cbn [text_of_more_factors value_of_more_factors nesting_more_factors
         count_factors] in *.
    destruct turns as [|turns]; [lia|].
    rewrite !append_assoc. rewrite parse_expr_term_loop_step.
    rewrite IHf; [| exact Hf | lia | apply no_alnum_more_factors; exact Hend].
    destruct (value_of_factor f) as [v|]; cbn [outcome]; [|reflexivity].
    destruct (apply_multiplicative o acc v) as [acc'|]; [|reflexivity].
    apply IHr; [exact Hr | lia | lia | exact Hend].
  - intros n Hn d rest a _ Hrest.
    cbn [text_of_factor value_of_factor numbers_fit_factor outcome] in *.
    apply parse_expr_factor_number; assumption.
  - intros e IHe He d rest a Hd Hrest.
    cbn [text_of_factor value_of_factor numbers_fit_factor nesting_factor] in *.
    destruct d as [|d]; [lia|].
    rewrite !append_assoc.
    change ("(" +:+ text_of_expression e +:+ ")" +:+ rest)
      with (String "(" (text_of_expression e +:+ String ")" rest)).
    rewrite parse_expr_factor_group. cbn [evaluate_expression_it].
    rewrite IHe; [| exact He | lia | apply ends_expression_close].
    destruct (value_of_expression e) as [v|]; cbn [outcome]; reflexivity.
Qed.

(** X14: on the text of an expression (decimal numbers, the operators [+],
    [-], [OR], [XOR], [*], [/], [AND] between blanks, parentheses)
    [evaluate_expression] returns the value the usual rules give:
    [*], [/] and [AND] bind tighter than [+], [-], [OR] and [XOR], each
    level goes from left to right, parentheses group, the arithmetic is
    that of [int]; a division that has no quotient traps; the assembler
    is left as it was. *)
Theorem evaluate_expression_follows_the_usual_precedence (e : expression)
    (a : Assembler) :
  numbers_fit e ->
  evaluate_expression (text_of_expression e) a
  = match value_of_expression e with
    | Some v => Ok (v, a)
    | None => Fail DivisionTrap
    end.
Proof.
  intros He. unfold evaluate_expression, bind.
  cbn [evaluate_expression_it].
  rewrite <- (append_nil_r (text_of_expression e)) at 2.
  rewrite (proj1 descent_follows_the_syntax e He);
    [| apply (proj1 nesting_length) | reflexivity].
  destruct (value_of_expression e); reflexivity.
Qed.

Lemma evaluate_expression_follows_the_usual_precedence_witness :
  evaluate_expression "2 + 3 * 4" new_Assembler = Ok (14, new_Assembler)
  /\ evaluate_expression "(2 + 3) * 4" new_Assembler = Ok (20, new_Assembler)
  /\ evaluate_expression "7 - 2 - 1" new_Assembler = Ok (4, new_Assembler)
  /\ evaluate_expression "6 / (2 - 2)" new_Assembler = Fail DivisionTrap.
Proof.
  split; [|split; [|split]].
  - apply (evaluate_expression_follows_the_usual_precedence
             (Expression (Term (Number 2) NoFactor)
                (NextTerm Plus
                   (Term (Number 3) (NextFactor Times (Number 4) NoFactor)) NoTerm))).
    cbn. unfold INT_MAX. lia.
  - apply (evaluate_expression_follows_the_usual_precedence
             (Expression
                (Term (Group (Expression (Term (Number 2) NoFactor)
                                (NextTerm Plus (Term (Number 3) NoFactor) NoTerm)))
                   (NextFactor Times (Number 4) NoFactor)) NoTerm)).
    cbn. unfold INT_MAX. lia.
  - apply (evaluate_expression_follows_the_usual_precedence
             (Expression (Term (Number 7) NoFactor)
                (NextTerm Minus (Term (Number 2) NoFactor)
                   (NextTerm Minus (Term (Number 1) NoFactor) NoTerm)))).
    cbn. unfold INT_MAX. lia.
  - apply (evaluate_expression_follows_the_usual_precedence
             (Expression
                (Term (Number 6)
                   (NextFactor Divide
                      (Group (Expression (Term (Number 2) NoFactor)
                                (NextTerm Minus (Term (Number 2) NoFactor) NoTerm)))
                      NoFactor)) NoTerm)).
    cbn. unfold INT_MAX. lia.
Defined.

(** ** Text after an expression *)

Lemma evaluate_expression_with_rest (e : expression) (rest : string) (a : Assembler) :
  numbers_fit e -> ends_expression rest = true ->
  evaluate_expression (text_of_expression e +:+ rest) a
  = match value_of_expression e with
    | Some v => Ok (v, a)
    | None => Fail DivisionTrap
    end.
Proof.
  intros He Hrest. unfold evaluate_expression, bind.
  cbn [evaluate_expression_it].
  rewrite (proj1 descent_follows_the_syntax e He); [| | exact Hrest].
  - destruct (value_of_expression e); reflexivity.
  - pose proof (proj1 nesting_length e). rewrite length_append. lia.
Qed.

Lemma get_token_signed_number (n : Z) :
  0 <= n -> get_token (String "-" (render 10 n)) = (String "-" (render 10 n), EmptyString).
Proof.
  intros Hn. destruct (number_text n Hn) as (d & r & -> & Hd & Hr).
  destruct (decimal_digit_facts d Hd) as (Hdig & Hal & _).
  unfold get_token. cbn [Str.skip_ws].
  change (isspace "-") with false. cbv iota.
  change (is_ident_start "-") with false. cbv iota.
  change (isdigit "-") with false. change (ch_eqb "-" minus_sign) with true.
  rewrite Hdig. cbn [orb andb].
  rewrite <- (append_nil_r (String d r)) at 1.
  rewrite take_while_app; [reflexivity | | exact I].
  cbn [all_chars]. rewrite Hal. cbn [andb].
  revert Hr. apply all_chars_impl. intros c Hc. apply (decimal_digit_facts c Hc).
Qed.

(** X15: what follows an expression and is no operator is ignored: no error
    is reported, the value is that of the expression.  A minus sign
    with a digit right after it is such a text (the tokenizer reads it
    as the start of a number), so without blanks around the sign a
    difference is the value of its left side. *)
Theorem text_after_an_expression_is_ignored :
  (forall e rest a,
     numbers_fit e -> ends_expression rest = true ->
     evaluate_expression (text_of_expression e +:+ rest) a
     = evaluate_expression (text_of_expression e) a)
  /\ (forall n, 0 <= n -> ends_expression (String "-" (render 10 n)) = true)
  /\ (forall n m a, 0 <= n <= INT_MAX -> 0 <= m ->
        evaluate_expression (render 10 n +:+ "-" +:+ render 10 m) a = Ok (n, a)).
Proof.
  assert (Hminus : forall n, 0 <= n -> ends_expression (String "-" (render 10 n)) = true).
  { intros n Hn. unfold ends_expression, ends_term.
    rewrite get_token_signed_number by exact Hn. cbn [fst starts_alnum].
    destruct (number_text n Hn) as (d & r & -> & Hd & Hr).
    unfold is_multiplicative, is_additive, to_lower, Str.eqb.
    cbn [Str.map String.eqb]. change (isalnum "-") with false.
    change (tolower "-") with "-"%char.
    change (Ascii.eqb "-" "*") with false. change (Ascii.eqb "-" "/") with false.
    change (Ascii.eqb "-" "a") with false. change (Ascii.eqb "-" "+") with false.
    change (Ascii.eqb "-" "o") with false. change (Ascii.eqb "-" "x") with false.
    change (Ascii.eqb "-" "-") with true. cbn [andb orb negb]. reflexivity. }
  split; [|split; [exact Hminus|]].
  - intros e rest a He Hrest.
    rewrite evaluate_expression_with_rest by assumption.
    rewrite <- (append_nil_r (text_of_expression e)).
    rewrite (evaluate_expression_with_rest e EmptyString a He eq_refl).
    reflexivity.
  - intros n m a Hn Hm.
    pose proof (evaluate_expression_with_rest
                  (Expression (Term (Number n) NoFactor) NoTerm)
                  (String "-" (render 10 m)) a
                  (conj (conj Hn I) I) (Hminus m Hm)) as H.
    cbn [text_of_expression text_of_term text_of_factor text_of_more_factors
         text_of_more_terms] in H.
    rewrite !append_nil_r in H. exact H.
Qed.

Lemma text_after_an_expression_is_ignored_witness :
  evaluate_expression "5-3" new_Assembler = Ok (5, new_Assembler).
Proof.
  apply (proj2 (proj2 text_after_an_expression_is_ignored) 5 3 new_Assembler);
    unfold INT_MAX; lia.
Defined.


(** * A symbol in an expression *)

Lemma ident_start_facts (c : ascii) :
  is_ident_start c = true ->
  is_ident_char c = true /\ isspace c = false
  /\ ch_eqb c squote = false /\ Ascii.eqb c "(" = false
  /\ isdigit (tolower c) = false /\ ch_eqb (tolower c) minus_sign = false.
Proof. destruct c as [[] [] [] [] [] [] [] []]; vm_compute; intuition congruence. Qed.

Lemma tolower_dollar (c : ascii) : Ascii.eqb (tolower c) "$" = Ascii.eqb c "$".
Proof. destruct c as [[] [] [] [] [] [] [] []]; reflexivity. Qed.

Lemma identifier_chars (s : string) :
  is_identifier s = true ->
  exists c t, s = String c t /\ is_ident_start c = true
              /\ all_chars is_ident_char (String c t) = true.
Proof.
  destruct s as [|c t]; [discriminate|]. cbn. intros H.
  apply andb_true_iff in H as [Hc Ht]. exists c, t.
  split; [reflexivity|]. split; [exact Hc|].
  rewrite (proj1 (ident_start_facts c Hc)), Ht. reflexivity.
Qed.

Lemma get_token_identifier (s : string) :
  is_identifier s = true -> get_token s = (s, EmptyString).
Proof.
  intros H. destruct (identifier_chars s H) as (c & t & -> & Hc & Hall).
  destruct (ident_start_facts c Hc) as (_ & Hsp & _).
  unfold get_token. cbn [Str.skip_ws]. rewrite Hsp, Hc.
  rewrite <- (append_nil_r (String c t)) at 1.
  apply take_while_app; [exact Hall | exact I].
Qed.

Lemma to_lower_dollar (s : string) : Str.eqb (to_lower s) "$" = Str.eqb s "$".
Proof.
  destruct s as [|c t]; [reflexivity|].
  unfold Str.eqb, to_lower. cbn [Str.map String.eqb]. rewrite tolower_dollar.
  destruct t; reflexivity.
Qed.

Lemma evaluate_single_term_identifier (s : string) (a : Assembler) :
  is_identifier s = true -> s <> "$" ->
  evaluate_single_term s a
  = match symbol_table a !! to_lower s with
    | Some v => Ok (v, record_reference (to_lower s) (lineno a + 1) a)
    | None =>
        if source_pass a =? 2
        then Fail (Fatal (lineno a + 1)
                     ("undefined label in expression: " +:+ to_lower s))
        else Ok (0, a)
    end.
Proof.
  intros H Hd. destruct (identifier_chars s H) as (c & t & E & Hc & Hall).
  assert (Hns : all_chars not_space s = true).
  { rewrite E. revert Hall. apply all_chars_impl. exact ident_char_not_space. }
  destruct (ident_start_facts c Hc) as (_ & _ & Hq & _ & Hdig & Hminus).
  unfold evaluate_single_term. rewrite (trim_no_space _ Hns).
  assert (H1 : Str.empty s = false) by (rewrite E; reflexivity).
  assert (H2 : is_char_constant s = false).
  { rewrite E. unfold is_char_constant. cbn [Str.front default from_option].
    unfold id. rewrite Hq, andb_false_r. reflexivity. }
  assert (H3 : Str.eqb (to_lower s) "$" = false).
  { rewrite to_lower_dollar. apply String.eqb_neq. exact Hd. }
  pose proof (all_chars_to_lower _ Hns) as Hl.
  assert (H4 : Str.starts_with "low " (to_lower s) = false).
  { apply starts_with_blank; [exact Hl | reflexivity |].
    intros d Hin Hsp. cbn in Hin.
    repeat (destruct Hin as [<-|Hin]; [first [discriminate Hsp | reflexivity]|]).
    contradiction. }
  assert (H5 : Str.starts_with "high " (to_lower s) = false).
  { apply starts_with_blank; [exact Hl | reflexivity |].
    intros d Hin Hsp. cbn in Hin.
    repeat (destruct Hin as [<-|Hin]; [first [discriminate Hsp | reflexivity]|]).
    contradiction. }
  assert (H6 : isdigit (default Ascii.zero (Str.front (to_lower s))) = false).
  { rewrite E. exact Hdig. }
  assert (H7 : ch_eqb (default Ascii.zero (Str.front (to_lower s))) minus_sign = false).
  { rewrite E. exact Hminus. }
  rewrite H1, H2. unfold bind at 1. unfold get at 1.
  rewrite H3, H4, H5, H6, H7, andb_false_r. cbn [orb].
  destruct (symbol_table a !! to_lower s); [reflexivity|].
  destruct (source_pass a =? 2); reflexivity.
Qed.

Lemma identifier_is_no_parenthesis (s : string) :
  is_identifier s = true -> Str.eqb s "(" = false.
Proof.
  intros H. destruct (identifier_chars s H) as (c & t & -> & Hc & _).
  destruct (ident_start_facts c Hc) as (_ & _ & _ & Hp & _).
  unfold Str.eqb. cbn [String.eqb]. rewrite Hp. reflexivity.
Qed.

(** X16: an expression that is one name evaluates to the value the symbol
    table holds for the name in lower case, and the line is added to
    the cross references of the symbol; for a name the table does not
    hold the value is 0 in pass 1 and the line is refused in pass 2.
    The name [$] is the location counter.  (A hexadecimal number that
    starts with a letter is a name.) *)
Theorem a_symbol_evaluates_to_its_table_entry :
  (forall name a,
     is_identifier name = true -> name <> "$" ->
     evaluate_expression name a
     = match symbol_table a !! to_lower name with
       | Some v => Ok (v, record_reference (to_lower name) (lineno a + 1) a)
       | None =>
           if source_pass a =? 2
           then Fail (Fatal (lineno a + 1)
                        ("undefined label in expression: " +:+ to_lower name))
           else Ok (0, a)
       end)
  /\ (forall a, evaluate_expression "$" a = Ok (address a, a)).
Proof.
  split; [|reflexivity].
  intros name a H Hd. unfold evaluate_expression.
  cbn [evaluate_expression_it]. unfold evaluate_expression_body, parse_expr_term.
  unfold bind at 1. unfold bind at 1. unfold bind at 1.
  unfold parse_expr_factor. rewrite (get_token_identifier name H).
  rewrite (identifier_is_no_parenthesis name H).
  unfold bind at 1. rewrite (evaluate_single_term_identifier name a H Hd).
  destruct (symbol_table a !! to_lower name) as [v|].
  - cbn [pure String.length]. rewrite parse_expr_term_loop_ends by reflexivity.
    rewrite evaluate_expression_loop_ends by reflexivity. reflexivity.
  - destruct (source_pass a =? 2); [reflexivity|].
    cbn [pure String.length]. rewrite parse_expr_term_loop_ends by reflexivity.
    rewrite evaluate_expression_loop_ends by reflexivity. reflexivity.
Qed.

Lemma a_symbol_evaluates_to_its_table_entry_witness :
  evaluate_expression "Val" (with_symbols 2)
  = Ok (0x1234, record_reference "val" 1 (with_symbols 2))
  /\ evaluate_expression "0FFH" (with_symbols 2) = Ok (255, with_symbols 2)
  /\ evaluate_expression "FFH" (with_symbols 2)
     = Fail (Fatal 1 "undefined label in expression: ffh").
Proof.
  split; [|split].
  - apply (proj1 a_symbol_evaluates_to_its_table_entry "Val" (with_symbols 2)).
    + reflexivity.
    + discriminate.
  - vm_compute. reflexivity.
  - apply (proj1 a_symbol_evaluates_to_its_table_entry "FFH" (with_symbols 2)).
    + reflexivity.
    + discriminate.
Defined.

(** * The conditions of [IF] *)

Lemma find_0 (p s : string) : Str.find p 0 s = Str.find0 p s.
Proof.
  unfold Str.find. cbn [Nat.ltb Nat.leb Str.drop].
  destruct (Str.find0 p s); reflexivity.
Qed.

Lemma find0_cons (p : string) (c : ascii) (s : string) :
  Str.find0 p (String c s)
  = if Str.starts_with p (String c s) then Some O else option_map S (Str.find0 p s).
Proof. reflexivity. Qed.

Lemma apart_tail (a : ascii) (q s : string) :
  apart (String a q) s = true -> apart q s = true.
Proof.
  unfold apart. apply all_chars_impl. intros c H.
  cbn in H. apply andb_true_iff in H as [_ H]. exact H.
Qed.

Lemma starts_with_app (q mid rest : string) :
  apart q rest = true ->
  Str.starts_with q (mid +:+ rest) = Str.starts_with q mid.
Proof.
  revert q. induction mid as [|m mid IH]; intros q Hq.
  - change (EmptyString +:+ rest) with rest.
    destruct q as [|a q]; [destruct rest; reflexivity|].
    destruct rest as [|b rest]; [reflexivity|].
    cbn in Hq |- *. apply andb_true_iff in Hq as [Hb _].
    apply andb_true_iff in Hb as [Hb _]. apply negb_true_iff in Hb.
    rewrite Hb. reflexivity.
  - rewrite append_cons. destruct q as [|a q]; [reflexivity|].
    cbn [Str.starts_with]. rewrite (IH q (apart_tail a q rest Hq)). reflexivity.
Qed.

Lemma find0_apart (a : ascii) (q s : string) :
  apart (String a q) s = true -> Str.find0 (String a q) s = None.
Proof.
  induction s as [|c s IH]; intros H; [reflexivity|].
  rewrite find0_cons. cbn in H. apply andb_true_iff in H as [Hc Hs].
  apply andb_true_iff in Hc as [Hc _]. apply negb_true_iff in Hc.
  cbn [Str.starts_with]. rewrite Hc. cbn [andb].
  rewrite (IH Hs). reflexivity.
Qed.

(** A search through a text whose two ends hold no character of what
    is searched finds what the middle holds. *)
Lemma find0_framed (a : ascii) (q pre mid rest : string) :
  apart (String a q) pre = true -> apart (String a q) rest = true ->
  Str.find0 (String a q) (pre +:+ mid +:+ rest)
  = option_map (Nat.add (String.length pre)) (Str.find0 (String a q) mid).
Proof.
  intros Hpre Hrest. induction pre as [|c pre IH].
  - change (EmptyString +:+ mid +:+ rest) with (mid +:+ rest).
    cbn [String.length].
    assert (E : Str.find0 (String a q) (mid +:+ rest) = Str.find0 (String a q) mid).
    { induction mid as [|m mid IHm].
      - exact (find0_apart a q rest Hrest).
      - rewrite append_cons, !find0_cons, IHm.
        rewrite <- append_cons, (starts_with_app _ _ _ Hrest). reflexivity. }
    rewrite E. destruct (Str.find0 (String a q) mid); reflexivity.
  - rewrite append_cons, find0_cons.
    cbn in Hpre. apply andb_true_iff in Hpre as [Hc Hp].
    apply andb_true_iff in Hc as [Hc _]. apply negb_true_iff in Hc.
    cbn [Str.starts_with]. rewrite Hc. cbn [andb].
    rewrite (IH Hp). cbn [String.length].
    destruct (Str.find0 (String a q) mid); reflexivity.
Qed.

Lemma quiet_apart (p s : string) :
  In p spellings -> all_chars is_quiet s = true -> apart p s = true.
Proof.
  intros Hp. unfold apart. apply all_chars_impl. intros c Hc.
  unfold is_quiet in Hc. rewrite forallb_forall in Hc. exact (Hc p Hp).
Qed.

Lemma find_framed (p pre mid rest : string) :
  In p spellings ->
  all_chars is_quiet pre = true -> all_chars is_quiet rest = true ->
  Str.find p 0 (pre +:+ mid +:+ rest)
  = option_map (Nat.add (String.length pre)) (Str.find p 0 mid).
Proof.
  intros Hp Hpre Hrest. rewrite !find_0.
  assert (Hne : exists a q, p = String a q).
  { destruct p as [|a q]; [|exists a, q; reflexivity].
    exfalso. vm_compute in Hp. intuition discriminate. }
  destruct Hne as (a & q & ->).
  apply find0_framed; apply quiet_apart; assumption.
Qed.

Lemma find_relational_op_framed (pre mid rest : string) :
  all_chars is_quiet pre = true -> all_chars is_quiet rest = true ->
  find_relational_op relational_ops (pre +:+ mid +:+ rest)
  = match find_relational_op relational_ops mid with
    | Some (op, pos) => Some (op, (String.length pre + pos)%nat)
    | None => None
    end.
Proof.
  intros Hpre Hrest. unfold relational_ops. cbn [find_relational_op].
  rewrite !(find_framed _ pre mid rest)
    by first [assumption | vm_compute; auto 20].
  repeat match goal with
         | |- context [Str.find ?p 0 mid] => destruct (Str.find p 0 mid)
         end; reflexivity.
Qed.

Lemma take_app_plus (pre s : string) (k : nat) :
  Str.take (String.length pre + k) (pre +:+ s) = pre +:+ Str.take k s.
Proof.
  induction pre as [|c pre IH]; [reflexivity|].
  rewrite !append_cons. cbn. rewrite IH. reflexivity.
Qed.

Lemma drop_app_plus (pre s : string) (k : nat) :
  Str.drop (String.length pre + k) (pre +:+ s) = Str.drop k s.
Proof.
  induction pre as [|c pre IH]; [reflexivity|].
  rewrite append_cons. exact IH.
Qed.

Lemma take_app_le (mid rest : string) (k : nat) :
  (k <= String.length mid)%nat -> Str.take k (mid +:+ rest) = Str.take k mid.
Proof.
  revert mid. induction k as [|k IH]; intros mid H; [reflexivity|].
  destruct mid as [|m mid]; [cbn in H; lia|].
  rewrite append_cons. cbn in H |- *. rewrite IH by lia. reflexivity.
Qed.

Lemma drop_app_le (mid rest : string) (k : nat) :
  (k <= String.length mid)%nat -> Str.drop k (mid +:+ rest) = Str.drop k mid +:+ rest.
Proof.
  revert mid. induction k as [|k IH]; intros mid H; [reflexivity|].
  destruct mid as [|m mid]; [cbn in H; lia|].
  rewrite append_cons. cbn in H |- *. apply IH. lia.
Qed.

(** *** Blanks in front of an expression *)

Lemma skip_ws_blanks (pre s : string) :
  all_chars isspace pre = true -> Str.skip_ws (pre +:+ s) = Str.skip_ws s.
Proof.
  induction pre as [|c pre IH]; intros H; [reflexivity|].
  cbn in H. apply andb_true_iff in H as [Hc Hp].
  rewrite append_cons. cbn [Str.skip_ws]. rewrite Hc. exact (IH Hp).
Qed.

Lemma evaluate_expression_body_blanks
    (rec : string -> M (Z * string)) (pre s : string) :
  all_chars isspace pre = true ->
  evaluate_expression_body rec (pre +:+ s) = evaluate_expression_body rec s.
Proof.
  intros H. unfold evaluate_expression_body, parse_expr_term, parse_expr_factor,
    get_token.
  rewrite (skip_ws_blanks pre s H). reflexivity.
Qed.

Lemma evaluate_expression_between
    (e : expression) (pre rest : string) (a : Assembler) :
  numbers_fit e -> all_chars isspace pre = true -> ends_expression rest = true ->
  evaluate_expression (pre +:+ text_of_expression e +:+ rest) a
  = match value_of_expression e with
    | Some v => Ok (v, a)
    | None => Fail DivisionTrap
    end.
Proof.
  intros He Hpre Hrest. unfold evaluate_expression, bind.
  cbn [evaluate_expression_it].
  rewrite (evaluate_expression_body_blanks _ pre _ Hpre).
  rewrite (proj1 descent_follows_the_syntax e He); [| | exact Hrest].
  - destruct (value_of_expression e); reflexivity.
  - pose proof (proj1 nesting_length e). rewrite !length_append. lia.
Qed.

(** *** The text of an expression holds no character of a relation *)

Lemma digit_is_quiet (c : ascii) : is_digit_in 10 c = true -> is_quiet c = true.
Proof. destruct c as [[] [] [] [] [] [] [] []]; vm_compute; congruence. Qed.

Lemma text_is_quiet :
  (forall e, numbers_fit e -> all_chars is_quiet (text_of_expression e) = true)
  /\ (forall r, numbers_fit_more_terms r ->
        all_chars is_quiet (text_of_more_terms r) = true)
  /\ (forall t, numbers_fit_term t -> all_chars is_quiet (text_of_term t) = true)
  /\ (forall r, numbers_fit_more_factors r ->
        all_chars is_quiet (text_of_more_factors r) = true)
  /\ (forall f, numbers_fit_factor f -> all_chars is_quiet (text_of_factor f) = true).
Proof.
  apply expression_mutind; intros;
    cbn [text_of_expression text_of_more_terms text_of_term text_of_more_factors
         text_of_factor numbers_fit numbers_fit_more_terms numbers_fit_term
         numbers_fit_more_factors numbers_fit_factor] in *;
    rewrite ?all_chars_app.
  - destruct H1 as [Ht Hr]. rewrite (H Ht), (H0 Hr). reflexivity.
  - reflexivity.
  - destruct H1 as [Ht Hr]. rewrite (H Ht), (H0 Hr).
    destruct o; reflexivity.
  - destruct H1 as [Hf Hr]. rewrite (H Hf), (H0 Hr). reflexivity.
  - reflexivity.
  - destruct H1 as [Hf Hr]. rewrite (H Hf), (H0 Hr).
    destruct o; reflexivity.
  - apply (all_chars_impl (is_digit_in 10)); [exact digit_is_quiet|].
    apply all_chars_render; lia.
  - rewrite (H H0). reflexivity.
Qed.

Lemma condition_text_framed (e1 e2 : expression) (op : string) :
  condition_text e1 op e2
  = (" " +:+ text_of_expression e1) +:+ (" " +:+ op +:+ " ") +:+ text_of_expression e2.
Proof. unfold condition_text. rewrite !append_assoc. reflexivity. Qed.

Lemma condition_sides (e1 e2 : expression) (v1 v2 : Z) (a : Assembler)
    (mid : string) (pos len : nat) :
  numbers_fit e1 -> numbers_fit e2 ->
  value_of_expression e1 = Some v1 -> value_of_expression e2 = Some v2 ->
  (pos + len <= String.length mid)%nat ->
  ends_expression (Str.take pos mid) = true ->
  all_chars isspace (Str.drop (pos + len) mid) = true ->
  let expr := (" " +:+ text_of_expression e1) +:+ mid +:+ text_of_expression e2 in
  evaluate_expression
    (Str.substr 0 (String.length (" " +:+ text_of_expression e1) + pos) expr) a
  = Ok (v1, a)
  /\ evaluate_expression
       (Str.substr_from (String.length (" " +:+ text_of_expression e1) + pos + len) expr) a
     = Ok (v2, a).
Proof.
  intros He1 He2 Hv1 Hv2 Hlen Hl Hr expr. subst expr.
  unfold Str.substr, Str.substr_from. cbn [Str.drop]. split.
  - rewrite take_app_plus, take_app_le by lia.
    rewrite append_assoc.
    rewrite (evaluate_expression_between e1 " " _ a He1 eq_refl Hl), Hv1.
    reflexivity.
  - rewrite <- Nat.add_assoc, drop_app_plus, drop_app_le by lia.
    pose proof (evaluate_expression_between e2 _ EmptyString a He2 Hr eq_refl) as H.
    rewrite append_nil_r, Hv2 in H. exact H.
Qed.

Ltac settle_condition a He1 He2 Hv1 Hv2 :=
  rewrite condition_text_framed; unfold evaluate_conditional;
  rewrite find_relational_op_framed
    by first [ apply (proj1 text_is_quiet); assumption
             | rewrite all_chars_app, (proj1 text_is_quiet _ He1); reflexivity ];
  lazymatch goal with
  | |- context [find_relational_op relational_ops ?m] =>
      let v := eval vm_compute in (find_relational_op relational_ops m) in
      change (find_relational_op relational_ops m) with v
  end;
  cbv beta iota zeta;
  lazymatch goal with
  | |- context [Str.substr_from (?l + ?pos + ?len)
                  ((" " +:+ text_of_expression ?e1) +:+ ?mid +:+ text_of_expression ?e2)] =>
      destruct (condition_sides e1 e2 _ _ a mid pos len He1 He2 Hv1 Hv2)
        as [E1 E2];
      [ vm_compute; lia | reflexivity | reflexivity | ];
      cbv zeta in E1, E2; unfold bind; rewrite E1, E2; reflexivity
  end.

(** X17: for two expressions of the class of [text_of_expression]
    (decimal numbers that [int] holds, the operators between blanks,
    parentheses; no names), the condition of an [IF] with one of the six
    words, in lower case, between them compares their values as the
    word says, and so do the signs [=], [!=], [>] and [<]; the signs
    [>=] and [<=] compare for equality, because the [=] in them is
    found first; with no relation the condition holds when the value is
    not zero.  Operands with names are outside this class: the operand
    is searched as written, so the letters [ne] anywhere in it, also
    inside a name, split it at their first occurrence. *)
Theorem a_condition_compares_the_two_sides
    (e1 e2 : expression) (v1 v2 : Z) (a : Assembler) :
  numbers_fit e1 -> numbers_fit e2 ->
  value_of_expression e1 = Some v1 -> value_of_expression e2 = Some v2 ->
  (forall r, evaluate_conditional (condition_text e1 (word_of r) e2) a
             = Ok (holds r v1 v2, a))
  /\ (forall r, evaluate_conditional (condition_text e1 (sign_of r) e2) a
                = Ok (holds (match r with AtLeast | AtMost => Equal | _ => r end) v1 v2, a))
  /\ evaluate_conditional (" " +:+ text_of_expression e1) a = Ok (negb (v1 =? 0), a)
  /\ (forall expr pos,
        Str.find "ne" 0 expr = Some pos ->
        evaluate_conditional expr a
        = (lhs <- evaluate_expression (Str.substr 0 pos expr) ;;
           rhs <- evaluate_expression (Str.substr_from (pos + 2) expr) ;;
           pure (negb (lhs =? rhs))) a).
Proof.
  intros He1 He2 Hv1 Hv2. split; [|split; [|split]].
  - intros r. destruct r; cbn [word_of holds]; settle_condition a He1 He2 Hv1 Hv2.
  - intros r. destruct r; cbn [sign_of holds]; settle_condition a He1 He2 Hv1 Hv2.
  - unfold evaluate_conditional.
    pose proof (find_relational_op_framed (" " +:+ text_of_expression e1)
                  EmptyString EmptyString) as H.
    rewrite !append_nil_r in H. rewrite H.
    + change (find_relational_op relational_ops EmptyString) with (@None (string * nat)).
      cbv beta iota. unfold bind.
      pose proof (evaluate_expression_between e1 " " EmptyString a He1 eq_refl eq_refl)
        as E.
      rewrite append_nil_r, Hv1 in E. rewrite E. reflexivity.
    + rewrite all_chars_app, (proj1 text_is_quiet _ He1). reflexivity.
    + reflexivity.
  - intros expr pos H. unfold evaluate_conditional, relational_ops.
    cbn [find_relational_op]. rewrite H. reflexivity.
Qed.

Lemma a_condition_compares_witness :
  evaluate_conditional " 1 + 1 le 3" new_Assembler = Ok (true, new_Assembler)
  /\ evaluate_conditional " 1 + 1 <= 3" new_Assembler = Ok (false, new_Assembler)
  /\ evaluate_conditional " 2 >= 2" new_Assembler = Ok (true, new_Assembler)
  /\ evaluate_conditional " one eq 1"
       (set_source_pass 2 (set_symbol_table (<["one" := 1]> ∅) new_Assembler))
     = Fail (Fatal 1 "undefined label in expression: o").
Proof.
  split; [|split; [|split]].
  - apply (proj1 (a_condition_compares_the_two_sides
                    (Expression (Term (Number 1) NoFactor)
                       (NextTerm Plus (Term (Number 1) NoFactor) NoTerm))
                    (Expression (Term (Number 3) NoFactor) NoTerm)
                    2 3 new_Assembler
                    ltac:(cbn; unfold INT_MAX; lia) ltac:(cbn; unfold INT_MAX; lia)
                    eq_refl eq_refl) AtMost).
  - apply (proj1 (proj2 (a_condition_compares_the_two_sides
                    (Expression (Term (Number 1) NoFactor)
                       (NextTerm Plus (Term (Number 1) NoFactor) NoTerm))
                    (Expression (Term (Number 3) NoFactor) NoTerm)
                    2 3 new_Assembler
                    ltac:(cbn; unfold INT_MAX; lia) ltac:(cbn; unfold INT_MAX; lia)
                    eq_refl eq_refl)) AtMost).
  - apply (proj1 (proj2 (a_condition_compares_the_two_sides
                    (Expression (Term (Number 2) NoFactor) NoTerm)
                    (Expression (Term (Number 2) NoFactor) NoTerm)
                    2 2 new_Assembler
                    ltac:(cbn; unfold INT_MAX; lia) ltac:(cbn; unfold INT_MAX; lia)
                    eq_refl eq_refl)) AtLeast).
  - rewrite (proj2 (proj2 (proj2 (a_condition_compares_the_two_sides
                    (Expression (Term (Number 2) NoFactor) NoTerm)
                    (Expression (Term (Number 2) NoFactor) NoTerm)
                    2 2 _
                    ltac:(cbn; unfold INT_MAX; lia) ltac:(cbn; unfold INT_MAX; lia)
                    eq_refl eq_refl))) " one eq 1" 2%nat eq_refl).
    vm_compute. reflexivity.
Defined.

(** * The files [main] writes *)

(** ** [get_base_filename] *)

Lemma find_char0_separators (c : ascii) :
  Str.find_char0 c separators = None <-> is_separator c = false.
Proof.
  unfold separators, is_separator. cbn [Str.find_char0].
  destruct (ch_eqb c "/"); [split; discriminate|].
  destruct (ch_eqb c backslash); split; (reflexivity || discriminate).
Qed.

Lemma find_last_of_none (s : string) :
  find_last_of separators s = None <-> no_separator s = true.
Proof.
  unfold no_separator. induction s as [|c s IH]; [split; reflexivity|].
  cbn [find_last_of all_chars].
  destruct (find_last_of separators s) as [n|].
  - split; [discriminate|]. intros H. apply andb_true_iff in H as [_ H].
    apply IH in H. discriminate.
  - rewrite (proj1 IH eq_refl), andb_true_r.
    destruct (Str.find_char0 c separators) eqn:E.
    + split; [discriminate|]. intros H. apply negb_true_iff in H.
      apply find_char0_separators in H. congruence.
    + split; [|reflexivity]. intros _. apply negb_true_iff.
      apply find_char0_separators. exact E.
Qed.

Lemma find_last_of_last (dir : string) (c : ascii) (name : string) :
  is_separator c = true -> no_separator name = true ->
  find_last_of separators (dir +:+ String c name) = Some (String.length dir).
Proof.
  intros Hc Hn. induction dir as [|d dir IH].
  - change (EmptyString +:+ String c name) with (String c name).
    cbn [find_last_of]. rewrite (proj2 (find_last_of_none name) Hn).
    destruct (Str.find_char0 c separators) eqn:E; [reflexivity|].
    apply find_char0_separators in E. congruence.
  - rewrite append_cons. cbn [find_last_of]. rewrite IH. reflexivity.
Qed.

Lemma find_last_of_tail (s : string) (i : nat) :
  find_last_of separators s = Some i -> no_separator (Str.drop (S i) s) = true.
Proof.
  revert i. induction s as [|c s IH]; intros i; [discriminate|].
  cbn [find_last_of].
  destruct (find_last_of separators s) as [n|] eqn:E.
  - intros H. injection H as <-. exact (IH n eq_refl).
  - destruct (Str.find_char0 c separators); [|discriminate].
    intros H. injection H as <-. apply find_last_of_none. exact E.
Qed.

Lemma rfind_char_none (c : ascii) (s : string) :
  all_chars (fun d => negb (ch_eqb c d)) s = true -> rfind_char c s = None.
Proof.
  induction s as [|d s IH]; [reflexivity|].
  cbn. intros H. apply andb_true_iff in H as [Hd Hs].
  apply negb_true_iff in Hd. rewrite (IH Hs), Hd. reflexivity.
Qed.

Lemma rfind_char_last (c : ascii) (s t : string) :
  all_chars (fun d => negb (ch_eqb c d)) t = true ->
  rfind_char c (s +:+ String c t) = Some (String.length s).
Proof.
  intros Ht. induction s as [|d s IH].
  - change (EmptyString +:+ String c t) with (String c t).
    cbn [rfind_char]. rewrite (rfind_char_none c t Ht).
    unfold ch_eqb. rewrite Z.eqb_refl. reflexivity.
  - rewrite append_cons. cbn [rfind_char]. rewrite IH. reflexivity.
Qed.

Lemma drop_app_length (s t : string) : Str.drop (String.length s) (s +:+ t) = t.
Proof. induction s as [|c s IH]; [reflexivity|]. rewrite append_cons. exact IH. Qed.

Lemma take_app_length (s t : string) : Str.take (String.length s) (s +:+ t) = s.
Proof.
  induction s as [|c s IH]; [destruct t; reflexivity|].
  rewrite append_cons. cbn. rewrite IH. reflexivity.
Qed.

Lemma all_chars_take (p : ascii -> bool) (n : nat) (s : string) :
  all_chars p s = true -> all_chars p (Str.take n s) = true.
Proof.
  revert s. induction n as [|n IH]; intros s H; [reflexivity|].
  destruct s as [|c s]; [reflexivity|].
  cbn in H |- *. apply andb_true_iff in H as [Hc Hs].
  rewrite Hc, (IH s Hs). reflexivity.
Qed.

Lemma base_of_filename (stem ext : string) :
  no_dot ext = true ->
  match rfind_char dot (stem +:+ String dot ext) with
  | None => stem +:+ String dot ext
  | Some last_dot => Str.substr 0 last_dot (stem +:+ String dot ext)
  end = stem.
Proof.
  intros He. rewrite (rfind_char_last dot stem ext He).
  unfold Str.substr. cbn [Str.drop]. apply take_app_length.
Qed.

(** X18: [get_base_filename] drops the directories and the last extension:
    its result never holds a path separator; of a path that ends in a
    file name with an extension it is the name without the extension;
    a name with neither a directory nor a dot is returned as it is. *)
Theorem get_base_filename_drops_directories_and_extension :
  (forall path, no_separator (get_base_filename path) = true)
  /\ (forall dir sep stem ext,
        is_separator sep = true -> no_separator stem = true ->
        no_separator ext = true -> no_dot ext = true ->
        get_base_filename (dir +:+ String sep (stem +:+ String dot ext)) = stem)
  /\ (forall stem ext,
        no_separator stem = true -> no_separator ext = true -> no_dot ext = true ->
        get_base_filename (stem +:+ String dot ext) = stem)
  /\ (forall name,
        no_separator name = true -> no_dot name = true ->
        get_base_filename name = name).
Proof.
  assert (Hjoin : forall stem ext,
            no_separator stem = true -> no_separator ext = true ->
            no_separator (stem +:+ String dot ext) = true).
  { intros stem ext Hs He. unfold no_separator in *.
    rewrite all_chars_app, Hs. cbn [all_chars andb]. rewrite He. reflexivity. }
  split; [|split; [|split]].
  - intros path. unfold get_base_filename.
    assert (Hf : no_separator
                   match find_last_of separators path with
                   | Some last_slash => Str.substr_from (last_slash + 1) path
                   | None => path
                   end = true).
    { destruct (find_last_of separators path) as [i|] eqn:E.
      - unfold Str.substr_from. rewrite Nat.add_1_r. exact (find_last_of_tail _ _ E).
      - apply find_last_of_none. exact E. }
    cbv zeta. destruct (rfind_char dot _); [|exact Hf].
    unfold Str.substr. cbn [Str.drop]. apply all_chars_take. exact Hf.
  - intros dir sep stem ext Hsep Hs He Hd. unfold get_base_filename.
    rewrite (find_last_of_last dir sep _ Hsep (Hjoin stem ext Hs He)).
    unfold Str.substr_from. rewrite Nat.add_1_r.
    change (Str.drop (S (String.length dir)) (dir +:+ String sep (stem +:+ String dot ext)))
      with (Str.drop (String.length (dir +:+ String sep EmptyString))
              (dir +:+ String sep (stem +:+ String dot ext))) || idtac.
    replace (Str.drop (S (String.length dir))
               (dir +:+ String sep (stem +:+ String dot ext)))
      with (stem +:+ String dot ext).
    + cbv zeta. apply base_of_filename. exact Hd.
    + clear. induction dir as [|d dir IH]; [reflexivity|].
      rewrite append_cons. exact IH.
  - intros stem ext Hs He Hd. unfold get_base_filename.
    rewrite (proj2 (find_last_of_none _) (Hjoin stem ext Hs He)).
    cbv zeta. apply base_of_filename. exact Hd.
  - intros name Hs Hd. unfold get_base_filename.
    rewrite (proj2 (find_last_of_none _) Hs). cbv zeta.
    rewrite (rfind_char_none dot name Hd). reflexivity.
Qed.

Lemma get_base_filename_witness :
  get_base_filename "src/demo/blink.v2.asm" = "blink.v2"
  /\ get_base_filename "blink.asm" = "blink"
  /\ get_base_filename "blink" = "blink".
Proof.
  split; [|split].
  - apply (proj1 (proj2 get_base_filename_drops_directories_and_extension)
             "src/demo" "/"%char "blink.v2" "asm"); reflexivity.
  - apply (proj1 (proj2 (proj2 get_base_filename_drops_directories_and_extension))
             "blink" "asm"); reflexivity.
  - apply (proj2 (proj2 (proj2 get_base_filename_drops_directories_and_extension))
             "blink"); reflexivity.
Defined.

(** ** The symbol file *)

Lemma render_digits_length (base : Z) (f : nat) :
  2 <= base -> forall (k : nat) (n : Z) (acc : string),
  0 <= n < base ^ Z.of_nat (S k) ->
  (String.length (render_digits f base n acc) <= S k + String.length acc)%nat.
Proof.
  intros Hb. induction f as [|f IH]; intros k n acc Hn; [cbn [render_digits]; lia|].
  cbn [render_digits]. destruct (n / base =? 0) eqn:Hq; [cbn [String.length]; lia|].
  apply Z.eqb_neq in Hq.
  destruct k as [|k].
  { exfalso. apply Hq. apply Z.div_small. change (Z.of_nat 1) with 1 in Hn. lia. }
  assert (Hd : 0 <= n / base < base ^ Z.of_nat (S k)).
  { split; [apply Z.div_pos; lia|].
    apply Z.div_lt_upper_bound; [lia|].
    replace (Z.of_nat (S (S k))) with (Z.succ (Z.of_nat (S k))) in Hn by lia.
    rewrite Z.pow_succ_r in Hn by lia. lia. }
  specialize (IH k (n / base) (String (digit_char (n mod base)) acc) Hd).
  cbn [String.length] in IH. lia.
Qed.

Lemma length_fill (c : ascii) (n : nat) :
  String.length (string_of_list_ascii (repeat c n)) = n.
Proof. induction n as [|n IH]; [reflexivity|]. cbn. rewrite IH. reflexivity. Qed.

Lemma scan_digits_zeros (n : Z) (m : nat) (pre : option Z) :
  0 <= n -> default 0 pre = 0 ->
  scan_digits 16 (string_of_list_ascii (repeat "0"%char m) +:+ render 16 n) pre = Some n.
Proof.
  intros Hn. revert pre. induction m as [|m IH]; intros pre Hpre.
  - change (string_of_list_ascii (repeat "0"%char 0) +:+ render 16 n) with (render 16 n).
    unfold render.
    destruct (scan_render_digits 16 ltac:(lia) _ n EmptyString pre (log2_fuel n Hn))
      as (k & _ & E).
    rewrite E, Hpre. cbn [scan_digits]. reflexivity.
  - cbn [repeat string_of_list_ascii]. rewrite append_cons.
    cbn [scan_digits]. change (digit_value "0") with (Some 0).
    cbv iota. change (0 <? 16) with true. cbv iota.
    apply IH. cbn [default]. rewrite Hpre. reflexivity.
Qed.

Lemma all_chars_fill (p : ascii -> bool) (c : ascii) (n : nat) :
  p c = true -> all_chars p (string_of_list_ascii (repeat c n)) = true.
Proof. intros Hc. induction n as [|n IH]; [reflexivity|]. cbn. rewrite Hc, IH. reflexivity. Qed.

Lemma length_map (f : ascii -> ascii) (s : string) :
  String.length (Str.map f s) = String.length s.
Proof. induction s as [|c s IH]; [reflexivity|]. cbn. rewrite IH. reflexivity. Qed.

Lemma length_take_min (n : nat) (s : string) :
  String.length (Str.take n s) = Nat.min n (String.length s).
Proof.
  revert s. induction n as [|n IH]; intros [|c s]; try reflexivity.
  cbn. rewrite IH. reflexivity.
Qed.

Lemma take_all (n : nat) (s : string) :
  (String.length s <= n)%nat -> Str.take n s = s.
Proof.
  revert s. induction n as [|n IH]; intros [|c s] H; try reflexivity.
  - cbn in H. lia.
  - cbn in H |- *. rewrite IH by lia. reflexivity.
Qed.

Lemma toupper_not_lower (c : ascii) : islower (toupper c) = false.
Proof.
  unfold toupper. destruct (islower c) eqn:E; [|exact E].
  unfold islower in *. apply andb_true_iff in E as [H1 H2].
  apply Z.leb_le in H1, H2. rewrite code_chr by lia.
  apply andb_false_iff. left. apply Z.leb_gt. lia.
Qed.

(** X19: a line of the symbol file is the value and the name of a symbol in
    a fixed shape: four hexadecimal digits that denote the value, with
    zeros in front where it has fewer, one blank, and the first sixteen
    characters of the name with no lower-case letter left among them. *)
Theorem a_symbol_file_line_holds_the_value_in_four_digits (symbol : string) (value : Z) :
  0 <= value <= 65535 ->
  symbol_line symbol value
  = hex_field 4 value +:+ " " +:+ Str.map toupper (Str.take 16 symbol) +:+ newline
  /\ String.length (hex_field 4 value) = 4%nat
  /\ all_chars (is_digit_in 16) (hex_field 4 value) = true
  /\ scan_digits 16 (hex_field 4 value) None = Some value
  /\ String.length (Str.map toupper (Str.take 16 symbol))
     = Nat.min 16 (String.length symbol)
  /\ all_chars (fun c => negb (islower c)) (Str.map toupper (Str.take 16 symbol)) = true.
Proof.
  intros Hv.
  assert (Hlen : (String.length (render 16 value) <= 4)%nat).
  { pose proof (render_digits_length 16 (S (Z.to_nat (Z.log2 value))) ltac:(lia)
                  3 value EmptyString) as H.
    cbn [String.length] in H. unfold render.
    rewrite Nat.add_0_r in H. apply H. change (16 ^ Z.of_nat 4) with 65536. lia. }
  split; [|split; [|split; [|split; [|split]]]].
  - unfold symbol_line. cbv zeta. unfold Str.substr. cbn [Str.drop].
    destruct (16 <? String.length symbol)%nat eqn:E; [reflexivity|].
    apply Nat.ltb_ge in E. rewrite (take_all 16 symbol E). reflexivity.
  - unfold hex_field, pad_left. rewrite length_append, length_fill. lia.
  - unfold hex_field, pad_left. rewrite all_chars_app.
    rewrite all_chars_fill by reflexivity.
    rewrite (all_chars_render 16 ltac:(lia) value) by lia. reflexivity.
  - unfold hex_field, pad_left. apply scan_digits_zeros; [lia | reflexivity].
  - rewrite length_map. apply length_take_min.
  - generalize (Str.take 16 symbol). intros s.
    induction s as [|c s IH]; [reflexivity|].
    cbn. rewrite toupper_not_lower, IH. reflexivity.
Qed.

Lemma a_symbol_file_line_witness :
  symbol_line "a_rather_long_symbol" 2748
  = hex_field 4 2748 +:+ " " +:+ Str.map toupper (Str.take 16 "a_rather_long_symbol")
    +:+ newline
  /\ String.length (hex_field 4 2748) = 4%nat
  /\ all_chars (is_digit_in 16) (hex_field 4 2748) = true
  /\ scan_digits 16 (hex_field 4 2748) None = Some 2748
  /\ String.length (Str.map toupper (Str.take 16 "a_rather_long_symbol"))
     = Nat.min 16 (String.length "a_rather_long_symbol")
  /\ all_chars (fun c => negb (islower c))
       (Str.map toupper (Str.take 16 "a_rather_long_symbol")) = true.
Proof. apply a_symbol_file_line_holds_the_value_in_four_digits. lia. Defined.

(** ** The cross-reference file *)

(** X20: after an assembly that started with no cross-reference data, every
    symbol the cross-reference file lists is in the symbol table: the
    [sym_table.at] of [write_cross_reference_file] finds its address
    and does not throw. *)
Theorem every_cross_referenced_symbol_has_an_address
    (depth : nat) (lines : list string) (a a' : Assembler) (symbol : string) :
  cross_reference_data a = ∅ ->
  assemble depth lines a = Ok (tt, a') ->
  is_Some (cross_reference_data a' !! symbol) ->
  exists address,
    symbol_table a' !! symbol = Some address
    /\ cross_reference_address a' symbol = inr address.
Proof.
  intros Hx E Hs.
  destruct (assemble_references_known depth lines a a' Hx E symbol Hs) as [v Hv].
  exists v. split; [exact Hv|]. unfold cross_reference_address. rewrite Hv. reflexivity.
Qed.

Lemma every_cross_referenced_symbol_witness :
  exists address,
    symbol_table (state_after (assemble 1 ["LOOP: JMP LOOP"]) new_Assembler) !! "loop"
    = Some address
    /\ cross_reference_address
         (state_after (assemble 1 ["LOOP: JMP LOOP"]) new_Assembler) "loop"
       = inr address.
Proof.
  apply (every_cross_referenced_symbol_has_an_address 1 ["LOOP: JMP LOOP"] new_Assembler).
  - reflexivity.
  - vm_compute. reflexivity.
  - vm_compute. eexists. reflexivity.
Defined.

(** * What the data directives and the operands put in the output *)

(** ** [DB] with a string *)

Lemma db_argument_string (q : ascii) (s : string) (flag : bool) (a : Assembler) :
  q = squote \/ q = dquote -> source_pass a = 2 ->
  Mnemonic.db_argument flag (String q s +:+ String q EmptyString) a
  = Ok (tt, set_output (output a ++ Mnemonic.string_bytes s)
              (set_address (to_uint16 (address a + Z.of_nat (String.length s))) a)).
Proof.
  intros Hq Hp. unfold Mnemonic.db_argument, bind, get.
  rewrite (trim_delimited q q) by (destruct Hq as [-> | ->]; reflexivity).
  replace (ch_eqb (default Ascii.zero (Str.front (String q s +:+ String q EmptyString)))
             langle) with false
    by (rewrite append_cons; destruct Hq as [-> | ->]; reflexivity).
  rewrite andb_false_r. cbn [andb].
  assert (Hd : is_quote_delimited (String q s +:+ String q EmptyString) = true).
  { unfold is_quote_delimited. rewrite back_app_char.
    rewrite append_cons. cbn [String.length Str.front default].
    rewrite length_append. cbn [String.length].
    replace (S (String.length s + 1) <? 2)%nat with false
      by (symmetry; apply Nat.ltb_ge; lia).
    destruct Hq as [-> | ->]; reflexivity. }
  rewrite Hd.
  assert (Hs : Str.substr 1 (String.length (String q s +:+ String q EmptyString) - 2)
                 (String q s +:+ String q EmptyString) = s).
  { rewrite append_cons. unfold Str.substr. cbn [Str.drop String.length].
    rewrite length_append. cbn [String.length].
    replace (S (String.length s + 1) - 2)%nat with (String.length s) by lia.
    apply take_app_length. }
  rewrite Hs. unfold pass_action, bind, get, modify.
  rewrite Hp. cbn [Z.eqb Pos.eqb when].
  rewrite for_each_push_back. cbn [output set_output set_address address].
  rewrite app_nil_r. destruct a; reflexivity.
Qed.

(** X21: [DB] with a string between quotes puts the codes of its characters
    in the output, one byte for each, commas and blanks among them, and
    moves the location counter by their number. *)
Theorem db_emits_the_characters_of_a_string (q : ascii) (s : string) (a : Assembler) :
  q = squote \/ q = dquote ->
  all_chars is_inner s = true ->
  source_pass a = 2 ->
  operand1 a = String q s +:+ String q EmptyString -> operand2 a = EmptyString ->
  exists a',
    Mnemonic.db a = Ok (tt, a')
    /\ output a' = output a ++ List.map code (list_ascii_of_string s)
    /\ address a' = to_uint16 (address a + Z.of_nat (String.length s))
    /\ symbol_table a' = symbol_table a.
Proof.
  intros Hq Hs Hp H1 H2. eexists.
  unfold Mnemonic.db, bind, get, Mnemonic.all_operands.
  rewrite H2, H1. cbn [Str.empty negb].
  rewrite append_cons. cbn [Str.empty negb check_operands]. unfold pure at 1.
  rewrite <- append_cons, (split_args_quoted q s Hq Hs).
  cbn [Mnemonic.flagged_loop]. unfold bind.
  rewrite (db_argument_string q s true a Hq Hp). unfold pure.
  split; [reflexivity|]. cbn [output address symbol_table set_output set_address].
  repeat split.
Qed.

Lemma db_emits_the_characters_witness :
  exists a',
    Mnemonic.db (met 2 ∅ "DB 'Hi, all'") = Ok (tt, a')
    /\ output a' = output (met 2 ∅ "DB 'Hi, all'")
                   ++ List.map code (list_ascii_of_string "Hi, all")
    /\ address a' = to_uint16 (address (met 2 ∅ "DB 'Hi, all'")
                               + Z.of_nat (String.length "Hi, all"))
    /\ symbol_table a' = symbol_table (met 2 ∅ "DB 'Hi, all'").
Proof.
  apply (db_emits_the_characters_of_a_string squote "Hi, all");
    [left; reflexivity | reflexivity | reflexivity | vm_compute; reflexivity
    | vm_compute; reflexivity].
Defined.

(** ** Operands *)

Lemma low_byte (v : Z) : Z.land v 255 = v mod 256.
Proof. change 255 with (Z.ones 8). rewrite Z.land_ones by lia. reflexivity. Qed.

Lemma high_byte (v : Z) : Z.land (Z.shiftr v 8) 255 = v / 256 mod 256.
Proof. rewrite low_byte, Z.shiftr_div_pow2 by lia. reflexivity. Qed.

Lemma to_uint16_mod (v : Z) : to_uint16 v = v mod 65536.
Proof. reflexivity. Qed.

Lemma bytes_of_word (v : Z) :
  to_uint16 v mod 256 = v mod 256 /\ to_uint16 v / 256 mod 256 = v / 256 mod 256.
Proof. rewrite to_uint16_mod. split; Z.div_mod_to_equations; lia. Qed.

(** X22: an operand that does not fit is cut to its size, not refused.  In
    pass 2 an address operand of any value [v] becomes two bytes, the
    low one first, that make up [v] modulo 2^16; an immediate operand
    becomes the same two bytes, or the one byte [v] modulo 2^8. *)
Theorem an_operand_is_cut_to_its_size (a : Assembler) :
  source_pass a = 2 ->
  (forall operand v a1,
     evaluate_expression operand a = Ok (v, a1) ->
     address16 operand a
     = Ok (tt, set_output (output a1 ++ [v mod 256; v / 256 mod 256]) a1))
  /\ (forall t v a1,
        evaluate_expression
          (if Str.eqb (mnemonic a) "lxi" || Str.eqb (mnemonic a) "mvi"
           then operand2 a else operand1 a) a = Ok (v, a1) ->
        immediate_operand t a
        = Ok (tt, set_output
                    (output a1 ++ match t with
                                  | IMMEDIATE8 => [v mod 256]
                                  | IMMEDIATE16 => [v mod 256; v / 256 mod 256]
                                  end) a1))
  /\ (forall v, 0 <= v mod 256 < 256 /\ 0 <= v / 256 mod 256 < 256
                /\ v mod 256 + 256 * (v / 256 mod 256) = v mod 65536).
Proof.
  intros Hp. split; [|split].
  - intros operand v a1 E. unfold address16, bind, get.
    rewrite Hp. cbn [Z.eqb Pos.eqb negb]. rewrite E. rewrite !push_back_ok.
    cbn [output set_output]. rewrite <- app_assoc. cbn [app].
    rewrite low_byte, high_byte.
    destruct (bytes_of_word v) as [-> ->]. destruct a1; reflexivity.
  - intros t v a1 E. unfold immediate_operand, bind, get.
    rewrite Hp. cbn [Z.eqb Pos.eqb negb]. rewrite E.
    destruct t; rewrite !push_back_ok; cbn [output set_output].
    + rewrite low_byte. reflexivity.
    + rewrite <- app_assoc. cbn [app]. rewrite low_byte, high_byte.
      destruct a1; reflexivity.
  - intros v. Z.div_mod_to_equations. lia.
Qed.

Lemma an_operand_is_cut_witness :
  address16 "70000" (met 2 ∅ "JMP 70000")
  = Ok (tt, set_output (output (met 2 ∅ "JMP 70000")
                        ++ [70000 mod 256; 70000 / 256 mod 256])
              (met 2 ∅ "JMP 70000")).
Proof.
  apply (proj1 (an_operand_is_cut_to_its_size (met 2 ∅ "JMP 70000") eq_refl)).
  vm_compute. reflexivity.
Defined.

(** * Pass 0: the macro definitions *)

Lemma eqb_false (s t : string) : s <> t -> Str.eqb s t = false.
Proof. intros H. apply String.eqb_neq. exact H. Qed.

Lemma eqb_true (s t : string) : s = t -> Str.eqb s t = true.
Proof. intros H. apply String.eqb_eq. exact H. Qed.

Lemma preprocess_inside (l : string) (lines : list string) (i : Z) (cur : Macro)
    (a : Assembler) :
  inside_line l ->
  preprocess_macros_loop (l :: lines) i true cur a
  = preprocess_macros_loop lines (i + 1) true
      {| name := name cur; params := params cur; body_lines := body_lines cur ++ [l] |} a.
Proof.
  intros (H2 & He & Hm). unfold first_word, second_word in *.
  cbn [preprocess_macros_loop].
  destruct (Str.read_word (trim l)) as [w1 ss1]. cbn [fst snd] in *.
  destruct (Str.read_word ss1) as [w2 ss2]. cbn [fst snd] in *.
  rewrite (eqb_false _ _ H2), (eqb_false _ _ He), (eqb_false _ _ Hm).
  reflexivity.
Qed.

Lemma preprocess_outside (l : string) (lines : list string) (i : Z) (cur : Macro)
    (a : Assembler) :
  inside_line l ->
  preprocess_macros_loop (l :: lines) i false cur a
  = preprocess_macros_loop lines (i + 1) false cur a.
Proof.
  intros (H2 & He & Hm). unfold first_word, second_word in *.
  cbn [preprocess_macros_loop].
  destruct (Str.read_word (trim l)) as [w1 ss1]. cbn [fst snd] in *.
  destruct (Str.read_word ss1) as [w2 ss2]. cbn [fst snd] in *.
  rewrite (eqb_false _ _ H2), (eqb_false _ _ He), (eqb_false _ _ Hm).
  reflexivity.
Qed.

Lemma preprocess_body (body lines : list string) (i : Z) (cur : Macro) (a : Assembler) :
  Forall inside_line body ->
  preprocess_macros_loop (body ++ lines) i true cur a
  = preprocess_macros_loop lines (i + Z.of_nat (length body)) true
      {| name := name cur; params := params cur; body_lines := body_lines cur ++ body |} a.
Proof.
  intros H. revert i cur. induction H as [|l body Hl _ IH]; intros i cur.
  - cbn [app length]. rewrite app_nil_r, Z.add_0_r. destruct cur; reflexivity.
  - cbn [app]. rewrite (preprocess_inside l _ i cur a Hl), IH. cbn [name params body_lines].
    rewrite <- app_assoc. cbn [app length]. f_equal. lia.
Qed.

Lemma preprocess_others (pre lines : list string) (i : Z) (cur : Macro) (a : Assembler) :
  Forall inside_line pre ->
  preprocess_macros_loop (pre ++ lines) i false cur a
  = preprocess_macros_loop lines (i + Z.of_nat (length pre)) false cur a.
Proof.
  intros H. revert i. induction H as [|l pre Hl _ IH]; intros i.
  - cbn [app length]. rewrite Z.add_0_r. reflexivity.
  - cbn [app]. rewrite (preprocess_outside l _ i cur a Hl), IH.
    cbn [length]. f_equal. lia.
Qed.

Lemma preprocess_header (l : string) (lines : list string) (i : Z) (in_def : bool)
    (cur : Macro) (a : Assembler) :
  second_word l = "macro" ->
  preprocess_macros_loop (l :: lines) i in_def cur a
  = if in_def then Fail (Fatal (i + 1) "nested macro definitions are not supported")
    else preprocess_macros_loop lines (i + 1) true
           {| name := first_word l; params := parameters_of l; body_lines := [] |} a.
Proof.
  intros H2. unfold first_word, second_word, parameters_of in *.
  cbn [preprocess_macros_loop].
  destruct (Str.read_word (trim l)) as [w1 ss1]. cbn [fst snd] in *.
  destruct (Str.read_word ss1) as [w2 ss2]. cbn [fst snd] in *.
  rewrite (eqb_true _ _ H2). destruct in_def; reflexivity.
Qed.

Lemma preprocess_closing (l : string) (lines : list string) (i : Z) (in_def : bool)
    (cur : Macro) (a : Assembler) :
  closes_macro l ->
  preprocess_macros_loop (l :: lines) i in_def cur a
  = if in_def
    then preprocess_macros_loop lines (i + 1) false cur
           (set_macros (<[name cur := cur]> (macros a)) a)
    else Fail (Fatal (i + 1) "ENDM without MACRO").
Proof.
  intros (H2 & He). unfold first_word, second_word in *.
  cbn [preprocess_macros_loop].
  destruct (Str.read_word (trim l)) as [w1 ss1]. cbn [fst snd] in *.
  destruct (Str.read_word ss1) as [w2 ss2]. cbn [fst snd] in *.
  rewrite (eqb_false _ _ H2).
  replace (Str.eqb (to_lower w1) "endm" || Str.eqb (to_lower w1) "mend") with true
    by (destruct He as [-> | ->]; reflexivity).
  destruct in_def; reflexivity.
Qed.

(** X23: pass 0 stores a macro definition under its first word in lower
    case, with the parameters that follow the word [MACRO] and with the
    lines up to the closing [ENDM] or [MEND] as they stand; the lines
    around the definition are not looked at any further.  A definition
    with no closing line, a second [MACRO] line inside a definition and
    a closing line outside one are refused, each with its line. *)
Theorem a_macro_definition_is_stored
    (pre body post : list string) (header closing : string) (a : Assembler) :
  Forall inside_line pre -> second_word header = "macro" ->
  Forall inside_line body ->
  (closes_macro closing -> Forall inside_line post ->
   preprocess_macros (pre ++ header :: body ++ closing :: post) a
   = Ok (tt, set_macros
               (<[first_word header :=
                    {| name := first_word header; params := parameters_of header;
                       body_lines := body |}]> (macros a)) a))
  /\ preprocess_macros (pre ++ header :: body) a
     = Fail (Fatal (Z.of_nat (length (pre ++ header :: body)) + 1)
               "MACRO definition not closed with ENDM")
  /\ (forall rest,
        preprocess_macros (pre ++ header :: body ++ header :: rest) a
        = Fail (Fatal (Z.of_nat (length (pre ++ header :: body)) + 1)
                  "nested macro definitions are not supported"))
  /\ (forall rest,
        closes_macro closing ->
        preprocess_macros (pre ++ closing :: rest) a
        = Fail (Fatal (Z.of_nat (length pre) + 1) "ENDM without MACRO")).
Proof.
  intros Hpre Hh Hbody. unfold preprocess_macros, bind.
  split; [|split; [|split]].
  - intros Hc Hpost.
    rewrite (preprocess_others pre _ 0 _ a Hpre).
    rewrite (preprocess_header header _ _ false _ a Hh).
    rewrite (preprocess_body body _ _ _ a Hbody). cbn [name params body_lines app].
    rewrite (preprocess_closing closing _ _ true _ _ Hc). cbn [name].
    rewrite <- (app_nil_r post), (preprocess_others post [] _ _ _ Hpost).
    reflexivity.
  - rewrite (preprocess_others pre _ 0 _ a Hpre).
    rewrite (preprocess_header header _ _ false _ a Hh).
    rewrite <- (app_nil_r body) at 1.
    rewrite (preprocess_body body [] _ _ a Hbody). reflexivity.
  - intros rest.
    rewrite (preprocess_others pre _ 0 _ a Hpre).
    rewrite (preprocess_header header _ _ false _ a Hh).
    rewrite (preprocess_body body _ _ _ a Hbody).
    rewrite (preprocess_header header _ _ true _ a Hh).
    do 3 f_equal. rewrite length_app. cbn [length]. lia.
  - intros rest Hc.
    rewrite (preprocess_others pre _ 0 _ a Hpre).
    rewrite (preprocess_closing closing _ _ false _ _ Hc). reflexivity.
Qed.

Lemma a_macro_definition_is_stored_witness :
  preprocess_macros
    ([" ORG 100H"] ++ "Delay MACRO count, reg" :: [" MVI reg,count"; " DCR reg"]
     ++ " ENDM" :: [" Delay 5, B"]) new_Assembler
  = Ok (tt, set_macros
              (<["delay" := {| name := "delay"; params := ["count"; "reg"];
                               body_lines := [" MVI reg,count"; " DCR reg"] |}]> ∅)
              new_Assembler).
Proof.
  apply (proj1 (a_macro_definition_is_stored
                  [" ORG 100H"] [" MVI reg,count"; " DCR reg"] [" Delay 5, B"]
                  "Delay MACRO count, reg" " ENDM" new_Assembler
                  ltac:(repeat constructor; vm_compute; discriminate)
                  eq_refl
                  ltac:(repeat constructor; vm_compute; discriminate))).
  - split; [vm_compute; discriminate | left; reflexivity].
  - repeat constructor; vm_compute; discriminate.
Defined.

(** ** A macro that invokes itself *)

(** X24: the expander has no limit on the depth of expansions.  When the
    first body line of a macro, with the arguments of an invocation put
    in, is that invocation again, the expansion invokes itself without
    end: no bound on the depth of the recursion is enough for it to
    return. *)
Theorem a_macro_that_invokes_itself_never_returns
    (line : string) (n : Z) (macro_def : Macro) (rest : list string) (body_line : string) :
  has_text line = true ->
  first_word line <> "if" -> first_word line <> "endif" ->
  first_word line <> "error" -> first_word line <> "local" ->
  length (arguments_of line) = length (params macro_def) ->
  body_lines macro_def = body_line :: rest ->
  (forall counter b,
     (s <- substitute_all (combine (params macro_def) (arguments_of line)) body_line ;;
      substitute_all (build_local_label_map counter (body_lines macro_def)) s) b
     = Ok (line, b)) ->
  forall depth a,
    should_skip a = false -> macros a !! first_word line = Some macro_def ->
    expand_and_process_line depth line n a = Fail OutOfFuel.
Proof.
  intros Ht Hif Hendif Herror Hlocal Hlen Hbody Hsub depth.
  induction depth as [|depth IH]; intros a Hs Hm; [reflexivity|].
  rewrite expand_unfold by exact Ht.
  apply String.eqb_neq in Hif, Hendif, Herror, Hlocal. unfold Str.eqb.
  rewrite Hif, Hendif, Herror, Hlocal. cbn [orb].
  unfold bind at 1. unfold get at 1. rewrite Hs, Hm.
  unfold bind at 1. unfold modify at 1.
  unfold bind at 1. rewrite Hlen, Nat.eqb_refl. cbn [negb]. unfold pure at 1.
  unfold bind at 1. unfold get at 1.
  rewrite Hbody. cbn [for_each]. unfold bind at 1.
  specialize (Hsub (macro_expansion_counter
                      (set_macro_expansion_counter
                         (to_int (macro_expansion_counter a + 1)) a))
                (set_macro_expansion_counter (to_int (macro_expansion_counter a + 1)) a)).
  rewrite Hbody in Hsub. unfold bind at 1 in Hsub.
  unfold bind at 1.
  destruct (substitute_all (combine (params macro_def) (arguments_of line)) body_line _)
    as [[s b]|f]; [|discriminate].
  unfold bind at 1. rewrite Hsub.
  rewrite IH; [reflexivity | exact Hs | exact Hm].
Qed.

Lemma a_macro_that_invokes_itself_witness :
  expand_and_process_line 1000 " AGAIN 1" 0
    (state_after (preprocess_macros ["AGAIN MACRO X"; " AGAIN X"; " ENDM"]) new_Assembler)
  = Fail OutOfFuel.
Proof.
  apply (a_macro_that_invokes_itself_never_returns " AGAIN 1" 0
           {| name := "again"; params := ["X"]; body_lines := [" AGAIN X"] |}
           [] " AGAIN X").
  - reflexivity.
  - vm_compute. discriminate.
  - vm_compute. discriminate.
  - vm_compute. discriminate.
  - vm_compute. discriminate.
  - reflexivity.
  - reflexivity.
  - intros counter b. vm_compute. reflexivity.
  - reflexivity.
  - vm_compute. reflexivity.
Defined.

(** * The opcodes of the instructions *)

Lemma opcodes_apart_holds : opcodes_apart = true.
Proof. vm_compute. reflexivity. Qed.

Lemma opcodes_of_In (m o1 o2 : string) (b : Z) :
  In o1 operand_texts -> In o2 operand_texts -> first_byte m o1 o2 = Some b ->
  In b (opcodes_of m).
Proof.
  intros H1 H2 E. unfold opcodes_of. apply in_flat_map.
  exists (o1, o2). split; [apply in_prod; assumption|].
  cbn [fst snd]. rewrite E. left. reflexivity.
Qed.

(** X25: no two mnemonics share an opcode: over all the instructions of the
    table, with the register names and the numbers 0 to 7 for operands,
    the first byte that pass 2 puts out determines the mnemonic.  The
    one exception is 76H: [MOV M,M] is not refused and is put out as
    the opcode of [HLT]. *)
Theorem no_two_mnemonics_share_an_opcode
    (m1 o1 p1 m2 o2 p2 : string) (b : Z) :
  In m1 instruction_names -> In o1 operand_texts -> In p1 operand_texts ->
  In m2 instruction_names -> In o2 operand_texts -> In p2 operand_texts ->
  first_byte m1 o1 p1 = Some b -> first_byte m2 o2 p2 = Some b ->
  m1 = m2
  \/ (b = 0x76 /\ ((m1 = "mov" /\ m2 = "hlt") \/ (m1 = "hlt" /\ m2 = "mov"))).
Proof.
  intros Hm1 Ho1 Hp1 Hm2 Ho2 Hp2 E1 E2.
  pose proof opcodes_apart_holds as H. unfold opcodes_apart in H. cbv zeta in H.
  rewrite forallb_forall in H.
  specialize (H (m1, opcodes_of m1)
                (in_map (fun m => (m, opcodes_of m)) _ _ Hm1)).
  rewrite forallb_forall in H.
  specialize (H (m2, opcodes_of m2)
                (in_map (fun m => (m, opcodes_of m)) _ _ Hm2)).
  unfold apart_but_halt in H. cbn [fst snd] in H.
  apply orb_true_iff in H as [H|H]; [left; apply String.eqb_eq; exact H|].
  rewrite forallb_forall in H.
  specialize (H b (opcodes_of_In m1 o1 p1 b Ho1 Hp1 E1)).
  apply orb_true_iff in H as [H|H].
  - exfalso. apply negb_true_iff in H.
    assert (Hex : existsb (Z.eqb b) (opcodes_of m2) = true).
    { apply existsb_exists. exists b. split; [|apply Z.eqb_refl].
      exact (opcodes_of_In m2 o2 p2 b Ho2 Hp2 E2). }
    congruence.
  - right. apply andb_true_iff in H as [Hb H]. apply Z.eqb_eq in Hb.
    split; [exact Hb|].
    apply orb_true_iff in H as [H|H]; apply andb_true_iff in H as [Ha Hc];
      apply String.eqb_eq in Ha, Hc; [left | right]; split; assumption.
Qed.

Lemma no_two_mnemonics_share_an_opcode_witness :
  "mov" = "hlt"
  \/ (0x76 = 0x76 /\ (("mov" = "mov" /\ "hlt" = "hlt") \/ ("mov" = "hlt" /\ "hlt" = "mov"))).
Proof.
  apply (no_two_mnemonics_share_an_opcode "mov" "m" "m" "hlt" "" "" 0x76);
    vm_compute; auto 30.
Defined.

(** * The line parser *)

(** ** Classes of characters *)

Lemma in_all_ascii (c : ascii) : In c all_ascii.
Proof.
  unfold all_ascii. apply in_map_iff. exists (nat_of_ascii c). split.
  - apply ascii_nat_embedding.
  - apply in_seq. pose proof (nat_ascii_bounded c). lia.
Qed.

(** What holds of every character of a class holds of every character
    of a text of the class. *)
Lemma all_chars_class (P Q : ascii -> bool) (s : string) :
  forallb (fun c => implb (P c) (Q c)) all_ascii = true ->
  all_chars P s = true -> all_chars Q s = true.
Proof.
  intros H. apply all_chars_impl. intros c Hc.
  rewrite forallb_forall in H. specialize (H c (in_all_ascii c)).
  rewrite Hc in H. exact H.
Qed.

Ltac class :=
  lazymatch goal with
  | H : all_chars ?P ?s = true |- all_chars ?Q ?s = true =>
      apply (all_chars_class P Q s); [vm_compute; reflexivity | exact H]
  end.

(** Splits a statement about all the characters of a text that is put
    together from parts. *)
Ltac chars :=
  repeat first
    [ reflexivity
    | class
    | rewrite all_chars_app; apply andb_true_iff; split
    | match goal with
      | |- all_chars _ (if ?b then _ else _) = true => destruct b
      | |- all_chars _ (String _ _) = true =>
          cbn [all_chars]; apply andb_true_iff; split; [vm_compute; reflexivity|]
      end ].

Lemma map_app (f : ascii -> ascii) (s t : string) :
  Str.map f (s +:+ t) = Str.map f s +:+ Str.map f t.
Proof.
  induction s as [|c s IH]; [reflexivity|].
  rewrite append_cons. cbn [Str.map]. rewrite IH, append_cons. reflexivity.
Qed.

Lemma map_fixed (f : ascii -> ascii) (s : string) :
  all_chars (fun c => ch_eqb (f c) c) s = true -> Str.map f s = s.
Proof.
  induction s as [|c s IH]; [reflexivity|].
  cbn. intros H. apply andb_true_iff in H as [Hc Hs].
  rewrite (IH Hs). f_equal.
  unfold ch_eqb in Hc. apply Z.eqb_eq in Hc. unfold code in Hc.
  apply N2Z.inj in Hc. rewrite <- (ascii_N_embedding (f c)), Hc.
  apply ascii_N_embedding.
Qed.

Lemma map_empty (f : ascii -> ascii) (s : string) : Str.empty (Str.map f s) = Str.empty s.
Proof. destruct s; reflexivity. Qed.

Lemma untabbed_spaces (g : string) :
  all_chars is_blank g = true ->
  all_chars (fun c => code c =? 32) (Str.map tab_to_space g) = true.
Proof.
  induction g as [|c g IH]; [reflexivity|].
  cbn. intros H. apply andb_true_iff in H as [Hc Hg]. rewrite (IH Hg), andb_true_r.
  revert Hc. destruct c as [[] [] [] [] [] [] [] []]; vm_compute; congruence.
Qed.

Lemma untabbed_text (g : layout) (l m o1 o2 c : string) :
  all_chars is_word_char l = true -> all_chars is_word_char m = true ->
  all_chars is_operand_char o1 = true -> all_chars is_operand_char o2 = true ->
  Str.map tab_to_space (statement_text g l m o1 o2 c)
  = statement_text (untabbed g) l m o1 o2 (Str.map tab_to_space c).
Proof.
  intros Hl Hm H1 H2.
  assert (El : Str.map tab_to_space l = l) by (apply map_fixed; class).
  assert (Em : Str.map tab_to_space m = m) by (apply map_fixed; class).
  assert (E1 : Str.map tab_to_space o1 = o1) by (apply map_fixed; class).
  assert (E2 : Str.map tab_to_space o2 = o2) by (apply map_fixed; class).
  unfold statement_text, untabbed. cbn [indent after_label after_mnemonic before_comma
    after_comma before_comment].
  rewrite map_empty.
  destruct (Str.empty l), (Str.empty o2), (Str.empty c);
    repeat (rewrite map_app || rewrite append_cons || cbn [Str.map]);
    rewrite ?El, ?Em, ?E1, ?E2; reflexivity.
Qed.

(** ** Searching and cutting *)

Lemma find_char0_here (c : ascii) (s t : string) :
  all_chars (fun d => negb (ch_eqb c d)) s = true ->
  Str.find_char0 c (s +:+ String c t) = Some (String.length s).
Proof.
  induction s as [|d s IH]; intros H.
  - change (EmptyString +:+ String c t) with (String c t). cbn.
    unfold ch_eqb. rewrite Z.eqb_refl. reflexivity.
  - cbn in H. apply andb_true_iff in H as [Hd Hs]. apply negb_true_iff in Hd.
    rewrite append_cons. cbn [Str.find_char0]. rewrite Hd, (IH Hs). reflexivity.
Qed.

Lemma tight_word (s : string) : all_chars not_space s = true -> tight s.
Proof.
  intros H. split; intros c Hc.
  - destruct s as [|d s]; [discriminate|]. injection Hc as <-.
    cbn in H. apply andb_true_iff in H as [H _]. apply negb_true_iff in H. exact H.
  - pose proof (back_all_chars not_space s c H Hc) as Hb.
    apply negb_true_iff in Hb. exact Hb.
Qed.

Lemma tight_trimmed (s : string) : trim s = s -> tight s.
Proof.
  intros E. split; intros c Hc; rewrite <- E in Hc.
  - exact (trim_front s c Hc).
  - unfold trim in Hc. exact (rtrim_back _ c Hc).
Qed.

Lemma front_app (s t : string) (c : ascii) :
  Str.front s = Some c -> Str.front (s +:+ t) = Some c.
Proof. destruct s; [discriminate|]. rewrite append_cons. trivial. Qed.

Lemma back_app (s t : string) :
  t <> EmptyString -> Str.back (s +:+ t) = Str.back t.
Proof.
  intros Ht. induction s as [|d s IH]; [reflexivity|].
  rewrite append_cons. cbn [Str.back].
  destruct (s +:+ t) eqn:E; [|exact IH].
  destruct s; [|discriminate]. contradiction.
Qed.

Lemma tight_app (s mid t : string) :
  tight s -> tight t -> s <> EmptyString -> t <> EmptyString ->
  tight (s +:+ mid +:+ t).
Proof.
  intros [Hs _] [_ Ht] Hne Hnt. split; intros c Hc.
  - destruct s as [|d s]; [contradiction|]. rewrite append_cons in Hc.
    injection Hc as <-. apply Hs. reflexivity.
  - rewrite back_app in Hc.
    + rewrite back_app in Hc by exact Hnt. apply Ht. exact Hc.
    + destruct mid; [exact Hnt | discriminate].
Qed.

Lemma skip_ws_pad (pre s : string) :
  all_chars isspace pre = true -> Str.skip_ws (pre +:+ s) = Str.skip_ws s.
Proof.
  induction pre as [|c pre IH]; intros H; [reflexivity|].
  cbn in H. apply andb_true_iff in H as [Hc Hp].
  rewrite append_cons. cbn [Str.skip_ws]. rewrite Hc. exact (IH Hp).
Qed.

Lemma rtrim_pad (s post : string) :
  all_chars isspace post = true -> rtrim (s +:+ post) = rtrim s.
Proof.
  intros Hp. induction s as [|c s IH].
  - change (EmptyString +:+ post) with post.
    pose proof (trim_blank post Hp) as E. unfold trim, ltrim in E.
    clear E. induction post as [|d post IHp]; [reflexivity|].
    cbn in Hp. apply andb_true_iff in Hp as [Hd Hp].
    cbn [rtrim]. rewrite (IHp Hp). cbn [rtrim]. rewrite Hd. reflexivity.
  - rewrite append_cons. cbn [rtrim]. rewrite IH. reflexivity.
Qed.

(** [trim] gives back a text with no whitespace at its ends from
    between two runs of whitespace. *)
Lemma trim_pad (pre s post : string) :
  all_chars isspace pre = true -> all_chars isspace post = true -> tight s ->
  trim (pre +:+ s +:+ post) = s.
Proof.
  intros Hpre Hpost [Hf Hb]. unfold trim, ltrim.
  rewrite (skip_ws_pad pre _ Hpre).
  destruct s as [|c s].
  - change (EmptyString +:+ post) with post.
    exact (trim_blank post Hpost).
  - rewrite append_cons. cbn [Str.skip_ws]. rewrite (Hf c eq_refl).
    rewrite <- append_cons, (rtrim_pad _ post Hpost).
    apply rtrim_fixed. exact Hb.
Qed.

Lemma span_word_word (w rest : string) :
  all_chars not_space w = true ->
  match rest with String c _ => isspace c = true | EmptyString => True end ->
  Str.span_word (w +:+ rest) = (w, rest).
Proof.
  intros Hw Hr. induction w as [|c w IH].
  - change (EmptyString +:+ rest) with rest.
    destruct rest as [|d rest]; [reflexivity|]. cbn. rewrite Hr. reflexivity.
  - cbn in Hw. apply andb_true_iff in Hw as [Hc Hw]. apply negb_true_iff in Hc.
    rewrite append_cons. cbn [Str.span_word]. rewrite Hc, (IH Hw). reflexivity.
Qed.

Lemma read_word_word (w rest : string) :
  w <> EmptyString -> all_chars not_space w = true ->
  match rest with String c _ => isspace c = true | EmptyString => True end ->
  Str.read_word (w +:+ rest) = (w, rest).
Proof.
  intros Hne Hw Hr. unfold Str.read_word.
  rewrite skip_ws_fixed; [exact (span_word_word w rest Hw Hr)|].
  intros c Hc. destruct w as [|d w]; [contradiction|].
  rewrite append_cons in Hc. injection Hc as <-.
  cbn in Hw. apply andb_true_iff in Hw as [Hd _]. apply negb_true_iff in Hd. exact Hd.
Qed.

Lemma getline_fixed (s : string) :
  all_chars (fun c => negb (code c =? 10)) s = true -> Str.getline s = s.
Proof.
  induction s as [|c s IH]; [reflexivity|].
  cbn. intros H. apply andb_true_iff in H as [Hc Hs]. apply negb_true_iff in Hc.
  rewrite Hc, (IH Hs). reflexivity.
Qed.

Lemma comma_split_pos_none (s : string) (i : nat) :
  all_chars is_plain s = true -> comma_split_pos s i false 0 = None.
Proof.
  revert i. induction s as [|c s IH]; intros i H; [reflexivity|].
  cbn in H. apply andb_true_iff in H as [Hc Hs].
  cbn [comma_split_pos].
  destruct (plain_scan c false 0 (plain_is_inner c Hc)) as [-> ->].
  rewrite (plain_no_comma c Hc). cbn [andb]. exact (IH (S i) Hs).
Qed.

Lemma comma_split_pos_here (s t : string) (i : nat) :
  all_chars is_plain s = true ->
  comma_split_pos (s +:+ String comma t) i false 0 = Some (i + String.length s)%nat.
Proof.
  revert i. induction s as [|c s IH]; intros i H.
  - change (EmptyString +:+ String comma t) with (String comma t).
    cbn [comma_split_pos String.length]. rewrite Nat.add_0_r. reflexivity.
  - cbn in H. apply andb_true_iff in H as [Hc Hs].
    rewrite append_cons. cbn [comma_split_pos].
    destruct (plain_scan c false 0 (plain_is_inner c Hc)) as [-> ->].
    rewrite (plain_no_comma c Hc). cbn [andb]. rewrite (IH (S i) Hs).
    cbn [String.length]. f_equal. lia.
Qed.

Lemma starts_with_prefix (p s t : string) :
  Str.starts_with p s = true -> Str.starts_with p (s +:+ t) = true.
Proof.
  revert s. induction p as [|a p IH]; intros s H; [destruct (s +:+ t); reflexivity|].
  destruct s as [|b s]; [discriminate|].
  rewrite append_cons. cbn [Str.starts_with] in H |- *.
  apply andb_true_iff in H as [Hab Hs]. rewrite Hab, (IH s Hs). reflexivity.
Qed.

Lemma find0_none_inside (p x y z : string) :
  Str.find0 p (x +:+ y +:+ z) = None -> Str.find0 p y = None.
Proof.
  intros H.
  assert (Hy : Str.find0 p (y +:+ z) = None).
  { clear -H. induction x as [|c x IH]; [exact H|].
    rewrite append_cons, find0_cons in H.
    destruct (Str.starts_with p (String c (x +:+ y +:+ z))); [discriminate|].
    destruct (Str.find0 p (x +:+ y +:+ z)); [discriminate|]. apply IH. reflexivity. }
  clear H. induction y as [|c y IH].
  - change (EmptyString +:+ z) with z in Hy.
    destruct p as [|a p]; [destruct z; discriminate | reflexivity].
  - rewrite append_cons, find0_cons in Hy. rewrite find0_cons.
    destruct (Str.starts_with p (String c y)) eqn:Es.
    + rewrite <- append_cons, (starts_with_prefix p _ z Es) in Hy. discriminate.
    + destruct (Str.starts_with p (String c (y +:+ z))); [discriminate|].
      destruct (Str.find0 p (y +:+ z)); [discriminate|].
      rewrite (IH eq_refl). reflexivity.
Qed.

(** ** The steps of [parse] *)

Lemma parse_steps (line : string) (a : Assembler)
    (comment core body label rest mnem ss ops o1 o2 : string) :
  match Str.find_char0 semicolon (Str.map tab_to_space line) with
  | Some comment_pos =>
      (trim (Str.substr_from (S comment_pos) (Str.map tab_to_space line)),
       Str.substr 0 comment_pos (Str.map tab_to_space line))
  | None => (EmptyString, Str.map tab_to_space line)
  end = (comment, core) ->
  trim core = body -> Str.empty body = false ->
  Str.find " equ " 0 (to_lower body) = None ->
  match Str.find_char0 (chr 58) body with
  | Some label_pos =>
      (trim (Str.substr 0 label_pos body), trim (Str.substr_from (S label_pos) body))
  | None => (EmptyString, body)
  end = (label, rest) ->
  Str.read_word rest = (mnem, ss) ->
  trim (Str.getline ss) = ops ->
  match comma_split_pos ops 0 false 0 with
  | Some pos => (trim (Str.substr 0 pos ops), trim (Str.substr_from (S pos) ops))
  | None => (ops, EmptyString)
  end = (o1, o2) ->
  Str.empty mnem = false ->
  parse line a = Ok (tt, set_parsed (to_lower label) (to_lower mnem) o1 o2 comment a).
Proof.
  intros H1 H2 H3 H4 H5 H6 H7 H8 H9. unfold parse.
  cbv zeta. rewrite H1, H2, H3, H4, H5, H6, H7, H8, H9. reflexivity.
Qed.

Lemma spaces_class (P : ascii -> bool) (s : string) :
  P " "%char = true -> all_chars (fun c => code c =? 32) s = true -> all_chars P s = true.
Proof.
  intros HP. apply all_chars_impl. intros c Hc.
  apply Z.eqb_eq in Hc. unfold code in Hc.
  assert (E : c = " "%char).
  { rewrite <- (ascii_N_embedding c). change 32 with (Z.of_N 32) in Hc.
    apply N2Z.inj in Hc. rewrite Hc. reflexivity. }
  rewrite E. exact HP.
Qed.

Lemma drop_app_cons (s t : string) (c : ascii) :
  Str.drop (S (String.length s)) (s +:+ String c t) = t.
Proof. induction s as [|d s IH]; [reflexivity|]. rewrite append_cons. exact IH. Qed.

Lemma empty_false (s : string) : Str.empty s = false <-> s <> EmptyString.
Proof. destruct s; split; intros H; try discriminate; try reflexivity. contradiction. Qed.

Lemma empty_true (s : string) : Str.empty s = true <-> s = EmptyString.
Proof. destruct s; split; intros H; try discriminate; reflexivity. Qed.

(** X26: [parse] reads a statement back.  A statement written as a label
    with its colon, a mnemonic, two operands with a comma between them
    and a comment after a semicolon (each part but the mnemonic may be
    missing, with its delimiter), with any blanks and tabs between the
    parts, is taken apart into these parts: the label and the mnemonic
    in lower case, the operands and the comment without the whitespace
    around them.  The operands must not hold a colon, which would be
    taken for the end of a label, and the line must not hold the word
    [equ] between blanks, which is looked for first. *)
Theorem parse_reads_a_statement_back
    (g : layout) (l m o1 o2 c : string) (a : Assembler) :
  is_layout g = true ->
  all_chars is_word_char l = true ->
  all_chars is_word_char m = true -> m <> EmptyString ->
  all_chars is_operand_char o1 = true -> all_chars is_plain o1 = true -> trim o1 = o1 ->
  all_chars is_operand_char o2 = true -> trim o2 = o2 ->
  (o2 <> EmptyString -> o1 <> EmptyString) ->
  Str.find " equ " 0 (to_lower (Str.map tab_to_space (statement_text g l m o1 o2 c)))
  = None ->
  parse (statement_text g l m o1 o2 c) a
  = Ok (tt, set_parsed (to_lower l) (to_lower m) o1 o2
              (trim (Str.map tab_to_space c)) a).
Proof.
  intros Hg Hl Hm Hmne H1 H1p H1t H2 H2t H21 Hequ.
  pose proof (untabbed_text g l m o1 o2 c Hl Hm H1 H2) as Hline.
  rewrite Hline in Hequ.
  unfold is_layout in Hg.
  apply andb_true_iff in Hg as [Hg Sbm]. apply andb_true_iff in Hg as [Hg Sac].
  apply andb_true_iff in Hg as [Hg Sbc]. apply andb_true_iff in Hg as [Hg Sam].
  apply andb_true_iff in Hg as [Sind Sal].
  apply untabbed_spaces in Sind, Sal, Sam, Sbc, Sac, Sbm.
  pose (ops := if Str.empty o2 then o1
               else o1 +:+ before_comma (untabbed g)
                    +:+ String comma (after_comma (untabbed g)) +:+ o2).
  pose (rest := if Str.empty o1 then EmptyString
                else " " +:+ after_mnemonic (untabbed g) +:+ ops).
  pose (lp := if Str.empty l then EmptyString
              else l +:+ String colon (after_label (untabbed g))).
  pose (body := lp +:+ m +:+ rest).
  pose (post := (if Str.empty o1 then " " +:+ after_mnemonic (untabbed g)
                 else EmptyString) +:+ before_comment (untabbed g)).
  pose (cp := if Str.empty (Str.map tab_to_space c) then EmptyString
              else String semicolon (Str.map tab_to_space c)).
  assert (Ho2 : Str.empty o1 = true -> o2 = EmptyString).
  { intros E. apply empty_true in E. destruct o2 as [|d o2]; [reflexivity|].
    exfalso. apply H21; [discriminate | exact E]. }
  assert (Etext : statement_text (untabbed g) l m o1 o2 (Str.map tab_to_space c)
                  = (indent (untabbed g) +:+ body +:+ post) +:+ cp).
  { unfold statement_text, body, post, rest, lp, cp, ops.
    destruct (Str.empty o1) eqn:E1.
    - rewrite (Ho2 eq_refl). apply empty_true in E1. subst o1. cbn [Str.empty].
      rewrite !append_assoc, ?append_nil_r. reflexivity.
    - rewrite !append_assoc, ?append_nil_r. reflexivity. }
  unfold untabbed in *. cbn [indent after_label after_mnemonic before_comma after_comma
    before_comment] in *.
  remember (Str.map tab_to_space (indent g)) as ind.
  remember (Str.map tab_to_space (after_label g)) as al.
  remember (Str.map tab_to_space (after_mnemonic g)) as am.
  remember (Str.map tab_to_space (before_comma g)) as bc.
  remember (Str.map tab_to_space (after_comma g)) as ac.
  remember (Str.map tab_to_space (before_comment g)) as bm.
  remember (Str.map tab_to_space c) as c'.
  clear Heqind Heqal Heqam Heqbc Heqac Heqbm.
  (* the operands *)
  assert (Tops : Str.empty o1 = false -> tight ops /\ ops <> EmptyString).
  { intros E1. apply empty_false in E1. unfold ops.
    destruct (Str.empty o2) eqn:E2.
    - split; [apply tight_trimmed; exact H1t | exact E1].
    - apply empty_false in E2. split.
      + pose proof (tight_app o1 (bc +:+ String comma ac) o2
                      (tight_trimmed o1 H1t) (tight_trimmed o2 H2t) E1 E2) as T.
        rewrite ?append_assoc in T. exact T.
      + destruct o1; [contradiction | discriminate]. }
  assert (Tm : tight m) by (apply tight_word; class).
  assert (Tmrest : tight (m +:+ rest) /\ m +:+ rest <> EmptyString).
  { split; [|destruct m; [contradiction | discriminate]].
    unfold rest. destruct (Str.empty o1) eqn:E1.
    - rewrite append_nil_r. exact Tm.
    - destruct (Tops eq_refl) as [To Hne].
      pose proof (tight_app m (" " +:+ am) ops Tm To Hmne Hne) as T.
      rewrite ?append_assoc in T. exact T. }
  assert (Tbody : tight body /\ body <> EmptyString).
  { unfold body, lp. destruct (Str.empty l) eqn:El.
    - exact Tmrest.
    - apply empty_false in El. destruct Tmrest as [T1 T2]. split.
      + assert (Tl : tight l) by (apply tight_word; class).
        pose proof (tight_app l (String colon al) (m +:+ rest) Tl T1 El T2) as T.
        rewrite ?append_assoc. rewrite ?append_assoc in T. exact T.
      + destruct l; [contradiction | discriminate]. }
  assert (Spost : all_chars isspace post = true).
  { unfold post. destruct (Str.empty o1); chars;
      apply spaces_class; (reflexivity || assumption). }
  assert (Nrest : forall P : ascii -> bool,
            P " "%char = true -> P comma = true ->
            forallb (fun c => implb (is_operand_char c) (P c)) all_ascii = true ->
            all_chars P rest = true).
  { intros P Hsp Hco HP. unfold rest, ops.
    assert (Q1 : all_chars P o1 = true) by (apply (all_chars_class _ _ _ HP H1)).
    assert (Q2 : all_chars P o2 = true) by (apply (all_chars_class _ _ _ HP H2)).
    destruct (Str.empty o1); [reflexivity|].
    destruct (Str.empty o2);
      repeat first
        [ reflexivity
        | assumption
        | apply spaces_class; [exact Hsp | assumption]
        | rewrite all_chars_app; apply andb_true_iff; split
        | cbn [all_chars]; apply andb_true_iff; split; [first [exact Hsp | exact Hco]|] ]. }
  assert (Ncore : forall P : ascii -> bool,
            P " "%char = true -> P comma = true -> P colon = true ->
            forallb (fun c => implb (is_operand_char c) (P c)) all_ascii = true ->
            forallb (fun c => implb (is_word_char c) (P c)) all_ascii = true ->
            all_chars P (lp +:+ m +:+ rest) = true).
  { intros P Hsp Hco Hcl HPo HPw.
    rewrite !all_chars_app, (Nrest P Hsp Hco HPo), (all_chars_class _ _ _ HPw Hm).
    rewrite andb_true_r. unfold lp. destruct (Str.empty l); [reflexivity|].
    rewrite all_chars_app, (all_chars_class _ _ _ HPw Hl). cbn [all_chars].
    rewrite Hcl. apply spaces_class; assumption. }
  assert (Hsp : forall s, all_chars (fun c => code c =? 32) s = true ->
                          all_chars isspace s = true).
  { intros s. apply spaces_class. reflexivity. }
  apply (parse_steps _ a (trim c') (ind +:+ body +:+ post) body l (m +:+ rest) m rest
           ops o1 o2).
  - (* the comment *)
    rewrite Hline, Etext.
    assert (Hcore : all_chars (fun d => negb (ch_eqb semicolon d))
                      (ind +:+ body +:+ post) = true).
    { rewrite !all_chars_app. unfold body.
      rewrite (Ncore _ eq_refl eq_refl eq_refl) by (vm_compute; reflexivity).
      rewrite (spaces_class _ ind eq_refl Sind).
      apply (all_chars_class isspace); [vm_compute; reflexivity | exact Spost]. }
    unfold cp. destruct (Str.empty c') eqn:Ec.
    + apply empty_true in Ec. rewrite Ec, append_nil_r.
      rewrite (find_char0_none _ _ Hcore). reflexivity.
    + rewrite (find_char0_here _ _ _ Hcore).
      unfold Str.substr_from, Str.substr. rewrite drop_app_cons.
      change (Str.drop 0 ?x) with x. rewrite take_app_length. reflexivity.
  - apply trim_pad; [exact (Hsp _ Sind) | exact Spost | exact (proj1 Tbody)].
  - apply empty_false. exact (proj2 Tbody).
  - (* no EQU *)
    rewrite Etext in Hequ. unfold to_lower in *.
    rewrite !append_assoc, !map_app, find_0 in Hequ. rewrite find_0.
    exact (find0_none_inside _ _ _ _ Hequ).
  - (* the label *)
    assert (Ncolon : all_chars (fun d => negb (ch_eqb colon d)) (m +:+ rest) = true).
    { rewrite all_chars_app.
      rewrite (Nrest (fun d => negb (ch_eqb colon d)) eq_refl eq_refl)
        by (vm_compute; reflexivity).
      rewrite andb_true_r. class. }
    unfold body, lp. destruct (Str.empty l) eqn:El.
    + apply empty_true in El. subst l.
      change (EmptyString +:+ m +:+ rest) with (m +:+ rest).
      change (chr 58) with colon.
      rewrite (find_char0_none _ _ Ncolon). reflexivity.
    + change (chr 58) with colon. rewrite append_assoc, append_cons.
      change (EmptyString +:+ al +:+ m +:+ rest) with (al +:+ m +:+ rest).
      rewrite find_char0_here by class.
      unfold Str.substr_from, Str.substr. rewrite drop_app_cons.
      change (Str.drop 0 ?x) with x. rewrite take_app_length.
      f_equal.
      * apply trim_fixed; apply tight_word; class.
      * rewrite <- (append_nil_r (m +:+ rest)) at 1. rewrite <- append_assoc.
        rewrite (append_assoc al). 
        apply trim_pad; [exact (Hsp _ Sal) | reflexivity | exact (proj1 Tmrest)].
  - (* the mnemonic *)
    apply read_word_word; [exact Hmne | class |].
    unfold rest. destruct (Str.empty o1); [exact I | reflexivity].
  - (* the operands *)
    unfold rest. destruct (Str.empty o1) eqn:E1.
    + unfold ops. rewrite (Ho2 eq_refl). apply empty_true in E1. subst o1. reflexivity.
    + rewrite getline_fixed.
      * destruct (Tops eq_refl) as [To _].
        replace (" " +:+ am +:+ ops) with ((" " +:+ am) +:+ ops +:+ EmptyString)
          by (rewrite append_nil_r, append_assoc; reflexivity).
        apply trim_pad; [|reflexivity | exact To].
        rewrite all_chars_app. rewrite (Hsp _ Sam). reflexivity.
      * pose proof (Nrest (fun c => negb (code c =? 10)) eq_refl eq_refl) as N.
        unfold rest in N. try rewrite E1 in N. apply N. vm_compute. reflexivity.
  - (* the comma *)
    unfold ops. destruct (Str.empty o2) eqn:E2.
    + apply empty_true in E2. subst o2.
      rewrite (comma_split_pos_none o1 0 H1p). reflexivity.
    + replace (o1 +:+ bc +:+ String comma ac +:+ o2)
        with ((o1 +:+ bc) +:+ String comma (ac +:+ o2))
        by (rewrite append_assoc; reflexivity).
      rewrite (comma_split_pos_here (o1 +:+ bc) (ac +:+ o2) 0).
      * cbn [Nat.add]. unfold Str.substr_from, Str.substr. rewrite drop_app_cons.
        change (Str.drop 0 ?x) with x. rewrite take_app_length.
        f_equal.
        -- change (o1 +:+ bc) with (EmptyString +:+ o1 +:+ bc).
           apply trim_pad; [reflexivity | exact (Hsp _ Sbc) | apply tight_trimmed; exact H1t].
        -- replace (ac +:+ o2) with (ac +:+ o2 +:+ EmptyString)
             by (rewrite append_nil_r; reflexivity).
           apply trim_pad; [exact (Hsp _ Sac) | reflexivity | apply tight_trimmed; exact H2t].
      * rewrite all_chars_app, H1p. apply spaces_class; [reflexivity | exact Sbc].
  - apply empty_false. exact Hmne.
Qed.

Lemma parse_reads_a_statement_back_witness :
  parse (statement_text
           {| indent := String (chr 9) EmptyString; after_label := " ";
              after_mnemonic := String (chr 9) EmptyString; before_comma := EmptyString;
              after_comma := " "; before_comment := "   " |}
           "Loop" "MVI" "A" "Count + 1" " next value ")
    new_Assembler
  = Ok (tt, set_parsed (to_lower "Loop") (to_lower "MVI") "A" "Count + 1"
              (trim (Str.map tab_to_space " next value ")) new_Assembler).
Proof.
  apply parse_reads_a_statement_back; try reflexivity; discriminate.
Defined.

(** ** Lines with [EQU] *)

Lemma find0_here (p x y : string) (a : ascii) (q : string) :
  p = String a q ->
  all_chars (fun d => negb (ch_eqb a d)) x = true ->
  Str.find0 p (x +:+ p +:+ y) = Some (String.length x).
Proof.
  intros -> Hx. induction x as [|c x IH].
  - change (EmptyString +:+ String a q +:+ y) with (String a q +:+ y).
    rewrite append_cons, find0_cons, <- append_cons.
    rewrite (starts_with_prefix (String a q) (String a q) y); [reflexivity|].
    clear. generalize (String a q). intros s.
    induction s as [|c s IH]; [reflexivity|].
    cbn. unfold ch_eqb at 1. rewrite Z.eqb_refl. exact IH.
  - cbn in Hx. apply andb_true_iff in Hx as [Hc Hx]. apply negb_true_iff in Hc.
    rewrite append_cons, find0_cons. cbn [Str.starts_with]. rewrite Hc. cbn [andb].
    rewrite (IH Hx). reflexivity.
Qed.

(** X27: a line that holds the word [EQU] between two blanks is an [EQU]
    line, whatever else it holds: the label is all that stands before
    the word, in lower case, a colon at its end included, and the
    operand is all that stands after it. *)
Theorem an_equ_line_is_cut_at_the_word
    (name word value : string) (a : Assembler) :
  name <> EmptyString ->
  all_chars (fun c => negb (isspace c) && negb (ch_eqb c semicolon)) name = true ->
  to_lower word = "equ" ->
  value <> EmptyString -> trim value = value ->
  all_chars is_operand_char value = true ->
  parse (name +:+ " " +:+ word +:+ " " +:+ value) a
  = Ok (tt, set_parsed (to_lower name) "equ" value EmptyString EmptyString a).
Proof.
  intros Hne Hn Hw Hve Hvt Hv.
  assert (Hword : all_chars is_word_char word = true /\ String.length word = 3%nat).
  { destruct word as [|c1 [|c2 [|c3 [|c4 w]]]]; try discriminate.
    cbn in Hw. injection Hw as E1 E2 E3. split; [|reflexivity].
    cbn [all_chars]. rewrite andb_true_r.
    assert (F : forall c d, tolower c = d -> is_word_char d = true -> is_word_char c = true).
    { intros c d <-. destruct c as [[] [] [] [] [] [] [] []]; vm_compute; congruence. }
    rewrite (F c1 _ E1 eq_refl), (F c2 _ E2 eq_refl), (F c3 _ E3 eq_refl). reflexivity. }
  destruct Hword as [Hword Hlen].
  pose (line := name +:+ " " +:+ word +:+ " " +:+ value).
  assert (Eline : Str.map tab_to_space line = line).
  { apply map_fixed. unfold line. chars. }
  assert (Esemi : Str.find_char0 semicolon line = None).
  { apply find_char0_none. unfold line. chars. }
  assert (Etrim : trim line = line).
  { unfold line.
    pose proof (tight_app name (" " +:+ word +:+ " ") value) as T.
    rewrite ?append_assoc in T. apply trim_fixed; apply T;
      try assumption; try (apply tight_trimmed; exact Hvt); apply tight_word; class. }
  assert (Efind : Str.find " equ " 0 (to_lower line) = Some (String.length name)).
  { rewrite find_0. unfold line, to_lower. rewrite !map_app.
    fold (to_lower word). rewrite Hw.
    change (Str.map tolower " " +:+ "equ" +:+ Str.map tolower " " +:+ Str.map tolower value)
      with (" equ " +:+ Str.map tolower value).
    rewrite <- (length_map tolower name).
    apply (find0_here " equ " _ _ " "%char "equ "); [reflexivity|].
    assert (Hs : all_chars not_space name = true) by class.
    clear -Hs. induction name as [|c name IH]; [reflexivity|].
    cbn in Hs |- *. apply andb_true_iff in Hs as [Hc Hs]. rewrite (IH Hs), andb_true_r.
    revert Hc. destruct c as [[] [] [] [] [] [] [] []]; vm_compute; congruence. }
  change (parse line a = Ok (tt, set_parsed (to_lower name) "equ" value "" "" a)).
  unfold parse. cbv zeta. rewrite Eline, Esemi, Etrim.
  assert (El : Str.empty line = false).
  { apply empty_false. unfold line. destruct name; [contradiction | discriminate]. }
  rewrite El, Efind. unfold Str.substr, Str.substr_from.
  change (Str.drop 0 ?x) with x. unfold line at 1 2.
  rewrite take_app_length.
  replace (String.length name + 5)%nat
    with (String.length (name +:+ " " +:+ word +:+ " "))
    by (rewrite !length_append, Hlen; cbn [String.length]; lia).
  replace (name +:+ " " +:+ word +:+ " " +:+ value)
    with ((name +:+ " " +:+ word +:+ " ") +:+ value)
    by (rewrite !append_assoc; reflexivity).
  rewrite drop_app_length, Hvt.
  rewrite trim_fixed by (apply tight_word; class). reflexivity.
Qed.

Lemma an_equ_line_is_cut_at_the_word_witness :
  parse ("Size:" +:+ " " +:+ "Equ" +:+ " " +:+ "2 * 8") new_Assembler
  = Ok (tt, set_parsed (to_lower "Size:") "equ" "2 * 8" EmptyString EmptyString
              new_Assembler).
Proof.
  apply an_equ_line_is_cut_at_the_word; try reflexivity; discriminate.
Defined.

(** ** The passes over a macro definition *)

Lemma set_lineno_twice (i j : Z) (a : Assembler) : set_lineno j (set_lineno i a) = set_lineno j a.
Proof. reflexivity. Qed.

Lemma do_pass_loop_lineno (depth : nat) (lines : list string) (i j : Z) (m : bool)
    (a : Assembler) :
  do_pass_loop depth lines i m (set_lineno j a) = do_pass_loop depth lines i m a.
Proof. destruct lines; cbn [do_pass_loop]; unfold bind, modify; reflexivity. Qed.

Lemma do_pass_loop_inside (depth : nat) (l : string) (lines : list string) (i : Z)
    (a : Assembler) :
  assembly_finished a = false -> inside_line l ->
  do_pass_loop depth (l :: lines) i true a = do_pass_loop depth lines (i + 1) true a.
Proof.
  intros Hf (H2 & He & Hm). unfold first_word, second_word in *.
  cbn [do_pass_loop]. unfold bind at 1, modify at 1. unfold bind at 1, get at 1.
  cbn [assembly_finished set_lineno]. rewrite Hf.
  destruct (Str.empty (trim l)); [apply do_pass_loop_lineno|].
  destruct (Str.read_word (trim l)) as [w1 ss1]. cbn [fst snd] in *.
  destruct (Str.read_word ss1) as [w2 ss2]. cbn [fst snd] in *.
  rewrite (eqb_false _ _ H2), (eqb_false _ _ He), (eqb_false _ _ Hm). cbn [orb].
  apply do_pass_loop_lineno.
Qed.

Lemma do_pass_loop_body (depth : nat) (body lines : list string) (i : Z) (a : Assembler) :
  assembly_finished a = false -> Forall inside_line body ->
  do_pass_loop depth (body ++ lines) i true a
  = do_pass_loop depth lines (i + Z.of_nat (length body)) true a.
Proof.
  intros Hf H. revert i. induction H as [|l body Hl _ IH]; intros i.
  - cbn [app length]. rewrite Z.add_0_r. reflexivity.
  - cbn [app]. rewrite (do_pass_loop_inside depth l _ i a Hf Hl), IH.
    cbn [length]. f_equal. lia.
Qed.

(** X28: the passes leave a macro definition out: the lines from the one
    with [MACRO] as its second word to the closing [ENDM] or [MEND]
    are passed over, whatever they hold, and the pass goes on after
    them with the state it had before them. *)
Theorem the_passes_skip_a_macro_definition
    (depth : nat) (header closing : string) (body rest : list string) (i : Z)
    (a : Assembler) :
  assembly_finished a = false ->
  second_word header = "macro" ->
  first_word header <> "endm" -> first_word header <> "mend" ->
  Forall inside_line body -> closes_macro closing ->
  do_pass_loop depth (header :: body ++ closing :: rest) i false a
  = do_pass_loop depth rest (i + Z.of_nat (length body) + 2) false a.
Proof.
  intros Hf Hh He Hm Hb (Hc2 & Hc).
  assert (Hhead : do_pass_loop depth (header :: body ++ closing :: rest) i false a
                  = do_pass_loop depth (body ++ closing :: rest) (i + 1) true a).
  { unfold first_word, second_word in Hh, He, Hm.
    cbn [do_pass_loop]. unfold bind at 1, modify at 1. unfold bind at 1, get at 1.
    cbn [assembly_finished set_lineno]. rewrite Hf.
    destruct (Str.empty (trim header)) eqn:Ee.
    { exfalso. apply empty_true in Ee. rewrite Ee in Hh. discriminate. }
    destruct (Str.read_word (trim header)) as [w1 ss1]. cbn [fst snd] in *.
    destruct (Str.read_word ss1) as [w2 ss2]. cbn [fst snd] in *.
    rewrite (eqb_true _ _ Hh), (eqb_false _ _ He), (eqb_false _ _ Hm). cbn [orb].
    apply do_pass_loop_lineno. }
  rewrite Hhead, (do_pass_loop_body depth body _ _ a Hf Hb).
  unfold first_word, second_word in Hc2, Hc.
  cbn [do_pass_loop]. unfold bind at 1, modify at 1. unfold bind at 1, get at 1.
  cbn [assembly_finished set_lineno]. rewrite Hf.
  destruct (Str.empty (trim closing)) eqn:Ee.
  { exfalso. apply empty_true in Ee. rewrite Ee in Hc. destruct Hc; discriminate. }
  destruct (Str.read_word (trim closing)) as [w1 ss1]. cbn [fst snd] in *.
  destruct (Str.read_word ss1) as [w2 ss2]. cbn [fst snd] in *.
  rewrite (eqb_false _ _ Hc2).
  replace (Str.eqb (to_lower w1) "endm" || Str.eqb (to_lower w1) "mend") with true
    by (destruct Hc as [-> | ->]; reflexivity).
  rewrite do_pass_loop_lineno. f_equal. lia.
Qed.

Lemma the_passes_skip_a_macro_definition_witness :
  do_pass_loop 1 ("Delay MACRO count" :: [" MVI B,count"; " FROB"] ++ " ENDM" :: [" NOP"])
    0 false (set_source_pass 2 new_Assembler)
  = do_pass_loop 1 [" NOP"] (0 + Z.of_nat (length [" MVI B,count"; " FROB"]) + 2) false
      (set_source_pass 2 new_Assembler).
Proof.
  apply the_passes_skip_a_macro_definition.
  - reflexivity.
  - reflexivity.
  - vm_compute. discriminate.
  - vm_compute. discriminate.
  - repeat constructor; vm_compute; discriminate.
  - split; [vm_compute; discriminate | left; reflexivity].
Defined.

(** * The values stay in the ranges of their types *)

#[global] Instance stays_in_range_step : StepRel stays_in_range.
Proof. split; [intros a H; exact H | intros a b c H1 H2 H; exact (H2 (H1 H))]. Qed.

Lemma ranged_same (a a' : Assembler) :
  address a' = address a -> symbol_table a' = symbol_table a -> output a' = output a ->
  stays_in_range a a'.
Proof.
  intros Ha Hs Ho [H1 H2 H3]. split.
  - rewrite Ha. exact H1.
  - rewrite Hs. exact H2.
  - rewrite Ho. exact H3.
Qed.

Lemma ranged_setter (f : Assembler -> Assembler) :
  (forall a, address (f a) = address a) ->
  (forall a, symbol_table (f a) = symbol_table a) ->
  (forall a, output (f a) = output a) ->
  keeps stays_in_range (modify f).
Proof. intros. apply steps_modify. intros a. apply ranged_same; auto. Qed.

Lemma ranged_looked_up {A} (m : M A) : keeps looked_up m -> keeps stays_in_range m.
Proof.
  intros H a x a' E. destruct (H a x a' E) as (refs & -> & _).
  apply ranged_same; reflexivity.
Qed.

Lemma to_uint8_byte (v : Z) : is_byte (to_uint8 v).
Proof.
  unfold is_byte, to_uint8, wrap. cbn [andb].
  pose proof (Z.mod_pos_bound v (2 ^ 8) ltac:(lia)). change (2 ^ 8) with 256 in *. lia.
Qed.

Lemma to_uint16_word (v : Z) : is_word (to_uint16 v).
Proof.
  unfold is_word, to_uint16, wrap. cbn [andb].
  pose proof (Z.mod_pos_bound v (2 ^ 16) ltac:(lia)). change (2 ^ 16) with 65536 in *. lia.
Qed.

Lemma land_byte (v : Z) : is_byte (Z.land v 255).
Proof.
  unfold is_byte. change 255 with (Z.ones 8). rewrite Z.land_ones by lia.
  pose proof (Z.mod_pos_bound v (2 ^ 8) ltac:(lia)). change (2 ^ 8) with 256 in *. lia.
Qed.

Lemma code_byte (c : ascii) : is_byte (code c).
Proof. destruct c as [[] [] [] [] [] [] [] []]; vm_compute; split; congruence. Qed.

Lemma ranged_append (bytes : list Z) :
  Forall is_byte bytes ->
  keeps stays_in_range (modify (fun a => set_output (output a ++ bytes) a)).
Proof.
  intros Hb. apply steps_modify. intros a [H1 H2 H3]. split; cbn.
  - exact H1.
  - exact H2.
  - apply Forall_app. split; assumption.
Qed.

Lemma ranged_push_back (b : Z) : is_byte b -> keeps stays_in_range (push_back b).
Proof. intros Hb. apply ranged_append. constructor; [exact Hb | constructor]. Qed.

Lemma ranged_string_bytes (s : string) :
  keeps stays_in_range (for_each push_back (Mnemonic.string_bytes s)).
Proof.
  intros a x a' E. rewrite for_each_push_back in E. injection E as _ <-.
  intros [H1 H2 H3]. split; cbn; [exact H1 | exact H2 |].
  apply Forall_app. split; [exact H3|].
  unfold Mnemonic.string_bytes. apply Forall_map.
  apply Forall_forall. intros c _. apply code_byte.
Qed.

Lemma ranged_set_address (v : Z) :
  keeps stays_in_range (modify (fun a => set_address (to_uint16 v) a)).
Proof.
  apply steps_modify. intros a [H1 H2 H3]. split; cbn;
    [apply to_uint16_word | exact H2 | exact H3].
Qed.

Lemma ranged_add_label : keeps stays_in_range add_label.
Proof.
  intros a x a' E. apply add_label_ok in E as [_ ->].
  intros [H1 H2 H3]. split; cbn; [exact H1 | | exact H3].
  intros k v. destruct (decide (k = label a)) as [->|Hk].
  - rewrite lookup_insert_eq. intros E. injection E as <-. exact H1.
  - rewrite lookup_insert_ne by congruence. apply H2.
Qed.

Lemma ranged_pass_action (n : Z) (bytes : list Z) (flag : bool) :
  Forall is_byte bytes -> keeps stays_in_range (pass_action n bytes flag).
Proof.
  intros Hb. unfold pass_action.
  apply steps_bind; [apply steps_get | intros a].
  apply steps_bind; [|intros _].
  - destruct (source_pass a =? 1).
    + apply steps_when. apply ranged_add_label.
    + apply ranged_append. exact Hb.
  - apply steps_modify. intros b [H1 H2 H3]. split; cbn;
      [apply to_uint16_word | exact H2 | exact H3].
Qed.

Ltac a_byte :=
  first [ apply to_uint8_byte | apply land_byte | apply code_byte
        | unfold is_byte; lia ].

Ltac byte_list := repeat (apply Forall_cons_2; [a_byte|]); apply Forall_nil_2.

Ltac ranged_leaf :=
  first [ apply ranged_pass_action; byte_list
        | apply ranged_string_bytes
        | apply ranged_push_back; a_byte
        | apply ranged_looked_up;
          first [ apply looks_up_evaluate_expression | apply looks_up_check_operands
                | apply looks_up_register_offset8 | apply looks_up_register_offset16
                | apply looks_up_get_number | apply looks_up_evaluate_conditional ]
        | apply ranged_setter; reflexivity ].

Ltac ranged_walk leaf :=
  repeat (cbv zeta;
    lazymatch goal with
    | |- keeps _ (for_each push_back (Mnemonic.string_bytes _)) =>
        apply ranged_string_bytes
    | |- keeps _ (bind _ _) => apply steps_bind; [| intros ?]
    | |- keeps _ (pure _) => apply steps_pure
    | |- keeps _ (fail _) => apply steps_fail
    | |- keeps _ (report_error _ _) => apply steps_fail
    | |- keeps _ get => apply steps_get
    | |- keeps _ (when _ _) => apply steps_when
    | |- keeps _ (for_each _ _) => apply steps_for_each; intros ?
    | |- keeps _ (if ?b then _ else _) => destruct b
    | |- keeps _ (match ?x with _ => _ end) => destruct x
    | |- keeps _ _ => leaf
    end).

Lemma ranged_immediate_operand (t : ImmediateType) :
  keeps stays_in_range (immediate_operand t).
Proof. unfold immediate_operand. ranged_walk ranged_leaf. Qed.

Lemma ranged_address16 (operand : string) : keeps stays_in_range (address16 operand).
Proof. unfold address16. ranged_walk ranged_leaf. Qed.

Lemma ranged_flagged_loop {A} (body : bool -> A -> M unit) (flag : bool) (l : list A) :
  (forall f x, keeps stays_in_range (body f x)) ->
  keeps stays_in_range (Mnemonic.flagged_loop body flag l).
Proof.
  intros Hb. revert flag. induction l as [|x l IH]; intros flag; cbn.
  - apply steps_pure.
  - apply steps_bind; [apply Hb | intros _; apply IH].
Qed.

Lemma ranged_db_byte (flag : bool) (s : string) :
  keeps stays_in_range (Mnemonic.db_byte flag s).
Proof. unfold Mnemonic.db_byte. ranged_walk ranged_leaf. Qed.

Lemma ranged_db_argument (flag : bool) (arg : string) :
  keeps stays_in_range (Mnemonic.db_argument flag arg).
Proof.
  unfold Mnemonic.db_argument.
  ranged_walk ltac:(first [ apply ranged_flagged_loop; apply ranged_db_byte
                          | ranged_leaf ]).
Qed.

Lemma ranged_db : keeps stays_in_range Mnemonic.db.
Proof.
  unfold Mnemonic.db.
  ranged_walk ltac:(first [ apply ranged_flagged_loop; apply ranged_db_argument
                          | ranged_leaf ]).
Qed.

Lemma ranged_dw : keeps stays_in_range Mnemonic.dw.
Proof.
  unfold Mnemonic.dw. ranged_walk ltac:(first [apply ranged_address16 | ranged_leaf]).
Qed.

Lemma ranged_ds : keeps stays_in_range Mnemonic.ds.
Proof.
  unfold Mnemonic.ds.
  apply steps_bind; [apply steps_get | intros a].
  apply steps_bind; [ranged_leaf | intros _].
  apply steps_bind; [ranged_leaf | intros size].
  apply steps_bind; [destruct (size <? 0); [apply steps_fail | apply steps_pure] | intros _].
  intros b x b' E. apply bind_ok in E as (fill & c & Ef & E).
  assert (Hf : is_byte fill /\ stays_in_range b c).
  { destruct (negb (Str.empty (operand2 a))).
    - apply bind_ok in Ef as (v & c' & Ev & Ef). injection Ef as <- <-.
      split; [apply to_uint8_byte|].
      exact (ranged_looked_up _ (looks_up_evaluate_expression _) _ _ _ Ev).
    - injection Ef as <- <-. split; [unfold is_byte; lia | apply step_refl]. }
  destruct Hf as [Hf Hbc].
  eapply step_trans; [exact Hbc|]. revert E. generalize c x b'.
  change (keeps stays_in_range
            (when (source_pass a =? 2)
               (modify (fun a0 => set_output
                          (output a0 ++ repeat fill (Z.to_nat size)) a0)) ;;
             pass_action size [] true)).
  apply steps_bind; [apply steps_when | intros _; apply ranged_pass_action; constructor].
  apply ranged_append. apply List.Forall_forall. intros z Hz.
  apply repeat_spec in Hz. subst z. exact Hf.
Qed.

Lemma ranged_equ : keeps stays_in_range Mnemonic.equ.
Proof.
  unfold Mnemonic.equ.
  ranged_walk ltac:(first
    [ ranged_leaf
    | apply steps_modify; intros b [H1 H2 H3]; split; cbn; [exact H1 | | exact H3];
      intros k w; destruct (decide (k = label b)) as [->|Hk];
      [ rewrite lookup_insert_eq; intros E; injection E as <-; apply to_uint16_word
      | rewrite lookup_insert_ne by congruence; apply H2 ] ]).
Qed.

Lemma ranged_org : keeps stays_in_range Mnemonic.org.
Proof.
  unfold Mnemonic.org.
  ranged_walk ltac:(first
    [ ranged_leaf
    | apply steps_modify; intros b [H1 H2 H3]; split; cbn;
      [apply to_uint16_word | exact H2 | exact H3]
    | apply steps_modify; intros b [H1 H2 H3];
      destruct (address b <? to_uint16 _); [|split; assumption];
      split; cbn; [exact H1 | exact H2 |];
      apply Forall_app; split; [exact H3|];
      apply List.Forall_forall; intros z Hz; apply repeat_spec in Hz; subst z;
      unfold is_byte; lia ]).
Qed.

Ltac ranged_handler :=
  cbn [snd fst];
  first [ exact ranged_db | exact ranged_dw | exact ranged_ds | exact ranged_equ
        | exact ranged_org
        | match goal with |- keeps _ ?h => unfold h end;
          solve [ranged_walk ltac:(first [ apply ranged_immediate_operand
                                         | apply ranged_address16 | ranged_leaf ])] ].

Lemma handlers_stay_in_range :
  Forall (fun entry => keeps stays_in_range (snd entry)) mnemonic_handlers.
Proof.
  unfold mnemonic_handlers. repeat (constructor; [ranged_handler|]). constructor.
Qed.

Lemma ranged_parse (line : string) : keeps stays_in_range (parse line).
Proof. unfold parse. ranged_walk ranged_leaf. Qed.

Lemma ranged_process_instruction : keeps stays_in_range process_instruction.
Proof.
  unfold process_instruction.
  apply steps_bind; [apply steps_get | intros a].
  destruct (Str.empty (mnemonic a) && Str.empty (label a)); [apply steps_pure|].
  destruct (lookup_handler mnemonic_handlers (mnemonic a)) as [h|] eqn:Hh.
  - eapply (lookup_handler_Forall (keeps stays_in_range));
      [apply handlers_stay_in_range | exact Hh].
  - ranged_walk ranged_leaf.
Qed.

Lemma ranged_expand_and_process_line (depth : nat) (line : string) (n : Z) :
  keeps stays_in_range (expand_and_process_line depth line n).
Proof.
  revert line. induction depth as [|depth IH]; intros line; cbn.
  - apply steps_fail.
  - ranged_walk ltac:(first [ apply steps_substitute_all | apply IH | apply ranged_parse
                            | apply ranged_process_instruction | ranged_leaf ]).
Qed.

Lemma ranged_do_pass_loop (depth : nat) (lines : list string) (i : Z) (in_macro_def : bool) :
  keeps stays_in_range (do_pass_loop depth lines i in_macro_def).
Proof.
  revert i in_macro_def. induction lines as [|l lines IH]; intros i in_macro_def; cbn.
  - ranged_walk ranged_leaf.
  - ranged_walk ltac:(first [ apply IH | apply ranged_expand_and_process_line
                            | ranged_leaf ]).
Qed.

Lemma ranged_do_pass (depth : nat) (lines : list string) :
  keeps stays_in_range (do_pass depth lines).
Proof.
  unfold do_pass. ranged_walk ltac:(first [apply ranged_do_pass_loop | ranged_leaf]).
Qed.

Lemma ranged_preprocess_macros (lines : list string) :
  keeps stays_in_range (preprocess_macros lines).
Proof.
  intros a x a' E. apply only_macros_preprocess_macros in E. rewrite E.
  apply ranged_same; reflexivity.
Qed.

Lemma in_range_reset (a : Assembler) : in_range (reset_state a).
Proof.
  split; cbn.
  - unfold is_word. lia.
  - intros k v E. rewrite lookup_empty in E. discriminate.
  - constructor.
Qed.

(** X29: whatever the assembler held before, an assembly that returns leaves
    every value in the range of its type: the location counter and the
    value of every symbol are unsigned 16-bit numbers, and the output
    buffer holds bytes. *)
Theorem an_assembly_leaves_words_and_bytes
    (depth : nat) (lines : list string) (a a' : Assembler) :
  assemble depth lines a = Ok (tt, a') ->
  0 <= address a' < 65536
  /\ (forall symbol value, symbol_table a' !! symbol = Some value -> 0 <= value < 65536)
  /\ Forall (fun b => 0 <= b < 256) (output a').
Proof.
  intros E. unfold assemble in E.
  apply bind_ok in E as (u0 & b0 & E0 & E). injection E0 as _ <-.
  assert (H : keeps stays_in_range
                (preprocess_macros lines ;;
                 modify (set_source_pass 1) ;;
                 do_pass depth lines ;;
                 modify (set_source_pass 2) ;;
                 modify (set_address 0) ;;
                 modify (set_output []) ;;
                 modify (set_assembly_finished false) ;;
                 modify (set_macro_expansion_counter 0) ;;
                 do_pass depth lines)).
  { ranged_walk ltac:(first
      [ apply ranged_preprocess_macros | apply ranged_do_pass
      | ranged_leaf
      | apply steps_modify; intros b [H1 H2 H3]; split; cbn;
        first [ exact H1 | exact H2 | exact H3 | apply Forall_nil_2
              | unfold is_word; lia ] ]). }
  destruct (H _ _ _ E (in_range_reset a)) as [H1 H2 H3].
  split; [exact H1 | split; [exact H2 | exact H3]].
Qed.

Lemma an_assembly_leaves_words_and_bytes_witness :
  0 <= address (state_after (assemble 1 ["X EQU -1"; "L: DB 300, X"]) new_Assembler)
     < 65536
  /\ (forall symbol value,
        symbol_table (state_after (assemble 1 ["X EQU -1"; "L: DB 300, X"]) new_Assembler)
          !! symbol = Some value -> 0 <= value < 65536)
  /\ Forall (fun b => 0 <= b < 256)
       (output (state_after (assemble 1 ["X EQU -1"; "L: DB 300, X"]) new_Assembler)).
Proof.
  apply (an_assembly_leaves_words_and_bytes 1 ["X EQU -1"; "L: DB 300, X"] new_Assembler).
  vm_compute. reflexivity.
Defined.

(** * An assembly depends on the source lines only *)

Ltac state_fields :=
  cbn [forget lineno address source_pass assembly_finished macro_expansion_counter
       output symbol_table macros if_stack cross_reference_data
       label mnemonic operand1 operand2 comment
       set_lineno set_address set_source_pass set_assembly_finished
       set_macro_expansion_counter set_output set_symbol_table set_macros
       set_if_stack set_cross_reference_data set_parsed record_reference reset_state] in *.

(** States that are alike give the same continuation. *)
Ltac indep :=
  let H := fresh "H" in
  intros [? ? ? ? ? ? ? ? ? ? ? ? ? ? ?] [? ? ? ? ? ? ? ? ? ? ? ? ? ? ?] ? H;
  unfold alike in H; state_fields; injection H; intros; subst; reflexivity.

(** A field update keeps alike states alike. *)
Ltac alike_step :=
  let H := fresh "H" in
  intros [? ? ? ? ? ? ? ? ? ? ? ? ? ? ?] [? ? ? ? ? ? ? ? ? ? ? ? ? ? ?] H;
  unfold alike in *; state_fields; injection H; intros; subst;
  repeat match goal with
         | |- context [if ?c then _ else _] => destruct c
         end;
  reflexivity.

Lemma alike_refl (v : view) (a : Assembler) : alike v a a.
Proof. reflexivity. Qed.

Lemma alike_weaken (v1 v2 : view) (a b : Assembler) :
  match v1, v2 with
  | Fields, _ | Lines, Lines | Lines, Start | Start, Start => True
  | _, _ => False
  end ->
  alike v1 a b -> alike v2 a b.
Proof.
  destruct a, b, v1, v2; intros Hv H; try contradiction;
    unfold alike in *; state_fields; injection H; intros; subst; reflexivity.
Qed.

Section Respects.
Context {v : view}.

Lemma respects_pure {A} (x : A) : respects v (pure x).
Proof. intros a b H. split; [reflexivity | exact H]. Qed.

Lemma respects_fail {A} (e : failure) : respects v (@fail A e).
Proof. intros a b H. reflexivity. Qed.

Lemma respects_when (c : bool) (m : M unit) : respects v m -> respects v (when c m).
Proof. destruct c; [trivial | intros _; apply respects_pure]. Qed.

End Respects.

Lemma respects_bind {A B} (v1 v2 v3 : view) (m : M A) (k : A -> M B) :
  respects_to v1 v2 m -> (forall x, respects_to v2 v3 (k x)) ->
  respects_to v1 v3 (bind m k).
Proof.
  intros Hm Hk a b H. specialize (Hm a b H). unfold bind.
  destruct (m a) as [[x a']|e], (m b) as [[y b']|f]; cbn in Hm; try contradiction.
  - destruct Hm as [<- Hab]. exact (Hk x a' b' Hab).
  - exact Hm.
Qed.

Lemma respects_get_bind {B} (v1 v2 : view) (k : Assembler -> M B) :
  (forall s, respects_to v1 v2 (k s)) ->
  (forall s1 s2 c, alike v1 s1 s2 -> k s1 c = k s2 c) ->
  respects_to v1 v2 (bind get k).
Proof.
  intros Hk Hi a b H. unfold bind, get.
  rewrite (Hi a b a H). exact (Hk b a b H).
Qed.

Lemma respects_modify (v1 v2 : view) (f : Assembler -> Assembler) :
  (forall a b, alike v1 a b -> alike v2 (f a) (f b)) -> respects_to v1 v2 (modify f).
Proof. intros Hf a b H. split; [reflexivity | exact (Hf a b H)]. Qed.

Lemma respects_for_each {A} (v : view) (f : A -> M unit) (l : list A) :
  (forall x, respects v (f x)) -> respects v (for_each f l).
Proof.
  intros Hf. induction l as [|x l IH]; [apply respects_pure|].
  apply (respects_bind v v v); [apply Hf | intros _; exact IH].
Qed.

Lemma respects_weaken {A} (v1 v2 v1' v2' : view) (m : M A) :
  (forall a b, alike v1' a b -> alike v1 a b) ->
  (forall a b, alike v2 a b -> alike v2' a b) ->
  respects_to v1 v2 m -> respects_to v1' v2' m.
Proof.
  intros H1 H2 Hm a b H. specialize (Hm a b (H1 a b H)).
  destruct (m a) as [[x a']|e], (m b) as [[y b']|f]; cbn in *; try contradiction.
  - destruct Hm as [E Hab]. split; [exact E | exact (H2 _ _ Hab)].
  - exact Hm.
Qed.

(** Follows a member function through its calls, at one view; [pre]
    goes first, [leaf] takes what is left. *)
Ltac respects_walk_with pre leaf :=
  repeat (cbv zeta;
    first
      [ pre
      | lazymatch goal with
        | |- respects_to ?v ?v (bind get _) => apply respects_get_bind; [intros ? | indep]
        | |- respects ?v (bind get _) => apply respects_get_bind; [intros ? | indep]
        | |- respects_to ?v ?v (bind _ _) => apply (respects_bind v v v); [| intros ?]
        | |- respects ?v (bind _ _) => apply (respects_bind v v v); [| intros ?]
        | |- respects_to _ _ (pure _) => apply respects_pure
        | |- respects _ (pure _) => apply respects_pure
        | |- respects_to _ _ (fail _) => apply respects_fail
        | |- respects _ (fail _) => apply respects_fail
        | |- respects_to _ _ (report_error _ _) => apply respects_fail
        | |- respects _ (report_error _ _) => apply respects_fail
        | |- respects_to _ _ (when _ _) => apply respects_when
        | |- respects _ (when _ _) => apply respects_when
        | |- respects_to _ _ (for_each _ _) => apply respects_for_each; intros ?
        | |- respects _ (for_each _ _) => apply respects_for_each; intros ?
        | |- respects_to _ _ (modify _) => apply respects_modify; alike_step
        | |- respects _ (modify _) => apply respects_modify; alike_step
        | |- respects_to _ _ (if ?b then _ else _) => destruct b
        | |- respects _ (if ?b then _ else _) => destruct b
        | |- respects_to _ _ (match ?x with _ => _ end) => destruct x
        | |- respects _ (match ?x with _ => _ end) => destruct x
        | |- _ => leaf
        end ]).

Ltac respects_walk leaf := respects_walk_with ltac:(idtac; fail) leaf.

Lemma respects_get_number (v : view) (input : string) : respects v (get_number input).
Proof. destruct v; unfold get_number; respects_walk ltac:(fail). Qed.

Lemma respects_evaluate_single_term (v : view) (term_str : string) :
  respects v (evaluate_single_term term_str).
Proof.
  destruct v; unfold evaluate_single_term;
    respects_walk ltac:(apply respects_get_number).
Qed.

Lemma respects_int_div (v : view) (x y : Z) : respects v (int_div x y).
Proof. unfold int_div. respects_walk ltac:(fail). Qed.

Section RespectsDescent.
Context (v : view) (rec : string -> M (Z * string)).
Hypothesis respects_rec : forall it, respects v (rec it).

Lemma respects_parse_expr_factor (it : string) : respects v (parse_expr_factor rec it).
Proof.
  destruct v; unfold parse_expr_factor;
    respects_walk ltac:(first [apply respects_rec | apply respects_evaluate_single_term]).
Qed.

Lemma respects_parse_expr_term_loop (turns : nat) (result : Z) (it : string) :
  respects v (parse_expr_term_loop rec turns result it).
Proof.
  revert result it. induction turns as [|turns IH]; intros result it; cbn.
  - apply respects_fail.
  - respects_walk ltac:(first [ apply IH | apply respects_parse_expr_factor
                              | apply respects_int_div ]).
Qed.

Lemma respects_parse_expr_term (it : string) : respects v (parse_expr_term rec it).
Proof.
  unfold parse_expr_term.
  respects_walk ltac:(first [ apply respects_parse_expr_term_loop
                            | apply respects_parse_expr_factor ]).
Qed.

Lemma respects_evaluate_expression_loop (turns : nat) (result : Z) (it : string) :
  respects v (evaluate_expression_loop rec turns result it).
Proof.
  revert result it. induction turns as [|turns IH]; intros result it; cbn.
  - apply respects_fail.
  - respects_walk ltac:(first [apply IH | apply respects_parse_expr_term]).
Qed.

Lemma respects_evaluate_expression_body (it : string) :
  respects v (evaluate_expression_body rec it).
Proof.
  unfold evaluate_expression_body.
  respects_walk ltac:(first [ apply respects_evaluate_expression_loop
                            | apply respects_parse_expr_term ]).
Qed.

End RespectsDescent.

Lemma respects_evaluate_expression_it (v : view) (depth : nat) (it : string) :
  respects v (evaluate_expression_it depth it).
Proof.
  revert it. induction depth as [|depth IH]; intros it; cbn.
  - apply respects_fail.
  - apply respects_evaluate_expression_body. exact IH.
Qed.

Lemma respects_evaluate_expression (v : view) (expr : string) :
  respects v (evaluate_expression expr).
Proof.
  unfold evaluate_expression.
  respects_walk ltac:(apply respects_evaluate_expression_it).
Qed.

Lemma respects_evaluate_conditional (v : view) (expr : string) :
  respects v (evaluate_conditional expr).
Proof.
  unfold evaluate_conditional.
  respects_walk ltac:(apply respects_evaluate_expression).
Qed.

Lemma respects_check_operands (v : view) (valid : bool) (n : string) :
  respects v (check_operands valid n).
Proof. destruct v; unfold check_operands; respects_walk ltac:(fail). Qed.

Lemma respects_register_offset8 (v : view) (r : string) : respects v (register_offset8 r).
Proof. destruct v; unfold register_offset8; respects_walk ltac:(fail). Qed.

Lemma respects_register_offset16 : respects Fields register_offset16.
Proof. unfold register_offset16. respects_walk ltac:(fail). Qed.

Lemma respects_add_label : respects Fields add_label.
Proof. unfold add_label. respects_walk ltac:(fail). Qed.

Lemma respects_pass_action (n : Z) (bytes : list Z) (flag : bool) :
  respects Fields (pass_action n bytes flag).
Proof. unfold pass_action. respects_walk ltac:(apply respects_add_label). Qed.

Lemma respects_push_back (b : Z) : respects Fields (push_back b).
Proof. unfold push_back. respects_walk ltac:(fail). Qed.

Ltac respects_leaf :=
  first [ apply respects_pass_action | apply respects_push_back
        | apply respects_evaluate_expression | apply respects_check_operands
        | apply respects_register_offset8 | apply respects_register_offset16
        | apply respects_evaluate_conditional | apply respects_get_number ].

Lemma respects_immediate_operand (t : ImmediateType) :
  respects Fields (immediate_operand t).
Proof. unfold immediate_operand. respects_walk respects_leaf. Qed.

Lemma respects_address16 (operand : string) : respects Fields (address16 operand).
Proof. unfold address16. respects_walk respects_leaf. Qed.

Lemma respects_flagged_loop {A} (body : bool -> A -> M unit) (flag : bool) (l : list A) :
  (forall f x, respects Fields (body f x)) ->
  respects Fields (Mnemonic.flagged_loop body flag l).
Proof.
  intros Hb. revert flag. induction l as [|x l IH]; intros flag; cbn.
  - apply respects_pure.
  - apply (respects_bind Fields Fields Fields); [apply Hb | intros _; apply IH].
Qed.

Lemma respects_db_byte (flag : bool) (s : string) :
  respects Fields (Mnemonic.db_byte flag s).
Proof. unfold Mnemonic.db_byte. respects_walk respects_leaf. Qed.

Lemma respects_db_argument (flag : bool) (arg : string) :
  respects Fields (Mnemonic.db_argument flag arg).
Proof.
  unfold Mnemonic.db_argument.
  respects_walk ltac:(first [ apply respects_flagged_loop; apply respects_db_byte
                            | respects_leaf ]).
Qed.

Lemma respects_db : respects Fields Mnemonic.db.
Proof.
  unfold Mnemonic.db.
  respects_walk ltac:(first [ apply respects_flagged_loop; apply respects_db_argument
                            | respects_leaf ]).
Qed.

Ltac respects_handler :=
  cbn [snd fst];
  first [ exact respects_db
        | match goal with |- respects _ ?h => unfold h end;
          solve [respects_walk ltac:(first [ apply respects_immediate_operand
                                           | apply respects_address16
                                           | respects_leaf ])] ].

Lemma handlers_respect :
  Forall (fun entry => respects Fields (snd entry)) mnemonic_handlers.
Proof.
  unfold mnemonic_handlers. repeat (constructor; [respects_handler|]). constructor.
Qed.

Lemma respects_parse (line : string) : respects_to Lines Fields (parse line).
Proof. unfold parse. respects_walk ltac:(fail). Qed.

Lemma respects_process_instruction : respects Fields process_instruction.
Proof.
  unfold process_instruction.
  apply respects_get_bind; [intros a | indep].
  destruct (Str.empty (mnemonic a) && Str.empty (label a)); [apply respects_pure|].
  destruct (lookup_handler mnemonic_handlers (mnemonic a)) as [h|] eqn:Hh.
  - eapply (lookup_handler_Forall (respects Fields)); [apply handlers_respect | exact Hh].
  - respects_walk respects_leaf.
Qed.

(** A parsed and processed line: the fields that [parse] sets are not
    looked at before. *)
Lemma respects_parse_then (line : string) :
  respects Lines (parse line ;; process_instruction).
Proof.
  apply (respects_weaken Lines Fields Lines Lines);
    [trivial | intros ? ?; apply (alike_weaken Fields Lines); exact I |].
  apply (respects_bind Lines Fields Fields);
    [apply respects_parse | intros _; apply respects_process_instruction].
Qed.

Lemma respects_substitute_all (v : view) pairs body_line :
  respects v (substitute_all pairs body_line).
Proof.
  revert body_line. induction pairs as [|[x y] pairs IH]; intros body_line; cbn.
  - apply respects_pure.
  - apply (respects_bind v v v); [|intros s; apply IH].
    unfold substitute. destruct (replace_loop _ _ _ _ _);
      [apply respects_pure | apply respects_fail].
Qed.

Lemma respects_expand_and_process_line (depth : nat) (line : string) (n : Z) :
  respects Lines (expand_and_process_line depth line n).
Proof.
  revert line. induction depth as [|depth IH]; intros line; cbn.
  - apply respects_fail.
  - respects_walk_with
      ltac:(idtac; lazymatch goal with
            | |- respects _ (bind (parse _) _) => apply respects_parse_then
            | |- respects_to _ _ (bind (parse _) _) => apply respects_parse_then
            end)
      ltac:(first [ apply respects_substitute_all | apply IH
                  | apply respects_evaluate_conditional ]).
Qed.

Lemma respects_do_pass_loop (depth : nat) (lines : list string) (i : Z)
    (in_macro_def : bool) :
  respects Lines (do_pass_loop depth lines i in_macro_def).
Proof.
  revert i in_macro_def. induction lines as [|l lines IH]; intros i in_macro_def; cbn.
  - respects_walk ltac:(fail).
  - respects_walk ltac:(first [apply IH | apply respects_expand_and_process_line]).
Qed.

Lemma respects_do_pass (depth : nat) (lines : list string) :
  respects_to Start Lines (do_pass depth lines).
Proof.
  unfold do_pass.
  apply (respects_bind Start Lines Lines); [apply respects_modify; alike_step | intros _].
  respects_walk ltac:(apply respects_do_pass_loop).
Qed.

Lemma respects_preprocess_macros_loop (lines : list string) (i : Z) (in_def : bool)
    (cur : Macro) :
  respects Start (preprocess_macros_loop lines i in_def cur).
Proof.
  revert i in_def cur. induction lines as [|l lines IH]; intros i in_def cur; cbn.
  - apply respects_pure.
  - respects_walk ltac:(apply IH).
Qed.

Lemma respects_preprocess_macros (lines : list string) :
  respects Start (preprocess_macros lines).
Proof.
  unfold preprocess_macros.
  respects_walk ltac:(apply respects_preprocess_macros_loop).
Qed.

Lemma respects_passes (depth : nat) (lines : list string) :
  respects_to Start Lines
    (preprocess_macros lines ;;
     modify (set_source_pass 1) ;;
     do_pass depth lines ;;
     modify (set_source_pass 2) ;;
     modify (set_address 0) ;;
     modify (set_output []) ;;
     modify (set_assembly_finished false) ;;
     modify (set_macro_expansion_counter 0) ;;
     do_pass depth lines).
Proof.
  apply (respects_bind Start Start Lines); [apply respects_preprocess_macros | intros _].
  apply (respects_bind Start Start Lines); [apply respects_modify; alike_step | intros _].
  apply (respects_bind Start Lines Lines); [apply respects_do_pass | intros _].
  respects_walk ltac:(apply (respects_weaken Start Lines Lines Lines);
                        [ intros ? ?; apply (alike_weaken Lines Start); exact I
                        | trivial | apply respects_do_pass ]).
Qed.

(** X30: the result of an assembly depends on the source lines only, not on
    what the assembler was used for before: from any two states,
    [assemble] fails with the same error, or returns with the same
    output buffer, symbol table, macro table and location counter.
    Only the cross-reference store keeps what it held (and the fields
    of the last parsed line, when no line was parsed). *)
Theorem an_assembly_depends_on_the_lines_only
    (depth : nat) (lines : list string) (a b : Assembler) :
  match assemble depth lines a, assemble depth lines b with
  | Ok (_, a'), Ok (_, b') =>
      output a' = output b' /\ symbol_table a' = symbol_table b'
      /\ macros a' = macros b' /\ address a' = address b'
      /\ if_stack a' = if_stack b'
  | Fail e, Fail f => e = f
  | _, _ => False
  end.
Proof.
  assert (H : same_outcome Lines (assemble depth lines a) (assemble depth lines b)).
  { unfold assemble, bind at 1, modify at 1.
    unfold bind at 2, modify at 2.
    apply respects_passes. destruct a, b. reflexivity. }
  destruct (assemble depth lines a) as [[u a']|e], (assemble depth lines b) as [[w b']|f];
    cbn in H; try contradiction; [|exact H].
  destruct H as [_ H]. destruct a', b'. unfold alike in H. state_fields.
  injection H. intros; subst. repeat split.
Qed.
